(** * A shallow embedding of the regex engine of [src/regex.cpp]

    The pipeline has three stages: the recursive-descent [Parser] that
    fills a [ParseTree] arena, the [NFACompiler] that lowers the arena to
    an [NFA] by Thompson's construction, and the [NFAEngine] that steps
    the automaton over a subject string.

    Conventions of the embedding:
    - [char], [int] and [uint32_t] values are integers of [Z]; every
      conversion of a [size_t] to [uint32_t] and every [uint32_t]
      increment is wrapped with [wrap32];
    - a [std::vector] is a [list], indexed by a [Z];
    - a C string is the list of its characters; the terminating NUL is
      read when the list is exhausted;
    - a computation returns a [res]: a value, an out-of-range access
      (undefined behaviour in C++), or an exhausted recursion budget.

    The file has the model first (parser, NFA, compiler, engine), then
    the vocabulary of the properties, then the lemmas stage by stage:
    what the descent consumes and that it returns, that it never looks
    behind a [$], that operands precede their nodes, the fragments the
    compiler leaves, what a run of the engine changes and reads, and the
    epsilon cycles on which it does not return.  The claims C1 to C10
    about the program follow.  After them come the lemmas of the
    further properties: what the parser accounts for and prints back,
    the trees of the arena, the machine as Thompson's construction, the
    paths the engine explores, the language of the machine, and the
    closures on which the engine returns or does not; the properties X1
    to X19 themselves are at the end. *)

From Stdlib Require Import String Ascii ZArith List Lia Bool.
Import ListNotations.
Local Open Scope Z_scope.

(* ================================================================= *)
(** ** Outcomes *)

(** [Ok a]: the call returns [a].  [Fault]: the call reads or writes an
    element that a vector does not have, which is undefined behaviour.
    [OutOfFuel]: the recursion budget given to the embedding is used up
    before the call returns. *)
Inductive res (A : Type) : Type :=
| Ok (a : A)
| Fault
| OutOfFuel.

Arguments Ok {A} a.
Arguments Fault {A}.
Arguments OutOfFuel {A}.

Definition bind {A B : Type} (m : res A) (k : A -> res B) : res B :=
  match m with
  | Ok a => k a
  | Fault => Fault
  | OutOfFuel => OutOfFuel
  end.

Notation "x <- e ;; k" := (bind e (fun x => k))
  (at level 61, e at next level, right associativity).
Notation "' pat <- e ;; k" := (bind e (fun x => let 'pat := x in k))
  (at level 61, pat pattern, e at next level, right associativity).

(* ================================================================= *)
(** ** Machine integers and vectors *)

Definition wrap32 (z : Z) : Z := z mod 4294967296.

(** [v.size()] stored in a [uint32_t]. *)
Definition size32 {A : Type} (v : list A) : Z := wrap32 (Z.of_nat (length v)).

(** [v.size() - 1] stored in a [uint32_t]. *)
Definition last32 {A : Type} (v : list A) : Z :=
  wrap32 (Z.of_nat (length v) - 1).

(** [v[i]]; [None] when [i] is out of range. *)
Fixpoint index {A : Type} (v : list A) (i : Z) : option A :=
  match v with
  | [] => None
  | x :: v' => if i =? 0 then Some x else index v' (i - 1)
  end.

(** [v[i] = f (v[i])]; [None] when [i] is out of range. *)
Fixpoint modify {A : Type} (f : A -> A) (v : list A) (i : Z) : option (list A) :=
  match v with
  | [] => None
  | x :: v' =>
      if i =? 0 then Some (f x :: v')
      else match modify f v' (i - 1) with
           | Some w => Some (x :: w)
           | None => None
           end
  end.

Definition of_option {A : Type} (o : option A) : res A :=
  match o with
  | Some a => Ok a
  | None => Fault
  end.

(* ================================================================= *)
(** ** Characters *)

(** The value a [char] has once promoted to [int].  The patterns and
    subjects written out in this development are ASCII, where it is the
    same whether [char] is signed or not. *)
Definition char_of_ascii (a : ascii) : Z := Z.of_N (N_of_ascii a).

Fixpoint chars (s : string) : list Z :=
  match s with
  | EmptyString => []
  | String a s' => char_of_ascii a :: chars s'
  end.

Definition CARET : Z := Eval cbv in char_of_ascii "^".
Definition DOLLAR : Z := Eval cbv in char_of_ascii "$".
Definition BAR : Z := Eval cbv in char_of_ascii "|".
Definition QUESTION : Z := Eval cbv in char_of_ascii "?".
Definition STAR : Z := Eval cbv in char_of_ascii "*".
Definition PLUS : Z := Eval cbv in char_of_ascii "+".
Definition LPAREN : Z := Eval cbv in char_of_ascii "(".
Definition RPAREN : Z := Eval cbv in char_of_ascii ")".
Definition UNDERSCORE : Z := Eval cbv in char_of_ascii "_".

(** The classification functions of the C library in the C locale; a
    value outside the ASCII letters and digits is neither. *)
Definition isupper (c : Z) : bool := (65 <=? c) && (c <=? 90).
Definition islower (c : Z) : bool := (97 <=? c) && (c <=? 122).
Definition isalpha (c : Z) : bool := isupper c || islower c.
Definition isdigit (c : Z) : bool := (48 <=? c) && (c <=? 57).
Definition tolower (c : Z) : Z := if isupper c then c + 32 else c.

(* ================================================================= *)
(** ** Parse tree *)

(** A [Node] is its [kind] and the members of the union that the kind
    uses: two operand indices, one operand index, or the character. *)
Inductive Node : Type :=
| ALTERNATION (first second : Z)
| CONCATENATION (first second : Z)
| REPETITION (first : Z)
| OPTIONAL_REPETITION (first : Z)
| OPTIONAL (first : Z)
| ATOM (atom : Z).

Definition BEGIN_ANCHORED : Z := 1.
Definition END_ANCHORED : Z := 2.

Record ParseTree : Type := mkParseTree {
  flags : Z;
  nodes : list Node
}.

(* ================================================================= *)
(** ** Parser *)

(** [pointer] is the text from the pointer on.  The member [nodes] is a
    reference to [parse_tree->nodes] and has no field of its own. *)
Record Parser : Type := mkParser {
  pointer : list Z;
  parse_tree : ParseTree
}.

(** [*pointer] *)
Definition peek (p : Parser) : Z :=
  match pointer p with
  | [] => 0
  | c :: _ => c
  end.

(** [++pointer] *)
Definition advance (p : Parser) : Parser :=
  mkParser (tl (pointer p)) (parse_tree p).

(** [nodes.emplace_back()] followed by the assignments to the new node *)
Definition emplace_back (n : Node) (p : Parser) : Parser :=
  mkParser (pointer p)
           (mkParseTree (flags (parse_tree p)) (nodes (parse_tree p) ++ [n])).

(** [parse_tree->flags |= f] *)
Definition set_flag (f : Z) (p : Parser) : Parser :=
  mkParser (pointer p)
           (mkParseTree (Z.lor (flags (parse_tree p)) f) (nodes (parse_tree p))).

(** [nodes.size() - 1] as a [uint32_t] *)
Definition last_node (p : Parser) : Z := last32 (nodes (parse_tree p)).

Definition is_unit_char (c : Z) : bool :=
  isalpha (tolower c) || isdigit c || (c =? UNDERSCORE).

Section Descent.

(** The recursive call [parse()] made by [parse_group]. *)
Variable parse : Parser -> res (bool * Parser).

Definition parse_group (p : Parser) : res (bool * Parser) :=
  if negb (peek p =? LPAREN) then Ok (false, p) else
  let p := advance p in
  '(ok, p) <- parse p ;;
  if negb ok then Ok (false, p) else
  if negb (peek p =? RPAREN) then Ok (false, p) else
  Ok (true, advance p).

Definition parse_unit (p : Parser) : res (bool * Parser) :=
  if is_unit_char (peek p) then
    Ok (true, advance (emplace_back (ATOM (peek p)) p))
  else if peek p =? LPAREN then
    '(ok, p) <- parse_group p ;;
    if negb ok then Ok (false, p) else Ok (true, p)
  else Ok (false, p).

Definition parse_quantifier (p : Parser) : res (bool * Parser) :=
  '(ok, p) <- parse_unit p ;;
  if negb ok then Ok (false, p) else
  let first := last_node p in
  if peek p =? QUESTION then
    Ok (true, emplace_back (OPTIONAL first) (advance p))
  else if peek p =? STAR then
    Ok (true, emplace_back (OPTIONAL_REPETITION first) (advance p))
  else if peek p =? PLUS then
    Ok (true, emplace_back (REPETITION first) (advance p))
  else Ok (true, p).

(** [while (parse_quantifier()) { ... }], for [k] turns at most.  The
    caller gives one turn per character left and one more; a turn that
    goes on has moved the pointer, so the budget is never used up. *)
Fixpoint concatenation_loop (k : nat) (first : Z) (p : Parser)
  : res (bool * Parser) :=
  match k with
  | O => OutOfFuel
  | S k' =>
      '(ok, p) <- parse_quantifier p ;;
      if ok then
        let second := last_node p in
        let p := emplace_back (CONCATENATION first second) p in
        concatenation_loop k' (last_node p) p
      else Ok (true, p)
  end.

Definition parse_concatenation (p : Parser) : res (bool * Parser) :=
  '(ok, p) <- parse_quantifier p ;;
  if negb ok then Ok (false, p) else
  concatenation_loop (S (length (pointer p))) (last_node p) p.

(** The loop of [parse_alternation] on a [|] at the pointer, for [k]
    turns at most. *)
Fixpoint alternation_loop (k : nat) (first : Z) (p : Parser)
  : res (bool * Parser) :=
  match k with
  | O => OutOfFuel
  | S k' =>
      if peek p =? BAR then
        let p := advance p in
        '(ok, p) <- parse_concatenation p ;;
        if negb ok then Ok (false, p) else
        let second := last_node p in
        let p := emplace_back (ALTERNATION first second) p in
        alternation_loop k' (last_node p) p
      else Ok (true, p)
  end.

Definition parse_alternation (p : Parser) : res (bool * Parser) :=
  '(ok, p) <- parse_concatenation p ;;
  if negb ok then Ok (false, p) else
  alternation_loop (S (length (pointer p))) (last_node p) p.

End Descent.

(** [parse()]: the descent, with [depth] bounding the nesting of groups. *)
Fixpoint parse (depth : nat) (p : Parser) : res (bool * Parser) :=
  match depth with
  | O => OutOfFuel
  | S d => parse_alternation (parse d) p
  end.

(** The loop of [build_parse_tree], run until the pointer is at the NUL,
    for [k] turns at most. *)
Fixpoint build_loop (k : nat) (depth : nat) (p : Parser)
  : res (bool * Parser) :=
  match k with
  | O => OutOfFuel
  | S k' =>
      if peek p =? 0 then Ok (true, p) else
      if peek p =? DOLLAR then Ok (true, set_flag END_ANCHORED (advance p)) else
      '(ok, p) <- parse depth p ;;
      if negb ok then Ok (false, p) else build_loop k' depth p
  end.

(** The budgets are one more than the number of characters left: every
    group opened and every turn of a loop that goes on moves the pointer. *)
Definition build_parse_tree (p : Parser) : res (bool * Parser) :=
  let p := if peek p =? CARET then advance (set_flag BEGIN_ANCHORED p) else p in
  build_loop (S (length (pointer p))) (S (length (pointer p))) p.

(** [ParseTree tree; Parser parser(regex, &tree); parser.build_parse_tree()] *)
Definition parse_pattern (text : list Z) : res (bool * ParseTree) :=
  '(ok, p) <- build_parse_tree (mkParser text (mkParseTree 0 [])) ;;
  Ok (ok, parse_tree p).

(* ================================================================= *)
(** ** NFA *)

Module NFA.

(** [symbol < 256] is a character, [symbol == -1] the empty transition. *)
Definition EPSILON : Z := -1.

Record Transition : Type := mkTransition {
  symbol : Z;
  futures : list Z
}.

Definition ACCEPTING : Z := 1.

(** The [id] member, drawn from the process-wide counter [g_id], is
    read by [debug_print_states] only and is left out. *)
Record State : Type := mkState {
  last_exec : Z;
  flags : Z;
  transitions : list Transition
}.

(** A state as [states.emplace_back()] creates it. *)
Definition fresh : State := mkState 0 0 [].

Fixpoint find (symbol' : Z) (ts : list Transition) : option Transition :=
  match ts with
  | [] => None
  | t :: ts' => if symbol t =? symbol' then Some t else find symbol' ts'
  end.

(** [get(symbol).futures.push_back(dest)] on a transition list: the
    first transition on [symbol] gains [dest]; when there is none, a new
    transition on [symbol] is appended. *)
Fixpoint get_push_back (symbol' dest : Z) (ts : list Transition)
  : list Transition :=
  match ts with
  | [] => [mkTransition symbol' [dest]]
  | t :: ts' =>
      if symbol t =? symbol'
      then mkTransition (symbol t) (futures t ++ [dest]) :: ts'
      else t :: get_push_back symbol' dest ts'
  end.

Record t : Type := mk {
  states : list State;
  start_state : Z
}.

(** [states[s].get(symbol).futures.push_back(dest)] *)
Definition add_future (s symbol' dest : Z) (m : t) : res t :=
  states' <- of_option
    (modify (fun st => mkState (last_exec st) (flags st)
                         (get_push_back symbol' dest (transitions st)))
            (states m) s) ;;
  Ok (mk states' (start_state m)).

(** [states.emplace_back()] *)
Definition emplace_back (st : State) (m : t) : t :=
  mk (states m ++ [st]) (start_state m).

End NFA.

(* ================================================================= *)
(** ** NFA compiler *)

Module NFACompiler.

Record NodeData : Type := mkNodeData {
  start_state : Z;
  accept_state : Z
}.

(** [node_stack] is kept with its back at the head of the list. *)
Record t : Type := mk {
  machine : NFA.t;
  node_stack : list NodeData
}.

(** [node_stack.back()] followed by [node_stack.pop_back()] *)
Definition pop (c : t) : res (NodeData * t) :=
  match node_stack c with
  | [] => Fault
  | d :: rest => Ok (d, mk (machine c) rest)
  end.

Definition push (d : NodeData) (c : t) : t :=
  mk (machine c) (d :: node_stack c).

(** [machine->states.size()] as a [uint32_t] *)
Definition size (c : t) : Z := size32 (NFA.states (machine c)).

Definition new_state (st : NFA.State) (c : t) : t :=
  mk (NFA.emplace_back st (machine c)) (node_stack c).

Definition add_future (s symbol dest : Z) (c : t) : res t :=
  m <- NFA.add_future s symbol dest (machine c) ;;
  Ok (mk m (node_stack c)).

Fixpoint emit_node (fuel : nat) (nodes : list Node) (node : Z) (c : t)
  : res t :=
  match fuel with
  | O => OutOfFuel
  | S fuel' =>
      n <- of_option (index nodes node) ;;
      match n with
      | ALTERNATION first second =>
          c <- emit_node fuel' nodes first c ;;
          c <- emit_node fuel' nodes second c ;;
          '(right_data, c) <- pop c ;;
          '(left_data, c) <- pop c ;;
          let start := size c in
          let c := new_state NFA.fresh c in
          c <- add_future start NFA.EPSILON (start_state left_data) c ;;
          c <- add_future start NFA.EPSILON (start_state right_data) c ;;
          let accept := size c in
          let c := new_state NFA.fresh c in
          c <- add_future (accept_state left_data) NFA.EPSILON accept c ;;
          c <- add_future (accept_state right_data) NFA.EPSILON accept c ;;
          Ok (push (mkNodeData start accept) c)
      | CONCATENATION first second =>
          c <- emit_node fuel' nodes first c ;;
          c <- emit_node fuel' nodes second c ;;
          '(right_data, c) <- pop c ;;
          '(left_data, c) <- pop c ;;
          let start := size c in
          let c := new_state NFA.fresh c in
          c <- add_future start NFA.EPSILON (start_state left_data) c ;;
          let accept := size c in
          let c := new_state NFA.fresh c in
          c <- add_future (accept_state left_data) NFA.EPSILON
                 (start_state right_data) c ;;
          c <- add_future (accept_state right_data) NFA.EPSILON accept c ;;
          Ok (push (mkNodeData start accept) c)
      | REPETITION first =>
          c <- emit_node fuel' nodes first c ;;
          '(data, c) <- pop c ;;
          let start := size c in
          let c := new_state NFA.fresh c in
          let accept := size c in
          let c := new_state NFA.fresh c in
          c <- add_future start NFA.EPSILON (start_state data) c ;;
          c <- add_future (accept_state data) NFA.EPSILON (start_state data) c ;;
          c <- add_future (accept_state data) NFA.EPSILON accept c ;;
          Ok (push (mkNodeData start accept) c)
      | OPTIONAL_REPETITION first =>
          c <- emit_node fuel' nodes first c ;;
          '(data, c) <- pop c ;;
          let start := size c in
          let c := new_state NFA.fresh c in
          let accept := size c in
          let c := new_state NFA.fresh c in
          c <- add_future start NFA.EPSILON (start_state data) c ;;
          c <- add_future start NFA.EPSILON accept c ;;
          c <- add_future (accept_state data) NFA.EPSILON start c ;;
          Ok (push (mkNodeData start accept) c)
      | OPTIONAL first =>
          c <- emit_node fuel' nodes first c ;;
          '(data, c) <- pop c ;;
          let start := size c in
          let c := new_state NFA.fresh c in
          let accept := size c in
          let c := new_state NFA.fresh c in
          c <- add_future start NFA.EPSILON (start_state data) c ;;
          c <- add_future start NFA.EPSILON accept c ;;
          c <- add_future (accept_state data) NFA.EPSILON accept c ;;
          Ok (push (mkNodeData start accept) c)
      | ATOM atom =>
          let start := size c in
          let c := new_state NFA.fresh c in
          let accept := size c in
          let c := new_state NFA.fresh c in
          c <- add_future start atom accept c ;;
          Ok (push (mkNodeData start accept) c)
      end
  end.

(** [for (int i = 0; i < 256; i++) states[s].get(i).futures.push_back(s)],
    with [n] iterations left. *)
Fixpoint scan_loop (n : nat) (i : Z) (s : Z) (c : t) : res t :=
  match n with
  | O => Ok c
  | S n' =>
      c <- add_future s i s c ;;
      scan_loop n' (i + 1) s c
  end.

Definition compile_tree (fuel : nat) (parse_tree : ParseTree) (c : t)
  : res t :=
  c <- emit_node fuel (nodes parse_tree) (last32 (nodes parse_tree)) c ;;
  '(last, c) <- pop c ;;
  '(start, c) <-
    (if Z.land (flags parse_tree) BEGIN_ANCHORED =? 0 then
       let start := size c in
       let c := new_state NFA.fresh c in
       c <- scan_loop 256 0 start c ;;
       c <- add_future start NFA.EPSILON (start_state last) c ;;
       Ok (start, c)
     else Ok (start_state last, c)) ;;
  let c := mk (NFA.mk (NFA.states (machine c)) start) (node_stack c) in
  let accept := size c in
  let c := new_state (NFA.mkState 0 NFA.ACCEPTING []) c in
  if Z.land (flags parse_tree) END_ANCHORED =? 0 then
    add_future (accept_state last) NFA.EPSILON accept c
  else
    add_future (accept_state last) 0 accept c.

(** [NFA machine; NFACompiler compiler; compiler.machine = &machine;
    compiler.compile_tree(&tree)]: a fresh machine and an empty stack.
    The recursion of [emit_node] is given one level per node of the
    arena, and one more. *)
Definition compile (parse_tree : ParseTree) : res NFA.t :=
  c <- compile_tree (S (length (nodes parse_tree))) parse_tree
         (mk (NFA.mk [] 0) []) ;;
  Ok (machine c).

End NFACompiler.

(** [nfa] is what [compile_tree] builds from the tree of a successfully
    parsed [pattern]. *)
Definition compiles_to (pattern : list Z) (nfa : NFA.t) : Prop :=
  exists tree,
    parse_pattern pattern = Ok (true, tree) /\
    NFACompiler.compile tree = Ok nfa.

(* ================================================================= *)
(** ** NFA engine *)

(** What the engine's [ptr] can read: the character at each offset from
    the [text] argument of [execute]. *)
Definition Subject : Type := nat -> Z.

(** A C string in memory: the characters of [text], the terminating NUL,
    then whatever bytes happen to follow the string ([beyond]). *)
Definition c_string (text : list Z) (beyond : nat -> Z) : Subject :=
  fun i =>
    match nth_error text i with
    | Some c => c
    | None => if (i =? length text)%nat then 0
              else beyond (i - length text - 1)%nat
    end.

Module NFAEngine.

(** [cur_states] and [next_states] stand for the vectors ([a] or [b])
    they point to.  [ptr] is the offset of the pointer from the start
    of the subject.  [reads] is a ghost log, newest first, of the
    offsets at which [*ptr] was evaluated; the program has no such
    member. *)
Record t : Type := mk {
  machine : NFA.t;
  counter : Z;
  cur_states : list Z;
  next_states : list Z;
  ptr : nat;
  reads : list nat
}.

(** The loop of [accepting] over [*cur_states]. *)
Fixpoint accepting (m : NFA.t) (cur : list Z) : res bool :=
  match cur with
  | [] => Ok false
  | state :: rest =>
      st <- of_option (index (NFA.states m) state) ;;
      if negb (Z.land (NFA.flags st) NFA.ACCEPTING =? 0) then Ok true
      else accepting m rest
  end.

(** [state.last_exec = counter] on [states[i]] *)
Definition stamp (i : Z) (counter' : Z) (m : NFA.t) : res NFA.t :=
  states' <- of_option
    (modify (fun st => NFA.mkState counter' (NFA.flags st) (NFA.transitions st))
            (NFA.states m) i) ;;
  Ok (NFA.mk states' (NFA.start_state m)).

(** The inner loop of [step] over [t->futures]. *)
Fixpoint visit (counter' : Z) (futures : list Z) (m : NFA.t) (next : list Z)
  : res (NFA.t * list Z) :=
  match futures with
  | [] => Ok (m, next)
  | state_index :: rest =>
      st <- of_option (index (NFA.states m) state_index) ;;
      if negb (NFA.last_exec st =? counter') then
        m <- stamp state_index counter' m ;;
        visit counter' rest m (next ++ [state_index])
      else visit counter' rest m next
  end.

(** The outer loop of [step], from index [i] on. *)
Fixpoint step_loop (fuel : nat) (subject : Subject) (i : Z) (e : t) : res t :=
  match fuel with
  | O => OutOfFuel
  | S fuel' =>
      if i <? Z.of_nat (length (cur_states e)) then
        state_index <- of_option (index (cur_states e) i) ;;
        state <- of_option (index (NFA.states (machine e)) state_index) ;;
        let cur :=
          match NFA.find NFA.EPSILON (NFA.transitions state) with
          | Some t => cur_states e ++ NFA.futures t
          | None => cur_states e
          end in
        let c := subject (ptr e) in
        '(m, next) <-
          match NFA.find c (NFA.transitions state) with
          | Some t => visit (counter e) (NFA.futures t) (machine e) (next_states e)
          | None => Ok (machine e, next_states e)
          end ;;
        step_loop fuel' subject (wrap32 (i + 1))
          (mk m (counter e) cur next (ptr e) (ptr e :: reads e))
      else Ok e
  end.

Definition step (fuel : nat) (subject : Subject) (e : t) : res t :=
  let e := mk (machine e) (wrap32 (counter e + 1)) (cur_states e)
              (next_states e) (ptr e) (reads e) in
  e <- step_loop fuel subject 0 e ;;
  Ok (mk (machine e) (counter e) (cur_states e) (next_states e)
         (S (ptr e)) (reads e)).

(** The [while] loop of [execute]. *)
Fixpoint run (fuel : nat) (subject : Subject) (e : t) : res (bool * t) :=
  match fuel with
  | O => OutOfFuel
  | S fuel' =>
      accepted <- accepting (machine e) (cur_states e) ;;
      if accepted then Ok (true, e) else
      match next_states e with
      | [] => Ok (false, e)
      | _ :: _ =>
          (* std::swap(cur_states, next_states); next_states->resize(0) *)
          let e := mk (machine e) (counter e) (next_states e) []
                      (ptr e) (reads e) in
          e <- step fuel' subject e ;;
          run fuel' subject e
      end
  end.

(** [for (auto &state : machine->states) state.last_exec = 0] *)
Definition clear_stamps (m : NFA.t) : NFA.t :=
  NFA.mk (map (fun st => NFA.mkState 0 (NFA.flags st) (NFA.transitions st))
              (NFA.states m))
         (NFA.start_state m).

Definition execute (fuel : nat) (e : t) (text : Subject) : res (bool * t) :=
  let m := clear_stamps (machine e) in
  run fuel text (mk m 0 [] [NFA.start_state m] 0 []).

(** [NFAEngine engine; engine.machine = &machine]: the other members
    are uninitialised and are all overwritten by [execute]. *)
Definition attach (m : NFA.t) : t := mk m 0 [] [] 0 [].

End NFAEngine.

(** [matches(nfa, text)]: the verdict of [execute] on a fresh engine. *)
Definition matches (fuel : nat) (nfa : NFA.t) (text : Subject) : res bool :=
  '(accepted, _) <- NFAEngine.execute fuel (NFAEngine.attach nfa) text ;;
  Ok accepted.


(* ================================================================= *)
(** ** Vocabulary of the properties *)

(** [matches(nfa, text)] terminates and returns [b]. *)
Definition verdict (nfa : NFA.t) (text : Subject) (b : bool) : Prop :=
  exists fuel, matches fuel nfa text = Ok b.

(** [matches(nfa, text)] never returns: no budget is enough. *)
Definition diverges (nfa : NFA.t) (text : Subject) : Prop :=
  forall fuel, matches fuel nfa text = OutOfFuel.

(** The transitions of state [s] of a machine; none when [s] is no state. *)
Definition transitions_of (m : NFA.t) (s : Z) : list NFA.Transition :=
  match index (NFA.states m) s with
  | Some st => NFA.transitions st
  | None => []
  end.

(** The destinations of the epsilon transition of state [s]. *)
Definition epsilon_futures (m : NFA.t) (s : Z) : list Z :=
  match NFA.find NFA.EPSILON (transitions_of m s) with
  | Some t => NFA.futures t
  | None => []
  end.

(** The operand indices of a node. *)
Definition children (n : Node) : list Z :=
  match n with
  | ALTERNATION first second => [first; second]
  | CONCATENATION first second => [first; second]
  | REPETITION first => [first]
  | OPTIONAL_REPETITION first => [first]
  | OPTIONAL first => [first]
  | ATOM _ => []
  end.

(** [reaches arena i j]: node [j] is node [i] or one of its descendants. *)
Inductive reaches (arena : list Node) : Z -> Z -> Prop :=
| reaches_here : forall i, reaches arena i i
| reaches_child : forall i n k j,
    index arena i = Some n -> In k (children n) -> reaches arena k j ->
    reaches arena i j.

(** The highest-indexed node is the root of the whole arena: every node
    of the arena is that node or one of its descendants. *)
Definition last_is_root (arena : list Node) : Prop :=
  forall j, 0 <= j < Z.of_nat (length arena) ->
            reaches arena (Z.of_nat (length arena) - 1) j.

(** Every operand index of every node is smaller than the node's own. *)
Definition children_precede (arena : list Node) : Prop :=
  forall i n k, index arena i = Some n -> In k (children n) -> 0 <= k < i.

(** A machine with its stamps erased: everything but [last_exec]. *)
Definition shape (m : NFA.t) : NFA.t := NFAEngine.clear_stamps m.

(** [earlier_runs e e']: [e'] is the engine [e] after any number of
    completed calls of [execute], each on a text of its own. *)
Inductive earlier_runs : NFAEngine.t -> NFAEngine.t -> Prop :=
| no_run : forall e, earlier_runs e e
| one_more_run : forall e fuel text b e1 e2,
    NFAEngine.execute fuel e text = Ok (b, e1) ->
    earlier_runs e1 e2 ->
    earlier_runs e e2.

(** Every destination of every transition is a state of the machine. *)
Definition closed (m : NFA.t) : bool :=
  forallb (fun st =>
    forallb (fun t =>
      forallb (fun f => (0 <=? f) && (f <? Z.of_nat (length (NFA.states m))))
              (NFA.futures t))
      (NFA.transitions st))
    (NFA.states m).

(** [trap] is a set of states each of which has an epsilon edge into
    [trap]: from a state of [trap], some epsilon path never ends. *)
Definition epsilon_trap (m : NFA.t) (trap : list Z) : bool :=
  forallb (fun s =>
    existsb (fun f => existsb (Z.eqb f) trap) (epsilon_futures m s))
    trap.

(** The state of the closure loop of [step] from which it cannot come
    back: the machine is [nfa] up to stamps, every entry of the frontier
    is a state, and an entry not yet expanded lies in the trap. *)
Definition trapped (nfa : NFA.t) (trap : list Z) (i : Z) (e : NFAEngine.t)
  : Prop :=
  shape (NFAEngine.machine e) = shape nfa /\
  (forall s, In s (NFAEngine.cur_states e) ->
             0 <= s < Z.of_nat (length (NFA.states nfa))) /\
  0 <= i < Z.of_nat (length (NFAEngine.cur_states e)) /\
  (4294967296 <= Z.of_nat (length (NFAEngine.cur_states e)) \/
   exists j s, i <= j /\ index (NFAEngine.cur_states e) j = Some s /\
               In s trap).

(** *** Machines and engines used as concrete instances *)

(** The automaton of ["^a$"]. *)
Definition nfa_anchored_a : NFA.t :=
  NFA.mk [ NFA.mkState 0 0 [NFA.mkTransition 97 [1]];
           NFA.mkState 0 0 [NFA.mkTransition 0 [2]];
           NFA.mkState 0 1 [] ] 0.

(** The engine on [nfa_anchored_a] after [execute("a")] has returned. *)
Definition engine_after_a : NFAEngine.t :=
  NFAEngine.mk
    (NFA.mk [ NFA.mkState 0 0 [NFA.mkTransition 97 [1]];
              NFA.mkState 1 0 [NFA.mkTransition 0 [2]];
              NFA.mkState 2 1 [] ] 0)
    3 [2] [] 3%nat [2%nat; 1%nat; 0%nat].

(** A subject followed by NUL bytes only. *)
Definition zeros : nat -> Z := fun _ => 0.

(** *** What the parser can consume *)

Definition is_quantifier (c : Z) : bool :=
  (c =? QUESTION) || (c =? STAR) || (c =? PLUS).

(** The characters the descent moves the pointer over. *)
Definition consumable (c : Z) : bool :=
  is_unit_char c || (c =? LPAREN) || (c =? RPAREN) || (c =? BAR)
  || is_quantifier c.

(** The last character of a unit: an atom or a closing parenthesis. *)
Definition unit_end (c : Z) : bool := is_unit_char c || (c =? RPAREN).

(** A stretch of pattern text the descent may have moved over, its first
    character following [prev]: every character is consumable, and a
    quantifier comes directly after the end of a unit. *)
Fixpoint good_from (prev : Z) (s : list Z) : bool :=
  match s with
  | [] => true
  | c :: s' =>
      consumable c && (negb (is_quantifier c) || unit_end prev)
      && good_from c s'
  end.

Definition good (s : list Z) : bool := good_from 0 s.

(** From [p] to [p'] the pointer has moved over a good stretch, the arena
    has only grown and the flags are the same. *)
Definition consumed (p p' : Parser) : Prop :=
  (exists seg, pointer p = seg ++ pointer p' /\ good seg = true) /\
  (exists added, nodes (parse_tree p') = nodes (parse_tree p) ++ added) /\
  flags (parse_tree p') = flags (parse_tree p).

(** The pointer has moved, and the arena has grown. *)
Definition progress (p p' : Parser) : Prop :=
  (length (pointer p') < length (pointer p))%nat /\
  (length (nodes (parse_tree p)) < length (nodes (parse_tree p')))%nat.

(** The last character the pointer has moved over ends a unit. *)
Definition ends_unit (p p' : Parser) : Prop :=
  exists s u, pointer p = s ++ u :: pointer p' /\ unit_end u = true.

(** Wherever a descent started at this text stops, the pointer is at a
    character that is neither the NUL nor a [$]. *)
Definition stuck (text : list Z) : Prop :=
  forall seg rest, text = seg ++ rest -> good seg = true ->
    exists c rest', rest = c :: rest' /\ c <> 0 /\ c <> DOLLAR.

(** No NUL and no [$] among these characters. *)
Definition plain (text : list Z) : Prop :=
  Forall (fun c => c <> 0 /\ c <> DOLLAR) text.

(** The structural operators of the pattern syntax. *)
Definition structural (c : Z) : bool :=
  (c =? LPAREN) || (c =? RPAREN) || (c =? BAR) || (c =? QUESTION)
  || (c =? STAR) || (c =? PLUS) || (c =? CARET) || (c =? DOLLAR).

(** A character of a pattern that is neither an atom nor a structural
    operator. *)
Definition out_of_grammar (c : Z) : bool :=
  negb (is_unit_char c || structural c || (c =? 0)).

(** Two parser states that differ only in the text after the first [$]
    ahead of the pointer. *)
Definition same_upto_dollar (p q : Parser) : Prop :=
  parse_tree p = parse_tree q /\
  exists s r1 r2, pointer p = s ++ DOLLAR :: r1 /\
                  pointer q = s ++ DOLLAR :: r2.

(** *** The body of a pattern and its operands *)

(** The pattern behind its optional leading [^]: the text the loop of
    [build_parse_tree] starts at. *)
Definition after_caret (text : list Z) : list Z :=
  match text with
  | c :: rest => if c =? CARET then rest else text
  | [] => []
  end.

(** The characters before the first NUL or [$]. *)
Fixpoint before_end (s : list Z) : list Z :=
  match s with
  | [] => []
  | c :: s' => if (c =? 0) || (c =? DOLLAR) then [] else c :: before_end s'
  end.

(** The body of a pattern: what stands between the optional leading [^]
    and the end of the pattern, which is the first [$] or the NUL. *)
Definition pattern_body (text : list Z) : list Z :=
  before_end (after_caret text).

(** The last character of an operand: an atom, a closing parenthesis or
    a quantifier. *)
Definition operand_end (c : Z) : bool := unit_end c || is_quantifier c.

(** One character [c] of a body, read after the character [prev] (0 at
    the start) with [depth] groups open: an atom and an opening
    parenthesis may stand anywhere; a closing parenthesis closes an open
    group and follows an operand; a [|] follows an operand; a quantifier
    follows an atom or a closing parenthesis. *)
Definition scan_step (st : Z * nat) (c : Z) : option (Z * nat) :=
  let (prev, depth) := st in
  if is_unit_char c then Some (c, depth)
  else if c =? LPAREN then Some (c, S depth)
  else if c =? RPAREN then
    match depth with
    | S d => if operand_end prev then Some (c, d) else None
    | O => None
    end
  else if c =? BAR then
    if operand_end prev then Some (c, depth) else None
  else if is_quantifier c then
    if unit_end prev then Some (c, depth) else None
  else None.

Fixpoint scan_from (st : Z * nat) (s : list Z) : option (Z * nat) :=
  match s with
  | [] => Some st
  | c :: s' =>
      match scan_step st c with
      | Some st' => scan_from st' s'
      | None => None
      end
  end.

(** The last character of [s] and the number of groups left open, when
    [s] can be read from the start of a body. *)
Definition scan (s : list Z) : option (Z * nat) := scan_from (0, O) s.

(** The number of groups that [s] leaves open when [depth] are open
    before it; [None] when [s] closes a group that is not open. *)
Fixpoint nesting (depth : nat) (s : list Z) : option nat :=
  match s with
  | [] => Some depth
  | c :: s' =>
      if c =? LPAREN then nesting (S depth) s'
      else if c =? RPAREN then
        match depth with
        | S d => nesting d s'
        | O => None
        end
      else nesting depth s'
  end.

(** A stretch of text that closes no group but those it has opened. *)
Definition climbs (seg : list Z) : Prop :=
  forall d, exists d', nesting d seg = Some d' /\ (d <= d')%nat.

(** From [p] to [p'] the pointer has moved over a stretch that has
    neither a NUL nor a [$] and closes no group but those it has opened. *)
Definition moved (p p' : Parser) : Prop :=
  exists seg, pointer p = seg ++ pointer p' /\ plain seg /\ climbs seg.

(** What stands before an empty branch: the start of the body, an
    opening parenthesis or a [|]. *)
Definition branch_opens (c : Z) : bool :=
  (c =? 0) || (c =? LPAREN) || (c =? BAR).

(** What stands behind an empty branch: the end of the body, a closing
    parenthesis or a [|]. *)
Definition branch_closes (c : Z) : bool :=
  (c =? 0) || (c =? RPAREN) || (c =? BAR).

(** The pointer of [p] stands in the text [whole], and what lies before
    it has been read up to [st]. *)
Definition parsed_to (whole : list Z) (p : Parser) (st : Z * nat) : Prop :=
  exists done, whole = done ++ pointer p /\ scan done = Some st.

(** *** The failure that [parse_concatenation] overlooks *)

(** [parse_group] returns [false] on the text [g]; the budget of the
    recursive call is the length of [g], more than the text left behind
    the opening parenthesis. *)
Definition group_fails (g : list Z) : bool :=
  match parse_group (parse (length g)) (mkParser g (mkParseTree 0 [])) with
  | Ok (false, _) => true
  | _ => false
  end.

(** Reading [s] from the state [st], one comes to a group that directly
    follows an operand and on which [parse_group] fails.  There the call
    of [parse_quantifier] in the condition of the loop of
    [parse_concatenation] returns [false] with the pointer moved into the
    group, and the loop takes it for the end of the concatenation. *)
Fixpoint slips_from (st : Z * nat) (s : list Z) : bool :=
  match s with
  | [] => false
  | c :: s' =>
      ((c =? LPAREN) && operand_end (fst st) && group_fails s)
      || match scan_step st c with
         | Some st' => slips_from st' s'
         | None => false
         end
  end.

Definition slips (s : list Z) : bool := slips_from (0, O) s.

(** *** Malformed patterns *)

(** The malformed patterns that [build_parse_tree] rejects.  The first
    five are the classes of the grammar, taken in the body of the
    pattern: a parenthesis closed that is not open, parentheses that do
    not match, a quantifier that does not directly follow an atom or a
    closing parenthesis, a character that is neither an atom nor a
    structural operator, an empty branch of an alternation.  Where a
    parenthesis is left open and for the branches the pattern is one on
    which the overlooked failure does not occur.  The last three are
    rejected even where it does; [anchor] is the optional leading [^]. *)
Inductive malformed : list Z -> Prop :=
| unopened_parenthesis : forall text,
    nesting 0 (pattern_body text) = None ->
    malformed text
| unmatched_parenthesis : forall text,
    nesting 0 (pattern_body text) <> Some O ->
    slips (after_caret text) = false ->
    malformed text
| dangling_quantifier : forall pre q post,
    plain pre -> is_quantifier q = true -> unit_end (last pre 0) = false ->
    malformed (pre ++ q :: post)
| out_of_grammar_char : forall pre c post,
    plain pre -> out_of_grammar c = true -> malformed (pre ++ c :: post)
| empty_branch : forall text pre post,
    pattern_body text = pre ++ BAR :: post ->
    branch_opens (last pre 0) = true \/ branch_closes (hd 0 post) = true ->
    slips (after_caret text) = false ->
    malformed text
| unclosed_first_group : forall anchor body,
    anchor = [] \/ anchor = [CARET] -> ~ In RPAREN body ->
    malformed (anchor ++ LPAREN :: body)
| empty_first_branch : forall anchor post,
    anchor = [] \/ anchor = [CARET] ->
    malformed (anchor ++ BAR :: post)
| empty_branch_after_atoms : forall anchor a atoms post,
    anchor = [] \/ anchor = [CARET] ->
    Forall (fun a => is_unit_char a = true) (a :: atoms) ->
    is_unit_char (hd 0 post) = false -> hd 0 post <> LPAREN ->
    malformed (anchor ++ (a :: atoms) ++ BAR :: post).

(** *** Fragments *)

(** The number of states of the machine under construction. *)
Definition states_count (c : NFACompiler.t) : Z :=
  Z.of_nat (length (NFA.states (NFACompiler.machine c))).

(** [emit_node] has taken [c] to [c'] and left the fragment [d]: [d] is
    pushed on the stack of [c]; its accept state is the last state of the
    machine and has no transition yet; its start state is an earlier
    state; the machine has grown. *)
Definition fragment_of (c c' : NFACompiler.t) (d : NFACompiler.NodeData)
  : Prop :=
  NFACompiler.node_stack c' = d :: NFACompiler.node_stack c /\
  NFACompiler.accept_state d = states_count c' - 1 /\
  index (NFA.states (NFACompiler.machine c')) (NFACompiler.accept_state d)
    = Some NFA.fresh /\
  0 <= NFACompiler.start_state d < NFACompiler.accept_state d /\
  states_count c < states_count c'.

(** *** The starred atom, compiled on its own *)

Definition empty_compiler : NFACompiler.t :=
  NFACompiler.mk (NFA.mk [] 0) [].

(** The arena of ["a*"]. *)
Definition star_a_nodes : list Node := [ATOM 97; OPTIONAL_REPETITION 0].

(** What [emit_node] makes of node 1 of [star_a_nodes]: the atom is the
    fragment (0, 1), the starred node the fragment (2, 3). *)
Definition star_a_compiled : NFACompiler.t :=
  NFACompiler.mk
    (NFA.mk [ NFA.mkState 0 0 [NFA.mkTransition 97 [1]];
              NFA.mkState 0 0 [NFA.mkTransition NFA.EPSILON [2]];
              NFA.mkState 0 0 [NFA.mkTransition NFA.EPSILON [0; 3]];
              NFA.mkState 0 0 [] ] 0)
    [NFACompiler.mkNodeData 2 3].

(** *** The arena under construction *)

(** From [p] to [p'] the arena has only grown, by at least one node when
    [ok] is set; and if the arena of [p'] is small enough for its indices
    to fit a [uint32_t], the operands of its nodes precede them whenever
    this holds of the arena of [p]. *)
Definition arena_step (p p' : Parser) (ok : bool) : Prop :=
  (exists added,
     nodes (parse_tree p') = nodes (parse_tree p) ++ added /\
     (ok = true -> added <> [])) /\
  (Z.of_nat (length (nodes (parse_tree p'))) < 4294967296 ->
   children_precede (nodes (parse_tree p)) ->
   children_precede (nodes (parse_tree p'))).

(** *** The engine between two steps *)

(** [std::swap(cur_states, next_states); next_states->resize(0)] *)
Definition swapped (e : NFAEngine.t) : NFAEngine.t :=
  NFAEngine.mk (NFAEngine.machine e) (NFAEngine.counter e)
    (NFAEngine.next_states e) [] (NFAEngine.ptr e) (NFAEngine.reads e).

(** The engine as [execute] sets it up before its loop. *)
Definition started (nfa : NFA.t) : NFAEngine.t :=
  NFAEngine.mk (NFAEngine.clear_stamps nfa) 0 []
    [NFA.start_state (NFAEngine.clear_stamps nfa)] 0 [].

(** The automaton of ["a|b"]: the atoms are the fragments (0, 1) and
    (2, 3), the alternation is (4, 5), state 6 is the scan state and
    state 7 the accept state. *)
Definition nfa_a_or_b : NFA.t :=
  Eval vm_compute in
    match parse_pattern (chars "a|b") with
    | Ok (_, tree) =>
        match NFACompiler.compile tree with
        | Ok nfa => nfa
        | _ => NFA.mk [] 0
        end
    | _ => NFA.mk [] 0
    end.


(* ================================================================= *)
(** ** Vocabulary of the further properties *)

(** *** What a descent costs *)

(** An atom node holds a letter, a digit or an underscore. *)
Definition atom_ok (n : Node) : bool :=
  match n with
  | ATOM c => is_unit_char c
  | _ => true
  end.

(** The nodes of the arena, and two for every character left. *)
Definition weight (p : Parser) : nat :=
  length (nodes (parse_tree p)) + 2 * length (pointer p).

(** From [p] to [p'] the pointer has only moved forward, the flags are
    the same, the arena has only grown, by atoms that are letters, digits
    or underscores, and by at most two nodes for every character the
    pointer has moved over; one less when [ok] is set. *)
Definition accounted (p p' : Parser) (ok : bool) : Prop :=
  (exists seg, pointer p = seg ++ pointer p') /\
  flags (parse_tree p') = flags (parse_tree p) /\
  (exists added, nodes (parse_tree p') = nodes (parse_tree p) ++ added /\
                 forallb atom_ok added = true) /\
  (weight p' + (if ok then 1 else 0) <= weight p)%nat.

(** *** The expressions of the pattern syntax *)

Inductive regex : Type :=
| RAtom (c : Z)
| RAlt (r1 r2 : regex)
| RCat (r1 r2 : regex)
| RPlus (r : regex)
| RStar (r : regex)
| ROpt (r : regex).

(** The number of operators and atoms of an expression. *)
Fixpoint regex_size (r : regex) : nat :=
  match r with
  | RAtom _ => 1
  | RAlt a b => S (regex_size a + regex_size b)
  | RCat a b => S (regex_size a + regex_size b)
  | RPlus a => S (regex_size a)
  | RStar a => S (regex_size a)
  | ROpt a => S (regex_size a)
  end.

(** Every atom of the expression is a letter, a digit or an underscore. *)
Fixpoint atoms_ok (r : regex) : bool :=
  match r with
  | RAtom c => is_unit_char c
  | RAlt a b => atoms_ok a && atoms_ok b
  | RCat a b => atoms_ok a && atoms_ok b
  | RPlus a => atoms_ok a
  | RStar a => atoms_ok a
  | ROpt a => atoms_ok a
  end.

Definition group (s : list Z) : list Z := LPAREN :: s ++ [RPAREN].

(** The text of an expression at a place that takes an alternation
    (level 0), a concatenation (1), a quantified unit (2) or a unit (3):
    an expression that binds weaker than the place is put in parentheses.
    Both binary operators associate to the left. *)
Fixpoint render (lvl : nat) (r : regex) : list Z :=
  match r with
  | RAtom c => [c]
  | RAlt a b =>
      let s := render 0 a ++ BAR :: render 1 b in
      if (0 <? lvl)%nat then group s else s
  | RCat a b =>
      let s := render 1 a ++ render 2 b in
      if (1 <? lvl)%nat then group s else s
  | RPlus a =>
      let s := render 3 a ++ [PLUS] in
      if (2 <? lvl)%nat then group s else s
  | RStar a =>
      let s := render 3 a ++ [STAR] in
      if (2 <? lvl)%nat then group s else s
  | ROpt a =>
      let s := render 3 a ++ [QUESTION] in
      if (2 <? lvl)%nat then group s else s
  end.

(** The index, as a [uint32_t], of the last node of an arena of [n]
    nodes. *)
Definition root (n : nat) : Z := wrap32 (Z.of_nat n - 1).

(** The nodes of an expression in an arena that holds [base] nodes
    already: the operands first, the left one before the right one, then
    the node itself. *)
Fixpoint layout (base : nat) (r : regex) : list Node :=
  match r with
  | RAtom c => [ATOM c]
  | RAlt a b =>
      let la := layout base a in
      let lb := layout (base + length la) b in
      la ++ lb ++ [ALTERNATION (root (base + length la))
                               (root (base + length la + length lb))]
  | RCat a b =>
      let la := layout base a in
      let lb := layout (base + length la) b in
      la ++ lb ++ [CONCATENATION (root (base + length la))
                                 (root (base + length la + length lb))]
  | RPlus a =>
      let la := layout base a in
      la ++ [REPETITION (root (base + length la))]
  | RStar a =>
      let la := layout base a in
      la ++ [OPTIONAL_REPETITION (root (base + length la))]
  | ROpt a =>
      let la := layout base a in
      la ++ [OPTIONAL (root (base + length la))]
  end.

(** The parser [p] once it has moved over the text of [r], with [rest]
    left to read. *)
Definition parsed (p : Parser) (r : regex) (rest : list Z) : Parser :=
  mkParser rest
    (mkParseTree (flags (parse_tree p))
       (nodes (parse_tree p)
        ++ layout (length (nodes (parse_tree p))) r)).

(** A character at which the loop of [parse_concatenation] stops without
    moving the pointer. *)
Definition cat_stop (c : Z) : bool :=
  negb (is_quantifier c || is_unit_char c || (c =? LPAREN)).

(** What each level of the descent does on the text of [r], [depth]
    bounding the nesting of groups. *)
Definition unit_parsed (depth : nat) (r : regex) : Prop :=
  forall p rest,
    (length (pointer p) <= depth)%nat ->
    pointer p = render 3 r ++ rest ->
    parse_unit (parse depth) p = Ok (true, parsed p r rest).

Definition quantifier_parsed (depth : nat) (r : regex) : Prop :=
  forall p rest,
    (length (pointer p) <= depth)%nat ->
    pointer p = render 2 r ++ rest ->
    is_quantifier (hd 0 rest) = false ->
    parse_quantifier (parse depth) p = Ok (true, parsed p r rest).

(** On the text of a concatenation the first call of [parse_quantifier]
    succeeds, and the loop goes on to where the text of [r] ends. *)
Definition concatenation_parsed (depth : nat) (r : regex) : Prop :=
  forall p rest,
    (length (pointer p) <= depth)%nat ->
    pointer p = render 1 r ++ rest ->
    is_quantifier (hd 0 rest) = false ->
    exists pq,
      parse_quantifier (parse depth) p = Ok (true, pq) /\
      (length (pointer pq) <= length (pointer p))%nat /\
      forall x,
        (exists k, concatenation_loop (parse depth) k
                     (last_node (parsed p r rest)) (parsed p r rest) = Ok x) ->
        exists k, concatenation_loop (parse depth) k (last_node pq) pq = Ok x.

(** On the text of an alternation the first call of
    [parse_concatenation] succeeds, and the loop goes on to where the
    text of [r] ends. *)
Definition alternation_parsed (depth : nat) (r : regex) : Prop :=
  forall p rest,
    (length (pointer p) <= depth)%nat ->
    pointer p = render 0 r ++ rest ->
    cat_stop (hd 0 rest) = true ->
    exists pc,
      parse_concatenation (parse depth) p = Ok (true, pc) /\
      (length (pointer pc) <= length (pointer p))%nat /\
      forall x,
        (exists k, alternation_loop (parse depth) k
                     (last_node (parsed p r rest)) (parsed p r rest) = Ok x) ->
        exists k, alternation_loop (parse depth) k (last_node pc) pc = Ok x.

(** A pattern: an optional [^], the text of an expression, and an
    optional [$] with whatever follows it. *)
Definition pattern_of (b : bool) (r : regex) (e : bool) (junk : list Z)
  : list Z :=
  (if b then [CARET] else []) ++ render 0 r
  ++ (if e then DOLLAR :: junk else []).

Definition anchor_flags (b e : bool) : Z :=
  Z.lor (if b then BEGIN_ANCHORED else 0) (if e then END_ANCHORED else 0).

(** [tree_at arena i r]: read from node [i] down, the arena holds the
    expression [r]. *)
Inductive tree_at (arena : list Node) : Z -> regex -> Prop :=
| tree_atom : forall i c,
    index arena i = Some (ATOM c) -> tree_at arena i (RAtom c)
| tree_alternation : forall i first second a b,
    index arena i = Some (ALTERNATION first second) ->
    tree_at arena first a -> tree_at arena second b ->
    tree_at arena i (RAlt a b)
| tree_concatenation : forall i first second a b,
    index arena i = Some (CONCATENATION first second) ->
    tree_at arena first a -> tree_at arena second b ->
    tree_at arena i (RCat a b)
| tree_repetition : forall i first a,
    index arena i = Some (REPETITION first) ->
    tree_at arena first a -> tree_at arena i (RPlus a)
| tree_optional_repetition : forall i first a,
    index arena i = Some (OPTIONAL_REPETITION first) ->
    tree_at arena first a -> tree_at arena i (RStar a)
| tree_optional : forall i first a,
    index arena i = Some (OPTIONAL first) ->
    tree_at arena first a -> tree_at arena i (ROpt a).

(** From [p] to [p'] the arena has only grown, by at least one node when
    [ok] is set; and if it has grown and is small enough for its indices
    to fit a [uint32_t], its last node is the root of an expression of no
    more nodes than were added. *)
Definition tree_step (p p' : Parser) (ok : bool) : Prop :=
  exists added,
    nodes (parse_tree p') = nodes (parse_tree p) ++ added /\
    (ok = true -> added <> []) /\
    (Z.of_nat (length (nodes (parse_tree p'))) < 4294967296 ->
     added <> [] ->
     exists r,
       tree_at (nodes (parse_tree p'))
               (Z.of_nat (length (nodes (parse_tree p'))) - 1) r /\
       (regex_size r <= length added)%nat).

(** *** Thompson's construction *)

(** A state with one transition, as [get(symbol).futures.push_back]
    leaves a fresh state. *)
Definition sym_state (c dest : Z) : NFA.State :=
  NFA.mkState 0 0 [NFA.mkTransition c [dest]].

Definition eps_state (dests : list Z) : NFA.State :=
  NFA.mkState 0 0 [NFA.mkTransition NFA.EPSILON dests].

(** Twice the number of nodes of [r]: the number of states of its
    fragment. *)
Definition span (r : regex) : Z := 2 * Z.of_nat (regex_size r).

(** The states of the fragment of [r] but the last one, its accept
    state, when the first of them is state [n].  The fragments of the
    operands come first, the left one before the right one, then the
    start state of [r]; the start state of a fragment is the state before
    its accept state.  Between the fragments of the operands stand their
    accept states, with the epsilon edges that [r] gives them. *)
Fixpoint thompson (n : Z) (r : regex) : list NFA.State :=
  match r with
  | RAtom c => [sym_state c (n + 1)]
  | RAlt a b =>
      let na := n + span a in
      let nb := na + span b in
      thompson n a ++ [eps_state [nb + 1]]
      ++ thompson na b ++ [eps_state [nb + 1]]
      ++ [eps_state [na - 2; nb - 2]]
  | RCat a b =>
      let na := n + span a in
      let nb := na + span b in
      thompson n a ++ [eps_state [nb - 2]]
      ++ thompson na b ++ [eps_state [nb + 1]]
      ++ [eps_state [na - 2]]
  | RPlus a =>
      let na := n + span a in
      thompson n a ++ [eps_state [na - 2; na + 1]] ++ [eps_state [na - 2]]
  | RStar a =>
      let na := n + span a in
      thompson n a ++ [eps_state [na]] ++ [eps_state [na - 2; na + 1]]
  | ROpt a =>
      let na := n + span a in
      thompson n a ++ [eps_state [na + 1]] ++ [eps_state [na - 2; na + 1]]
  end.

(** The compiler [c] once [emit_node] has returned from a node that
    reads as [r]: the fragment of [r] after the states there were, and
    its start and accept states on the stack. *)
Definition emitted (c : NFACompiler.t) (r : regex) : NFACompiler.t :=
  let n := states_count c in
  NFACompiler.mk
    (NFA.mk (NFA.states (NFACompiler.machine c) ++ thompson n r ++ [NFA.fresh])
            (NFA.start_state (NFACompiler.machine c)))
    (NFACompiler.mkNodeData (n + span r - 2) (n + span r - 1)
     :: NFACompiler.node_stack c).

(** The nesting of operators in an expression. *)
Fixpoint regex_height (r : regex) : nat :=
  match r with
  | RAtom _ => 1
  | RAlt a b => S (Nat.max (regex_height a) (regex_height b))
  | RCat a b => S (Nat.max (regex_height a) (regex_height b))
  | RPlus a => S (regex_height a)
  | RStar a => S (regex_height a)
  | ROpt a => S (regex_height a)
  end.

(** The compiler with other states. *)
Definition with_states (c : NFACompiler.t) (states : list NFA.State)
  : NFACompiler.t :=
  NFACompiler.mk
    (NFA.mk states (NFA.start_state (NFACompiler.machine c)))
    (NFACompiler.node_stack c).

(** [get(symbol).futures.push_back(dest)] on a state. *)
Definition pushed (symbol dest : Z) (st : NFA.State) : NFA.State :=
  NFA.mkState (NFA.last_exec st) (NFA.flags st)
    (NFA.get_push_back symbol dest (NFA.transitions st)).

(** *** The whole machine *)

(** The transitions of the scan state [s] that [compile_tree] makes for
    a pattern without a [^]: one to [s] itself on every symbol from 0 to
    255, in this order. *)
Definition scan_transitions (s : Z) (count : nat) : list NFA.Transition :=
  map (fun i => NFA.mkTransition (Z.of_nat i) [s]) (seq 0 count).

Definition scan_state (s start : Z) : NFA.State :=
  NFA.mkState 0 0
    (scan_transitions s 256 ++ [NFA.mkTransition NFA.EPSILON [start]]).

Definition accepting_state : NFA.State := NFA.mkState 0 NFA.ACCEPTING [].

(** The accept state of the outermost fragment once it is connected to
    the accepting state: by an epsilon edge, or on the NUL when the
    pattern ends with a [$]. *)
Definition link_state (flags' accept : Z) : NFA.State :=
  if Z.land flags' END_ANCHORED =? 0 then eps_state [accept]
  else sym_state 0 accept.

(** The machine of a tree that reads as [r]: the fragment of [r] from
    state 0 on, then the scan state unless the pattern starts with a
    [^], then the accepting state. *)
Definition assembled (flags' : Z) (r : regex) : NFA.t :=
  let k := span r in
  if Z.land flags' BEGIN_ANCHORED =? 0 then
    NFA.mk (thompson 0 r ++ [link_state flags' (k + 1)]
            ++ [scan_state k (k - 2)] ++ [accepting_state])
           k
  else
    NFA.mk (thompson 0 r ++ [link_state flags' k] ++ [accepting_state])
           (k - 2).

(** The node of an expression itself, after the nodes of its operands. *)
Definition top_node (base : nat) (r : regex) : Node :=
  match r with
  | RAtom c => ATOM c
  | RAlt a b =>
      ALTERNATION (root (base + regex_size a))
                  (root (base + regex_size a + regex_size b))
  | RCat a b =>
      CONCATENATION (root (base + regex_size a))
                    (root (base + regex_size a + regex_size b))
  | RPlus a => REPETITION (root (base + regex_size a))
  | RStar a => OPTIONAL_REPETITION (root (base + regex_size a))
  | ROpt a => OPTIONAL (root (base + regex_size a))
  end.


(** *** Runs of a machine *)

(** Machine [m] has an edge on [symbol] from state [s] to state [s']: the
    transition that [find(symbol)] gives at [s] has [s'] among its
    destinations. *)
Definition edge (m : NFA.t) (s symbol s' : Z) : Prop :=
  exists t,
    NFA.find symbol (transitions_of m s) = Some t /\ In s' (NFA.futures t).

(** [epath E s0 w s]: started in [s0], a machine with the edges [E] can
    be in [s] once it has read the characters [w].  An edge on -1 is
    followed without reading; an edge on the character read is followed
    by reading it, as [step] does with [find] on the character at the
    pointer. *)
Inductive epath (E : Z -> Z -> Z -> Prop) (s0 : Z) : list Z -> Z -> Prop :=
| epath_start : epath E s0 [] s0
| epath_epsilon : forall w s s',
    epath E s0 w s -> E s NFA.EPSILON s' -> epath E s0 w s'
| epath_symbol : forall w s c s',
    epath E s0 w s -> E s c s' -> epath E s0 (w ++ [c]) s'.

(** The paths of the machine [m]. *)
Definition path (m : NFA.t) : Z -> list Z -> Z -> Prop := epath (edge m).

Definition is_accepting (m : NFA.t) (s : Z) : Prop :=
  exists st,
    index (NFA.states m) s = Some st /\
    Z.land (NFA.flags st) NFA.ACCEPTING <> 0.

(** The first [n] characters at the subject. *)
Definition prefix (text : Subject) (n : nat) : list Z := map text (seq 0 n).

(** The machine has a path from its start state to an accepting state
    that reads the first [n] characters at the subject. *)
Definition accepts (m : NFA.t) (text : Subject) (n : nat) : Prop :=
  exists s, path m (NFA.start_state m) (prefix text n) s /\ is_accepting m s.

(** State [s] is entered by reading the [k]th character at the subject;
    for no character read, it is the start state. *)
Definition arrives (m : NFA.t) (text : Subject) (k : nat) (s : Z) : Prop :=
  match k with
  | O => s = NFA.start_state m
  | S n =>
      exists s0,
        path m (NFA.start_state m) (prefix text n) s0 /\
        edge m s0 (text n) s
  end.

(** *** The engine between and inside two steps *)

(** Every entry of a frontier is a state of the machine. *)
Definition in_range (m : NFA.t) (l : list Z) : Prop :=
  forall s, In s l -> 0 <= s < Z.of_nat (length (NFA.states m)).

(** A result that is no fault, and satisfies [P] when the call returns. *)
Definition safe {A : Type} (P : A -> Prop) (r : res A) : Prop :=
  match r with
  | Ok a => P a
  | Fault => False
  | OutOfFuel => True
  end.

(** The engine runs the machine [nfa], up to stamps, and its frontiers
    hold states of [nfa] only. *)
Definition sane (nfa : NFA.t) (e : NFAEngine.t) : Prop :=
  shape (NFAEngine.machine e) = shape nfa /\
  in_range nfa (NFAEngine.cur_states e) /\
  in_range nfa (NFAEngine.next_states e).

(** The stamps while the step numbered [c] fills [next]: no stamp is
    later than [c], the states stamped [c] are those of [next], and none
    of them is in [next] twice. *)
Definition stamped (c : Z) (m : NFA.t) (next : list Z) : Prop :=
  (forall s st, index (NFA.states m) s = Some st ->
     0 <= NFA.last_exec st <= c /\
     (NFA.last_exec st = c -> In s next)) /\
  (forall s, In s next ->
     exists st, index (NFA.states m) s = Some st /\ NFA.last_exec st = c) /\
  NoDup next.

(** Every state that [nfa] can be in after the first [n] characters is
    in the frontier [cur], and every state entered by reading the next
    one is in [next], as far as the entries of [cur] before index [i]
    go. *)
Definition expanded (nfa : NFA.t) (c : Z) (i : Z) (cur next : list Z)
  : Prop :=
  forall j s, 0 <= j < i -> index cur j = Some s ->
    (forall f, edge nfa s NFA.EPSILON f -> In f cur) /\
    (forall f, edge nfa s c f -> In f next).

(** The engine between two steps, [k] characters read: the frontier
    [next] holds the states entered by reading the [k]th character, the
    frontier [cur] the states the machine can be in after the character
    before, and the machine accepts none of the shorter prefixes. *)
Definition explored (nfa : NFA.t) (text : Subject) (e : NFAEngine.t)
  : Prop :=
  let k := NFAEngine.ptr e in
  NFAEngine.counter e = Z.of_nat k /\
  shape (NFAEngine.machine e) = shape nfa /\
  (forall s st, index (NFA.states (NFAEngine.machine e)) s = Some st ->
     0 <= NFA.last_exec st <= Z.of_nat k) /\
  NoDup (NFAEngine.next_states e) /\
  (forall s, arrives nfa text k s <-> In s (NFAEngine.next_states e)) /\
  (forall n s, S n = k ->
     (path nfa (NFA.start_state nfa) (prefix text n) s
      <-> In s (NFAEngine.cur_states e))) /\
  (k = O -> NFAEngine.cur_states e = []) /\
  (forall n, (S n < k)%nat -> ~ accepts nfa text n).

(** The engine inside the step that reads the character at offset [k],
    its closure loop at index [i]: every entry of [cur] is a state the
    machine can be in before that character, every entry of [next] is
    entered by reading it, and the entries before [i] are expanded. *)
Definition stepping (nfa : NFA.t) (text : Subject) (k : nat) (i : Z)
    (e : NFAEngine.t) : Prop :=
  NFAEngine.ptr e = k /\
  NFAEngine.counter e = Z.of_nat (S k) /\
  shape (NFAEngine.machine e) = shape nfa /\
  stamped (Z.of_nat (S k)) (NFAEngine.machine e) (NFAEngine.next_states e) /\
  0 <= i <= Z.of_nat (length (NFAEngine.cur_states e)) /\
  expanded nfa (text k) i (NFAEngine.cur_states e) (NFAEngine.next_states e) /\
  (forall s, In s (NFAEngine.cur_states e) ->
     path nfa (NFA.start_state nfa) (prefix text k) s) /\
  (forall s, In s (NFAEngine.next_states e) -> arrives nfa text (S k) s).

(** *** The language of an expression *)

Inductive lang : regex -> list Z -> Prop :=
| lang_atom : forall c, lang (RAtom c) [c]
| lang_alt_left : forall a b w, lang a w -> lang (RAlt a b) w
| lang_alt_right : forall a b w, lang b w -> lang (RAlt a b) w
| lang_cat : forall a b w1 w2,
    lang a w1 -> lang b w2 -> lang (RCat a b) (w1 ++ w2)
| lang_plus_once : forall a w, lang a w -> lang (RPlus a) w
| lang_plus_more : forall a w1 w2,
    lang (RPlus a) w1 -> lang a w2 -> lang (RPlus a) (w1 ++ w2)
| lang_star_none : forall a, lang (RStar a) []
| lang_star_more : forall a w1 w2,
    lang (RStar a) w1 -> lang a w2 -> lang (RStar a) (w1 ++ w2)
| lang_opt_none : forall a, lang (ROpt a) []
| lang_opt_some : forall a w, lang a w -> lang (ROpt a) w.

(** The edges of the fragment of [r] whose first state is [n], as
    [thompson] lays them out: those of the fragments of the operands,
    and the epsilon edges that [r] adds. *)
Fixpoint fragment_edge (n : Z) (r : regex) (s c s' : Z) : Prop :=
  match r with
  | RAtom a => s = n /\ c = a /\ s' = n + 1
  | RAlt a b =>
      let na := n + span a in
      let nb := na + span b in
      fragment_edge n a s c s' \/ fragment_edge na b s c s' \/
      (c = NFA.EPSILON /\
       ((s = na - 1 /\ s' = nb + 1) \/ (s = nb - 1 /\ s' = nb + 1) \/
        (s = nb /\ (s' = na - 2 \/ s' = nb - 2))))
  | RCat a b =>
      let na := n + span a in
      let nb := na + span b in
      fragment_edge n a s c s' \/ fragment_edge na b s c s' \/
      (c = NFA.EPSILON /\
       ((s = na - 1 /\ s' = nb - 2) \/ (s = nb - 1 /\ s' = nb + 1) \/
        (s = nb /\ s' = na - 2)))
  | RPlus a =>
      let na := n + span a in
      fragment_edge n a s c s' \/
      (c = NFA.EPSILON /\
       ((s = na - 1 /\ (s' = na - 2 \/ s' = na + 1)) \/
        (s = na /\ s' = na - 2)))
  | RStar a =>
      let na := n + span a in
      fragment_edge n a s c s' \/
      (c = NFA.EPSILON /\
       ((s = na - 1 /\ s' = na) \/
        (s = na /\ (s' = na - 2 \/ s' = na + 1))))
  | ROpt a =>
      let na := n + span a in
      fragment_edge n a s c s' \/
      (c = NFA.EPSILON /\
       ((s = na - 1 /\ s' = na + 1) \/
        (s = na /\ (s' = na - 2 \/ s' = na + 1))))
  end.

(** [at_state n r s w]: what the fragment of [r] has read when it is in
    state [s], in terms of the languages of [r] and of its operands. *)
Fixpoint at_state (n : Z) (r : regex) (s : Z) (w : list Z) : Prop :=
  match r with
  | RAtom a => (s = n /\ w = []) \/ (s = n + 1 /\ w = [a])
  | RAlt a b =>
      let na := n + span a in
      let nb := na + span b in
      (s = nb /\ w = []) \/ at_state n a s w \/ at_state na b s w \/
      (s = nb + 1 /\ lang (RAlt a b) w)
  | RCat a b =>
      let na := n + span a in
      let nb := na + span b in
      (s = nb /\ w = []) \/ at_state n a s w \/
      (exists w1 w2, w = w1 ++ w2 /\ lang a w1 /\ at_state na b s w2) \/
      (s = nb + 1 /\ lang (RCat a b) w)
  | RPlus a =>
      let na := n + span a in
      (s = na /\ w = []) \/
      (exists w1 w2, w = w1 ++ w2 /\ (w1 = [] \/ lang (RPlus a) w1) /\
                     at_state n a s w2) \/
      (s = na + 1 /\ lang (RPlus a) w)
  | RStar a =>
      let na := n + span a in
      (s = na /\ lang (RStar a) w) \/
      (exists w1 w2, w = w1 ++ w2 /\ lang (RStar a) w1 /\
                     at_state n a s w2) \/
      (s = na + 1 /\ lang (RStar a) w)
  | ROpt a =>
      let na := n + span a in
      (s = na /\ w = []) \/ at_state n a s w \/
      (s = na + 1 /\ lang (ROpt a) w)
  end.

(** *** The language of a machine *)

(** State [st] has an edge on [symbol] to [s']. *)
Definition state_edge (st : NFA.State) (symbol s' : Z) : Prop :=
  exists t,
    NFA.find symbol (NFA.transitions st) = Some t /\ In s' (NFA.futures t).

(** The anchors of a tree, read off its flags as [compile_tree] does. *)
Definition begins (flags' : Z) : bool :=
  negb (Z.land flags' BEGIN_ANCHORED =? 0).

Definition ends (flags' : Z) : bool :=
  negb (Z.land flags' END_ANCHORED =? 0).

(** The accepting state of the machine of [r]: its last state. *)
Definition final (flags' : Z) (r : regex) : Z :=
  if begins flags' then span r else span r + 1.

(** What the scan state lets pass: the symbols from 0 to 255. *)
Definition scanned (c : Z) : Prop := 0 <= c < 256.

(** What may come before a match: nothing under a begin anchor, and
    otherwise what the scan state lets pass. *)
Definition skipped (flags' : Z) (w : list Z) : Prop :=
  if begins flags' then w = [] else Forall scanned w.

(** What is read from the start of a match to the accepting state: a
    word of [r], and the NUL after it under an end anchor. *)
Definition ended (flags' : Z) (r : regex) (w : list Z) : Prop :=
  if ends flags' then exists w', w = w' ++ [0] /\ lang r w' else lang r w.

(** What the machine of [r] has read when it is in state [s]. *)
Definition at_machine (flags' : Z) (r : regex) (s : Z) (w : list Z)
  : Prop :=
  exists w0 w1,
    w = w0 ++ w1 /\ skipped flags' w0 /\
    ((begins flags' = false /\ s = span r /\ w1 = []) \/
     at_state 0 r s w1 \/
     (s = final flags' r /\ ended flags' r w1)).

(** The characters at the offsets from [i] to [m], the latter left
    out. *)
Definition slice (text : Subject) (i m : nat) : list Z :=
  map text (seq i (m - i)).

(** The characters of the subject from offset [i] to offset [m] are a
    match of the pattern made of [r] and the anchors [b] and [e]: they
    are a word of [r]; under a begin anchor they start the subject, and
    otherwise each character before them is one that the scan state lets
    pass; under an end anchor the NUL follows them. *)
Definition found (b e : bool) (r : regex) (text : Subject) (i m : nat)
  : Prop :=
  (i <= m)%nat /\
  (if b then i = O else forall j, (j < i)%nat -> scanned (text j)) /\
  lang r (slice text i m) /\
  (if e then text m = 0 else True).

(** The number of characters read when the match that ends at offset
    [m] is accepted: under an end anchor the NUL is read too. *)
Definition read_to (e : bool) (m : nat) : nat := if e then S m else m.

(** *** The size of a closure *)

(** The expression has the empty word. *)
Fixpoint nullable (r : regex) : bool :=
  match r with
  | RAtom _ => false
  | RAlt a b => nullable a || nullable b
  | RCat a b => nullable a && nullable b
  | RPlus a => nullable a
  | RStar _ => true
  | ROpt _ => true
  end.

(** No operand of a [+] or of a [*] has the empty word: no epsilon path
    of the fragment comes back to a state. *)
Fixpoint guarded (r : regex) : bool :=
  match r with
  | RAtom _ => true
  | RAlt a b => guarded a && guarded b
  | RCat a b => guarded a && guarded b
  | RPlus a => negb (nullable a) && guarded a
  | RStar a => negb (nullable a) && guarded a
  | ROpt a => guarded a
  end.

(** The destinations of the epsilon transition of a state. *)
Definition eps_of (st : NFA.State) : list Z :=
  match NFA.find NFA.EPSILON (NFA.transitions st) with
  | Some t => NFA.futures t
  | None => []
  end.

(** [pot n r K s]: the number of entries that state [s] of the fragment
    of [r] stands for in the closure loop of [step], which appends the
    epsilon destinations of every entry it meets, met before or not: one
    for [s] itself, and those of its epsilon destinations.  [K] is the
    number for the accept state of the fragment, whose edges are not the
    fragment's own.  Under a [+] or a [*] the start state of the operand
    is counted with a [K] of 1: it leads to no accept state when the
    operand has no empty word. *)
Fixpoint pot (n : Z) (r : regex) (K : nat) (s : Z) : nat :=
  match r with
  | RAtom _ => if s =? n then 1%nat else K
  | RAlt a b =>
      let na := n + span a in
      let nb := na + span b in
      if s <? na then pot n a (1 + K) s
      else if s <? nb then pot na b (1 + K) s
      else if s =? nb
           then (1 + pot n a (1 + K) (na - 2) + pot na b (1 + K) (nb - 2))%nat
           else K
  | RCat a b =>
      let na := n + span a in
      let nb := na + span b in
      let Ka := (1 + pot na b (1 + K) (nb - 2))%nat in
      if s <? na then pot n a Ka s
      else if s <? nb then pot na b (1 + K) s
      else if s =? nb then (1 + pot n a Ka (na - 2))%nat
           else K
  | RPlus a =>
      let na := n + span a in
      let S0 := pot n a 1 (na - 2) in
      if s <? na then pot n a (1 + S0 + K) s
      else if s =? na then (1 + S0)%nat
           else K
  | RStar a =>
      let na := n + span a in
      let S0 := pot n a 1 (na - 2) in
      if s <? na then pot n a (2 + S0 + K) s
      else if s =? na then (1 + S0 + K)%nat
           else K
  | ROpt a =>
      let na := n + span a in
      if s <? na then pot n a (1 + K) s
      else if s =? na then (1 + pot n a (1 + K) (na - 2) + K)%nat
           else K
  end.

(** The same for the states of the whole machine: the accept state of
    the fragment has one edge, to the accepting state, and the scan
    state has an epsilon edge to the start state of the fragment. *)
Definition machine_pot (flags' : Z) (r : regex) (s : Z) : nat :=
  if s <? span r then pot 0 r 2 s
  else if begins flags' then 1%nat
  else if s =? span r then (1 + pot 0 r 2 (span r - 2))%nat
  else 1%nat.

(** A bound on the entries of [cur_states] during a step: as many as
    the machine has states, times the largest number that a state
    stands for. *)
Definition closure_bound (flags' : Z) (r : regex) : nat :=
  let n := length (NFA.states (assembled flags' r)) in
  (n * list_max (map (fun i => machine_pot flags' r (Z.of_nat i)) (seq 0 n)))%nat.

(** *** Epsilon cycles *)

(** For an expression with the empty word: the states of an epsilon
    path from the start state of its fragment to the accept state, the
    accept state left out. *)
Fixpoint route (n : Z) (r : regex) : list Z :=
  match r with
  | RAtom _ => []
  | RAlt a b =>
      let na := n + span a in
      let nb := na + span b in
      nb :: (if nullable a then route n a ++ [na - 1]
             else route na b ++ [nb - 1])
  | RCat a b =>
      let na := n + span a in
      let nb := na + span b in
      nb :: route n a ++ [na - 1] ++ route na b ++ [nb - 1]
  | RPlus a =>
      let na := n + span a in
      na :: route n a ++ [na - 1]
  | RStar a => [n + span a]
  | ROpt a => [n + span a]
  end.

(** Some epsilon path from the start state of the fragment leads into
    an epsilon cycle: into a [+] or a [*] whose operand has the empty
    word. *)
Fixpoint hangs (r : regex) : bool :=
  match r with
  | RAtom _ => false
  | RAlt a b => hangs a || hangs b
  | RCat a b => hangs a || (nullable a && hangs b)
  | RPlus a => nullable a || hangs a
  | RStar a => nullable a || hangs a
  | ROpt a => hangs a
  end.

(** The states of that path and of the cycle. *)
Fixpoint trap_of (n : Z) (r : regex) : list Z :=
  match r with
  | RAtom _ => []
  | RAlt a b =>
      let na := n + span a in
      let nb := na + span b in
      nb :: (if hangs a then trap_of n a else trap_of na b)
  | RCat a b =>
      let na := n + span a in
      let nb := na + span b in
      nb :: (if hangs a then trap_of n a
             else route n a ++ [na - 1] ++ trap_of na b)
  | RPlus a =>
      let na := n + span a in
      na :: (if nullable a then route n a ++ [na - 1] else trap_of n a)
  | RStar a =>
      let na := n + span a in
      na :: (if nullable a then route n a ++ [na - 1] else trap_of n a)
  | ROpt a => (n + span a) :: trap_of n a
  end.

(** The same in the whole machine, from its start state on. *)
Definition machine_trap (flags' : Z) (r : regex) : list Z :=
  (if begins flags' then [] else [span r]) ++ trap_of 0 r.

(* ================================================================= *)
(** ** Outcomes, machine integers, vectors: basic facts *)

Lemma bind_Ok {A B : Type} (m : res A) (k : A -> res B) (b : B) :
  bind m k = Ok b -> exists a, m = Ok a /\ k a = Ok b.
Proof.
  destruct m; simpl; intro H; try discriminate. eauto.
Qed.

Lemma of_option_Ok {A : Type} (o : option A) (a : A) :
  of_option o = Ok a -> o = Some a.
Proof.
  destruct o; simpl; intro H; inversion H; reflexivity.
Qed.

(** Split a hypothesis [bind m k = Ok b] into its two halves. *)
Ltac bind_inv H :=
  let a := fresh "a" in
  let Ha := fresh "Hrun" in
  apply bind_Ok in H; destruct H as (a & Ha & H).

Lemma wrap32_small (z : Z) : 0 <= z < 4294967296 -> wrap32 z = z.
Proof.
  intro H. unfold wrap32. apply Z.mod_small. exact H.
Qed.

Lemma wrap32_range (z : Z) : 0 <= wrap32 z < 4294967296.
Proof.
  unfold wrap32. apply Z.mod_pos_bound. lia.
Qed.

Lemma index_range {A : Type} (v : list A) (i : Z) (x : A) :
  index v i = Some x -> 0 <= i < Z.of_nat (length v).
Proof.
  revert i. induction v as [|y v IH]; simpl; intros i H; [discriminate|].
  destruct (Z.eqb_spec i 0) as [Heq|Hne]; [subst i; lia|].
  apply IH in H. lia.
Qed.

Lemma index_in_range {A : Type} (v : list A) (i : Z) :
  0 <= i < Z.of_nat (length v) -> exists x, index v i = Some x.
Proof.
  revert i. induction v as [|y v IH]; simpl; intros i H; [lia|].
  destruct (Z.eqb_spec i 0) as [Heq|Hne]; [eauto|].
  apply IH. lia.
Qed.

Lemma index_out_of_range {A : Type} (v : list A) (i : Z) :
  ~ (0 <= i < Z.of_nat (length v)) -> index v i = None.
Proof.
  intro H. destruct (index v i) eqn:E; [|reflexivity].
  apply index_range in E. contradiction.
Qed.

Lemma index_In {A : Type} (v : list A) (i : Z) (x : A) :
  index v i = Some x -> In x v.
Proof.
  revert i. induction v as [|y v IH]; simpl; intros i H; [discriminate|].
  destruct (i =? 0); [inversion H; auto|eauto].
Qed.

Lemma index_app_l {A : Type} (v w : list A) (i : Z) :
  i < Z.of_nat (length v) -> index (v ++ w) i = index v i.
Proof.
  revert i. induction v as [|y v IH]; simpl; intros i H.
  - apply index_out_of_range. lia.
  - destruct (Z.eqb_spec i 0); [reflexivity|]. apply IH. lia.
Qed.

Lemma index_app_r {A : Type} (v w : list A) (i : Z) :
  Z.of_nat (length v) <= i ->
  index (v ++ w) i = index w (i - Z.of_nat (length v)).
Proof.
  revert i. induction v as [|y v IH]; intros i H.
  - simpl. f_equal. lia.
  - cbn [app index length] in *.
    destruct (Z.eqb_spec i 0); [lia|].
    rewrite IH by lia. f_equal. lia.
Qed.

Lemma index_map {A B : Type} (g : A -> B) (v : list A) (i : Z) :
  index (map g v) i = option_map g (index v i).
Proof.
  revert i. induction v as [|y v IH]; simpl; intro i; [reflexivity|].
  destruct (i =? 0); [reflexivity|apply IH].
Qed.

Lemma modify_length {A : Type} (f : A -> A) (v v' : list A) (i : Z) :
  modify f v i = Some v' -> length v' = length v.
Proof.
  revert i v'. induction v as [|y v IH]; simpl; intros i v' H; [discriminate|].
  destruct (i =? 0).
  - inversion H; reflexivity.
  - destruct (modify f v (i - 1)) eqn:E; [|discriminate].
    inversion H; subst. simpl. f_equal. eauto.
Qed.

Lemma modify_in_range {A : Type} (f : A -> A) (v : list A) (i : Z) :
  0 <= i < Z.of_nat (length v) -> exists v', modify f v i = Some v'.
Proof.
  revert i. induction v as [|y v IH]; simpl; intros i H; [lia|].
  destruct (Z.eqb_spec i 0); [eauto|].
  destruct (IH (i - 1)) as [w Hw]; [lia|]. rewrite Hw. eauto.
Qed.

Lemma modify_Some_index {A : Type} (f : A -> A) (v v' : list A) (i : Z) :
  modify f v i = Some v' -> exists x, index v i = Some x.
Proof.
  revert i v'. induction v as [|y v IH]; simpl; intros i v' H; [discriminate|].
  destruct (i =? 0); [eauto|].
  destruct (modify f v (i - 1)) eqn:E; [|discriminate]. eauto.
Qed.

Lemma index_modify_same {A : Type} (f : A -> A) (v v' : list A) (i : Z) :
  modify f v i = Some v' -> index v' i = option_map f (index v i).
Proof.
  revert i v'. induction v as [|y v IH]; simpl; intros i v' H; [discriminate|].
  destruct (i =? 0) eqn:E.
  - inversion H; subst. simpl. rewrite E. reflexivity.
  - destruct (modify f v (i - 1)) eqn:E'; [|discriminate].
    inversion H; subst. simpl. rewrite E. eauto.
Qed.

Lemma index_modify_other {A : Type} (f : A -> A) (v v' : list A) (i j : Z) :
  modify f v i = Some v' -> j <> i -> index v' j = index v j.
Proof.
  revert i j v'. induction v as [|y v IH]; simpl; intros i j v' H Hne;
    [discriminate|].
  destruct (Z.eqb_spec i 0).
  - inversion H; subst. simpl. destruct (Z.eqb_spec j 0); [lia|reflexivity].
  - destruct (modify f v (i - 1)) eqn:E'; [|discriminate].
    inversion H; subst. simpl. destruct (j =? 0); [reflexivity|].
    eapply IH; [eassumption|lia].
Qed.

Lemma modify_map {A B : Type} (g : A -> B) (f : A -> A) (v v' : list A) (i : Z) :
  (forall x, g (f x) = g x) ->
  modify f v i = Some v' -> map g v' = map g v.
Proof.
  intro Hg. revert i v'.
  induction v as [|y v IH]; simpl; intros i v' H; [discriminate|].
  destruct (i =? 0).
  - inversion H; subst. simpl. rewrite Hg. reflexivity.
  - destruct (modify f v (i - 1)) eqn:E; [|discriminate].
    inversion H; subst. simpl. f_equal. eauto.
Qed.

Lemma modify_app_l {A : Type} (f : A -> A) (v w v' : list A) (i : Z) :
  modify f v i = Some v' -> modify f (v ++ w) i = Some (v' ++ w).
Proof.
  revert i v'. induction v as [|y v IH]; simpl; intros i v' H; [discriminate|].
  destruct (i =? 0).
  - inversion H; reflexivity.
  - destruct (modify f v (i - 1)) eqn:E; [|discriminate].
    inversion H; subst. erewrite IH by eassumption. reflexivity.
Qed.

(* ================================================================= *)
(** ** The parser: what the descent consumes, and that it returns *)

Lemma good_from_weaken (prev : Z) (s : list Z) :
  good s = true -> good_from prev s = true.
Proof.
  unfold good. destruct s as [|c s]; simpl; [reflexivity|].
  intro H. apply andb_prop in H. destruct H as [H H3].
  apply andb_prop in H. destruct H as [H1 H2].
  rewrite H1, H3. rewrite orb_false_r in H2. rewrite H2. reflexivity.
Qed.

Lemma good_from_app (s1 s2 : list Z) :
  forall prev,
    good_from prev s1 = true -> good s2 = true ->
    good_from prev (s1 ++ s2) = true.
Proof.
  induction s1 as [|c s1 IH]; simpl; intros prev H1 H2.
  - apply good_from_weaken. exact H2.
  - apply andb_prop in H1. destruct H1 as [H1 H3].
    rewrite H1. simpl. apply IH; assumption.
Qed.

Lemma good_app (s1 s2 : list Z) :
  good s1 = true -> good s2 = true -> good (s1 ++ s2) = true.
Proof.
  apply good_from_app.
Qed.

(** A quantifier may follow a stretch that ends with the end of a unit. *)
Lemma good_from_snoc (s : list Z) (u q : Z) :
  forall prev,
    good_from prev (s ++ [u]) = true ->
    unit_end u = true -> is_quantifier q = true ->
    good_from prev (s ++ [u] ++ [q]) = true.
Proof.
  induction s as [|c s IH]; simpl; intros prev H Hu Hq.
  - apply andb_prop in H. destruct H as [H _]. rewrite H. simpl.
    unfold consumable. rewrite Hq, Hu. rewrite !orb_true_r. reflexivity.
  - apply andb_prop in H. destruct H as [H H3]. rewrite H. simpl.
    apply IH; assumption.
Qed.

Lemma peek_cons (p : Parser) :
  peek p <> 0 -> pointer p = peek p :: pointer (advance p).
Proof.
  unfold peek, advance. simpl. destruct (pointer p); simpl; congruence.
Qed.

Lemma advance_length (p : Parser) :
  peek p <> 0 -> length (pointer p) = S (length (pointer (advance p))).
Proof.
  intro H. rewrite (peek_cons p H) at 1. reflexivity.
Qed.

Lemma consumed_refl (p : Parser) : consumed p p.
Proof.
  split; [exists []; split; reflexivity|].
  split; [exists []; rewrite app_nil_r; reflexivity|reflexivity].
Qed.

Lemma consumed_trans (p1 p2 p3 : Parser) :
  consumed p1 p2 -> consumed p2 p3 -> consumed p1 p3.
Proof.
  intros ((s1 & Hs1 & Hg1) & (a1 & Ha1) & Hf1) ((s2 & Hs2 & Hg2) & (a2 & Ha2) & Hf2).
  split; [|split].
  - exists (s1 ++ s2). split; [|apply good_app; assumption].
    rewrite Hs1, Hs2, app_assoc. reflexivity.
  - exists (a1 ++ a2). rewrite Ha2, Ha1, app_assoc. reflexivity.
  - congruence.
Qed.

Lemma consumed_emplace_back (n : Node) (p : Parser) :
  consumed p (emplace_back n p).
Proof.
  split; [exists []; split; reflexivity|].
  split; [exists [n]; reflexivity|reflexivity].
Qed.

(** The pointer steps over a consumable character that is no quantifier. *)
Lemma consumed_advance (p : Parser) :
  peek p <> 0 -> consumable (peek p) = true ->
  is_quantifier (peek p) = false ->
  consumed p (advance p).
Proof.
  intros H0 Hc Hq. split; [|split].
  - exists [peek p]. split; [apply (peek_cons p H0)|].
    unfold good. simpl. rewrite Hc, Hq. reflexivity.
  - exists []. simpl. rewrite app_nil_r. reflexivity.
  - reflexivity.
Qed.

(** The pointer steps over a quantifier that follows a unit. *)
Lemma consumed_quantifier (p p1 : Parser) :
  consumed p p1 -> ends_unit p p1 ->
  is_quantifier (peek p1) = true ->
  consumed p (advance p1).
Proof.
  intros ((seg & Hseg & Hg) & Ha & Hf) (s & u & Hs & Hu) Hq.
  assert (H0 : peek p1 <> 0).
  { intro E. rewrite E in Hq. discriminate. }
  split; [|split; [exact Ha|exact Hf]].
  assert (seg = s ++ [u]).
  { apply (app_inv_tail (pointer p1)). rewrite <- Hseg, Hs, <- app_assoc.
    reflexivity. }
  subst seg. exists (s ++ [u] ++ [peek p1]). split.
  - rewrite Hseg. rewrite (peek_cons p1 H0) at 1.
    rewrite <- !app_assoc. reflexivity.
  - apply good_from_snoc; assumption.
Qed.

Lemma ends_unit_advance (p p1 : Parser) :
  consumed p p1 -> unit_end (peek p1) = true ->
  ends_unit p (advance p1).
Proof.
  intros ((seg & Hseg & _) & _) Hu.
  assert (H0 : peek p1 <> 0).
  { intro E. rewrite E in Hu. discriminate. }
  exists seg, (peek p1). split; [|exact Hu].
  rewrite Hseg. rewrite (peek_cons p1 H0) at 1. reflexivity.
Qed.

Lemma consumed_length (p p' : Parser) :
  consumed p p' ->
  (length (pointer p') <= length (pointer p))%nat /\
  (length (nodes (parse_tree p)) <= length (nodes (parse_tree p')))%nat.
Proof.
  intros ((seg & Hseg & _) & (a & Ha) & _).
  rewrite Hseg, Ha, !length_app. lia.
Qed.

Lemma progress_after (p1 p2 p3 : Parser) :
  consumed p1 p2 -> progress p2 p3 -> progress p1 p3.
Proof.
  intros H12 [H H']. apply consumed_length in H12. unfold progress. lia.
Qed.

Lemma progress_before (p1 p2 p3 : Parser) :
  progress p1 p2 -> consumed p2 p3 -> progress p1 p3.
Proof.
  intros [H H'] H23. apply consumed_length in H23. unfold progress. lia.
Qed.

Lemma is_unit_char_consumable (c : Z) :
  is_unit_char c = true ->
  c <> 0 /\ consumable c = true /\ is_quantifier c = false /\
  unit_end c = true.
Proof.
  intro H. unfold consumable, unit_end. rewrite H. simpl.
  split; [intro E; subst c; discriminate|]. split; [reflexivity|].
  split; [|reflexivity].
  unfold is_quantifier, QUESTION, STAR, PLUS.
  unfold is_unit_char, isalpha, tolower, isupper, islower, isdigit,
    UNDERSCORE in H.
  destruct (Z.eqb_spec c 63) as [E|_]; [subst c; discriminate|].
  destruct (Z.eqb_spec c 42) as [E|_]; [subst c; discriminate|].
  destruct (Z.eqb_spec c 43) as [E|_]; [subst c; discriminate|].
  reflexivity.
Qed.

Lemma progress_quantifier (node : Node) (p p1 : Parser) :
  progress p p1 -> progress p (emplace_back node (advance p1)).
Proof.
  unfold progress. simpl. rewrite length_app. simpl.
  destruct (pointer p1); simpl; lia.
Qed.

Section DescentSpec.

Variable parse : Parser -> res (bool * Parser).
Variable n : nat.

(** What is known of the recursive call: on a text shorter than [n] it
    returns, having consumed a good stretch, and a non-empty one when it
    reports success. *)
Hypothesis parse_spec : forall p,
  (length (pointer p) < n)%nat ->
  exists ok p', parse p = Ok (ok, p') /\ consumed p p' /\
                (ok = true -> progress p p').

Lemma parse_group_spec (p : Parser) :
  (length (pointer p) <= n)%nat ->
  exists ok p', parse_group parse p = Ok (ok, p') /\ consumed p p' /\
                (ok = true -> progress p p' /\ ends_unit p p').
Proof.
  intro Hn. unfold parse_group.
  destruct (Z.eqb_spec (peek p) LPAREN) as [Hl|Hl]; simpl.
  2:{ exists false, p. split; [reflexivity|]. split; [apply consumed_refl|].
      discriminate. }
  assert (H0 : peek p <> 0) by (rewrite Hl; discriminate).
  assert (Hadv : consumed p (advance p)).
  { apply consumed_advance; [exact H0|rewrite Hl; reflexivity..]. }
  pose proof (advance_length p H0) as Hlen.
  destruct (parse_spec (advance p)) as (ok & p1 & Hp & Hc & Hprog); [lia|].
  rewrite Hp. simpl.
  assert (Hc1 : consumed p p1) by (eapply consumed_trans; eassumption).
  destruct ok; simpl.
  2:{ exists false, p1. split; [reflexivity|]. split; [exact Hc1|].
      discriminate. }
  destruct (Z.eqb_spec (peek p1) RPAREN) as [Hr|Hr]; simpl.
  2:{ exists false, p1. split; [reflexivity|]. split; [exact Hc1|].
      discriminate. }
  assert (H1 : peek p1 <> 0) by (rewrite Hr; discriminate).
  assert (Hadv1 : consumed p1 (advance p1)).
  { apply consumed_advance; [exact H1|rewrite Hr; reflexivity..]. }
  exists true, (advance p1). split; [reflexivity|].
  split; [eapply consumed_trans; eassumption|]. intros _. split.
  - eapply progress_before; [|exact Hadv1].
    eapply progress_after; [exact Hadv|]. auto.
  - apply ends_unit_advance; [exact Hc1|]. rewrite Hr. reflexivity.
Qed.

Lemma parse_unit_spec (p : Parser) :
  (length (pointer p) <= n)%nat ->
  exists ok p', parse_unit parse p = Ok (ok, p') /\ consumed p p' /\
                (ok = true -> progress p p' /\ ends_unit p p').
Proof.
  intro Hn. unfold parse_unit.
  destruct (is_unit_char (peek p)) eqn:Hu.
  - destruct (is_unit_char_consumable _ Hu) as (H0 & Hc & Hq & He).
    exists true, (advance (emplace_back (ATOM (peek p)) p)).
    split; [reflexivity|].
    assert (Hadv : consumed (emplace_back (ATOM (peek p)) p)
                            (advance (emplace_back (ATOM (peek p)) p))).
    { apply consumed_advance; assumption. }
    split; [eapply consumed_trans; [apply consumed_emplace_back|exact Hadv]|].
    intros _. split.
    + unfold progress. simpl. rewrite length_app. simpl.
      pose proof (advance_length p H0). simpl in *. lia.
    + exists [], (peek p). split; [apply (peek_cons p H0)|exact He].
  - destruct (peek p =? LPAREN) eqn:Hl.
    + destruct (parse_group_spec p Hn) as (ok & p' & Hg & Hc & Hok).
      rewrite Hg. simpl. exists ok, p'.
      destruct ok; simpl; auto.
    + exists false, p. split; [reflexivity|].
      split; [apply consumed_refl|discriminate].
Qed.

Lemma parse_quantifier_spec (p : Parser) :
  (length (pointer p) <= n)%nat ->
  exists ok p', parse_quantifier parse p = Ok (ok, p') /\ consumed p p' /\
                (ok = true -> progress p p').
Proof.
  intro Hn. unfold parse_quantifier.
  destruct (parse_unit_spec p Hn) as (ok & p1 & Hu & Hc & Hok).
  rewrite Hu. simpl. destruct ok; simpl.
  2:{ exists false, p1. split; [reflexivity|]. split; [exact Hc|discriminate]. }
  destruct (Hok eq_refl) as [Hprog Hend].
  assert (Hq : forall node, is_quantifier (peek p1) = true ->
             consumed p (emplace_back node (advance p1)) /\
             progress p (emplace_back node (advance p1))).
  { intros node Hq. split; [|apply progress_quantifier; exact Hprog].
    eapply consumed_trans; [|apply consumed_emplace_back].
    apply consumed_quantifier; assumption. }
  unfold is_quantifier in Hq.
  destruct (peek p1 =? QUESTION).
  { eexists _, _. split; [reflexivity|]. split; [|intros _]; apply Hq; reflexivity. }
  destruct (peek p1 =? STAR).
  { eexists _, _. split; [reflexivity|]. split; [|intros _]; apply Hq; reflexivity. }
  destruct (peek p1 =? PLUS).
  { eexists _, _. split; [reflexivity|]. split; [|intros _]; apply Hq; reflexivity. }
  exists true, p1. auto.
Qed.

Lemma concatenation_loop_spec (k : nat) :
  forall first p,
    (length (pointer p) < k)%nat -> (length (pointer p) <= n)%nat ->
    exists p', concatenation_loop parse k first p = Ok (true, p') /\
               consumed p p'.
Proof.
  induction k as [|k IH]; intros first p Hk Hn; [lia|].
  simpl.
  destruct (parse_quantifier_spec p Hn) as (ok & p1 & Hq & Hc & Hok).
  rewrite Hq. simpl. destruct ok.
  - destruct (Hok eq_refl) as [Hlen _].
    edestruct (IH (last_node (emplace_back (CONCATENATION first (last_node p1)) p1))
                  (emplace_back (CONCATENATION first (last_node p1)) p1))
      as (p' & Hloop & Hc'); [simpl; lia..|].
    exists p'. split; [exact Hloop|].
    eapply consumed_trans; [exact Hc|].
    eapply consumed_trans; [apply consumed_emplace_back|exact Hc'].
  - exists p1. auto.
Qed.

Lemma parse_concatenation_spec (p : Parser) :
  (length (pointer p) <= n)%nat ->
  exists ok p', parse_concatenation parse p = Ok (ok, p') /\ consumed p p' /\
                (ok = true -> progress p p').
Proof.
  intro Hn. unfold parse_concatenation.
  destruct (parse_quantifier_spec p Hn) as (ok & p1 & Hq & Hc & Hok).
  rewrite Hq. simpl. destruct ok; simpl.
  2:{ exists false, p1. split; [reflexivity|]. split; [exact Hc|discriminate]. }
  specialize (Hok eq_refl).
  destruct (concatenation_loop_spec (S (length (pointer p1))) (last_node p1) p1)
    as (p' & Hloop & Hc'); [lia|destruct Hok; lia|].
  exists true, p'. split; [exact Hloop|].
  split; [eapply consumed_trans; eassumption|].
  intros _. eapply progress_before; eassumption.
Qed.

Lemma alternation_loop_spec (k : nat) :
  forall first p,
    (length (pointer p) < k)%nat -> (length (pointer p) <= n)%nat ->
    exists ok p', alternation_loop parse k first p = Ok (ok, p') /\
                  consumed p p'.
Proof.
  induction k as [|k IH]; intros first p Hk Hn; [lia|].
  simpl.
  destruct (Z.eqb_spec (peek p) BAR) as [Hb|Hb].
  2:{ exists true, p. split; [reflexivity|apply consumed_refl]. }
  assert (H0 : peek p <> 0) by (rewrite Hb; discriminate).
  assert (Hadv : consumed p (advance p)).
  { apply consumed_advance; [exact H0|rewrite Hb; reflexivity..]. }
  pose proof (advance_length p H0) as Hlen.
  destruct (parse_concatenation_spec (advance p)) as (ok & p1 & Hp & Hc & Hok);
    [lia|].
  rewrite Hp. simpl. destruct ok; simpl.
  2:{ exists false, p1. split; [reflexivity|].
      eapply consumed_trans; eassumption. }
  apply consumed_length in Hc.
  edestruct (IH (last_node (emplace_back (ALTERNATION first (last_node p1)) p1))
                (emplace_back (ALTERNATION first (last_node p1)) p1))
    as (ok' & p' & Hloop & Hc'); [simpl; lia..|].
  exists ok', p'. split; [exact Hloop|].
  eapply consumed_trans; [exact Hadv|].
  destruct (parse_concatenation_spec (advance p)) as (ok2 & p2 & Hp2 & Hc2 & _);
    [lia|].
  rewrite Hp in Hp2. inversion Hp2; subst.
  eapply consumed_trans; [exact Hc2|].
  eapply consumed_trans; [apply consumed_emplace_back|exact Hc'].
Qed.

Lemma parse_alternation_spec (p : Parser) :
  (length (pointer p) <= n)%nat ->
  exists ok p', parse_alternation parse p = Ok (ok, p') /\ consumed p p' /\
                (ok = true -> progress p p').
Proof.
  intro Hn. unfold parse_alternation.
  destruct (parse_concatenation_spec p Hn) as (ok & p1 & Hq & Hc & Hok).
  rewrite Hq. simpl. destruct ok; simpl.
  2:{ exists false, p1. split; [reflexivity|]. split; [exact Hc|discriminate]. }
  specialize (Hok eq_refl).
  destruct (alternation_loop_spec (S (length (pointer p1))) (last_node p1) p1)
    as (ok' & p' & Hloop & Hc'); [lia|destruct Hok; lia|].
  exists ok', p'. split; [exact Hloop|].
  split; [eapply consumed_trans; eassumption|].
  intros _. eapply progress_before; eassumption.
Qed.

End DescentSpec.

(** [parse] returns when its depth exceeds the length of the text left. *)
Lemma parse_spec (depth : nat) :
  forall p,
    (length (pointer p) < depth)%nat ->
    exists ok p', parse depth p = Ok (ok, p') /\ consumed p p' /\
                  (ok = true -> progress p p').
Proof.
  induction depth as [|d IH]; intros p Hd; [lia|].
  simpl. apply (parse_alternation_spec (parse d) d IH). lia.
Qed.

(** *** The top-level loop *)

Lemma stuck_consumed (p p' : Parser) :
  stuck (pointer p) -> consumed p p' -> stuck (pointer p').
Proof.
  intros Hs ((seg0 & Hseg0 & Hg0) & _) seg rest Heq Hg.
  apply (Hs (seg0 ++ seg) rest).
  - rewrite Hseg0, Heq, app_assoc. reflexivity.
  - apply good_app; assumption.
Qed.

Lemma stuck_peek (p : Parser) :
  stuck (pointer p) -> peek p <> 0 /\ peek p <> DOLLAR.
Proof.
  intro Hs. destruct (Hs [] (pointer p) eq_refl eq_refl) as (c & r & E & H).
  unfold peek. rewrite E. exact H.
Qed.

(** The loop of [build_parse_tree] returns, and with a failure when the
    text is stuck. *)
Lemma build_loop_spec (k : nat) :
  forall depth p,
    (length (pointer p) < k)%nat -> (length (pointer p) < depth)%nat ->
    exists ok p', build_loop k depth p = Ok (ok, p') /\
                  (stuck (pointer p) -> ok = false).
Proof.
  induction k as [|k IH]; intros depth p Hk Hd; [lia|].
  simpl.
  destruct (Z.eqb_spec (peek p) 0) as [H0|H0].
  { exists true, p. split; [reflexivity|]. intro Hs.
    apply stuck_peek in Hs. tauto. }
  destruct (Z.eqb_spec (peek p) DOLLAR) as [H1|H1].
  { eexists true, _. split; [reflexivity|]. intro Hs.
    apply stuck_peek in Hs. tauto. }
  destruct (parse_spec depth p Hd) as (ok & p1 & Hp & Hc & Hok).
  rewrite Hp. simpl. destruct ok; simpl.
  2:{ exists false, p1. auto. }
  destruct (Hok eq_refl) as [Hlen _].
  destruct (IH depth p1) as (ok' & p' & Hloop & Hs'); [lia..|].
  exists ok', p'. split; [exact Hloop|].
  intro Hs. apply Hs'. eapply stuck_consumed; eassumption.
Qed.

(** [build_parse_tree] returns on every pattern. *)
Lemma parse_pattern_total (text : list Z) :
  exists ok tree, parse_pattern text = Ok (ok, tree).
Proof.
  unfold parse_pattern, build_parse_tree.
  match goal with
  | |- context [build_loop ?k ?d ?p] =>
      destruct (build_loop_spec k d p) as (ok & p' & H & _); [lia..|]
  end.
  rewrite H. simpl. eauto.
Qed.







(* ================================================================= *)
(** ** The parser never looks behind a [$] *)

Lemma sud_peek (p q : Parser) : same_upto_dollar p q -> peek p = peek q.
Proof.
  intros (_ & s & r1 & r2 & Hp & Hq). unfold peek. rewrite Hp, Hq.
  destruct s; reflexivity.
Qed.

Lemma sud_advance (p q : Parser) :
  same_upto_dollar p q -> peek p <> DOLLAR ->
  same_upto_dollar (advance p) (advance q).
Proof.
  intros (Ht & s & r1 & r2 & Hp & Hq) Hd. unfold peek in Hd.
  rewrite Hp in Hd. destruct s as [|c s]; [simpl in Hd; congruence|].
  split; [exact Ht|]. exists s, r1, r2. unfold advance. simpl.
  rewrite Hp, Hq. auto.
Qed.

Lemma sud_emplace_back (n : Node) (p q : Parser) :
  same_upto_dollar p q ->
  same_upto_dollar (emplace_back n p) (emplace_back n q).
Proof.
  intros (Ht & s & r1 & r2 & Hp & Hq). split.
  - unfold emplace_back. simpl. rewrite Ht. reflexivity.
  - exists s, r1, r2. auto.
Qed.

Lemma sud_last_node (p q : Parser) :
  same_upto_dollar p q -> last_node p = last_node q.
Proof.
  intros (Ht & _). unfold last_node. rewrite Ht. reflexivity.
Qed.

(** Two results that agree on the verdict and on the state up to [$]. *)
Ltac same_result H1 H2 :=
  inversion H1; inversion H2; subst; clear H1 H2;
  split; [reflexivity|]; try assumption.

Section SameUptoDollar.

Variables parse1 parse2 : Parser -> res (bool * Parser).

Hypothesis parse_same : forall p q ok1 p' ok2 q',
  same_upto_dollar p q ->
  parse1 p = Ok (ok1, p') -> parse2 q = Ok (ok2, q') ->
  ok1 = ok2 /\ same_upto_dollar p' q'.

Lemma parse_group_same p q ok1 p' ok2 q' :
  same_upto_dollar p q ->
  parse_group parse1 p = Ok (ok1, p') -> parse_group parse2 q = Ok (ok2, q') ->
  ok1 = ok2 /\ same_upto_dollar p' q'.
Proof.
  intros Hs H1 H2. unfold parse_group in H1, H2.
  rewrite <- (sud_peek p q Hs) in H2.
  destruct (Z.eqb_spec (peek p) LPAREN) as [E|E]; simpl in H1, H2;
    [|same_result H1 H2].
  bind_inv H1. bind_inv H2. destruct a as [o1 p1], a0 as [o2 q1].
  destruct (parse_same _ _ _ _ _ _ (sud_advance p q Hs ltac:(rewrite E; discriminate))
              Hrun Hrun0) as [<- Hs1].
  destruct o1; simpl in H1, H2; [|same_result H1 H2].
  rewrite <- (sud_peek p1 q1 Hs1) in H2.
  destruct (Z.eqb_spec (peek p1) RPAREN) as [E1|E1]; simpl in H1, H2;
    [|same_result H1 H2].
  same_result H1 H2. apply sud_advance; [exact Hs1|rewrite E1; discriminate].
Qed.

Lemma parse_unit_same p q ok1 p' ok2 q' :
  same_upto_dollar p q ->
  parse_unit parse1 p = Ok (ok1, p') -> parse_unit parse2 q = Ok (ok2, q') ->
  ok1 = ok2 /\ same_upto_dollar p' q'.
Proof.
  intros Hs H1 H2. unfold parse_unit in H1, H2.
  rewrite <- (sud_peek p q Hs) in H2.
  destruct (is_unit_char (peek p)) eqn:Hu.
  - same_result H1 H2. apply sud_advance; [apply sud_emplace_back; exact Hs|].
    simpl. intro E. change (peek (emplace_back (ATOM (peek p)) p)) with (peek p) in E.
    rewrite E in Hu. discriminate.
  - destruct (peek p =? LPAREN); [|same_result H1 H2].
    bind_inv H1. bind_inv H2. destruct a as [o1 p1], a0 as [o2 q1].
    destruct (parse_group_same _ _ _ _ _ _ Hs Hrun Hrun0) as [<- Hs1].
    destruct o1; simpl in H1, H2; same_result H1 H2.
Qed.

Lemma parse_quantifier_same p q ok1 p' ok2 q' :
  same_upto_dollar p q ->
  parse_quantifier parse1 p = Ok (ok1, p') ->
  parse_quantifier parse2 q = Ok (ok2, q') ->
  ok1 = ok2 /\ same_upto_dollar p' q'.
Proof.
  intros Hs H1 H2. unfold parse_quantifier in H1, H2.
  bind_inv H1. bind_inv H2. destruct a as [o1 p1], a0 as [o2 q1].
  destruct (parse_unit_same _ _ _ _ _ _ Hs Hrun Hrun0) as [<- Hs1].
  destruct o1; simpl in H1, H2; [|same_result H1 H2].
  rewrite <- (sud_peek p1 q1 Hs1), <- (sud_last_node p1 q1 Hs1) in H2.
  destruct (Z.eqb_spec (peek p1) QUESTION) as [E|_].
  { same_result H1 H2. apply sud_emplace_back, sud_advance;
      [exact Hs1|rewrite E; discriminate]. }
  destruct (Z.eqb_spec (peek p1) STAR) as [E|_].
  { same_result H1 H2. apply sud_emplace_back, sud_advance;
      [exact Hs1|rewrite E; discriminate]. }
  destruct (Z.eqb_spec (peek p1) PLUS) as [E|_].
  { same_result H1 H2. apply sud_emplace_back, sud_advance;
      [exact Hs1|rewrite E; discriminate]. }
  same_result H1 H2.
Qed.

Lemma concatenation_loop_same (k1 : nat) :
  forall k2 first p q ok1 p' ok2 q',
    same_upto_dollar p q ->
    concatenation_loop parse1 k1 first p = Ok (ok1, p') ->
    concatenation_loop parse2 k2 first q = Ok (ok2, q') ->
    ok1 = ok2 /\ same_upto_dollar p' q'.
Proof.
  induction k1 as [|k1 IH]; intros k2 first p q ok1 p' ok2 q' Hs H1 H2;
    [discriminate|].
  destruct k2 as [|k2]; [discriminate|]. simpl in H1, H2.
  bind_inv H1. bind_inv H2. destruct a as [o1 p1], a0 as [o2 q1].
  destruct (parse_quantifier_same _ _ _ _ _ _ Hs Hrun Hrun0) as [<- Hs1].
  destruct o1; [|same_result H1 H2].
  rewrite <- (sud_last_node p1 q1 Hs1) in H2.
  pose proof (sud_emplace_back (CONCATENATION first (last_node p1)) _ _ Hs1)
    as Hs2.
  rewrite <- (sud_last_node _ _ Hs2) in H2.
  eapply IH; eassumption.
Qed.

Lemma parse_concatenation_same p q ok1 p' ok2 q' :
  same_upto_dollar p q ->
  parse_concatenation parse1 p = Ok (ok1, p') ->
  parse_concatenation parse2 q = Ok (ok2, q') ->
  ok1 = ok2 /\ same_upto_dollar p' q'.
Proof.
  intros Hs H1 H2. unfold parse_concatenation in H1, H2.
  bind_inv H1. bind_inv H2. destruct a as [o1 p1], a0 as [o2 q1].
  destruct (parse_quantifier_same _ _ _ _ _ _ Hs Hrun Hrun0) as [<- Hs1].
  destruct o1; cbv beta iota delta [negb] in H1, H2; [|same_result H1 H2].
  rewrite <- (sud_last_node p1 q1 Hs1) in H2.
  eapply concatenation_loop_same; eassumption.
Qed.

Lemma alternation_loop_same (k1 : nat) :
  forall k2 first p q ok1 p' ok2 q',
    same_upto_dollar p q ->
    alternation_loop parse1 k1 first p = Ok (ok1, p') ->
    alternation_loop parse2 k2 first q = Ok (ok2, q') ->
    ok1 = ok2 /\ same_upto_dollar p' q'.
Proof.
  induction k1 as [|k1 IH]; intros k2 first p q ok1 p' ok2 q' Hs H1 H2;
    [discriminate|].
  destruct k2 as [|k2]; [discriminate|]. simpl in H1, H2.
  rewrite <- (sud_peek p q Hs) in H2.
  destruct (Z.eqb_spec (peek p) BAR) as [E|_]; [|same_result H1 H2].
  bind_inv H1. bind_inv H2. destruct a as [o1 p1], a0 as [o2 q1].
  destruct (parse_concatenation_same _ _ _ _ _ _
              (sud_advance p q Hs ltac:(rewrite E; discriminate)) Hrun Hrun0)
    as [<- Hs1].
  destruct o1; simpl in H1, H2; [|same_result H1 H2].
  rewrite <- (sud_last_node p1 q1 Hs1) in H2.
  pose proof (sud_emplace_back (ALTERNATION first (last_node p1)) _ _ Hs1)
    as Hs2.
  rewrite <- (sud_last_node _ _ Hs2) in H2.
  eapply IH; eassumption.
Qed.

Lemma parse_alternation_same p q ok1 p' ok2 q' :
  same_upto_dollar p q ->
  parse_alternation parse1 p = Ok (ok1, p') ->
  parse_alternation parse2 q = Ok (ok2, q') ->
  ok1 = ok2 /\ same_upto_dollar p' q'.
Proof.
  intros Hs H1 H2. unfold parse_alternation in H1, H2.
  bind_inv H1. bind_inv H2. destruct a as [o1 p1], a0 as [o2 q1].
  destruct (parse_concatenation_same _ _ _ _ _ _ Hs Hrun Hrun0) as [<- Hs1].
  destruct o1; cbv beta iota delta [negb] in H1, H2; [|same_result H1 H2].
  rewrite <- (sud_last_node p1 q1 Hs1) in H2.
  eapply alternation_loop_same; eassumption.
Qed.

End SameUptoDollar.

Lemma parse_same (d1 : nat) :
  forall d2 p q ok1 p' ok2 q',
    same_upto_dollar p q ->
    parse d1 p = Ok (ok1, p') -> parse d2 q = Ok (ok2, q') ->
    ok1 = ok2 /\ same_upto_dollar p' q'.
Proof.
  induction d1 as [|d1 IH]; intros d2 p q ok1 p' ok2 q' Hs H1 H2;
    [discriminate|].
  destruct d2 as [|d2]; [discriminate|]. simpl in H1, H2.
  eapply (parse_alternation_same (parse d1) (parse d2)); try eassumption.
  intros. eapply IH; eassumption.
Qed.

Lemma build_loop_same (k1 : nat) :
  forall k2 d1 d2 p q ok1 p' ok2 q',
    same_upto_dollar p q ->
    build_loop k1 d1 p = Ok (ok1, p') -> build_loop k2 d2 q = Ok (ok2, q') ->
    ok1 = ok2 /\ parse_tree p' = parse_tree q'.
Proof.
  induction k1 as [|k1 IH]; intros k2 d1 d2 p q ok1 p' ok2 q' Hs H1 H2;
    [discriminate|].
  destruct k2 as [|k2]; [discriminate|]. simpl in H1, H2.
  rewrite <- (sud_peek p q Hs) in H2.
  destruct (Z.eqb_spec (peek p) 0) as [E|_].
  { inversion H1; inversion H2; subst. split; [reflexivity|apply Hs]. }
  destruct (Z.eqb_spec (peek p) DOLLAR) as [E|Hd].
  { inversion H1; inversion H2; subst. split; [reflexivity|].
    unfold set_flag, advance. simpl. destruct Hs as [-> _]. reflexivity. }
  bind_inv H1. bind_inv H2. destruct a as [o1 p1], a0 as [o2 q1].
  destruct (parse_same _ _ _ _ _ _ _ _ Hs Hrun Hrun0) as [<- Hs1].
  destruct o1; simpl in H1, H2.
  - eapply IH; eassumption.
  - inversion H1; inversion H2; subst. split; [reflexivity|apply Hs1].
Qed.

(** What follows the first [$] of a pattern has no effect on the result
    of [build_parse_tree]. *)
Lemma parse_pattern_upto_dollar (pre r1 r2 : list Z) :
  parse_pattern (pre ++ DOLLAR :: r1) = parse_pattern (pre ++ DOLLAR :: r2).
Proof.
  destruct (parse_pattern_total (pre ++ DOLLAR :: r1)) as (ok1 & t1 & H1).
  destruct (parse_pattern_total (pre ++ DOLLAR :: r2)) as (ok2 & t2 & H2).
  rewrite H1, H2.
  unfold parse_pattern, build_parse_tree in H1, H2.
  bind_inv H1. bind_inv H2. destruct a as [o1 p1], a0 as [o2 q1].
  inversion H1; inversion H2; subst. clear H1 H2.
  set (p := mkParser (pre ++ DOLLAR :: r1) (mkParseTree 0 [])) in *.
  set (q := mkParser (pre ++ DOLLAR :: r2) (mkParseTree 0 [])) in *.
  assert (Hs : same_upto_dollar p q).
  { split; [reflexivity|]. exists pre, r1, r2. auto. }
  rewrite <- (sud_peek p q Hs) in Hrun0.
  assert (Hs' : same_upto_dollar
                  (if peek p =? CARET then advance (set_flag BEGIN_ANCHORED p) else p)
                  (if peek p =? CARET then advance (set_flag BEGIN_ANCHORED q) else q)).
  { destruct (Z.eqb_spec (peek p) CARET) as [E|_]; [|exact Hs].
    apply sud_advance.
    - destruct Hs as (Ht & s & x & y & Hp & Hq). split.
      + reflexivity.
      + exists s, x, y. auto.
    - change (peek (set_flag BEGIN_ANCHORED p)) with (peek p).
      rewrite E. discriminate. }
  destruct (build_loop_same _ _ _ _ _ _ _ _ _ _ Hs' Hrun Hrun0) as [-> ->].
  reflexivity.
Qed.

(* ================================================================= *)
(** ** More classes of patterns that are rejected *)






(** *** A run of atoms, a [|], and no branch after it *)


Lemma parse_quantifier_no_unit (parse' : Parser -> res (bool * Parser))
    (p : Parser) :
  is_unit_char (peek p) = false -> peek p <> LPAREN ->
  parse_quantifier parse' p = Ok (false, p).
Proof.
  intros Hu Hl. unfold parse_quantifier, parse_unit.
  apply Z.eqb_neq in Hl. rewrite Hu, Hl. reflexivity.
Qed.




(* ================================================================= *)
(** ** The parser: operands precede their nodes *)

Lemma last32_small {A : Type} (v : list A) :
  v <> [] -> Z.of_nat (length v) <= 4294967296 ->
  last32 v = Z.of_nat (length v) - 1.
Proof.
  intros Hne Hb. unfold last32. apply wrap32_small.
  destruct v; [congruence|]. cbn [length] in *. lia.
Qed.

Lemma arena_step_refl (p : Parser) : arena_step p p false.
Proof.
  split; [exists []; rewrite app_nil_r; split; [reflexivity|discriminate]|].
  auto.
Qed.

Lemma arena_step_weaken (p p' : Parser) (ok : bool) :
  arena_step p p' ok -> arena_step p p' false.
Proof.
  intros ((added & Ha & _) & H). split; [|exact H].
  exists added. split; [exact Ha|discriminate].
Qed.

Lemma arena_step_trans (p1 p2 p3 : Parser) (ok1 ok2 : bool) :
  arena_step p1 p2 ok1 -> arena_step p2 p3 ok2 ->
  arena_step p1 p3 (ok1 || ok2).
Proof.
  intros ((a1 & Ha1 & Hn1) & H1) ((a2 & Ha2 & Hn2) & H2). split.
  - exists (a1 ++ a2). split; [rewrite Ha2, Ha1, app_assoc; reflexivity|].
    intros Hok E. apply app_eq_nil in E. destruct E as [E1 E2].
    apply orb_prop in Hok. destruct Hok as [Hok|Hok]; [apply Hn1|apply Hn2];
      assumption.
  - intros Hb Hc. apply H2; [exact Hb|]. apply H1; [|exact Hc].
    rewrite Ha2, length_app in Hb. lia.
Qed.

Lemma arena_step_advance (p : Parser) : arena_step p (advance p) false.
Proof.
  exact (arena_step_refl p).
Qed.

(** A node whose operands are indices of the arena may be appended. *)
Lemma arena_step_emplace_back (n : Node) (p : Parser) :
  (Z.of_nat (length (nodes (parse_tree p))) + 1 < 4294967296 ->
   forall k, In k (children n) ->
             0 <= k < Z.of_nat (length (nodes (parse_tree p)))) ->
  arena_step p (emplace_back n p) true.
Proof.
  intro Hn. split.
  - exists [n]. split; [reflexivity|discriminate].
  - simpl. rewrite length_app. simpl. intros Hb Hc i n' k Hi Hk.
    destruct (Z.lt_ge_cases i (Z.of_nat (length (nodes (parse_tree p)))))
      as [Hlt|Hge].
    + rewrite index_app_l in Hi by exact Hlt. eapply Hc; eassumption.
    + rewrite index_app_r in Hi by lia. simpl in Hi.
      destruct (Z.eqb_spec (i - Z.of_nat (length (nodes (parse_tree p)))) 0)
        as [E|E]; [|discriminate].
      injection Hi as <-. specialize (Hn ltac:(lia) k Hk). lia.
Qed.

(** After a step that has added a node, the last node is an index. *)
Lemma last_node_index (p p' : Parser) :
  arena_step p p' true ->
  Z.of_nat (length (nodes (parse_tree p'))) <= 4294967296 ->
  0 <= last_node p' < Z.of_nat (length (nodes (parse_tree p'))).
Proof.
  intros ((added & Ha & Hne) & _) Hb. unfold last_node.
  assert (nodes (parse_tree p') <> []).
  { rewrite Ha. intro E. apply app_eq_nil in E. destruct E as [_ E].
    apply Hne; [reflexivity|exact E]. }
  rewrite last32_small by (auto; lia).
  destruct (nodes (parse_tree p')); [congruence|]. cbn [length] in *. lia.
Qed.

Lemma arena_step_length (p p' : Parser) (ok : bool) :
  arena_step p p' ok ->
  (length (nodes (parse_tree p)) <= length (nodes (parse_tree p')))%nat.
Proof.
  intros ((added & Ha & _) & _). rewrite Ha, length_app. lia.
Qed.

Section Arena.

Variable parse : Parser -> res (bool * Parser).

Hypothesis parse_arena : forall p ok p',
  parse p = Ok (ok, p') -> arena_step p p' ok.

Lemma parse_group_arena p ok p' :
  parse_group parse p = Ok (ok, p') -> arena_step p p' ok.
Proof.
  unfold parse_group. intro H.
  destruct (negb (peek p =? LPAREN)).
  { injection H as <- <-. apply arena_step_refl. }
  bind_inv H. destruct a as [ok1 p1]. apply parse_arena in Hrun.
  change (arena_step p p1 ok1) in Hrun.
  destruct ok1; simpl in H.
  2:{ injection H as <- <-. exact Hrun. }
  destruct (negb (peek p1 =? RPAREN)).
  { injection H as <- <-. eapply arena_step_weaken; eassumption. }
  injection H as <- <-. exact Hrun.
Qed.

Lemma parse_unit_arena p ok p' :
  parse_unit parse p = Ok (ok, p') -> arena_step p p' ok.
Proof.
  unfold parse_unit. intro H.
  destruct (is_unit_char (peek p)).
  { injection H as <- <-.
    change (arena_step p (emplace_back (ATOM (peek p)) p) true).
    apply arena_step_emplace_back. intros _ k []. }
  destruct (peek p =? LPAREN).
  - bind_inv H. destruct a as [ok1 p1]. apply parse_group_arena in Hrun.
    destruct ok1; simpl in H; injection H as <- <-; exact Hrun.
  - injection H as <- <-. apply arena_step_refl.
Qed.

Lemma parse_quantifier_arena p ok p' :
  parse_quantifier parse p = Ok (ok, p') -> arena_step p p' ok.
Proof.
  unfold parse_quantifier. intro H.
  bind_inv H. destruct a as [ok1 p1]. apply parse_unit_arena in Hrun.
  destruct ok1; simpl in H.
  2:{ injection H as <- <-. exact Hrun. }
  assert (Hq : forall node,
             children node = [last_node p1] ->
             arena_step p (emplace_back node (advance p1)) true).
  { intros node Hch.
    change true with (true || true).
    eapply arena_step_trans; [exact Hrun|].
    change (arena_step p1 (emplace_back node p1) true).
    apply arena_step_emplace_back. rewrite Hch.
    intros Hb k [<-|[]]. apply (last_node_index p p1 Hrun). lia. }
  destruct (peek p1 =? QUESTION);
    [injection H as <- <-; apply Hq; reflexivity|].
  destruct (peek p1 =? STAR);
    [injection H as <- <-; apply Hq; reflexivity|].
  destruct (peek p1 =? PLUS);
    [injection H as <- <-; apply Hq; reflexivity|].
  injection H as <- <-. exact Hrun.
Qed.

(** One turn of either loop: a binary node over [first] and the last
    node, appended after a step that has added a node. *)
Lemma arena_step_binary (node : Node) (first : Z) (p p1 : Parser) :
  children node = [first; last_node p1] ->
  (Z.of_nat (length (nodes (parse_tree p))) < 4294967296 ->
   0 <= first < Z.of_nat (length (nodes (parse_tree p)))) ->
  arena_step p p1 true ->
  arena_step p (emplace_back node p1) true /\
  (Z.of_nat (length (nodes (parse_tree (emplace_back node p1)))) < 4294967296 ->
   0 <= last_node (emplace_back node p1)
     < Z.of_nat (length (nodes (parse_tree (emplace_back node p1))))).
Proof.
  intros Hch Hfirst Hstep.
  pose proof (arena_step_length _ _ _ Hstep) as Hlen.
  split.
  - change true with (true || true).
    eapply arena_step_trans; [exact Hstep|].
    apply arena_step_emplace_back. rewrite Hch.
    intros Hb k [<-|[<-|[]]].
    + specialize (Hfirst ltac:(lia)). lia.
    + apply (last_node_index p p1 Hstep). lia.
  - simpl. rewrite length_app. simpl. intro Hb.
    unfold last_node. simpl.
    rewrite last32_small.
    + rewrite length_app. simpl. lia.
    + destruct (nodes (parse_tree p1)); discriminate.
    + rewrite length_app. simpl. lia.
Qed.

Lemma concatenation_loop_arena (k : nat) :
  forall first p ok p',
    (Z.of_nat (length (nodes (parse_tree p))) < 4294967296 ->
     0 <= first < Z.of_nat (length (nodes (parse_tree p)))) ->
    concatenation_loop parse k first p = Ok (ok, p') ->
    arena_step p p' false.
Proof.
  induction k as [|k IH]; intros first p ok p' Hfirst H; [discriminate|].
  simpl in H. bind_inv H. destruct a as [ok1 p1].
  apply parse_quantifier_arena in Hrun.
  destruct ok1.
  2:{ injection H as <- <-. exact Hrun. }
  destruct (arena_step_binary (CONCATENATION first (last_node p1)) first p p1
              eq_refl Hfirst Hrun) as [Hstep Hlast].
  apply IH in H; [|exact Hlast].
  change false with (false || false).
  eapply arena_step_trans; [|exact H].
  eapply arena_step_weaken; exact Hstep.
Qed.

Lemma parse_concatenation_arena p ok p' :
  parse_concatenation parse p = Ok (ok, p') -> arena_step p p' ok.
Proof.
  unfold parse_concatenation. intro H.
  bind_inv H. destruct a as [ok1 p1]. apply parse_quantifier_arena in Hrun.
  destruct ok1; cbv beta iota delta [negb] in H.
  2:{ injection H as <- <-. exact Hrun. }
  assert (Hok : ok = true).
  { clear - H. revert H. generalize (last_node p1).
    generalize (S (length (pointer p1))). intros k. revert p1.
    induction k as [|k IH]; intros p1 first H; [discriminate|].
    simpl in H. bind_inv H. destruct a as [ok1 p2].
    destruct ok1; [eauto|]. injection H as <- _. reflexivity. }
  subst ok.
  apply concatenation_loop_arena in H.
  - change true with (true || false).
    eapply arena_step_trans; eassumption.
  - intro Hb. apply (last_node_index p p1 Hrun). lia.
Qed.

Lemma alternation_loop_arena (k : nat) :
  forall first p ok p',
    (Z.of_nat (length (nodes (parse_tree p))) < 4294967296 ->
     0 <= first < Z.of_nat (length (nodes (parse_tree p)))) ->
    alternation_loop parse k first p = Ok (ok, p') ->
    arena_step p p' false.
Proof.
  induction k as [|k IH]; intros first p ok p' Hfirst H; [discriminate|].
  simpl in H. destruct (peek p =? BAR).
  2:{ injection H as <- <-. apply arena_step_refl. }
  bind_inv H. destruct a as [ok1 p1].
  apply parse_concatenation_arena in Hrun.
  change (arena_step p p1 ok1) in Hrun.
  destruct ok1; simpl in H.
  2:{ injection H as <- <-. exact Hrun. }
  destruct (arena_step_binary (ALTERNATION first (last_node p1)) first p p1
              eq_refl Hfirst Hrun) as [Hstep Hlast].
  apply IH in H; [|exact Hlast].
  change false with (false || false).
  eapply arena_step_trans; [|exact H].
  eapply arena_step_weaken; exact Hstep.
Qed.

Lemma parse_alternation_arena p ok p' :
  parse_alternation parse p = Ok (ok, p') -> arena_step p p' ok.
Proof.
  unfold parse_alternation. intro H.
  bind_inv H. destruct a as [ok1 p1]. apply parse_concatenation_arena in Hrun.
  destruct ok1; cbv beta iota delta [negb] in H.
  2:{ injection H as <- <-. exact Hrun. }
  apply alternation_loop_arena in H.
  - destruct ok.
    + change true with (true || false).
      eapply arena_step_trans; eassumption.
    + change false with (false || false).
      eapply arena_step_trans; [eapply arena_step_weaken|]; eassumption.
  - intro Hb. apply (last_node_index p p1 Hrun). lia.
Qed.

End Arena.

Lemma parse_arena (depth : nat) :
  forall p ok p', parse depth p = Ok (ok, p') -> arena_step p p' ok.
Proof.
  induction depth as [|d IH]; intros p ok p' H; [discriminate|].
  simpl in H. eapply parse_alternation_arena; eassumption.
Qed.

Lemma build_loop_arena (k : nat) :
  forall depth p ok p',
    build_loop k depth p = Ok (ok, p') -> arena_step p p' false.
Proof.
  induction k as [|k IH]; intros depth p ok p' H; [discriminate|].
  simpl in H.
  destruct (peek p =? 0); [injection H as <- <-; apply arena_step_refl|].
  destruct (peek p =? DOLLAR);
    [injection H as <- <-; exact (arena_step_refl p)|].
  bind_inv H. destruct a as [ok1 p1]. apply parse_arena in Hrun.
  destruct ok1; simpl in H.
  - apply IH in H. change false with (false || false).
    eapply arena_step_trans; [eapply arena_step_weaken|]; eassumption.
  - injection H as <- <-. exact Hrun.
Qed.

(** In the arena [build_parse_tree] leaves, with success or not, every
    operand index is smaller than the index of its node, as long as the
    arena has fewer than 2^32 nodes. *)
Lemma parse_pattern_children_precede (text : list Z) (ok : bool)
    (tree : ParseTree) :
  parse_pattern text = Ok (ok, tree) ->
  Z.of_nat (length (nodes tree)) < 4294967296 ->
  children_precede (nodes tree).
Proof.
  unfold parse_pattern, build_parse_tree. intros H Hb.
  bind_inv H. destruct a as [ok1 p1]. injection H as <- <-.
  apply build_loop_arena in Hrun. destruct Hrun as [_ Hrun].
  apply Hrun; [exact Hb|].
  assert (E : forall q : Parser, nodes (parse_tree q) = [] ->
            children_precede (nodes (parse_tree q))).
  { intros q Hq i n k Hi. rewrite Hq in Hi. discriminate. }
  apply E. destruct (peek _ =? CARET); reflexivity.
Qed.

(** The highest-indexed node is the operand of no node. *)
Lemma last_node_has_no_parent (arena : list Node) (i : Z) (n : Node) :
  children_precede arena -> index arena i = Some n ->
  ~ In (Z.of_nat (length arena) - 1) (children n).
Proof.
  intros Hc Hi Hk. pose proof (Hc _ _ _ Hi Hk) as Hr.
  apply index_range in Hi. lia.
Qed.

(* ================================================================= *)
(** ** What an accepted pattern looks like *)

(** *** The verdict of the descent depends on the text alone *)

Section SameText.

Variables parse1 parse2 : Parser -> res (bool * Parser).

Hypothesis parse_same_text : forall p q ok1 p' ok2 q',
  pointer p = pointer q ->
  parse1 p = Ok (ok1, p') -> parse2 q = Ok (ok2, q') ->
  ok1 = ok2 /\ pointer p' = pointer q'.

Lemma same_text_peek (p q : Parser) : pointer p = pointer q -> peek p = peek q.
Proof.
  intro H. unfold peek. rewrite H. reflexivity.
Qed.

Lemma same_text_advance (p q : Parser) :
  pointer p = pointer q -> pointer (advance p) = pointer (advance q).
Proof.
  intro H. unfold advance. simpl. rewrite H. reflexivity.
Qed.

(** Two results that agree on the verdict and on the pointer. *)
Ltac same_text H1 H2 :=
  inversion H1; inversion H2; subst; clear H1 H2;
  split; [reflexivity|]; simpl; try assumption.

Lemma parse_group_same_text p q ok1 p' ok2 q' :
  pointer p = pointer q ->
  parse_group parse1 p = Ok (ok1, p') -> parse_group parse2 q = Ok (ok2, q') ->
  ok1 = ok2 /\ pointer p' = pointer q'.
Proof.
  intros Hs H1 H2. unfold parse_group in H1, H2.
  rewrite <- (same_text_peek p q Hs) in H2.
  destruct (peek p =? LPAREN); simpl in H1, H2; [|same_text H1 H2].
  bind_inv H1. bind_inv H2. destruct a as [o1 p1], a0 as [o2 q1].
  destruct (parse_same_text _ _ _ _ _ _ (same_text_advance p q Hs) Hrun Hrun0)
    as [<- Hs1].
  destruct o1; simpl in H1, H2; [|same_text H1 H2].
  rewrite <- (same_text_peek p1 q1 Hs1) in H2.
  destruct (peek p1 =? RPAREN); simpl in H1, H2; same_text H1 H2.
  rewrite Hs1. reflexivity.
Qed.

Lemma parse_unit_same_text p q ok1 p' ok2 q' :
  pointer p = pointer q ->
  parse_unit parse1 p = Ok (ok1, p') -> parse_unit parse2 q = Ok (ok2, q') ->
  ok1 = ok2 /\ pointer p' = pointer q'.
Proof.
  intros Hs H1 H2. unfold parse_unit in H1, H2.
  rewrite <- (same_text_peek p q Hs) in H2.
  destruct (is_unit_char (peek p)).
  - same_text H1 H2. rewrite Hs. reflexivity.
  - destruct (peek p =? LPAREN); [|same_text H1 H2].
    bind_inv H1. bind_inv H2. destruct a as [o1 p1], a0 as [o2 q1].
    destruct (parse_group_same_text _ _ _ _ _ _ Hs Hrun Hrun0) as [<- Hs1].
    destruct o1; simpl in H1, H2; same_text H1 H2.
Qed.

Lemma parse_quantifier_same_text p q ok1 p' ok2 q' :
  pointer p = pointer q ->
  parse_quantifier parse1 p = Ok (ok1, p') ->
  parse_quantifier parse2 q = Ok (ok2, q') ->
  ok1 = ok2 /\ pointer p' = pointer q'.
Proof.
  intros Hs H1 H2. unfold parse_quantifier in H1, H2.
  bind_inv H1. bind_inv H2. destruct a as [o1 p1], a0 as [o2 q1].
  destruct (parse_unit_same_text _ _ _ _ _ _ Hs Hrun Hrun0) as [<- Hs1].
  destruct o1; simpl in H1, H2; [|same_text H1 H2].
  rewrite <- (same_text_peek p1 q1 Hs1) in H2.
  destruct (peek p1 =? QUESTION);
    [same_text H1 H2; rewrite Hs1; reflexivity|].
  destruct (peek p1 =? STAR);
    [same_text H1 H2; rewrite Hs1; reflexivity|].
  destruct (peek p1 =? PLUS);
    [same_text H1 H2; rewrite Hs1; reflexivity|].
  same_text H1 H2.
Qed.

Lemma concatenation_loop_same_text (k1 : nat) :
  forall k2 first1 first2 p q ok1 p' ok2 q',
    pointer p = pointer q ->
    concatenation_loop parse1 k1 first1 p = Ok (ok1, p') ->
    concatenation_loop parse2 k2 first2 q = Ok (ok2, q') ->
    ok1 = ok2 /\ pointer p' = pointer q'.
Proof.
  induction k1 as [|k1 IH];
    intros k2 first1 first2 p q ok1 p' ok2 q' Hs H1 H2; [discriminate|].
  destruct k2 as [|k2]; [discriminate|]. simpl in H1, H2.
  bind_inv H1. bind_inv H2. destruct a as [o1 p1], a0 as [o2 q1].
  destruct (parse_quantifier_same_text _ _ _ _ _ _ Hs Hrun Hrun0)
    as [<- Hs1].
  destruct o1; [|same_text H1 H2].
  eapply IH; [|eassumption|eassumption]. exact Hs1.
Qed.

Lemma parse_concatenation_same_text p q ok1 p' ok2 q' :
  pointer p = pointer q ->
  parse_concatenation parse1 p = Ok (ok1, p') ->
  parse_concatenation parse2 q = Ok (ok2, q') ->
  ok1 = ok2 /\ pointer p' = pointer q'.
Proof.
  intros Hs H1 H2. unfold parse_concatenation in H1, H2.
  bind_inv H1. bind_inv H2. destruct a as [o1 p1], a0 as [o2 q1].
  destruct (parse_quantifier_same_text _ _ _ _ _ _ Hs Hrun Hrun0)
    as [<- Hs1].
  destruct o1; cbv beta iota delta [negb] in H1, H2; [|same_text H1 H2].
  eapply concatenation_loop_same_text; eassumption.
Qed.

Lemma alternation_loop_same_text (k1 : nat) :
  forall k2 first1 first2 p q ok1 p' ok2 q',
    pointer p = pointer q ->
    alternation_loop parse1 k1 first1 p = Ok (ok1, p') ->
    alternation_loop parse2 k2 first2 q = Ok (ok2, q') ->
    ok1 = ok2 /\ pointer p' = pointer q'.
Proof.
  induction k1 as [|k1 IH];
    intros k2 first1 first2 p q ok1 p' ok2 q' Hs H1 H2; [discriminate|].
  destruct k2 as [|k2]; [discriminate|]. simpl in H1, H2.
  rewrite <- (same_text_peek p q Hs) in H2.
  destruct (peek p =? BAR); [|same_text H1 H2].
  bind_inv H1. bind_inv H2. destruct a as [o1 p1], a0 as [o2 q1].
  destruct (parse_concatenation_same_text _ _ _ _ _ _
              (same_text_advance p q Hs) Hrun Hrun0) as [<- Hs1].
  destruct o1; simpl in H1, H2; [|same_text H1 H2].
  eapply IH; [|eassumption|eassumption]. exact Hs1.
Qed.

Lemma parse_alternation_same_text p q ok1 p' ok2 q' :
  pointer p = pointer q ->
  parse_alternation parse1 p = Ok (ok1, p') ->
  parse_alternation parse2 q = Ok (ok2, q') ->
  ok1 = ok2 /\ pointer p' = pointer q'.
Proof.
  intros Hs H1 H2. unfold parse_alternation in H1, H2.
  bind_inv H1. bind_inv H2. destruct a as [o1 p1], a0 as [o2 q1].
  destruct (parse_concatenation_same_text _ _ _ _ _ _ Hs Hrun Hrun0)
    as [<- Hs1].
  destruct o1; cbv beta iota delta [negb] in H1, H2; [|same_text H1 H2].
  eapply alternation_loop_same_text; eassumption.
Qed.

End SameText.

(** Neither the arena nor the budget has a part in the verdict of
    [parse] or in where it leaves the pointer. *)
Lemma parse_same_text (d1 : nat) :
  forall d2 p q ok1 p' ok2 q',
    pointer p = pointer q ->
    parse d1 p = Ok (ok1, p') -> parse d2 q = Ok (ok2, q') ->
    ok1 = ok2 /\ pointer p' = pointer q'.
Proof.
  induction d1 as [|d1 IH]; intros d2 p q ok1 p' ok2 q' Hs H1 H2;
    [discriminate|].
  destruct d2 as [|d2]; [discriminate|]. simpl in H1, H2.
  eapply (parse_alternation_same_text (parse d1) (parse d2));
    try eassumption.
  intros. eapply IH; eassumption.
Qed.

(** A group on which [parse_group] fails in the course of a descent is
    one that [group_fails] tells. *)
Lemma failing_group_fails (d : nat) (p p' : Parser) :
  parse_group (parse d) p = Ok (false, p') ->
  group_fails (pointer p) = true.
Proof.
  intro H. unfold group_fails.
  set (q := mkParser (pointer p) (mkParseTree 0 [])).
  destruct (parse_group_spec (parse (length (pointer p)))
              (length (pointer p)) (parse_spec _) q)
    as (ok & q' & Hq & _); [reflexivity|].
  rewrite Hq.
  destruct (parse_group_same_text (parse d) (parse (length (pointer p)))
              (parse_same_text d (length (pointer p)))
              p q false p' ok q' eq_refl H Hq) as [<- _].
  reflexivity.
Qed.

(** *** Reading a body *)

Lemma scan_from_app (s1 s2 : list Z) :
  forall st,
    scan_from st (s1 ++ s2)
    = match scan_from st s1 with
      | Some st' => scan_from st' s2
      | None => None
      end.
Proof.
  induction s1 as [|c s1 IH]; intro st; simpl; [reflexivity|].
  destruct (scan_step st c); [apply IH|reflexivity].
Qed.

Lemma slips_from_app (s1 s2 : list Z) :
  forall st st',
    scan_from st s1 = Some st' ->
    slips_from st (s1 ++ s2) = false -> slips_from st' s2 = false.
Proof.
  induction s1 as [|c s1 IH]; intros st st' Hscan Hslip; simpl in *.
  - inversion Hscan; subst. exact Hslip.
  - apply orb_false_iff in Hslip. destruct Hslip as [_ Hslip].
    destruct (scan_step st c) as [st1|]; [|discriminate].
    exact (IH _ _ Hscan Hslip).
Qed.


Lemma scan_step_unit (x : Z) (d : nat) (c : Z) :
  is_unit_char c = true -> scan_step (x, d) c = Some (c, d).
Proof.
  intro H. unfold scan_step. rewrite H. reflexivity.
Qed.

Lemma scan_step_lparen (x : Z) (d : nat) :
  scan_step (x, d) LPAREN = Some (LPAREN, S d).
Proof.
  reflexivity.
Qed.

Lemma scan_step_rparen (x : Z) (d : nat) :
  operand_end x = true -> scan_step (x, S d) RPAREN = Some (RPAREN, d).
Proof.
  intro H. unfold scan_step.
  change (is_unit_char RPAREN) with false.
  change (RPAREN =? LPAREN) with false. change (RPAREN =? RPAREN) with true.
  cbv iota. rewrite H. reflexivity.
Qed.

Lemma scan_step_bar (x : Z) (d : nat) :
  operand_end x = true -> scan_step (x, d) BAR = Some (BAR, d).
Proof.
  intro H. unfold scan_step.
  change (is_unit_char BAR) with false.
  change (BAR =? LPAREN) with false. change (BAR =? RPAREN) with false.
  change (BAR =? BAR) with true.
  cbv iota. rewrite H. reflexivity.
Qed.

Lemma scan_step_quantifier (x : Z) (d : nat) (c : Z) :
  c = QUESTION \/ c = STAR \/ c = PLUS ->
  unit_end x = true -> scan_step (x, d) c = Some (c, d).
Proof.
  intros [->|[->| ->]] H; unfold scan_step;
    match goal with
    | |- context [is_unit_char ?q] => change (is_unit_char q) with false;
        change (q =? LPAREN) with false; change (q =? RPAREN) with false;
        change (q =? BAR) with false; change (is_quantifier q) with true
    end; cbv iota; rewrite H; reflexivity.
Qed.

(** What [scan_step] leaves is the character it has read, which is no
    NUL and no [$]. *)
Lemma scan_step_Some (st st' : Z * nat) (c : Z) :
  scan_step st c = Some st' -> fst st' = c /\ c <> 0 /\ c <> DOLLAR.
Proof.
  destruct st as [x d]. unfold scan_step. intro H.
  assert (Hc : c <> 0 /\ c <> DOLLAR).
  { split; intro E; subst c; vm_compute in H; destruct d; discriminate. }
  split; [|exact Hc].
  destruct (is_unit_char c); [inversion H; reflexivity|].
  destruct (c =? LPAREN); [inversion H; reflexivity|].
  destruct (c =? RPAREN).
  { destruct d; [discriminate|].
    destruct (operand_end x); inversion H; reflexivity. }
  destruct (c =? BAR).
  { destruct (operand_end x); inversion H; reflexivity. }
  destruct (is_quantifier c); [|discriminate].
  destruct (unit_end x); inversion H; reflexivity.
Qed.







(** No failure is overlooked in a text in which no opening parenthesis
    directly follows an operand. *)
Lemma slips_from_needs_group_after_operand (s : list Z) :
  forall x d,
    (hd 0 s = LPAREN -> operand_end x = false) ->
    (forall pre c post, s = pre ++ c :: LPAREN :: post ->
                        operand_end c = false) ->
    slips_from (x, d) s = false.
Proof.
  induction s as [|c s IH]; intros x d Hhd Hin; [reflexivity|].
  cbn [slips_from fst]. apply orb_false_iff. split.
  - destruct (Z.eqb_spec c LPAREN) as [E|_]; [|reflexivity].
    rewrite (Hhd E). reflexivity.
  - destruct (scan_step (x, d) c) as [[y d']|] eqn:Hstep; [|reflexivity].
    destruct (scan_step_Some _ _ _ Hstep) as [Hy _]. simpl in Hy. subst y.
    apply IH.
    + intro E. destruct s as [|c' s]; [discriminate|]. simpl in E. subst c'.
      exact (Hin [] c s eq_refl).
    + intros pre c' post E. apply (Hin (c :: pre) c' post).
      rewrite E. reflexivity.
Qed.

Lemma slips_needs_group_after_operand (s : list Z) :
  (forall pre c post, s = pre ++ c :: LPAREN :: post ->
                      operand_end c = false) ->
  slips s = false.
Proof.
  intro H. apply slips_from_needs_group_after_operand; [|exact H].
  reflexivity.
Qed.

(** *** The pointer of the parser in the text *)

Lemma parsed_to_pointer (whole : list Z) (p q : Parser) (st : Z * nat) :
  pointer p = pointer q -> parsed_to whole p st -> parsed_to whole q st.
Proof.
  intros E (done & H & Hs). exists done. rewrite <- E. auto.
Qed.

Lemma parsed_to_advance (whole : list Z) (p : Parser) (st st' : Z * nat) :
  parsed_to whole p st -> peek p <> 0 ->
  scan_step st (peek p) = Some st' ->
  parsed_to whole (advance p) st'.
Proof.
  intros (done & H & Hs) H0 Hstep. exists (done ++ [peek p]). split.
  - rewrite <- app_assoc. cbn [app]. rewrite <- (peek_cons p H0). exact H.
  - unfold scan in *. rewrite scan_from_app, Hs. cbn [scan_from].
    rewrite Hstep. reflexivity.
Qed.

(** *** The descent on a text where no failure is overlooked *)

Section NoSlip.

Variable whole : list Z.

Hypothesis no_slip : slips whole = false.

(** A call of [parse_quantifier] that fails behind an operand has met
    neither an atom nor a group, and has left the parser as it was. *)
Lemma parse_quantifier_fails_in_place (d : nat) (p p' : Parser)
    (x : Z) (depth : nat) :
  parsed_to whole p (x, depth) -> operand_end x = true ->
  parse_quantifier (parse d) p = Ok (false, p') ->
  p' = p /\ is_unit_char (peek p) = false /\ peek p <> LPAREN.
Proof.
  intros Hat Hx H. unfold parse_quantifier in H. bind_inv H.
  destruct a as [o p1].
  destruct o; simpl in H.
  { destruct (peek p1 =? QUESTION); [discriminate|].
    destruct (peek p1 =? STAR); [discriminate|].
    destruct (peek p1 =? PLUS); discriminate. }
  inversion H; subst p1. clear H.
  unfold parse_unit in Hrun.
  destruct (is_unit_char (peek p)) eqn:Hu; [discriminate|].
  destruct (Z.eqb_spec (peek p) LPAREN) as [Hl|Hl].
  2:{ inversion Hrun; subst. auto. }
  exfalso. bind_inv Hrun. destruct a as [o p1].
  destruct o; simpl in Hrun; [discriminate|].
  apply failing_group_fails in Hrun0.
  destruct Hat as (done & Hwhole & Hscan).
  unfold slips in no_slip. rewrite Hwhole in no_slip.
  pose proof (slips_from_app _ _ _ _ Hscan no_slip) as Hs.
  assert (H0 : peek p <> 0) by (rewrite Hl; discriminate).
  rewrite (peek_cons p H0) in Hs. cbn [slips_from fst] in Hs.
  rewrite <- (peek_cons p H0) in Hs. rewrite Hl, Hx, Hrun0 in Hs.
  discriminate.
Qed.

Section Depth.

Variable d : nat.

(** What is known of the recursive call: when it reports success, it has
    read operands up to the end of an alternation, in the same group. *)
Hypothesis parse_reads : forall p p' x depth,
  parsed_to whole p (x, depth) -> parse d p = Ok (true, p') ->
  exists y, parsed_to whole p' (y, depth) /\ operand_end y = true /\
            is_unit_char (peek p') = false /\ peek p' <> LPAREN /\
            peek p' <> BAR.

Lemma parse_group_reads (p p' : Parser) (x : Z) (depth : nat) :
  parsed_to whole p (x, depth) -> parse_group (parse d) p = Ok (true, p') ->
  parsed_to whole p' (RPAREN, depth).
Proof.
  intros Hat H. unfold parse_group in H.
  destruct (Z.eqb_spec (peek p) LPAREN) as [Hl|Hl]; simpl in H;
    [|discriminate].
  bind_inv H. destruct a as [o p1].
  destruct o; simpl in H; [|discriminate].
  assert (Hat1 : parsed_to whole (advance p) (LPAREN, S depth)).
  { apply (parsed_to_advance _ _ _ _ Hat); [rewrite Hl; discriminate|].
    rewrite Hl. apply scan_step_lparen. }
  destruct (parse_reads _ _ _ _ Hat1 Hrun) as (y & Hat2 & Hy & _).
  destruct (Z.eqb_spec (peek p1) RPAREN) as [Hr|Hr]; simpl in H;
    [|discriminate].
  inversion H; subst p'.
  apply (parsed_to_advance _ _ _ _ Hat2); [rewrite Hr; discriminate|].
  rewrite Hr. apply scan_step_rparen. exact Hy.
Qed.

Lemma parse_unit_reads (p p' : Parser) (x : Z) (depth : nat) :
  parsed_to whole p (x, depth) -> parse_unit (parse d) p = Ok (true, p') ->
  exists y, parsed_to whole p' (y, depth) /\ unit_end y = true.
Proof.
  intros Hat H. unfold parse_unit in H.
  destruct (is_unit_char (peek p)) eqn:Hu.
  - inversion H; subst p'. exists (peek p). split.
    + apply (parsed_to_pointer _ (advance p)); [reflexivity|].
      apply (parsed_to_advance _ _ _ _ Hat).
      * intro E. rewrite E in Hu. discriminate.
      * apply scan_step_unit. exact Hu.
    + unfold unit_end. rewrite Hu. reflexivity.
  - destruct (peek p =? LPAREN); [|discriminate].
    bind_inv H. destruct a as [o p1].
    destruct o; simpl in H; [|discriminate]. inversion H; subst p1.
    exists RPAREN. split; [|reflexivity].
    exact (parse_group_reads _ _ _ _ Hat Hrun).
Qed.

Lemma parse_quantifier_reads (p p' : Parser) (x : Z) (depth : nat) :
  parsed_to whole p (x, depth) ->
  parse_quantifier (parse d) p = Ok (true, p') ->
  exists y, parsed_to whole p' (y, depth) /\ operand_end y = true.
Proof.
  intros Hat H. unfold parse_quantifier in H. bind_inv H.
  destruct a as [o p1]. destruct o; simpl in H; [|discriminate].
  destruct (parse_unit_reads _ _ _ _ Hat Hrun) as (y & Hat1 & Hy).
  assert (Hq : forall q node,
             peek p1 = q -> q = QUESTION \/ q = STAR \/ q = PLUS ->
             parsed_to whole (emplace_back node (advance p1)) (q, depth)).
  { intros q node Hpeek Hq.
    apply (parsed_to_pointer _ (advance p1)); [reflexivity|].
    apply (parsed_to_advance _ _ _ _ Hat1).
    - rewrite Hpeek. destruct Hq as [->|[->| ->]]; discriminate.
    - rewrite Hpeek. apply scan_step_quantifier; assumption. }
  destruct (Z.eqb_spec (peek p1) QUESTION) as [E|_].
  { inversion H; subst p'. exists QUESTION. split; [|reflexivity].
    apply Hq; auto. }
  destruct (Z.eqb_spec (peek p1) STAR) as [E|_].
  { inversion H; subst p'. exists STAR. split; [|reflexivity].
    apply Hq; auto. }
  destruct (Z.eqb_spec (peek p1) PLUS) as [E|_].
  { inversion H; subst p'. exists PLUS. split; [|reflexivity].
    apply Hq; auto. }
  inversion H; subst p'. exists y. split; [exact Hat1|].
  unfold operand_end. rewrite Hy. reflexivity.
Qed.

(** The loop of [parse_concatenation] ends where neither an atom nor a
    group follows. *)
Lemma concatenation_loop_reads (k : nat) :
  forall first p ok p' x depth,
    parsed_to whole p (x, depth) -> operand_end x = true ->
    concatenation_loop (parse d) k first p = Ok (ok, p') ->
    ok = true /\
    exists y, parsed_to whole p' (y, depth) /\ operand_end y = true /\
              is_unit_char (peek p') = false /\ peek p' <> LPAREN.
Proof.
  induction k as [|k IH]; intros first p ok p' x depth Hat Hx H;
    [discriminate|].
  simpl in H. bind_inv H. destruct a as [o p1]. destruct o.
  - destruct (parse_quantifier_reads _ _ _ _ Hat Hrun) as (y & Hat1 & Hy).
    eapply IH; [|exact Hy|exact H].
    apply (parsed_to_pointer _ p1); [reflexivity|exact Hat1].
  - inversion H; subst ok p'. split; [reflexivity|].
    destruct (parse_quantifier_fails_in_place _ _ _ _ _ Hat Hx Hrun)
      as (-> & Hu & Hl).
    exists x. auto.
Qed.

Lemma parse_concatenation_reads (p p' : Parser) (x : Z) (depth : nat) :
  parsed_to whole p (x, depth) ->
  parse_concatenation (parse d) p = Ok (true, p') ->
  exists y, parsed_to whole p' (y, depth) /\ operand_end y = true /\
            is_unit_char (peek p') = false /\ peek p' <> LPAREN.
Proof.
  intros Hat H. unfold parse_concatenation in H. bind_inv H.
  destruct a as [o p1].
  destruct o; cbv beta iota delta [negb] in H; [|discriminate].
  destruct (parse_quantifier_reads _ _ _ _ Hat Hrun) as (y & Hat1 & Hy).
  exact (proj2 (concatenation_loop_reads _ _ _ _ _ _ _ Hat1 Hy H)).
Qed.

Lemma alternation_loop_reads (k : nat) :
  forall first p p' x depth,
    parsed_to whole p (x, depth) -> operand_end x = true ->
    is_unit_char (peek p) = false -> peek p <> LPAREN ->
    alternation_loop (parse d) k first p = Ok (true, p') ->
    exists y, parsed_to whole p' (y, depth) /\ operand_end y = true /\
              is_unit_char (peek p') = false /\ peek p' <> LPAREN /\
              peek p' <> BAR.
Proof.
  induction k as [|k IH]; intros first p p' x depth Hat Hx Hu Hl H;
    [discriminate|].
  simpl in H. destruct (Z.eqb_spec (peek p) BAR) as [Hb|Hb].
  - bind_inv H. destruct a as [o p1].
    destruct o; simpl in H; [|discriminate].
    assert (Hat1 : parsed_to whole (advance p) (BAR, depth)).
    { apply (parsed_to_advance _ _ _ _ Hat); [rewrite Hb; discriminate|].
      rewrite Hb. apply scan_step_bar. exact Hx. }
    destruct (parse_concatenation_reads _ _ _ _ Hat1 Hrun)
      as (y & Hat2 & Hy & Hu2 & Hl2).
    refine (IH _ (emplace_back (ALTERNATION first (last_node p1)) p1) _
               y depth _ Hy Hu2 Hl2 H).
    apply (parsed_to_pointer _ p1); [reflexivity|exact Hat2].
  - inversion H; subst p'. exists x. auto.
Qed.

Lemma parse_alternation_reads (p p' : Parser) (x : Z) (depth : nat) :
  parsed_to whole p (x, depth) ->
  parse_alternation (parse d) p = Ok (true, p') ->
  exists y, parsed_to whole p' (y, depth) /\ operand_end y = true /\
            is_unit_char (peek p') = false /\ peek p' <> LPAREN /\
            peek p' <> BAR.
Proof.
  intros Hat H. unfold parse_alternation in H. bind_inv H.
  destruct a as [o p1].
  destruct o; cbv beta iota delta [negb] in H; [|discriminate].
  destruct (parse_concatenation_reads _ _ _ _ Hat Hrun)
    as (y & Hat1 & Hy & Hu & Hl).
  exact (alternation_loop_reads _ _ _ _ _ _ Hat1 Hy Hu Hl H).
Qed.

End Depth.

Lemma parse_reads (d : nat) :
  forall p p' x depth,
    parsed_to whole p (x, depth) -> parse d p = Ok (true, p') ->
    exists y, parsed_to whole p' (y, depth) /\ operand_end y = true /\
              is_unit_char (peek p') = false /\ peek p' <> LPAREN /\
              peek p' <> BAR.
Proof.
  induction d as [|d IH]; intros p p' x depth Hat H; [discriminate|].
  simpl in H. exact (parse_alternation_reads d IH _ _ _ _ Hat H).
Qed.



End NoSlip.



(* ================================================================= *)
(** ** The descent closes no group that it has not opened *)

Lemma nesting_app (s1 s2 : list Z) :
  forall d,
    nesting d (s1 ++ s2)
    = match nesting d s1 with
      | Some d' => nesting d' s2
      | None => None
      end.
Proof.
  induction s1 as [|c s1 IH]; intro d; cbn [app nesting]; [reflexivity|].
  destruct (c =? LPAREN); [apply IH|].
  destruct (c =? RPAREN); [|apply IH].
  destruct d; [reflexivity|apply IH].
Qed.

Lemma climbs_nil : climbs [].
Proof.
  intro d. exists d. auto.
Qed.

Lemma climbs_app (s1 s2 : list Z) : climbs s1 -> climbs s2 -> climbs (s1 ++ s2).
Proof.
  intros H1 H2 d. destruct (H1 d) as (d1 & E1 & L1).
  destruct (H2 d1) as (d2 & E2 & L2). exists d2.
  rewrite nesting_app, E1. split; [exact E2|lia].
Qed.

Lemma climbs_char (c : Z) : c <> RPAREN -> climbs [c].
Proof.
  intros Hc d. cbn [nesting]. apply Z.eqb_neq in Hc. rewrite Hc.
  destruct (c =? LPAREN); eauto.
Qed.

Lemma climbs_group (inner : list Z) :
  climbs inner -> climbs (LPAREN :: inner ++ [RPAREN]).
Proof.
  intros H d. destruct (H (S d)) as (d1 & E1 & L1).
  destruct d1 as [|d1]; [lia|]. exists d1.
  change (nesting d (LPAREN :: inner ++ [RPAREN]))
    with (nesting (S d) (inner ++ [RPAREN])).
  rewrite nesting_app, E1. split; [reflexivity|lia].
Qed.

Lemma moved_refl (p : Parser) : moved p p.
Proof.
  exists []. split; [reflexivity|]. split; [constructor|apply climbs_nil].
Qed.

Lemma moved_trans (p1 p2 p3 : Parser) :
  moved p1 p2 -> moved p2 p3 -> moved p1 p3.
Proof.
  intros (s1 & E1 & P1 & C1) (s2 & E2 & P2 & C2). exists (s1 ++ s2).
  split; [rewrite E1, E2, app_assoc; reflexivity|].
  split; [apply Forall_app; auto|apply climbs_app; assumption].
Qed.

Lemma moved_pointer (p p' q : Parser) :
  pointer p' = pointer q -> moved p p' -> moved p q.
Proof.
  intros E (s & Hs & H). exists s. rewrite <- E. auto.
Qed.

Lemma moved_advance (p : Parser) :
  peek p <> 0 -> peek p <> DOLLAR -> peek p <> RPAREN -> moved p (advance p).
Proof.
  intros H0 Hd Hr. exists [peek p]. split; [exact (peek_cons p H0)|].
  split; [repeat constructor; assumption|apply climbs_char; exact Hr].
Qed.

Lemma moved_group (p p1 : Parser) :
  peek p = LPAREN -> moved (advance p) p1 -> peek p1 = RPAREN ->
  moved p (advance p1).
Proof.
  intros Hl (inner & E & Hplain & Hclimbs) Hr.
  assert (H0 : peek p <> 0) by (rewrite Hl; discriminate).
  assert (H1 : peek p1 <> 0) by (rewrite Hr; discriminate).
  exists (LPAREN :: inner ++ [RPAREN]). split.
  - rewrite (peek_cons p H0), Hl, E, (peek_cons p1 H1), Hr.
    cbn [app]. rewrite <- app_assoc. reflexivity.
  - split; [|apply climbs_group; exact Hclimbs].
    constructor; [split; discriminate|].
    apply Forall_app. split; [exact Hplain|].
    repeat constructor; discriminate.
Qed.

Lemma is_unit_char_plain (c : Z) :
  is_unit_char c = true -> c <> 0 /\ c <> DOLLAR /\ c <> RPAREN.
Proof.
  intro H. repeat split; intro E; subst c; discriminate.
Qed.

Section Nesting.

Variable parse : Parser -> res (bool * Parser).

Hypothesis parse_moved : forall p ok p',
  parse p = Ok (ok, p') -> moved p p'.

Lemma parse_group_moved p ok p' :
  parse_group parse p = Ok (ok, p') -> moved p p'.
Proof.
  intro H. unfold parse_group in H.
  destruct (Z.eqb_spec (peek p) LPAREN) as [Hl|Hl]; simpl in H.
  2:{ inversion H; subst. apply moved_refl. }
  bind_inv H. destruct a as [o p1]. apply parse_moved in Hrun.
  assert (Hopen : moved p (advance p))
    by (apply moved_advance; rewrite Hl; discriminate).
  destruct o; simpl in H.
  2:{ inversion H; subst. exact (moved_trans _ _ _ Hopen Hrun). }
  destruct (Z.eqb_spec (peek p1) RPAREN) as [Hr|Hr]; simpl in H;
    inversion H; subst.
  - exact (moved_group _ _ Hl Hrun Hr).
  - exact (moved_trans _ _ _ Hopen Hrun).
Qed.

Lemma parse_unit_moved p ok p' :
  parse_unit parse p = Ok (ok, p') -> moved p p'.
Proof.
  intro H. unfold parse_unit in H.
  destruct (is_unit_char (peek p)) eqn:Hu.
  - inversion H; subst.
    destruct (is_unit_char_plain _ Hu) as (H0 & Hd & Hr).
    apply (moved_pointer _ (advance p)); [reflexivity|].
    apply moved_advance; assumption.
  - destruct (peek p =? LPAREN).
    + bind_inv H. destruct a as [o p1]. apply parse_group_moved in Hrun.
      destruct o; simpl in H; inversion H; subst; exact Hrun.
    + inversion H; subst. apply moved_refl.
Qed.

Lemma parse_quantifier_moved p ok p' :
  parse_quantifier parse p = Ok (ok, p') -> moved p p'.
Proof.
  intro H. unfold parse_quantifier in H. bind_inv H.
  destruct a as [o p1]. apply parse_unit_moved in Hrun.
  destruct o; simpl in H; [|inversion H; subst; exact Hrun].
  assert (Hq : forall node,
             peek p1 = QUESTION \/ peek p1 = STAR \/ peek p1 = PLUS ->
             moved p (emplace_back node (advance p1))).
  { intros node Hq. apply (moved_pointer _ (advance p1)); [reflexivity|].
    apply (moved_trans _ _ _ Hrun).
    apply moved_advance; destruct Hq as [E|[E|E]]; rewrite E; discriminate. }
  destruct (Z.eqb_spec (peek p1) QUESTION) as [E|_];
    [inversion H; subst; apply Hq; auto|].
  destruct (Z.eqb_spec (peek p1) STAR) as [E|_];
    [inversion H; subst; apply Hq; auto|].
  destruct (Z.eqb_spec (peek p1) PLUS) as [E|_];
    [inversion H; subst; apply Hq; auto|].
  inversion H; subst. exact Hrun.
Qed.

Lemma concatenation_loop_moved (k : nat) :
  forall first p ok p',
    concatenation_loop parse k first p = Ok (ok, p') -> moved p p'.
Proof.
  induction k as [|k IH]; intros first p ok p' H; [discriminate|].
  simpl in H. bind_inv H. destruct a as [o p1].
  apply parse_quantifier_moved in Hrun. destruct o.
  - apply IH in H. apply (moved_trans _ _ _ Hrun).
    destruct H as (s & E & Hs). exists s. auto.
  - inversion H; subst. exact Hrun.
Qed.

Lemma parse_concatenation_moved p ok p' :
  parse_concatenation parse p = Ok (ok, p') -> moved p p'.
Proof.
  intro H. unfold parse_concatenation in H. bind_inv H.
  destruct a as [o p1]. apply parse_quantifier_moved in Hrun.
  destruct o; cbv beta iota delta [negb] in H.
  - apply concatenation_loop_moved in H.
    exact (moved_trans _ _ _ Hrun H).
  - inversion H; subst. exact Hrun.
Qed.

Lemma alternation_loop_moved (k : nat) :
  forall first p ok p',
    alternation_loop parse k first p = Ok (ok, p') -> moved p p'.
Proof.
  induction k as [|k IH]; intros first p ok p' H; [discriminate|].
  simpl in H. destruct (Z.eqb_spec (peek p) BAR) as [Hb|Hb].
  - bind_inv H. destruct a as [o p1].
    apply parse_concatenation_moved in Hrun.
    assert (Hbar : moved p (advance p))
      by (apply moved_advance; rewrite Hb; discriminate).
    destruct o; simpl in H.
    + apply IH in H. apply (moved_trans _ _ _ Hbar).
      apply (moved_trans _ _ _ Hrun).
      destruct H as (s & E & Hs). exists s. auto.
    + inversion H; subst. exact (moved_trans _ _ _ Hbar Hrun).
  - inversion H; subst. apply moved_refl.
Qed.

Lemma parse_alternation_moved p ok p' :
  parse_alternation parse p = Ok (ok, p') -> moved p p'.
Proof.
  intro H. unfold parse_alternation in H. bind_inv H.
  destruct a as [o p1]. apply parse_concatenation_moved in Hrun.
  destruct o; cbv beta iota delta [negb] in H.
  - apply alternation_loop_moved in H.
    exact (moved_trans _ _ _ Hrun H).
  - inversion H; subst. exact Hrun.
Qed.

End Nesting.

Lemma parse_moved (d : nat) :
  forall p ok p', parse d p = Ok (ok, p') -> moved p p'.
Proof.
  induction d as [|d IH]; intros p ok p' H; [discriminate|].
  simpl in H. exact (parse_alternation_moved (parse d) IH _ _ _ H).
Qed.



(* ================================================================= *)
(** ** The compiler: fragments *)

Lemma index_last {A : Type} (v : list A) (x : A) :
  index (v ++ [x]) (Z.of_nat (length v)) = Some x.
Proof.
  rewrite index_app_r by lia.
  replace (Z.of_nat (length v) - Z.of_nat (length v)) with 0 by lia.
  reflexivity.
Qed.

Lemma size_small (c : NFACompiler.t) :
  states_count c < 4294967296 -> NFACompiler.size c = states_count c.
Proof.
  intro H. unfold NFACompiler.size, size32. apply wrap32_small.
  unfold states_count in *. lia.
Qed.

Lemma new_state_count (st : NFA.State) (c : NFACompiler.t) :
  states_count (NFACompiler.new_state st c) = states_count c + 1.
Proof.
  unfold states_count. simpl. rewrite length_app. simpl. lia.
Qed.

Lemma new_state_last (st : NFA.State) (c : NFACompiler.t) :
  index (NFA.states (NFACompiler.machine (NFACompiler.new_state st c)))
        (states_count c) = Some st.
Proof.
  unfold states_count. simpl. apply index_last.
Qed.

Lemma new_state_old (st : NFA.State) (c : NFACompiler.t) (j : Z) :
  j < states_count c ->
  index (NFA.states (NFACompiler.machine (NFACompiler.new_state st c))) j
  = index (NFA.states (NFACompiler.machine c)) j.
Proof.
  unfold states_count. simpl. apply index_app_l.
Qed.

(** What [states[s].get(symbol).futures.push_back(dest)] changes. *)
Lemma add_future_inv (s symbol dest : Z) (c c' : NFACompiler.t) :
  NFACompiler.add_future s symbol dest c = Ok c' ->
  NFACompiler.node_stack c' = NFACompiler.node_stack c /\
  NFA.start_state (NFACompiler.machine c')
    = NFA.start_state (NFACompiler.machine c) /\
  states_count c' = states_count c /\
  (exists st,
     index (NFA.states (NFACompiler.machine c)) s = Some st /\
     index (NFA.states (NFACompiler.machine c')) s
     = Some (NFA.mkState (NFA.last_exec st) (NFA.flags st)
               (NFA.get_push_back symbol dest (NFA.transitions st)))) /\
  (forall j, j <> s ->
     index (NFA.states (NFACompiler.machine c')) j
     = index (NFA.states (NFACompiler.machine c)) j).
Proof.
  unfold NFACompiler.add_future, NFA.add_future. intro H.
  bind_inv H. bind_inv Hrun. apply of_option_Ok in Hrun0.
  inversion Hrun; subst; clear Hrun. inversion H; subst; clear H.
  unfold states_count. simpl.
  split; [reflexivity|]. split; [reflexivity|].
  split; [f_equal; eapply modify_length; eassumption|].
  split.
  - destruct (modify_Some_index _ _ _ _ Hrun0) as [st Hst].
    exists st. split; [exact Hst|].
    rewrite (index_modify_same _ _ _ _ Hrun0), Hst. reflexivity.
  - intros j Hj. eapply index_modify_other; eassumption.
Qed.

Lemma pop_inv (c c' : NFACompiler.t) (d : NFACompiler.NodeData) :
  NFACompiler.pop c = Ok (d, c') ->
  NFACompiler.node_stack c = d :: NFACompiler.node_stack c' /\
  NFACompiler.machine c' = NFACompiler.machine c.
Proof.
  unfold NFACompiler.pop. destruct (NFACompiler.node_stack c) eqn:E;
    intro H; inversion H; subst. simpl. auto.
Qed.

Lemma emit_node_S (fuel : nat) (nodes : list Node) (node : Z)
    (c : NFACompiler.t) :
  NFACompiler.emit_node (S fuel) nodes node c
  = (n <- of_option (index nodes node) ;;
     match n with
     | ALTERNATION first second =>
         c <- NFACompiler.emit_node fuel nodes first c ;;
         c <- NFACompiler.emit_node fuel nodes second c ;;
         '(right_data, c) <- NFACompiler.pop c ;;
         '(left_data, c) <- NFACompiler.pop c ;;
         let start := NFACompiler.size c in
         let c := NFACompiler.new_state NFA.fresh c in
         c <- NFACompiler.add_future start NFA.EPSILON
                (NFACompiler.start_state left_data) c ;;
         c <- NFACompiler.add_future start NFA.EPSILON
                (NFACompiler.start_state right_data) c ;;
         let accept := NFACompiler.size c in
         let c := NFACompiler.new_state NFA.fresh c in
         c <- NFACompiler.add_future (NFACompiler.accept_state left_data)
                NFA.EPSILON accept c ;;
         c <- NFACompiler.add_future (NFACompiler.accept_state right_data)
                NFA.EPSILON accept c ;;
         Ok (NFACompiler.push (NFACompiler.mkNodeData start accept) c)
     | CONCATENATION first second =>
         c <- NFACompiler.emit_node fuel nodes first c ;;
         c <- NFACompiler.emit_node fuel nodes second c ;;
         '(right_data, c) <- NFACompiler.pop c ;;
         '(left_data, c) <- NFACompiler.pop c ;;
         let start := NFACompiler.size c in
         let c := NFACompiler.new_state NFA.fresh c in
         c <- NFACompiler.add_future start NFA.EPSILON
                (NFACompiler.start_state left_data) c ;;
         let accept := NFACompiler.size c in
         let c := NFACompiler.new_state NFA.fresh c in
         c <- NFACompiler.add_future (NFACompiler.accept_state left_data)
                NFA.EPSILON (NFACompiler.start_state right_data) c ;;
         c <- NFACompiler.add_future (NFACompiler.accept_state right_data)
                NFA.EPSILON accept c ;;
         Ok (NFACompiler.push (NFACompiler.mkNodeData start accept) c)
     | REPETITION first =>
         c <- NFACompiler.emit_node fuel nodes first c ;;
         '(data, c) <- NFACompiler.pop c ;;
         let start := NFACompiler.size c in
         let c := NFACompiler.new_state NFA.fresh c in
         let accept := NFACompiler.size c in
         let c := NFACompiler.new_state NFA.fresh c in
         c <- NFACompiler.add_future start NFA.EPSILON
                (NFACompiler.start_state data) c ;;
         c <- NFACompiler.add_future (NFACompiler.accept_state data)
                NFA.EPSILON (NFACompiler.start_state data) c ;;
         c <- NFACompiler.add_future (NFACompiler.accept_state data)
                NFA.EPSILON accept c ;;
         Ok (NFACompiler.push (NFACompiler.mkNodeData start accept) c)
     | OPTIONAL_REPETITION first =>
         c <- NFACompiler.emit_node fuel nodes first c ;;
         '(data, c) <- NFACompiler.pop c ;;
         let start := NFACompiler.size c in
         let c := NFACompiler.new_state NFA.fresh c in
         let accept := NFACompiler.size c in
         let c := NFACompiler.new_state NFA.fresh c in
         c <- NFACompiler.add_future start NFA.EPSILON
                (NFACompiler.start_state data) c ;;
         c <- NFACompiler.add_future start NFA.EPSILON accept c ;;
         c <- NFACompiler.add_future (NFACompiler.accept_state data)
                NFA.EPSILON start c ;;
         Ok (NFACompiler.push (NFACompiler.mkNodeData start accept) c)
     | OPTIONAL first =>
         c <- NFACompiler.emit_node fuel nodes first c ;;
         '(data, c) <- NFACompiler.pop c ;;
         let start := NFACompiler.size c in
         let c := NFACompiler.new_state NFA.fresh c in
         let accept := NFACompiler.size c in
         let c := NFACompiler.new_state NFA.fresh c in
         c <- NFACompiler.add_future start NFA.EPSILON
                (NFACompiler.start_state data) c ;;
         c <- NFACompiler.add_future start NFA.EPSILON accept c ;;
         c <- NFACompiler.add_future (NFACompiler.accept_state data)
                NFA.EPSILON accept c ;;
         Ok (NFACompiler.push (NFACompiler.mkNodeData start accept) c)
     | ATOM atom =>
         let start := NFACompiler.size c in
         let c := NFACompiler.new_state NFA.fresh c in
         let accept := NFACompiler.size c in
         let c := NFACompiler.new_state NFA.fresh c in
         c <- NFACompiler.add_future start atom accept c ;;
         Ok (NFACompiler.push (NFACompiler.mkNodeData start accept) c)
     end).
Proof.
  reflexivity.
Qed.

Lemma pop_count (c c' : NFACompiler.t) (d : NFACompiler.NodeData) :
  NFACompiler.pop c = Ok (d, c') -> states_count c' = states_count c.
Proof.
  intro H. apply pop_inv in H. destruct H as [_ H].
  unfold states_count. rewrite H. reflexivity.
Qed.

(** Take the next call off a run of [emit_node] that has returned. *)
Ltac next_call H := cbv beta iota zeta in H; bind_inv H.

(** Replace a returned [add_future] by what it has changed. *)
Ltac added H :=
  let Hstack := fresh "Hstack" in
  let Hstart := fresh "Hstart" in
  let Hcount := fresh "Hcount" in
  let st := fresh "st" in
  let Hold := fresh "Hold" in
  let Hnew := fresh "Hnew" in
  let Hother := fresh "Hother" in
  apply add_future_inv in H;
  destruct H as (Hstack & Hstart & Hcount & (st & Hold & Hnew) & Hother);
  rewrite ?new_state_count in Hcount.

Lemma fragment_intro (c c8 : NFACompiler.t) (start accept : Z) :
  NFACompiler.node_stack c8 = NFACompiler.node_stack c ->
  accept = states_count c8 - 1 ->
  index (NFA.states (NFACompiler.machine c8)) accept = Some NFA.fresh ->
  0 <= start < accept ->
  states_count c < states_count c8 ->
  fragment_of c (NFACompiler.push (NFACompiler.mkNodeData start accept) c8)
              (NFACompiler.mkNodeData start accept).
Proof.
  intros Hs Ha Hi Hr Hc. unfold fragment_of, states_count in *. simpl.
  rewrite Hs. auto.
Qed.

(** A pop right after a call that left a fragment gives that fragment
    back and the stack as it was. *)
Lemma pop_after (c0 c1 c2 : NFACompiler.t) (d d' : NFACompiler.NodeData)
    (rest : list NFACompiler.NodeData) :
  NFACompiler.node_stack c1 = d :: rest ->
  NFACompiler.pop c1 = Ok (d', c2) ->
  d' = d /\ NFACompiler.node_stack c2 = rest /\
  states_count c2 = states_count c1 /\
  NFACompiler.machine c2 = NFACompiler.machine c1.
Proof.
  intros Hs Hp. pose proof (pop_count _ _ _ Hp) as Hc.
  apply pop_inv in Hp. destruct Hp as [Hp Hm]. rewrite Hs in Hp.
  injection Hp as -> ->. auto.
Qed.

Lemma emit_node_spec (fuel : nat) :
  forall nodes node c c',
    NFACompiler.emit_node fuel nodes node c = Ok c' ->
    states_count c' < 4294967296 ->
    exists d, fragment_of c c' d.
Proof.
  induction fuel as [|fuel IH]; intros nodes node c c' H Hb; [discriminate|].
  rewrite emit_node_S in H. bind_inv H. destruct a as [f s|f s|f|f|f|atom].
  - (* ALTERNATION *)
    next_call H. rename a into c1, Hrun0 into H1.
    next_call H. rename a into c2, Hrun0 into H2.
    next_call H. destruct a as [rd c3]. rename Hrun0 into P1.
    next_call H. destruct a as [ld c4]. rename Hrun0 into P2.
    next_call H. rename a into c5, Hrun0 into A1.
    next_call H. rename a into c6, Hrun0 into A2.
    next_call H. rename a into c7, Hrun0 into A3.
    next_call H. rename a into c8, Hrun0 into A4.
    injection H as <-. change (states_count c8 < 4294967296) in Hb.
    added A1. added A2. added A3. added A4.
    assert (C2 : states_count c2 < 4294967296).
    { pose proof (pop_count _ _ _ P1). pose proof (pop_count _ _ _ P2). lia. }
    destruct (IH _ _ _ _ H2 C2) as (d2 & T2 & E2 & _ & R2 & G2).
    destruct (IH _ _ _ _ H1) as (d1 & T1 & E1 & _ & R1 & G1); [lia|].
    destruct (pop_after c1 _ _ _ _ _ T2 P1) as (-> & S3 & C3 & _).
    rewrite T1 in S3.
    destruct (pop_after c _ _ _ _ _ S3 P2) as (-> & S4 & C4 & _).
    assert (Z4 : NFACompiler.size c4 = states_count c4) by (apply size_small; lia).
    assert (Z6 : NFACompiler.size c6 = states_count c6) by (apply size_small; lia).
    rewrite Z4, Z6 in *.
    eexists. apply fragment_intro; [simpl in *; congruence|lia| |lia|lia].
    rewrite Hother2 by lia. rewrite Hother1 by lia. apply new_state_last.
  - (* CONCATENATION *)
    next_call H. rename a into c1, Hrun0 into H1.
    next_call H. rename a into c2, Hrun0 into H2.
    next_call H. destruct a as [rd c3]. rename Hrun0 into P1.
    next_call H. destruct a as [ld c4]. rename Hrun0 into P2.
    next_call H. rename a into c5, Hrun0 into A1.
    next_call H. rename a into c6, Hrun0 into A2.
    next_call H. rename a into c7, Hrun0 into A3.
    injection H as <-. change (states_count c7 < 4294967296) in Hb.
    added A1. added A2. added A3.
    assert (C2 : states_count c2 < 4294967296).
    { pose proof (pop_count _ _ _ P1). pose proof (pop_count _ _ _ P2). lia. }
    destruct (IH _ _ _ _ H2 C2) as (d2 & T2 & E2 & _ & R2 & G2).
    destruct (IH _ _ _ _ H1) as (d1 & T1 & E1 & _ & R1 & G1); [lia|].
    destruct (pop_after c1 _ _ _ _ _ T2 P1) as (-> & S3 & C3 & _).
    rewrite T1 in S3.
    destruct (pop_after c _ _ _ _ _ S3 P2) as (-> & S4 & C4 & _).
    assert (Z4 : NFACompiler.size c4 = states_count c4) by (apply size_small; lia).
    assert (Z5 : NFACompiler.size c5 = states_count c5) by (apply size_small; lia).
    rewrite Z4, Z5 in *.
    eexists. apply fragment_intro; [simpl in *; congruence|lia| |lia|lia].
    rewrite Hother1 by lia. rewrite Hother0 by lia. apply new_state_last.
  - (* REPETITION *)
    next_call H. rename a into c1, Hrun0 into H1.
    next_call H. destruct a as [d c2]. rename Hrun0 into P1.
    next_call H. rename a into c3, Hrun0 into A1.
    next_call H. rename a into c4, Hrun0 into A2.
    next_call H. rename a into c5, Hrun0 into A3.
    injection H as <-. change (states_count c5 < 4294967296) in Hb.
    added A1. added A2. added A3.
    assert (C1 : states_count c1 < 4294967296).
    { pose proof (pop_count _ _ _ P1). lia. }
    destruct (IH _ _ _ _ H1 C1) as (d1 & T1 & E1 & _ & R1 & G1).
    destruct (pop_after c _ _ _ _ _ T1 P1) as (-> & S2 & C2 & _).
    assert (Z2 : NFACompiler.size c2 = states_count c2)
      by (apply size_small; lia).
    assert (Z2' : NFACompiler.size (NFACompiler.new_state NFA.fresh c2)
                  = states_count c2 + 1)
      by (rewrite size_small; rewrite new_state_count; lia).
    rewrite Z2, Z2' in *.
    eexists. apply fragment_intro; [simpl in *; congruence|lia| |lia|lia].
    rewrite Hother1 by lia. rewrite Hother0 by lia. rewrite Hother by lia.
    rewrite <- (new_state_count NFA.fresh c2). apply new_state_last.
  - (* OPTIONAL_REPETITION *)
    next_call H. rename a into c1, Hrun0 into H1.
    next_call H. destruct a as [d c2]. rename Hrun0 into P1.
    next_call H. rename a into c3, Hrun0 into A1.
    next_call H. rename a into c4, Hrun0 into A2.
    next_call H. rename a into c5, Hrun0 into A3.
    injection H as <-. change (states_count c5 < 4294967296) in Hb.
    added A1. added A2. added A3.
    assert (C1 : states_count c1 < 4294967296).
    { pose proof (pop_count _ _ _ P1). lia. }
    destruct (IH _ _ _ _ H1 C1) as (d1 & T1 & E1 & _ & R1 & G1).
    destruct (pop_after c _ _ _ _ _ T1 P1) as (-> & S2 & C2 & _).
    assert (Z2 : NFACompiler.size c2 = states_count c2)
      by (apply size_small; lia).
    assert (Z2' : NFACompiler.size (NFACompiler.new_state NFA.fresh c2)
                  = states_count c2 + 1)
      by (rewrite size_small; rewrite new_state_count; lia).
    rewrite Z2, Z2' in *.
    eexists. apply fragment_intro; [simpl in *; congruence|lia| |lia|lia].
    rewrite Hother1 by lia. rewrite Hother0 by lia. rewrite Hother by lia.
    rewrite <- (new_state_count NFA.fresh c2). apply new_state_last.
  - (* OPTIONAL *)
    next_call H. rename a into c1, Hrun0 into H1.
    next_call H. destruct a as [d c2]. rename Hrun0 into P1.
    next_call H. rename a into c3, Hrun0 into A1.
    next_call H. rename a into c4, Hrun0 into A2.
    next_call H. rename a into c5, Hrun0 into A3.
    injection H as <-. change (states_count c5 < 4294967296) in Hb.
    added A1. added A2. added A3.
    assert (C1 : states_count c1 < 4294967296).
    { pose proof (pop_count _ _ _ P1). lia. }
    destruct (IH _ _ _ _ H1 C1) as (d1 & T1 & E1 & _ & R1 & G1).
    destruct (pop_after c _ _ _ _ _ T1 P1) as (-> & S2 & C2 & _).
    assert (Z2 : NFACompiler.size c2 = states_count c2)
      by (apply size_small; lia).
    assert (Z2' : NFACompiler.size (NFACompiler.new_state NFA.fresh c2)
                  = states_count c2 + 1)
      by (rewrite size_small; rewrite new_state_count; lia).
    rewrite Z2, Z2' in *.
    eexists. apply fragment_intro; [simpl in *; congruence|lia| |lia|lia].
    rewrite Hother1 by lia. rewrite Hother0 by lia. rewrite Hother by lia.
    rewrite <- (new_state_count NFA.fresh c2). apply new_state_last.
  - (* ATOM *)
    next_call H. rename a into c1, Hrun0 into A1.
    injection H as <-. change (states_count c1 < 4294967296) in Hb.
    added A1.
    assert (Z0 : NFACompiler.size c = states_count c)
      by (apply size_small; lia).
    assert (Z0' : NFACompiler.size (NFACompiler.new_state NFA.fresh c)
                  = states_count c + 1)
      by (rewrite size_small; rewrite new_state_count; lia).
    rewrite Z0, Z0' in *.
    pose proof (Zle_0_nat (length (NFA.states (NFACompiler.machine c)))) as Hp.
    fold (states_count c) in Hp.
    eexists. apply fragment_intro; [simpl in *; congruence|lia| |lia|lia].
    rewrite Hother by lia.
    rewrite <- (new_state_count NFA.fresh c). apply new_state_last.
Qed.

(* ================================================================= *)
(** ** The engine: what a run changes and what it depends on *)

Lemma shape_idempotent (m : NFA.t) : shape (shape m) = shape m.
Proof.
  unfold shape, NFAEngine.clear_stamps. simpl. f_equal.
  rewrite map_map. reflexivity.
Qed.

Lemma stamp_shape (i c : Z) (m m' : NFA.t) :
  NFAEngine.stamp i c m = Ok m' -> shape m' = shape m.
Proof.
  unfold NFAEngine.stamp. intro H. bind_inv H.
  apply of_option_Ok in Hrun. inversion H; subst; clear H.
  unfold shape, NFAEngine.clear_stamps. simpl. f_equal.
  eapply modify_map; [|eassumption]. reflexivity.
Qed.

Lemma visit_shape (c : Z) (fs : list Z) :
  forall m next m' next',
    NFAEngine.visit c fs m next = Ok (m', next') -> shape m' = shape m.
Proof.
  induction fs as [|f fs IH]; simpl; intros m next m' next' H.
  - inversion H; reflexivity.
  - bind_inv H. destruct (negb (NFA.last_exec a =? c)).
    + bind_inv H. apply IH in H. apply stamp_shape in Hrun0. congruence.
    + eauto.
Qed.

Lemma step_loop_shape (subject : Subject) (fuel : nat) :
  forall i e e',
    NFAEngine.step_loop fuel subject i e = Ok e' ->
    shape (NFAEngine.machine e') = shape (NFAEngine.machine e).
Proof.
  induction fuel as [|fuel IH]; simpl; intros i e e' H; [discriminate|].
  destruct (i <? Z.of_nat (length (NFAEngine.cur_states e))).
  - bind_inv H. bind_inv H. bind_inv H. destruct a1 as [m next].
    apply IH in H. simpl in H. rewrite H.
    destruct (NFA.find (subject (NFAEngine.ptr e)) (NFA.transitions a0)).
    + eapply visit_shape; eassumption.
    + inversion Hrun1; reflexivity.
  - inversion H; reflexivity.
Qed.

Lemma step_shape (subject : Subject) (fuel : nat) (e e' : NFAEngine.t) :
  NFAEngine.step fuel subject e = Ok e' ->
  shape (NFAEngine.machine e') = shape (NFAEngine.machine e).
Proof.
  unfold NFAEngine.step. intro H. bind_inv H.
  apply step_loop_shape in Hrun. inversion H; subst; clear H. exact Hrun.
Qed.

Lemma run_shape (subject : Subject) (fuel : nat) :
  forall e b e',
    NFAEngine.run fuel subject e = Ok (b, e') ->
    shape (NFAEngine.machine e') = shape (NFAEngine.machine e).
Proof.
  induction fuel as [|fuel IH]; simpl; intros e b e' H; [discriminate|].
  bind_inv H. destruct a.
  - inversion H; reflexivity.
  - destruct (NFAEngine.next_states e) as [|s rest].
    + inversion H; reflexivity.
    + bind_inv H. apply IH in H. apply step_shape in Hrun0.
      simpl in Hrun0. congruence.
Qed.

(** A completed [execute] changes nothing of the machine but the stamps. *)
Lemma execute_shape (fuel : nat) (e : NFAEngine.t) (text : Subject) b e' :
  NFAEngine.execute fuel e text = Ok (b, e') ->
  shape (NFAEngine.machine e') = shape (NFAEngine.machine e).
Proof.
  unfold NFAEngine.execute. intro H. apply run_shape in H. simpl in H.
  rewrite H. apply shape_idempotent.
Qed.

(** [execute] looks at the engine it is called on through the shape of
    its machine only. *)
Lemma execute_reset (fuel : nat) (e1 e2 : NFAEngine.t) (text : Subject) :
  shape (NFAEngine.machine e1) = shape (NFAEngine.machine e2) ->
  NFAEngine.execute fuel e1 text = NFAEngine.execute fuel e2 text.
Proof.
  unfold NFAEngine.execute, shape. intro H. rewrite H. reflexivity.
Qed.

Lemma earlier_runs_shape (e e' : NFAEngine.t) :
  earlier_runs e e' ->
  shape (NFAEngine.machine e') = shape (NFAEngine.machine e).
Proof.
  induction 1 as [e|e fuel text b e1 e2 Hex _ IH]; [reflexivity|].
  apply execute_shape in Hex. congruence.
Qed.

(** *** A larger budget does not change a result *)

Lemma step_loop_more_fuel (subject : Subject) (fuel : nat) :
  forall fuel' i e e',
    (fuel <= fuel')%nat ->
    NFAEngine.step_loop fuel subject i e = Ok e' ->
    NFAEngine.step_loop fuel' subject i e = Ok e'.
Proof.
  induction fuel as [|fuel IH]; simpl; intros fuel' i e e' Hle H;
    [discriminate|].
  destruct fuel' as [|fuel']; [lia|]. simpl.
  destruct (i <? Z.of_nat (length (NFAEngine.cur_states e))); [|exact H].
  bind_inv H. rewrite Hrun. simpl.
  bind_inv H. rewrite Hrun0. simpl.
  bind_inv H. rewrite Hrun1. simpl. destruct a1 as [m next].
  apply IH; [lia|exact H].
Qed.

Lemma step_more_fuel (subject : Subject) (fuel fuel' : nat) e e' :
  (fuel <= fuel')%nat ->
  NFAEngine.step fuel subject e = Ok e' ->
  NFAEngine.step fuel' subject e = Ok e'.
Proof.
  unfold NFAEngine.step. intros Hle H. bind_inv H.
  erewrite step_loop_more_fuel by eassumption. exact H.
Qed.

Lemma run_more_fuel (subject : Subject) (fuel : nat) :
  forall fuel' e r,
    (fuel <= fuel')%nat ->
    NFAEngine.run fuel subject e = Ok r ->
    NFAEngine.run fuel' subject e = Ok r.
Proof.
  induction fuel as [|fuel IH]; simpl; intros fuel' e r Hle H;
    [discriminate|].
  destruct fuel' as [|fuel']; [lia|]. simpl.
  bind_inv H. rewrite Hrun. simpl. destruct a; [exact H|].
  destruct (NFAEngine.next_states e) as [|s rest]; [exact H|].
  bind_inv H. erewrite step_more_fuel; [|shelve|eassumption]. simpl.
  apply IH; [lia|exact H].
  Unshelve. lia.
Qed.

Lemma matches_more_fuel (fuel fuel' : nat) (nfa : NFA.t) (text : Subject) b :
  (fuel <= fuel')%nat ->
  matches fuel nfa text = Ok b -> matches fuel' nfa text = Ok b.
Proof.
  unfold matches, NFAEngine.execute. intros Hle H. bind_inv H.
  erewrite run_more_fuel by eassumption. exact H.
Qed.

(** The verdict does not depend on the budget that produced it. *)
Lemma verdict_unique (nfa : NFA.t) (text : Subject) (b b' : bool) :
  verdict nfa text b -> verdict nfa text b' -> b = b'.
Proof.
  intros [f Hf] [f' Hf'].
  apply (matches_more_fuel f (Nat.max f f')) in Hf; [|lia].
  apply (matches_more_fuel f' (Nat.max f f')) in Hf'; [|lia].
  congruence.
Qed.

Lemma diverges_no_verdict (nfa : NFA.t) (text : Subject) (b : bool) :
  diverges nfa text -> ~ verdict nfa text b.
Proof.
  intros Hd [f Hf]. rewrite (Hd f) in Hf. discriminate.
Qed.

(** *** Epsilon cycles *)

Lemma In_index {A : Type} (v : list A) (x : A) :
  In x v -> exists k, 0 <= k /\ index v k = Some x.
Proof.
  induction v as [|y v IH]; simpl; intros H; [contradiction|].
  destruct H as [->|H].
  - exists 0. split; [lia|reflexivity].
  - destruct (IH H) as (k & Hk & Hi). exists (k + 1). split; [lia|].
    destruct (Z.eqb_spec (k + 1) 0); [lia|].
    replace (k + 1 - 1) with k by lia. exact Hi.
Qed.

Lemma find_In (c : Z) (ts : list NFA.Transition) (t : NFA.Transition) :
  NFA.find c ts = Some t -> In t ts.
Proof.
  induction ts as [|t' ts IH]; simpl; intro H; [discriminate|].
  destruct (NFA.symbol t' =? c); [inversion H; auto|auto].
Qed.

Lemma transitions_of_shape (m : NFA.t) (s : Z) :
  transitions_of (shape m) s = transitions_of m s.
Proof.
  unfold transitions_of, shape, NFAEngine.clear_stamps. simpl.
  rewrite index_map. destruct (index (NFA.states m) s); reflexivity.
Qed.

Lemma shape_length (m m' : NFA.t) :
  shape m = shape m' -> length (NFA.states m) = length (NFA.states m').
Proof.
  unfold shape, NFAEngine.clear_stamps. intro H. inversion H as [[H1 H2]].
  apply (f_equal (@length _)) in H1. rewrite !length_map in H1. exact H1.
Qed.

Lemma shape_transitions (m m' : NFA.t) (s : Z) (st : NFA.State) :
  shape m = shape m' ->
  index (NFA.states m) s = Some st ->
  NFA.transitions st = transitions_of m' s.
Proof.
  intros Hs Hi. rewrite <- transitions_of_shape, <- Hs, transitions_of_shape.
  unfold transitions_of. rewrite Hi. reflexivity.
Qed.

Lemma closed_futures (m : NFA.t) (s : Z) (t : NFA.Transition) (f : Z) :
  closed m = true ->
  In t (transitions_of m s) -> In f (NFA.futures t) ->
  0 <= f < Z.of_nat (length (NFA.states m)).
Proof.
  unfold closed, transitions_of. intros Hc Ht Hf.
  destruct (index (NFA.states m) s) as [st|] eqn:E; [|contradiction].
  apply index_In in E.
  rewrite forallb_forall in Hc. specialize (Hc _ E).
  rewrite forallb_forall in Hc. specialize (Hc _ Ht).
  rewrite forallb_forall in Hc. specialize (Hc _ Hf).
  lia.
Qed.

Lemma stamp_length (i c : Z) (m m' : NFA.t) :
  NFAEngine.stamp i c m = Ok m' ->
  length (NFA.states m') = length (NFA.states m).
Proof.
  intro H. apply stamp_shape in H. apply shape_length. exact H.
Qed.

Lemma stamp_in_range (i c : Z) (m : NFA.t) :
  0 <= i < Z.of_nat (length (NFA.states m)) ->
  exists m', NFAEngine.stamp i c m = Ok m'.
Proof.
  intro H. unfold NFAEngine.stamp.
  edestruct (modify_in_range
    (fun st => NFA.mkState c (NFA.flags st) (NFA.transitions st))
    (NFA.states m) i H) as [v' Hv'].
  rewrite Hv'. simpl. eauto.
Qed.

(** [visit] completes when every destination is a state. *)
Lemma visit_completes (c : Z) (fs : list Z) :
  forall m next,
    (forall f, In f fs -> 0 <= f < Z.of_nat (length (NFA.states m))) ->
    exists m' next', NFAEngine.visit c fs m next = Ok (m', next').
Proof.
  induction fs as [|f fs IH]; simpl; intros m next Hfs; [eauto|].
  destruct (index_in_range (NFA.states m) f) as [st Hst]; [auto|].
  rewrite Hst. simpl.
  destruct (negb (NFA.last_exec st =? c)); [|apply IH; auto].
  destruct (stamp_in_range f c m) as [m1 Hm1]; [auto|].
  rewrite Hm1. simpl. apply IH.
  intros g Hg. rewrite (stamp_length _ _ _ _ Hm1). auto.
Qed.

Section EpsilonTrap.

Variable nfa : NFA.t.
Variable trap : list Z.
Variable subject : Subject.
Hypothesis nfa_closed : closed nfa = true.
Hypothesis trap_closed : epsilon_trap nfa trap = true.

Lemma trap_successor (s : Z) :
  In s trap ->
  exists t f, NFA.find NFA.EPSILON (transitions_of nfa s) = Some t /\
              In f (NFA.futures t) /\ In f trap.
Proof.
  intro Hs. unfold epsilon_trap in trap_closed.
  rewrite forallb_forall in trap_closed. specialize (trap_closed _ Hs).
  apply existsb_exists in trap_closed. destruct trap_closed as (f & Hf & Hin).
  apply existsb_exists in Hin. destruct Hin as (g & Hg & Heq).
  apply Z.eqb_eq in Heq. subst g.
  unfold epsilon_futures in Hf.
  destruct (NFA.find NFA.EPSILON (transitions_of nfa s)) as [t|];
    [|contradiction].
  eauto.
Qed.

Lemma trap_is_state (s : Z) :
  In s trap -> 0 <= s < Z.of_nat (length (NFA.states nfa)).
Proof.
  intro Hs. destruct (trap_successor s Hs) as (t & f & Hfind & _ & _).
  unfold transitions_of in Hfind.
  destruct (index (NFA.states nfa) s) eqn:E; [|discriminate].
  eapply index_range; eassumption.
Qed.

Lemma trapped_forever (fuel : nat) :
  forall i e, trapped nfa trap i e ->
              NFAEngine.step_loop fuel subject i e = OutOfFuel.
Proof.
  induction fuel as [|fuel IH]; intros i e (Hshape & Hcur & Hi & Htrap);
    [reflexivity|].
  simpl.
  destruct (Z.ltb_spec i (Z.of_nat (length (NFAEngine.cur_states e))));
    [|lia].
  destruct (index_in_range (NFAEngine.cur_states e) i Hi) as [s Hs].
  rewrite Hs. simpl.
  assert (Hsr : 0 <= s < Z.of_nat (length (NFA.states (NFAEngine.machine e)))).
  { rewrite (shape_length _ _ Hshape). apply Hcur.
    eapply index_In; eassumption. }
  destruct (index_in_range _ s Hsr) as [st Hst].
  rewrite Hst. simpl.
  pose proof (shape_transitions _ _ _ _ Hshape Hst) as Htr.
  rewrite Htr.
  (* the symbol step completes *)
  assert (Hsym : exists m next,
    match NFA.find (subject (NFAEngine.ptr e)) (transitions_of nfa s) with
    | Some t => NFAEngine.visit (NFAEngine.counter e) (NFA.futures t)
                  (NFAEngine.machine e) (NFAEngine.next_states e)
    | None => Ok (NFAEngine.machine e, NFAEngine.next_states e)
    end = Ok (m, next) /\ shape m = shape nfa).
  { destruct (NFA.find (subject (NFAEngine.ptr e)) (transitions_of nfa s))
      as [t|] eqn:Ef.
    - destruct (visit_completes (NFAEngine.counter e) (NFA.futures t)
                  (NFAEngine.machine e) (NFAEngine.next_states e))
        as (m & next & Hv).
      { intros f Hf. rewrite (shape_length _ _ Hshape).
        eapply closed_futures; [exact nfa_closed| |exact Hf].
        eapply find_In; eassumption. }
      exists m, next. split; [exact Hv|].
      apply visit_shape in Hv. congruence.
    - eauto. }
  destruct Hsym as (m & next & Hsym & Hm). rewrite Hsym. simpl.
  apply IH. clear IH Hsym.
  set (cur' := match NFA.find NFA.EPSILON (transitions_of nfa s) with
               | Some t => NFAEngine.cur_states e ++ NFA.futures t
               | None => NFAEngine.cur_states e
               end).
  assert (Hlen : Z.of_nat (length (NFAEngine.cur_states e))
                 <= Z.of_nat (length cur')).
  { subst cur'. destruct (NFA.find NFA.EPSILON (transitions_of nfa s));
      [rewrite length_app|]; lia. }
  assert (Hpre : forall j x, index (NFAEngine.cur_states e) j = Some x ->
                             index cur' j = Some x).
  { intros j x Hj. subst cur'.
    destruct (NFA.find NFA.EPSILON (transitions_of nfa s)); [|exact Hj].
    rewrite index_app_l; [exact Hj|]. apply index_range in Hj. lia. }
  unfold trapped. simpl. split; [exact Hm|]. split.
  { intros x Hx. subst cur'.
    destruct (NFA.find NFA.EPSILON (transitions_of nfa s)) as [t|] eqn:Ef;
      [|auto].
    apply in_app_or in Hx. destruct Hx as [Hx|Hx]; [auto|].
    eapply closed_futures; [exact nfa_closed| |exact Hx].
    eapply find_In; eassumption. }
  pose proof (wrap32_range (i + 1)) as Hw.
  destruct (Z.le_gt_cases 4294967296 (Z.of_nat (length cur'))) as [Hbig|Hsmall].
  { split; [lia|]. left. exact Hbig. }
  rewrite wrap32_small by lia.
  destruct Htrap as [Hbig|(j & x & Hj & Hx & Hin)]; [lia|].
  destruct (Z.eq_dec j i) as [->|Hne].
  - (* the entry being expanded is in the trap: its successor is appended *)
    assert (x = s) by congruence. subst x.
    destruct (trap_successor s Hin) as (t & f & Hfind & Hf & Hft).
    subst cur'. rewrite Hfind in *.
    destruct (In_index _ _ Hf) as (k & Hk & Hik).
    pose proof (index_range _ _ _ Hik) as Hkr.
    rewrite length_app in *.
    split; [lia|]. right.
    exists (Z.of_nat (length (NFAEngine.cur_states e)) + k), f.
    split; [lia|]. split; [|exact Hft].
    rewrite index_app_r by lia.
    replace (Z.of_nat (length (NFAEngine.cur_states e)) + k
             - Z.of_nat (length (NFAEngine.cur_states e))) with k by lia.
    exact Hik.
  - pose proof (index_range _ _ _ Hx) as Hjr.
    split; [lia|]. right. exists j, x.
    split; [lia|]. split; [auto|exact Hin].
Qed.

End EpsilonTrap.

(** An automaton whose start state lies in an epsilon trap: the closure
    expansion of the first step never ends, on any subject. *)
Lemma epsilon_trap_diverges (nfa : NFA.t) (trap : list Z) :
  closed (shape nfa) = true ->
  epsilon_trap (shape nfa) trap = true ->
  In (NFA.start_state nfa) trap ->
  forall text, diverges nfa text.
Proof.
  intros Hc Ht Hs text fuel.
  unfold matches, NFAEngine.execute.
  destruct fuel as [|fuel]; [reflexivity|].
  cbn [NFAEngine.run NFAEngine.accepting NFAEngine.attach NFAEngine.machine
       NFAEngine.cur_states NFAEngine.next_states bind].
  unfold NFAEngine.step.
  rewrite (trapped_forever (shape nfa) trap text Hc Ht); [reflexivity|].
  unfold trapped. simpl. split; [reflexivity|]. split.
  { intros s [<-|[]].
    apply (trap_is_state (shape nfa) trap Ht).
    exact Hs. }
  split; [lia|]. right. exists 0, (NFA.start_state nfa).
  split; [lia|]. split; [reflexivity|exact Hs].
Qed.

(** *** The offsets the pointer is read at *)

Lemma step_loop_reads (subject : Subject) (fuel : nat) :
  forall i e e',
    NFAEngine.step_loop fuel subject i e = Ok e' ->
    NFAEngine.ptr e' = NFAEngine.ptr e /\
    (forall off, In off (NFAEngine.reads e) -> In off (NFAEngine.reads e')) /\
    (0 <= i < Z.of_nat (length (NFAEngine.cur_states e)) ->
     In (NFAEngine.ptr e) (NFAEngine.reads e')).
Proof.
  induction fuel as [|fuel IH]; simpl; intros i e e' H; [discriminate|].
  destruct (Z.ltb_spec i (Z.of_nat (length (NFAEngine.cur_states e)))).
  - bind_inv H. bind_inv H. bind_inv H. destruct a1 as [m next].
    apply IH in H. simpl in H. destruct H as (Hp & Hin & _).
    split; [exact Hp|]. split; [intros off Hoff; apply Hin; right; exact Hoff|].
    intros _. apply Hin. left. reflexivity.
  - injection H as <-. split; [reflexivity|]. split; [auto|lia].
Qed.

Lemma step_reads (subject : Subject) (fuel : nat) (e e' : NFAEngine.t) :
  NFAEngine.step fuel subject e = Ok e' ->
  (forall off, In off (NFAEngine.reads e) -> In off (NFAEngine.reads e')) /\
  (NFAEngine.cur_states e <> [] ->
   In (NFAEngine.ptr e) (NFAEngine.reads e')).
Proof.
  unfold NFAEngine.step. intro H. bind_inv H. injection H as <-. simpl.
  apply step_loop_reads in Hrun. simpl in Hrun.
  destruct Hrun as (_ & Hin & Hfirst). split; [exact Hin|].
  intro Hne. apply Hfirst.
  destruct (NFAEngine.cur_states e); [congruence|]. simpl length. lia.
Qed.

(** Every step moves the pointer by one, whatever it has read. *)
Lemma step_advances (subject : Subject) (fuel : nat) (e e' : NFAEngine.t) :
  NFAEngine.step fuel subject e = Ok e' ->
  NFAEngine.ptr e' = S (NFAEngine.ptr e).
Proof.
  unfold NFAEngine.step. intro H. bind_inv H. injection H as <-. simpl.
  apply step_loop_reads in Hrun. destruct Hrun as (Hp & _). rewrite Hp.
  reflexivity.
Qed.

Lemma run_reads (subject : Subject) (fuel : nat) :
  forall e b e',
    NFAEngine.run fuel subject e = Ok (b, e') ->
    forall off, In off (NFAEngine.reads e) -> In off (NFAEngine.reads e').
Proof.
  induction fuel as [|fuel IH]; simpl; intros e b e' H; [discriminate|].
  bind_inv H. destruct a; [injection H as _ <-; auto|].
  destruct (NFAEngine.next_states e) as [|s rest];
    [injection H as _ <-; auto|].
  bind_inv H. intros off Hoff. eapply IH; [eassumption|].
  apply step_reads in Hrun0. apply Hrun0. exact Hoff.
Qed.

Lemma step_fuel_agree (subject : Subject) (f1 f2 : nat) (e a b : NFAEngine.t) :
  NFAEngine.step f1 subject e = Ok a -> NFAEngine.step f2 subject e = Ok b ->
  a = b.
Proof.
  intros H1 H2.
  apply (step_more_fuel subject f1 (Nat.max f1 f2)) in H1; [|lia].
  apply (step_more_fuel subject f2 (Nat.max f1 f2)) in H2; [|lia].
  congruence.
Qed.

(** A run that has returned from a frontier without accepting state and
    with a non-empty next frontier has taken a step. *)
Lemma run_next_step (subject : Subject) (fuel : nat) (e : NFAEngine.t) r :
  NFAEngine.run fuel subject e = Ok r ->
  NFAEngine.accepting (NFAEngine.machine e) (NFAEngine.cur_states e)
    = Ok false ->
  NFAEngine.next_states e <> [] ->
  exists fuel' a,
    NFAEngine.step fuel' subject (swapped e) = Ok a /\
    NFAEngine.run fuel' subject a = Ok r.
Proof.
  intros H Hacc Hnext. destruct fuel as [|fuel]; [discriminate|].
  simpl in H. rewrite Hacc in H. simpl in H.
  destruct (NFAEngine.next_states e) as [|s rest] eqn:E; [congruence|].
  bind_inv H. exists fuel, a. unfold swapped. rewrite E. auto.
Qed.

(** On the automaton of ["a|b"] and the subject ["c"], whatever follows
    the subject in memory: after the step on [c] and the step on the NUL
    the frontier has no accepting state, the next frontier is not empty
    and the pointer is at offset 2. *)
Lemma a_or_b_on_c_two_steps (beyond : nat -> Z) :
  exists e1 e2,
    NFAEngine.step 50 (c_string (chars "c") beyond)
      (swapped (started nfa_a_or_b)) = Ok e1 /\
    NFAEngine.accepting (NFAEngine.machine e1) (NFAEngine.cur_states e1)
      = Ok false /\
    NFAEngine.next_states e1 <> [] /\
    NFAEngine.step 50 (c_string (chars "c") beyond) (swapped e1) = Ok e2 /\
    NFAEngine.accepting (NFAEngine.machine e2) (NFAEngine.cur_states e2)
      = Ok false /\
    NFAEngine.next_states e2 <> [] /\
    NFAEngine.ptr e2 = 2%nat.
Proof.
  eexists. eexists.
  split; [vm_compute; reflexivity|].
  split; [vm_compute; reflexivity|].
  split; [vm_compute; discriminate|].
  split; [vm_compute; reflexivity|].
  split; [vm_compute; reflexivity|].
  split; [vm_compute; discriminate|].
  vm_compute; reflexivity.
Qed.

(** So a call that returns has read the offset after the NUL. *)
Lemma a_or_b_on_c_reads_past (beyond : nat -> Z) (fuel : nat) (b : bool)
    (e : NFAEngine.t) :
  NFAEngine.execute fuel (NFAEngine.attach nfa_a_or_b)
    (c_string (chars "c") beyond) = Ok (b, e) ->
  In 2%nat (NFAEngine.reads e).
Proof.
  intro H. change (NFAEngine.run fuel (c_string (chars "c") beyond)
                     (started nfa_a_or_b) = Ok (b, e)) in H.
  destruct (a_or_b_on_c_two_steps beyond)
    as (e1 & e2 & S1 & A1 & N1 & S2 & A2 & N2 & P2).
  apply run_next_step in H; [|reflexivity|discriminate].
  destruct H as (f1 & a1 & Hs1 & H).
  rewrite (step_fuel_agree _ _ _ _ _ _ Hs1 S1) in H. clear Hs1 a1.
  apply run_next_step in H; [|exact A1|exact N1].
  destruct H as (f2 & a2 & Hs2 & H).
  rewrite (step_fuel_agree _ _ _ _ _ _ Hs2 S2) in H. clear Hs2 a2.
  apply run_next_step in H; [|exact A2|exact N2].
  destruct H as (f3 & a3 & Hs3 & H).
  apply step_reads in Hs3. destruct Hs3 as [_ Hs3].
  eapply run_reads; [exact H|].
  change (NFAEngine.ptr (swapped e2)) with (NFAEngine.ptr e2) in Hs3.
  rewrite P2 in Hs3. apply Hs3. exact N2.
Qed.

(* ================================================================= *)
(** ** The claims *)

(** Solves [compiles_to pattern ?nfa] by running the parser, then the
    compiler on the tree it returned. *)
Ltac compiled :=
  eexists; split; [vm_compute; reflexivity | vm_compute; reflexivity].

(** C1.  [matches] is not total on compiled patterns.  The automaton of
    ["(a?)*"] has an epsilon cycle, and the closure expansion of [step]
    never ends on it, whatever the subject.  On the automaton of ["a|b"]
    and the subject ["c"] the scan state survives the NUL and the engine
    steps on into the bytes after the subject: a call that returns has
    read the offset after the NUL, and it returns [true] when a [b] lies
    there. *)
Theorem matches_not_total :
  (exists nfa, compiles_to (chars "(a?)*") nfa /\
               forall text, diverges nfa text) /\
  (compiles_to (chars "a|b") nfa_a_or_b /\
   verdict nfa_a_or_b (c_string (chars "c") (fun _ => 98)) true /\
   forall beyond fuel b e,
     NFAEngine.execute fuel (NFAEngine.attach nfa_a_or_b)
       (c_string (chars "c") beyond) = Ok (b, e) ->
     In 2%nat (NFAEngine.reads e)).
Proof.
  split.
  - eexists. split; [compiled|].
    apply (epsilon_trap_diverges _ [6; 4; 2; 3]).
    + vm_compute; reflexivity.
    + vm_compute; reflexivity.
    + simpl; auto.
  - split; [compiled|]. split.
    + exists 50%nat. vm_compute; reflexivity.
    + apply a_or_b_on_c_reads_past.
Qed.

(** C2.  No case of [compile_tree] is special for the empty arena: the
    empty pattern parses to an empty arena, and [compile_tree] starts by
    reading [nodes[nodes.size() - 1]], which is out of range. *)
Theorem empty_tree_faults :
  parse_pattern (chars "") = Ok (true, mkParseTree 0 []) /\
  (forall fuel flags c,
     NFACompiler.compile_tree (S fuel) (mkParseTree flags []) c = Fault) /\
  (forall flags, NFACompiler.compile (mkParseTree flags []) = Fault).
Proof.
  split; [vm_compute; reflexivity|]. split; reflexivity.
Qed.

(** C3, as stated, fails: the accept state of the operand of a starred
    node has an epsilon edge to the start state of the fragment only, and
    none to its accept state.  In the fragment (2, 3) built for ["a*"]
    the operand is the fragment (0, 1). *)
Lemma star_operand_has_no_edge_to_accept :
  NFACompiler.emit_node 2 star_a_nodes 1 empty_compiler = Ok star_a_compiled /\
  NFACompiler.node_stack star_a_compiled = [NFACompiler.mkNodeData 2 3] /\
  epsilon_futures (NFACompiler.machine star_a_compiled) 1 = [2] /\
  ~ In 3 (epsilon_futures (NFACompiler.machine star_a_compiled) 1).
Proof.
  split; [vm_compute; reflexivity|]. split; [reflexivity|].
  split; [reflexivity|]. simpl. intros [H|[]]. discriminate.
Qed.

(** C3, amended.  For a node [OPTIONAL_REPETITION first], [emit_node]
    emits the operand, which leaves a fragment [x], and adds two states
    [start] and [accept] after it, wired exactly so: [start] has the one
    transition epsilon to [x.start, accept]; the accept state of [x] has
    the one transition epsilon to [start]; [accept] has no transition;
    no other state is touched.  The operand's accept state reaches
    [accept] through [start], not by an edge of its own. *)
Theorem optional_repetition_wiring (fuel : nat) (nodes : list Node)
    (node first : Z) (c c' : NFACompiler.t) :
  index nodes node = Some (OPTIONAL_REPETITION first) ->
  NFACompiler.emit_node (S fuel) nodes node c = Ok c' ->
  states_count c' < 4294967296 ->
  exists c1 x,
    NFACompiler.emit_node fuel nodes first c = Ok c1 /\
    fragment_of c c1 x /\
    let start := states_count c1 in
    let accept := states_count c1 + 1 in
    fragment_of c c' (NFACompiler.mkNodeData start accept) /\
    states_count c' = states_count c1 + 2 /\
    transitions_of (NFACompiler.machine c') start
      = [NFA.mkTransition NFA.EPSILON [NFACompiler.start_state x; accept]] /\
    transitions_of (NFACompiler.machine c') (NFACompiler.accept_state x)
      = [NFA.mkTransition NFA.EPSILON [start]] /\
    transitions_of (NFACompiler.machine c') accept = [] /\
    (forall s, s < states_count c1 -> s <> NFACompiler.accept_state x ->
       index (NFA.states (NFACompiler.machine c')) s
       = index (NFA.states (NFACompiler.machine c1)) s).
Proof.
  intros Hn H Hb. rewrite emit_node_S, Hn in H.
  cbv beta iota delta [of_option bind] in H. fold (@bind NFACompiler.t NFACompiler.t) in H.
  next_call H. rename a into c1, Hrun into H1.
  next_call H. destruct a as [d c2]. rename Hrun into P1.
  next_call H. rename a into c3, Hrun into A1.
  next_call H. rename a into c4, Hrun into A2.
  next_call H. rename a into c5, Hrun into A3.
  injection H as <-. change (states_count c5 < 4294967296) in Hb.
  added A1. added A2. added A3.
  assert (C1 : states_count c1 < 4294967296).
  { pose proof (pop_count _ _ _ P1). lia. }
  destruct (emit_node_spec _ _ _ _ _ H1 C1) as (x & F1).
  pose proof F1 as (T1 & E1 & I1 & R1 & G1).
  destruct (pop_after c _ _ _ _ _ T1 P1) as (-> & S2 & C2 & M2).
  assert (Z2 : NFACompiler.size c2 = states_count c2)
    by (apply size_small; lia).
  assert (Z2' : NFACompiler.size (NFACompiler.new_state NFA.fresh c2)
                = states_count c2 + 1)
    by (rewrite size_small; rewrite new_state_count; lia).
  rewrite Z2, Z2', C2 in *.
  exists c1, x. split; [exact H1|]. split; [exact F1|]. cbv zeta.
  assert (Hacc : index (NFA.states (NFACompiler.machine c5))
                       (states_count c1 + 1) = Some NFA.fresh).
  { rewrite Hother1 by lia. rewrite Hother0 by lia. rewrite Hother by lia.
    rewrite <- C2, <- (new_state_count NFA.fresh c2). apply new_state_last. }
  assert (Hold_x : forall s, s < states_count c1 ->
            index (NFA.states (NFACompiler.machine
                     (NFACompiler.new_state NFA.fresh
                        (NFACompiler.new_state NFA.fresh c2)))) s
            = index (NFA.states (NFACompiler.machine c1)) s).
  { intros s Hs. rewrite new_state_old by (rewrite new_state_count; lia).
    rewrite new_state_old by lia. rewrite M2. reflexivity. }
  split; [|split; [change (states_count c5 = states_count c1 + 2); lia
                  |split; [|split; [|split]]]].
  - apply fragment_intro; [simpl in *; congruence|lia|exact Hacc|lia|lia].
  - (* the start state *)
    unfold transitions_of. simpl NFACompiler.machine.
    rewrite Hother1 by lia. rewrite Hnew0.
    rewrite Hold0 in Hnew. injection Hnew as ->.
    rewrite new_state_old in Hold by (rewrite new_state_count; lia).
    rewrite <- C2 in Hold. rewrite new_state_last in Hold.
    injection Hold as <-. reflexivity.
  - (* the accept state of the operand *)
    unfold transitions_of. simpl NFACompiler.machine. rewrite Hnew1.
    rewrite Hother0 in Hold1 by lia. rewrite Hother in Hold1 by lia.
    rewrite Hold_x in Hold1 by lia. rewrite I1 in Hold1.
    injection Hold1 as <-. reflexivity.
  - unfold transitions_of. simpl NFACompiler.machine. rewrite Hacc.
    reflexivity.
  - intros s Hs Hne. simpl NFACompiler.machine.
    rewrite Hother1 by exact Hne. rewrite Hother0 by lia.
    rewrite Hother by lia. apply Hold_x. exact Hs.
Qed.

Lemma optional_repetition_wiring_witness :
  index star_a_nodes 1 = Some (OPTIONAL_REPETITION 0) /\
  NFACompiler.emit_node 2 star_a_nodes 1 empty_compiler = Ok star_a_compiled /\
  states_count star_a_compiled < 4294967296 /\
  exists c1 x,
    NFACompiler.emit_node 1 star_a_nodes 0 empty_compiler = Ok c1 /\
    fragment_of empty_compiler c1 x /\
    let start := states_count c1 in
    let accept := states_count c1 + 1 in
    fragment_of empty_compiler star_a_compiled
      (NFACompiler.mkNodeData start accept) /\
    states_count star_a_compiled = states_count c1 + 2 /\
    transitions_of (NFACompiler.machine star_a_compiled) start
      = [NFA.mkTransition NFA.EPSILON [NFACompiler.start_state x; accept]] /\
    transitions_of (NFACompiler.machine star_a_compiled)
      (NFACompiler.accept_state x)
      = [NFA.mkTransition NFA.EPSILON [start]] /\
    transitions_of (NFACompiler.machine star_a_compiled) accept = [] /\
    (forall s, s < states_count c1 -> s <> NFACompiler.accept_state x ->
       index (NFA.states (NFACompiler.machine star_a_compiled)) s
       = index (NFA.states (NFACompiler.machine c1)) s).
Proof.
  assert (Hn : index star_a_nodes 1 = Some (OPTIONAL_REPETITION 0))
    by reflexivity.
  assert (H : NFACompiler.emit_node 2 star_a_nodes 1 empty_compiler
              = Ok star_a_compiled) by (vm_compute; reflexivity).
  assert (Hb : states_count star_a_compiled < 4294967296)
    by (vm_compute; reflexivity).
  split; [exact Hn|]. split; [exact H|]. split; [exact Hb|].
  exact (optional_repetition_wiring 1 star_a_nodes 1 0 empty_compiler
           star_a_compiled Hn H Hb).
Defined.




(** C5, as stated, fails: ["a$b"] is parsed with success, as the one
    atom [a] anchored at the end. *)
Lemma trailing_content_accepted :
  parse_pattern (chars "a$b") = Ok (true, mkParseTree END_ANCHORED [ATOM 97]).
Proof.
  vm_compute. reflexivity.
Qed.

(** C5, amended.  The text after the first [$] of a pattern is never
    read: the pattern is parsed exactly as if it ended with that [$].
    Whatever follows ["a$"], the result is a success with the tree of
    ["a$"]. *)
Theorem dollar_ends_parsing :
  (forall pre rest,
     parse_pattern (pre ++ DOLLAR :: rest) = parse_pattern (pre ++ [DOLLAR])) /\
  (forall rest,
     parse_pattern (chars "a$" ++ rest)
       = Ok (true, mkParseTree END_ANCHORED [ATOM 97])).
Proof.
  split.
  - intros pre rest. apply parse_pattern_upto_dollar.
  - intro rest.
    change (chars "a$" ++ rest) with (chars "a" ++ DOLLAR :: rest).
    rewrite (parse_pattern_upto_dollar (chars "a") rest []).
    vm_compute. reflexivity.
Qed.

(** C6.  The sentinel step advances the pointer like any other: a step
    that returns has moved the pointer by one, whatever it has read.  On
    the automaton of ["^a$"] and the subject ["a"], [execute] returns
    [true] after it has read the offset after the NUL. *)
Theorem reads_past_sentinel :
  (forall fuel subject e e',
     NFAEngine.step fuel subject e = Ok e' ->
     NFAEngine.ptr e' = S (NFAEngine.ptr e)) /\
  exists nfa, compiles_to (chars "^a$") nfa /\
    forall beyond, exists e off,
      NFAEngine.execute 10 (NFAEngine.attach nfa) (c_string (chars "a") beyond)
        = Ok (true, e) /\
      In off (NFAEngine.reads e) /\ (length (chars "a") < off)%nat.
Proof.
  split; [intros fuel subject e e'; apply step_advances|].
  eexists. split; [compiled|].
  intro beyond. eexists. exists 2%nat.
  split; [vm_compute; reflexivity|]. split; [simpl; auto|simpl; lia].
Qed.

(** C7.  The pinned verdicts: the automaton of ["^a$"] accepts ["a"] and
    rejects ["ab"], and the automaton of ["a"] accepts ["xax"], whatever
    bytes follow the subject in memory. *)
Theorem pinned_verdicts :
  (exists nfa, compiles_to (chars "^a$") nfa /\
     (forall beyond, verdict nfa (c_string (chars "a") beyond) true) /\
     (forall beyond, verdict nfa (c_string (chars "ab") beyond) false)) /\
  (exists nfa, compiles_to (chars "a") nfa /\
     (forall beyond, verdict nfa (c_string (chars "xax") beyond) true)).
Proof.
  split.
  - eexists. split; [compiled|].
    split; intro beyond; exists 50%nat; vm_compute; reflexivity.
  - eexists. split; [compiled|].
    intro beyond; exists 50%nat; vm_compute; reflexivity.
Qed.


(** The four patterns that C8 names are among the [malformed] ones. *)
Lemma named_patterns_malformed :
  malformed (chars "(a") /\ malformed (chars "a**") /\
  malformed (chars ".") /\ malformed (chars "a|").
Proof.
  split; [|split; [|split]].
  - apply unmatched_parenthesis; [discriminate|reflexivity].
  - apply (dangling_quantifier (chars "a*") STAR []);
      [repeat constructor; discriminate|reflexivity..].
  - apply (out_of_grammar_char [] (char_of_ascii ".") []);
      [constructor|reflexivity].
  - apply (empty_branch _ (chars "a") []);
      [reflexivity|right; reflexivity|reflexivity].
Qed.

(** So are patterns in which the parenthesis that does not match or the
    empty branch comes anywhere in the body, also behind a group that
    directly follows an operand; and a pattern that closes a parenthesis
    that is not open, whatever else it holds. *)
Lemma more_patterns_malformed :
  (malformed (chars ")") /\ malformed (chars "a)") /\
   malformed (chars "a(|b))") /\ malformed (chars "a(b))(c")) /\
  (malformed (chars "((a)") /\ malformed (chars "a|(b") /\
   malformed (chars "^a(b)|(c") /\ malformed (chars "(a$)")) /\
  (malformed (chars "a|b|") /\ malformed (chars "(a)|") /\
   malformed (chars "a*|") /\ malformed (chars "(a|)") /\
   malformed (chars "a||b") /\ malformed (chars "^a(b)|(|c)$")).
Proof.
  split; [|split].
  - repeat split; apply unopened_parenthesis; reflexivity.
  - repeat split; apply unmatched_parenthesis;
      solve [discriminate|reflexivity].
  - repeat split.
    + apply (empty_branch _ (chars "a|b") []);
        [reflexivity|right; reflexivity|reflexivity].
    + apply (empty_branch _ (chars "(a)") []);
        [reflexivity|right; reflexivity|reflexivity].
    + apply (empty_branch _ (chars "a*") []);
        [reflexivity|right; reflexivity|reflexivity].
    + apply (empty_branch _ (chars "(a") (chars ")"));
        [reflexivity|right; reflexivity|reflexivity].
    + apply (empty_branch _ (chars "a|") (chars "b"));
        [reflexivity|left; reflexivity|reflexivity].
    + apply (empty_branch _ (chars "a(b)|(") (chars "c)"));
        [reflexivity|left; reflexivity|reflexivity].
Qed.

(** What the amended C8 leaves out.  In ["a(b"] and in ["a(b|"] a group
    directly follows an operand and [parse_group] fails on it; the loop
    of [parse_concatenation] takes the failure for the end of the
    concatenation, and [build_parse_tree] returns [true] on a pattern
    with an unmatched parenthesis, and on one with an empty branch as
    well. *)
Lemma overlooked_failure_accepts :
  slips (after_caret (chars "a(b")) = true /\
  nesting 0 (pattern_body (chars "a(b")) = Some 1%nat /\
  parse_pattern (chars "a(b") = Ok (true, mkParseTree 0 [ATOM 97; ATOM 98]) /\
  slips (after_caret (chars "a(b|")) = true /\
  pattern_body (chars "a(b|") = chars "a(b" ++ BAR :: [] /\
  parse_pattern (chars "a(b|") = Ok (true, mkParseTree 0 [ATOM 97; ATOM 98]).
Proof.
  repeat split; vm_compute; reflexivity.
Qed.



(** C9.  Of the two arena invariants the first holds and the second does
    not.  In the arena [build_parse_tree] leaves, every operand index is
    smaller than the index of its node (as long as the arena has fewer
    than 2^32 nodes), so that the highest-indexed node is the operand of
    no node.  But the arena of a successfully parsed pattern need not be
    one tree under that node: ["a(b"] is parsed with success, because the
    failure of the unclosed group ends the loop of [parse_concatenation]
    as if the concatenation were over; the arena is the two atoms, and
    the atom [a] is no descendant of the highest-indexed node. *)
Theorem unclosed_group_leaves_orphan :
  (forall text ok tree,
     parse_pattern text = Ok (ok, tree) ->
     Z.of_nat (length (nodes tree)) < 4294967296 ->
     children_precede (nodes tree) /\
     forall i n, index (nodes tree) i = Some n ->
                 ~ In (Z.of_nat (length (nodes tree)) - 1) (children n)) /\
  parse_pattern (chars "a(b") = Ok (true, mkParseTree 0 [ATOM 97; ATOM 98]) /\
  ~ last_is_root [ATOM 97; ATOM 98].
Proof.
  split; [|split].
  - intros text ok tree H Hb.
    pose proof (parse_pattern_children_precede text ok tree H Hb) as Hc.
    split; [exact Hc|]. intros i n Hi.
    exact (last_node_has_no_parent (nodes tree) i n Hc Hi).
  - vm_compute. reflexivity.
  - intro H. specialize (H 0 ltac:(simpl; lia)). simpl in H.
    inversion H as [|i n k j Hi Hk _]; subst.
    simpl in Hi. injection Hi as <-. destruct Hk.
Qed.

(** What does hold of the runs of one engine: [execute] starts from the
    machine with its stamps cleared, a zero counter and the start state
    alone in the frontier, so its result on one and the same memory is
    the same after any earlier runs of the engine on any texts as on the
    engine they started from. *)
Lemma execute_forgets_earlier_runs (e e' : NFAEngine.t) (fuel : nat)
    (text : Subject) :
  earlier_runs e e' ->
  NFAEngine.execute fuel e' text = NFAEngine.execute fuel e text.
Proof.
  intro H. apply execute_reset. apply earlier_runs_shape. exact H.
Qed.

Lemma execute_forgets_earlier_runs_witness :
  earlier_runs (NFAEngine.attach nfa_anchored_a) engine_after_a /\
  NFAEngine.execute 10 engine_after_a (c_string (chars "ab") zeros)
    = NFAEngine.execute 10 (NFAEngine.attach nfa_anchored_a)
        (c_string (chars "ab") zeros).
Proof.
  assert (H : earlier_runs (NFAEngine.attach nfa_anchored_a) engine_after_a).
  { apply (one_more_run _ 10%nat (c_string (chars "a") zeros) true
             engine_after_a).
    - vm_compute; reflexivity.
    - apply no_run. }
  split; [exact H|].
  apply (execute_forgets_earlier_runs _ _ 10%nat _ H).
Defined.

(** C10.  The verdict of [execute] is not a function of the automaton and
    the text alone.  One engine, attached to the automaton of ["a|b"], is
    run twice in sequence on the C string ["c"]: the two subjects hold
    the same character and the same terminating NUL, and differ only in
    the bytes behind the NUL.  The first run returns [true] (a [b]
    follows the NUL), the second returns [false] (bytes that are no
    character of the pattern follow it): the scan state loops on the
    symbol 0, so the frontier survives the NUL, and [step] moves the
    pointer on and reads what lies behind the text. *)
Theorem verdict_depends_on_bytes_behind_text :
  compiles_to (chars "a|b") nfa_a_or_b /\
  (forall i, (i <= 1)%nat ->
     c_string (chars "c") (fun _ => 98) i
       = c_string (chars "c") (fun _ => -23) i) /\
  exists e1 e2,
    NFAEngine.execute 50 (NFAEngine.attach nfa_a_or_b)
      (c_string (chars "c") (fun _ => 98)) = Ok (true, e1) /\
    NFAEngine.execute 50 e1 (c_string (chars "c") (fun _ => -23))
      = Ok (false, e2).
Proof.
  split; [compiled|]. split.
  - intros [|[|i]] Hi; [reflexivity|reflexivity|lia].
  - eexists. eexists. split.
    + vm_compute. reflexivity.
    + vm_compute. reflexivity.
Qed.

(* ================================================================= *)
(** ** The parser: how much a descent adds to the arena *)

Lemma accounted_refl (p : Parser) : accounted p p false.
Proof.
  split; [exists []; reflexivity|]. split; [reflexivity|].
  split; [exists []; rewrite app_nil_r; split; reflexivity|lia].
Qed.

Lemma accounted_weaken (p p' : Parser) (ok : bool) :
  accounted p p' ok -> accounted p p' false.
Proof.
  intros (Hs & Hf & Ha & Hw). repeat split; try assumption.
  destruct ok; lia.
Qed.

Lemma accounted_trans (p1 p2 p3 : Parser) (ok1 ok2 : bool) :
  accounted p1 p2 ok1 -> accounted p2 p3 ok2 ->
  accounted p1 p3 (ok1 || ok2).
Proof.
  intros ((s1 & Hs1) & Hf1 & (a1 & Ha1 & Hk1) & Hw1)
         ((s2 & Hs2) & Hf2 & (a2 & Ha2 & Hk2) & Hw2).
  split; [exists (s1 ++ s2); rewrite <- app_assoc; congruence|].
  split; [congruence|].
  split.
  - exists (a1 ++ a2). rewrite app_assoc, <- Ha1, <- Ha2.
    split; [reflexivity|]. rewrite forallb_app, Hk1, Hk2. reflexivity.
  - destruct ok1, ok2; simpl; lia.
Qed.

Lemma accounted_advance (p : Parser) :
  peek p <> 0 -> accounted p (advance p) true.
Proof.
  intro H. pose proof (peek_cons p H) as Hc.
  split; [exists [peek p]; exact Hc|]. split; [reflexivity|].
  split; [exists []; rewrite app_nil_r; split; reflexivity|].
  pose proof (advance_length p H) as Hl.
  unfold weight, advance in *. simpl in *. lia.
Qed.

Lemma accounted_emplace_back (node : Node) (p p1 : Parser) :
  accounted p p1 true -> atom_ok node = true ->
  accounted p (emplace_back node p1) false.
Proof.
  intros ((s1 & Hs1) & Hf1 & (a1 & Ha1 & Hk1) & Hw1) Hn.
  split; [exists s1; exact Hs1|]. split; [exact Hf1|].
  split.
  - exists (a1 ++ [node]). simpl. rewrite Ha1, <- app_assoc.
    split; [reflexivity|]. rewrite forallb_app, Hk1. simpl. rewrite Hn.
    reflexivity.
  - unfold weight in *. simpl. rewrite length_app. simpl. lia.
Qed.

Lemma accounted_atom (p : Parser) :
  is_unit_char (peek p) = true ->
  accounted p (advance (emplace_back (ATOM (peek p)) p)) true.
Proof.
  intro Hu. destruct (is_unit_char_consumable _ Hu) as (H0 & _).
  pose proof (peek_cons p H0) as Hc.
  split; [exists [peek p]; exact Hc|]. split; [reflexivity|].
  split.
  - exists [ATOM (peek p)]. simpl. rewrite Hu. split; reflexivity.
  - pose proof (advance_length p H0) as Hl.
    unfold weight, advance in *. simpl in *. rewrite length_app. simpl. lia.
Qed.

Lemma accounted_quantified (node : Node) (p p1 : Parser) :
  accounted p p1 true -> peek p1 <> 0 -> atom_ok node = true ->
  accounted p (emplace_back node (advance p1)) true.
Proof.
  intros H1 H0 Hn.
  pose proof (accounted_trans _ _ _ _ _ H1 (accounted_advance p1 H0)) as H2.
  destruct H2 as ((s1 & Hs1) & Hf1 & (a1 & Ha1 & Hk1) & Hw1).
  destruct H1 as (_ & _ & _ & Hw0).
  split; [exists s1; exact Hs1|]. split; [exact Hf1|].
  split.
  - exists (a1 ++ [node]). simpl in *. rewrite Ha1, <- app_assoc.
    split; [reflexivity|]. rewrite forallb_app, Hk1. simpl. rewrite Hn.
    reflexivity.
  - pose proof (advance_length p1 H0) as Hl.
    unfold weight, advance in *. simpl in *. rewrite length_app. simpl. lia.
Qed.

Section Account.

Variable parse : Parser -> res (bool * Parser).

Hypothesis parse_accounted : forall p ok p',
  parse p = Ok (ok, p') -> accounted p p' ok.

Lemma parse_group_accounted p ok p' :
  parse_group parse p = Ok (ok, p') -> accounted p p' ok.
Proof.
  unfold parse_group. intro H.
  destruct (Z.eqb_spec (peek p) LPAREN) as [Hl|Hl]; simpl in H.
  2:{ injection H as <- <-. apply accounted_refl. }
  assert (H0 : peek p <> 0) by (rewrite Hl; discriminate).
  bind_inv H. destruct a as [ok1 p1]. apply parse_accounted in Hrun.
  pose proof (accounted_trans _ _ _ _ _ (accounted_advance p H0) Hrun) as H1.
  simpl in H1.
  destruct ok1; simpl in H.
  2:{ injection H as <- <-. eapply accounted_weaken; exact H1. }
  destruct (Z.eqb_spec (peek p1) RPAREN) as [Hr|Hr]; simpl in H.
  2:{ injection H as <- <-. eapply accounted_weaken; exact H1. }
  injection H as <- <-.
  assert (H2 : peek p1 <> 0) by (rewrite Hr; discriminate).
  exact (accounted_trans _ _ _ _ _ H1 (accounted_advance p1 H2)).
Qed.

Lemma parse_unit_accounted p ok p' :
  parse_unit parse p = Ok (ok, p') -> accounted p p' ok.
Proof.
  unfold parse_unit. intro H.
  destruct (is_unit_char (peek p)) eqn:Hu.
  { injection H as <- <-. apply accounted_atom. exact Hu. }
  destruct (peek p =? LPAREN).
  - bind_inv H. destruct a as [ok1 p1]. apply parse_group_accounted in Hrun.
    destruct ok1; simpl in H; injection H as <- <-; exact Hrun.
  - injection H as <- <-. apply accounted_refl.
Qed.

Lemma parse_quantifier_accounted p ok p' :
  parse_quantifier parse p = Ok (ok, p') -> accounted p p' ok.
Proof.
  unfold parse_quantifier. intro H.
  bind_inv H. destruct a as [ok1 p1]. apply parse_unit_accounted in Hrun.
  destruct ok1; simpl in H.
  2:{ injection H as <- <-. exact Hrun. }
  destruct (Z.eqb_spec (peek p1) QUESTION) as [E|_].
  { injection H as <- <-. apply accounted_quantified;
      [exact Hrun|rewrite E; discriminate|reflexivity]. }
  destruct (Z.eqb_spec (peek p1) STAR) as [E|_].
  { injection H as <- <-. apply accounted_quantified;
      [exact Hrun|rewrite E; discriminate|reflexivity]. }
  destruct (Z.eqb_spec (peek p1) PLUS) as [E|_].
  { injection H as <- <-. apply accounted_quantified;
      [exact Hrun|rewrite E; discriminate|reflexivity]. }
  injection H as <- <-. exact Hrun.
Qed.

Lemma concatenation_loop_accounted (k : nat) :
  forall first p ok p',
    concatenation_loop parse k first p = Ok (ok, p') ->
    accounted p p' false.
Proof.
  induction k as [|k IH]; intros first p ok p' H; [discriminate|].
  simpl in H. bind_inv H. destruct a as [ok1 p1].
  apply parse_quantifier_accounted in Hrun.
  destruct ok1.
  2:{ injection H as <- <-. exact Hrun. }
  apply IH in H.
  exact (accounted_trans _ _ _ _ _
           (accounted_emplace_back (CONCATENATION first (last_node p1)) _ _
              Hrun eq_refl) H).
Qed.

Lemma concatenation_loop_true (k : nat) :
  forall first p ok p',
    concatenation_loop parse k first p = Ok (ok, p') -> ok = true.
Proof.
  induction k as [|k IH]; intros first p ok p' H; [discriminate|].
  simpl in H. bind_inv H. destruct a as [ok1 p1].
  destruct ok1; [eauto|]. injection H as <- _. reflexivity.
Qed.

Lemma parse_concatenation_accounted p ok p' :
  parse_concatenation parse p = Ok (ok, p') -> accounted p p' ok.
Proof.
  unfold parse_concatenation. intro H.
  bind_inv H. destruct a as [ok1 p1].
  apply parse_quantifier_accounted in Hrun.
  destruct ok1; cbv beta iota delta [negb] in H.
  2:{ injection H as <- <-. exact Hrun. }
  pose proof (concatenation_loop_true _ _ _ _ _ H) as ->.
  apply concatenation_loop_accounted in H.
  exact (accounted_trans _ _ _ _ _ Hrun H).
Qed.

Lemma alternation_loop_accounted (k : nat) :
  forall first p ok p',
    alternation_loop parse k first p = Ok (ok, p') ->
    accounted p p' false.
Proof.
  induction k as [|k IH]; intros first p ok p' H; [discriminate|].
  simpl in H. destruct (Z.eqb_spec (peek p) BAR) as [Hb|Hb].
  2:{ injection H as <- <-. apply accounted_refl. }
  assert (H0 : peek p <> 0) by (rewrite Hb; discriminate).
  bind_inv H. destruct a as [ok1 p1].
  apply parse_concatenation_accounted in Hrun.
  pose proof (accounted_trans _ _ _ _ _ (accounted_advance p H0) Hrun) as H1.
  simpl in H1.
  destruct ok1; simpl in H.
  2:{ injection H as <- <-. eapply accounted_weaken; exact H1. }
  apply IH in H.
  exact (accounted_trans _ _ _ _ _
           (accounted_emplace_back (ALTERNATION first (last_node p1)) _ _
              H1 eq_refl) H).
Qed.

Lemma parse_alternation_accounted p ok p' :
  parse_alternation parse p = Ok (ok, p') -> accounted p p' ok.
Proof.
  unfold parse_alternation. intro H.
  bind_inv H. destruct a as [ok1 p1].
  apply parse_concatenation_accounted in Hrun.
  destruct ok1; cbv beta iota delta [negb] in H.
  2:{ injection H as <- <-. exact Hrun. }
  apply alternation_loop_accounted in H.
  pose proof (accounted_trans _ _ _ _ _ Hrun H) as H1. simpl in H1.
  destruct ok; [exact H1|eapply accounted_weaken; exact H1].
Qed.

End Account.

Lemma parse_accounted (depth : nat) :
  forall p ok p', parse depth p = Ok (ok, p') -> accounted p p' ok.
Proof.
  induction depth as [|d IH]; intros p ok p' H; [discriminate|].
  simpl in H. eapply parse_alternation_accounted; eassumption.
Qed.

(** The loop of [build_parse_tree]: as a descent, but that a [$] met at
    the top level sets the end anchor. *)
Lemma build_loop_accounted (k : nat) :
  forall depth p ok p',
    build_loop k depth p = Ok (ok, p') ->
    (exists seg, pointer p = seg ++ pointer p') /\
    (exists added, nodes (parse_tree p') = nodes (parse_tree p) ++ added /\
                   forallb atom_ok added = true) /\
    (weight p' <= weight p)%nat /\
    (flags (parse_tree p') = flags (parse_tree p) \/
     flags (parse_tree p') = Z.lor (flags (parse_tree p)) END_ANCHORED /\
     ok = true /\ In DOLLAR (pointer p)).
Proof.
  induction k as [|k IH]; intros depth p ok p' H; [discriminate|].
  simpl in H.
  destruct (peek p =? 0).
  { injection H as <- <-. destruct (accounted_refl p) as (Hs & Hf & Ha & Hw).
    split; [exact Hs|]. split; [exact Ha|]. split; [lia|left; reflexivity]. }
  destruct (Z.eqb_spec (peek p) DOLLAR) as [Hd|Hd].
  { injection H as <- <-.
    assert (H0 : peek p <> 0) by (rewrite Hd; discriminate).
    destruct (accounted_advance p H0) as (Hs & Hf & Ha & Hw).
    split; [exact Hs|]. split; [exact Ha|].
    split; [unfold weight in *; simpl in *; lia|].
    right. split; [reflexivity|]. split; [reflexivity|].
    rewrite (peek_cons p H0), Hd. left. reflexivity. }
  bind_inv H. destruct a as [ok1 p1]. apply parse_accounted in Hrun.
  destruct Hrun as ((s1 & Hs1) & Hf1 & (a1 & Ha1 & Hk1) & Hw1).
  destruct ok1; simpl in H.
  2:{ injection H as <- <-. split; [eauto|]. split; [eauto|].
      split; [lia|]. left. exact Hf1. }
  apply IH in H.
  destruct H as ((s2 & Hs2) & (a2 & Ha2 & Hk2) & Hw2 & Hfl).
  split; [exists (s1 ++ s2); rewrite <- app_assoc; congruence|].
  split.
  { exists (a1 ++ a2). rewrite app_assoc, <- Ha1, <- Ha2.
    split; [reflexivity|]. rewrite forallb_app, Hk1, Hk2. reflexivity. }
  split; [lia|].
  destruct Hfl as [Hfl|(Hfl & Hok & Hin)]; [left; congruence|].
  right. split; [congruence|]. split; [exact Hok|].
  rewrite Hs1. apply in_or_app. right. exact Hin.
Qed.

(** What [build_parse_tree] leaves, whatever it reports: at most two
    nodes for every character of the pattern, atoms that are letters,
    digits or underscores, the begin anchor exactly when the pattern
    starts with a [^], and the end anchor only on a success that met a
    [$]. *)
Lemma parse_pattern_accounted (text : list Z) (ok : bool) (tree : ParseTree) :
  parse_pattern text = Ok (ok, tree) ->
  (length (nodes tree) <= 2 * length text)%nat /\
  forallb atom_ok (nodes tree) = true /\
  exists b e : bool,
    flags tree = Z.lor (if b then BEGIN_ANCHORED else 0)
                       (if e then END_ANCHORED else 0) /\
    (b = true <-> hd 0 text = CARET) /\
    (e = true -> ok = true /\ In DOLLAR text).
Proof.
  unfold parse_pattern, build_parse_tree. intro H.
  bind_inv H. destruct a as [ok1 p1]. injection H as <- <-.
  apply build_loop_accounted in Hrun.
  destruct Hrun as ((s & Hs) & (a & Ha & Hk) & Hw & Hfl).
  assert (Hpk : peek (mkParser text (mkParseTree 0 [])) = hd 0 text)
    by (destruct text; reflexivity).
  rewrite Hpk in *. clear Hpk.
  destruct (Z.eqb_spec (hd 0 text) CARET) as [Hc|Hc].
  - destruct text as [|c text]; [discriminate|]. simpl in Hc. subst c.
    unfold weight in Hw. cbn in Hs, Ha, Hw, Hfl. subst a.
    split; [simpl; lia|]. split; [exact Hk|].
    destruct Hfl as [Hfl|(Hfl & Hok & Hin)].
    + exists true, false. rewrite Hfl. split; [reflexivity|].
      split; [split; reflexivity|discriminate].
    + exists true, true. rewrite Hfl. split; [reflexivity|].
      split; [split; reflexivity|]. intros _. split; [exact Hok|].
      right. exact Hin.
  - unfold weight in Hw. cbn in Hs, Ha, Hw, Hfl. subst a.
    split; [lia|]. split; [exact Hk|].
    destruct Hfl as [Hfl|(Hfl & Hok & Hin)].
    + exists false, false. rewrite Hfl. split; [reflexivity|].
      split; [split; [discriminate|contradiction]|discriminate].
    + exists false, true. rewrite Hfl. split; [reflexivity|].
      split; [split; [discriminate|contradiction]|]. intros _. auto.
Qed.

Lemma is_unit_char_range (c : Z) :
  is_unit_char c = true -> 48 <= c <= 122.
Proof.
  unfold is_unit_char, isalpha, tolower, islower, isdigit, UNDERSCORE.
  destruct (isupper c) eqn:Hu; unfold isupper in *.
  - rewrite andb_true_iff, !Z.leb_le in Hu. lia.
  - rewrite !orb_true_iff, !andb_true_iff, !Z.leb_le, Z.eqb_eq. lia.
Qed.

(* ================================================================= *)
(** ** The parser on the text of an expression *)

Lemma parser_eq (p q : Parser) :
  pointer p = pointer q ->
  flags (parse_tree p) = flags (parse_tree q) ->
  nodes (parse_tree p) = nodes (parse_tree q) ->
  p = q.
Proof.
  destruct p as [pp [pf pn]], q as [qp [qf qn]]. simpl.
  intros -> -> ->. reflexivity.
Qed.

Lemma layout_length (r : regex) :
  forall base, length (layout base r) = regex_size r.
Proof.
  induction r as [c|a IHa b IHb|a IHa b IHb|a IHa|a IHa|a IHa];
    intro base; simpl; rewrite ?length_app; simpl;
    rewrite ?IHa, ?IHb; lia.
Qed.

Lemma last_node_parsed (p : Parser) (r : regex) (rest : list Z) :
  last_node (parsed p r rest)
  = root (length (nodes (parse_tree p))
          + length (layout (length (nodes (parse_tree p))) r)).
Proof.
  unfold last_node, parsed, last32, root. simpl. rewrite length_app.
  reflexivity.
Qed.

Lemma peek_parsed (p : Parser) (r : regex) (rest : list Z) :
  peek (parsed p r rest) = hd 0 rest.
Proof.
  unfold peek, parsed. simpl. destruct rest; reflexivity.
Qed.

(** The text of an expression starts with an atom or with an opening
    parenthesis. *)
Lemma render_head (r : regex) :
  atoms_ok r = true ->
  forall lvl, exists c s,
    render lvl r = c :: s /\ (is_unit_char c = true \/ c = LPAREN).
Proof.
  induction r as [c|a IHa b IHb|a IHa b IHb|a IHa|a IHa|a IHa];
    simpl; intros Hok lvl.
  - exists c, []. auto.
  - apply andb_prop in Hok. destruct Hok as [Ha Hb].
    destruct (0 <? lvl)%nat; [unfold group; eauto|].
    destruct (IHa Ha 0%nat) as (c & s & -> & Hc). simpl. eauto.
  - apply andb_prop in Hok. destruct Hok as [Ha Hb].
    destruct (1 <? lvl)%nat; [unfold group; eauto|].
    destruct (IHa Ha 1%nat) as (c & s & -> & Hc). simpl. eauto.
  - destruct (2 <? lvl)%nat; [unfold group; eauto|].
    destruct (IHa Hok 3%nat) as (c & s & -> & Hc). simpl. eauto.
  - destruct (2 <? lvl)%nat; [unfold group; eauto|].
    destruct (IHa Hok 3%nat) as (c & s & -> & Hc). simpl. eauto.
  - destruct (2 <? lvl)%nat; [unfold group; eauto|].
    destruct (IHa Hok 3%nat) as (c & s & -> & Hc). simpl. eauto.
Qed.

Lemma unit_head (c : Z) :
  is_unit_char c = true \/ c = LPAREN ->
  is_quantifier c = false /\ c <> 0 /\ c <> DOLLAR /\ c <> CARET /\
  c <> BAR.
Proof.
  intros [H| ->].
  - destruct (is_unit_char_consumable _ H) as (H0 & _ & Hq & _).
    split; [exact Hq|]. split; [exact H0|].
    repeat split; intro E; subst c; discriminate.
  - split; [reflexivity|]. repeat split; discriminate.
Qed.

Lemma concatenation_loop_fuel (parse' : Parser -> res (bool * Parser))
    (k : nat) :
  forall k' first p x,
    (k <= k')%nat ->
    concatenation_loop parse' k first p = Ok x ->
    concatenation_loop parse' k' first p = Ok x.
Proof.
  induction k as [|k IH]; intros k' first p x Hk H; [discriminate|].
  destruct k' as [|k']; [lia|]. simpl in *.
  destruct (parse_quantifier parse' p) as [[ok p1]| |]; simpl in *;
    try discriminate.
  destruct ok; [|exact H]. apply IH; [lia|exact H].
Qed.

Lemma alternation_loop_fuel (parse' : Parser -> res (bool * Parser))
    (k : nat) :
  forall k' first p x,
    (k <= k')%nat ->
    alternation_loop parse' k first p = Ok x ->
    alternation_loop parse' k' first p = Ok x.
Proof.
  induction k as [|k IH]; intros k' first p x Hk H; [discriminate|].
  destruct k' as [|k']; [lia|]. simpl in *.
  destruct (peek p =? BAR); [|exact H].
  destruct (parse_concatenation parse' (advance p)) as [[ok p1]| |];
    simpl in *; try discriminate.
  destruct ok; simpl in *; [|exact H]. apply IH; [lia|exact H].
Qed.

(** A loop that returns on some budget returns the same on the budget
    its caller gives it. *)
Lemma concatenation_loop_run (d : nat) (first : Z) (p : Parser)
    (x : bool * Parser) :
  (length (pointer p) <= d)%nat ->
  (exists k, concatenation_loop (parse d) k first p = Ok x) ->
  concatenation_loop (parse d) (S (length (pointer p))) first p = Ok x.
Proof.
  intros Hd [k Hk].
  destruct (concatenation_loop_spec (parse d) d (parse_spec d)
              (S (length (pointer p))) first p) as (p' & Hl & _); [lia..|].
  pose proof (concatenation_loop_fuel _ _ (Nat.max k (S (length (pointer p))))
                _ _ _ (Nat.le_max_l _ _) Hk) as E1.
  pose proof (concatenation_loop_fuel _ _ (Nat.max k (S (length (pointer p))))
                _ _ _ (Nat.le_max_r _ _) Hl) as E2.
  rewrite Hl. congruence.
Qed.

Lemma alternation_loop_run (d : nat) (first : Z) (p : Parser)
    (x : bool * Parser) :
  (length (pointer p) <= d)%nat ->
  (exists k, alternation_loop (parse d) k first p = Ok x) ->
  alternation_loop (parse d) (S (length (pointer p))) first p = Ok x.
Proof.
  intros Hd [k Hk].
  destruct (alternation_loop_spec (parse d) d (parse_spec d)
              (S (length (pointer p))) first p) as (ok & p' & Hl & _);
    [lia..|].
  pose proof (alternation_loop_fuel _ _ (Nat.max k (S (length (pointer p))))
                _ _ _ (Nat.le_max_l _ _) Hk) as E1.
  pose proof (alternation_loop_fuel _ _ (Nat.max k (S (length (pointer p))))
                _ _ _ (Nat.le_max_r _ _) Hl) as E2.
  rewrite Hl. congruence.
Qed.

Lemma cat_stop_inv (c : Z) :
  cat_stop c = true ->
  is_quantifier c = false /\ is_unit_char c = false /\ c <> LPAREN.
Proof.
  unfold cat_stop. intro H. apply negb_true_iff in H.
  apply orb_false_iff in H. destruct H as [H H3].
  apply orb_false_iff in H. destruct H as [H1 H2].
  apply Z.eqb_neq in H3. auto.
Qed.

(** *** From one level of the descent to the next *)

Lemma quantifier_of_unit (d : nat) (r : regex) :
  render 2 r = render 3 r -> unit_parsed d r -> quantifier_parsed d r.
Proof.
  intros E U p rest Hd Hp Hq. rewrite E in Hp.
  unfold parse_quantifier. rewrite (U p rest Hd Hp). simpl.
  rewrite peek_parsed. unfold is_quantifier in Hq.
  apply orb_false_iff in Hq. destruct Hq as [Hq H3].
  apply orb_false_iff in Hq. destruct Hq as [H1 H2].
  rewrite H1, H2, H3. reflexivity.
Qed.

Lemma concatenation_of_quantifier (d : nat) (r : regex) :
  render 1 r = render 2 r -> quantifier_parsed d r ->
  concatenation_parsed d r.
Proof.
  intros E Q p rest Hd Hp Hq. rewrite E in Hp.
  exists (parsed p r rest). split; [apply Q; assumption|].
  split; [|auto].
  rewrite Hp. simpl. rewrite length_app. lia.
Qed.

(** The whole of [parse_concatenation] on the text of [r], when what
    follows cannot go on a concatenation. *)
Lemma concatenation_full (d : nat) (r : regex) (p : Parser) (rest : list Z) :
  concatenation_parsed d r ->
  (length (pointer p) <= d)%nat ->
  pointer p = render 1 r ++ rest ->
  cat_stop (hd 0 rest) = true ->
  parse_concatenation (parse d) p = Ok (true, parsed p r rest).
Proof.
  intros C Hd Hp Hs. destruct (cat_stop_inv _ Hs) as (Hq & Hu & Hl).
  destruct (C p rest Hd Hp Hq) as (pq & Hpq & Hlen & Hloop).
  unfold parse_concatenation. rewrite Hpq. simpl.
  apply concatenation_loop_run; [lia|]. apply Hloop.
  exists 1%nat. simpl.
  rewrite parse_quantifier_no_unit; [reflexivity|..];
    rewrite peek_parsed; assumption.
Qed.

Lemma alternation_of_concatenation (d : nat) (r : regex) :
  render 0 r = render 1 r -> concatenation_parsed d r ->
  alternation_parsed d r.
Proof.
  intros E C p rest Hd Hp Hs. rewrite E in Hp.
  exists (parsed p r rest).
  split; [apply concatenation_full; assumption|].
  split; [|auto].
  rewrite Hp. simpl. rewrite length_app. lia.
Qed.

(** The whole of [parse_alternation] on the text of [r], when what
    follows can go on neither a concatenation nor an alternation. *)
Lemma alternation_full (d : nat) (r : regex) (p : Parser) (rest : list Z) :
  alternation_parsed d r ->
  (length (pointer p) <= d)%nat ->
  pointer p = render 0 r ++ rest ->
  cat_stop (hd 0 rest) = true -> hd 0 rest <> BAR ->
  parse_alternation (parse d) p = Ok (true, parsed p r rest).
Proof.
  intros A Hd Hp Hs Hb.
  destruct (A p rest Hd Hp Hs) as (pc & Hpc & Hlen & Hloop).
  unfold parse_alternation. rewrite Hpc. simpl.
  apply alternation_loop_run; [lia|]. apply Hloop.
  exists 1%nat. simpl. rewrite peek_parsed.
  apply Z.eqb_neq in Hb. rewrite Hb. reflexivity.
Qed.

(** An expression in parentheses is a unit. *)
Lemma unit_of_alternation (r : regex) :
  render 3 r = group (render 0 r) ->
  (forall d, alternation_parsed d r) ->
  forall d, unit_parsed d r.
Proof.
  intros E A d p rest Hd Hp. rewrite E in Hp. unfold group in Hp.
  simpl in Hp. rewrite <- app_assoc in Hp. simpl in Hp.
  assert (Hpeek : peek p = LPAREN) by (unfold peek; rewrite Hp; reflexivity).
  unfold parse_unit, parse_group. rewrite Hpeek. simpl.
  destruct d as [|d]; [rewrite Hp in Hd; simpl in Hd; lia|].
  assert (Hadv : pointer (advance p) = render 0 r ++ RPAREN :: rest)
    by (unfold advance; simpl; rewrite Hp; reflexivity).
  assert (Hlen : (length (pointer (advance p)) <= d)%nat).
  { unfold advance. simpl. rewrite Hp in *. simpl in *. lia. }
  change (parse (S d) (advance p))
    with (parse_alternation (parse d) (advance p)).
  rewrite (alternation_full d r (advance p) (RPAREN :: rest) (A d) Hlen Hadv);
    [|reflexivity|discriminate].
  cbv beta iota delta [bind negb]. rewrite peek_parsed.
  cbv beta iota delta [bind negb hd]. rewrite Z.eqb_refl.
  apply (f_equal (fun q => Ok (true, q))). apply parser_eq; reflexivity.
Qed.

(** *** The operators *)

Lemma unit_parsed_atom (c : Z) (d : nat) :
  is_unit_char c = true -> unit_parsed d (RAtom c).
Proof.
  intros Hc p rest Hd Hp. simpl in Hp.
  assert (Hpeek : peek p = c) by (unfold peek; rewrite Hp; reflexivity).
  unfold parse_unit. rewrite Hpeek, Hc.
  apply (f_equal (fun q => Ok (true, q))).
  apply parser_eq; simpl; [rewrite Hp|..]; reflexivity.
Qed.

(** One quantifier after a unit: the node takes the unit's root. *)
Lemma quantified_parsed (d : nat) (a r : regex) (q : Z)
    (node : Z -> Node) :
  unit_parsed d a ->
  render 2 r = render 3 a ++ [q] ->
  (forall base,
     layout base r
     = layout base a ++ [node (root (base + length (layout base a)))]) ->
  (forall (p : Parser),
     peek p = q ->
     (if peek p =? QUESTION
      then Ok (true, emplace_back (OPTIONAL (last_node p)) (advance p))
      else if peek p =? STAR
      then Ok (true, emplace_back (OPTIONAL_REPETITION (last_node p))
                       (advance p))
      else if peek p =? PLUS
      then Ok (true, emplace_back (REPETITION (last_node p)) (advance p))
      else Ok (true, p))
     = Ok (true, emplace_back (node (last_node p)) (advance p))) ->
  quantifier_parsed d r.
Proof.
  intros U E L S p rest Hd Hp _. rewrite E, <- app_assoc in Hp.
  simpl in Hp. unfold parse_quantifier. rewrite (U p (q :: rest) Hd Hp).
  cbv beta iota delta [bind negb].
  rewrite S by (rewrite peek_parsed; reflexivity).
  apply (f_equal (fun q => Ok (true, q))).
  apply parser_eq; [reflexivity..|].
  rewrite last_node_parsed. unfold parsed. simpl. rewrite L, app_assoc.
  reflexivity.
Qed.

Lemma concatenation_parsed_cat (d : nat) (a b : regex) :
  atoms_ok b = true ->
  concatenation_parsed d a -> quantifier_parsed d b ->
  concatenation_parsed d (RCat a b).
Proof.
  intros Hb Ca Qb p rest Hd Hp Hq. simpl in Hp. rewrite <- app_assoc in Hp.
  destruct (render_head b Hb 2%nat) as (c & s & Eb & Hc).
  destruct (Ca p (render 2 b ++ rest) Hd Hp) as (pq & Hpq & Hlen & Hloop).
  { rewrite Eb. simpl. apply unit_head. exact Hc. }
  exists pq. split; [exact Hpq|]. split; [exact Hlen|].
  intros x [k Hk]. apply Hloop. exists (S k).
  cbn [concatenation_loop].
  rewrite (Qb (parsed p a (render 2 b ++ rest)) rest); [|simpl|reflexivity|exact Hq].
  2:{ rewrite Hp in Hd. rewrite !length_app in Hd. rewrite length_app. lia. }
  cbv beta iota delta [bind].
  match goal with
  | |- concatenation_loop _ _ (last_node ?q) ?q = _ =>
      replace q with (parsed p (RCat a b) rest); [exact Hk|]
  end.
  apply parser_eq; [reflexivity..|].
  rewrite !last_node_parsed. unfold parsed. simpl.
  rewrite !length_app, <- !app_assoc. reflexivity.
Qed.

Lemma alternation_parsed_alt (d : nat) (a b : regex) :
  alternation_parsed d a -> concatenation_parsed d b ->
  alternation_parsed d (RAlt a b).
Proof.
  intros Aa Cb p rest Hd Hp Hs. simpl in Hp. rewrite <- app_assoc in Hp.
  simpl in Hp.
  destruct (Aa p (BAR :: render 1 b ++ rest) Hd Hp eq_refl)
    as (pc & Hpc & Hlen & Hloop).
  exists pc. split; [exact Hpc|]. split; [exact Hlen|].
  intros x [k Hk]. apply Hloop. exists (S k).
  cbn [alternation_loop]. rewrite peek_parsed. cbn [hd].
  rewrite Z.eqb_refl.
  rewrite (concatenation_full d b _ rest Cb); [|simpl|reflexivity|exact Hs].
  2:{ rewrite Hp in Hd. rewrite !length_app in Hd. simpl in Hd.
      rewrite length_app in *. lia. }
  cbv beta iota delta [bind negb].
  match goal with
  | |- alternation_loop _ _ (last_node ?q) ?q = _ =>
      replace q with (parsed p (RAlt a b) rest); [exact Hk|]
  end.
  apply parser_eq; [reflexivity..|].
  rewrite !last_node_parsed. unfold parsed, advance. simpl.
  rewrite !length_app, <- !app_assoc. reflexivity.
Qed.

(** Every level of the descent moves over the text of an expression and
    appends the nodes of the expression. *)
Lemma render_parsed (r : regex) :
  atoms_ok r = true ->
  (forall d, unit_parsed d r) /\ (forall d, quantifier_parsed d r) /\
  (forall d, concatenation_parsed d r) /\ (forall d, alternation_parsed d r).
Proof.
  induction r as [c|a IHa b IHb|a IHa b IHb|a IHa|a IHa|a IHa];
    simpl; intro Hok.
  - assert (U : forall d, unit_parsed d (RAtom c))
      by (intro d; apply unit_parsed_atom; exact Hok).
    assert (Q : forall d, quantifier_parsed d (RAtom c))
      by (intro d; apply quantifier_of_unit; [reflexivity|apply U]).
    assert (C : forall d, concatenation_parsed d (RAtom c))
      by (intro d; apply concatenation_of_quantifier; [reflexivity|apply Q]).
    assert (A : forall d, alternation_parsed d (RAtom c))
      by (intro d; apply alternation_of_concatenation; [reflexivity|apply C]).
    auto.
  - apply andb_prop in Hok. destruct Hok as [Ha Hb].
    destruct (IHa Ha) as (_ & _ & _ & Aa).
    destruct (IHb Hb) as (_ & _ & Cb & _).
    assert (A : forall d, alternation_parsed d (RAlt a b))
      by (intro d; apply alternation_parsed_alt; auto).
    assert (U : forall d, unit_parsed d (RAlt a b))
      by (apply unit_of_alternation; [reflexivity|exact A]).
    assert (Q : forall d, quantifier_parsed d (RAlt a b))
      by (intro d; apply quantifier_of_unit; [reflexivity|apply U]).
    assert (C : forall d, concatenation_parsed d (RAlt a b))
      by (intro d; apply concatenation_of_quantifier; [reflexivity|apply Q]).
    auto.
  - apply andb_prop in Hok. destruct Hok as [Ha Hb].
    destruct (IHa Ha) as (_ & _ & Ca & _).
    destruct (IHb Hb) as (_ & Qb & _ & _).
    assert (C : forall d, concatenation_parsed d (RCat a b))
      by (intro d; apply concatenation_parsed_cat; auto).
    assert (A : forall d, alternation_parsed d (RCat a b))
      by (intro d; apply alternation_of_concatenation; [reflexivity|apply C]).
    assert (U : forall d, unit_parsed d (RCat a b))
      by (apply unit_of_alternation; [reflexivity|exact A]).
    assert (Q : forall d, quantifier_parsed d (RCat a b))
      by (intro d; apply quantifier_of_unit; [reflexivity|apply U]).
    auto.
  - destruct (IHa Hok) as (Ua & _).
    assert (Q : forall d, quantifier_parsed d (RPlus a)).
    { intro d. apply (quantified_parsed d a (RPlus a) PLUS REPETITION);
        [apply Ua|reflexivity|reflexivity|].
      intros p ->. reflexivity. }
    assert (C : forall d, concatenation_parsed d (RPlus a))
      by (intro d; apply concatenation_of_quantifier; [reflexivity|apply Q]).
    assert (A : forall d, alternation_parsed d (RPlus a))
      by (intro d; apply alternation_of_concatenation; [reflexivity|apply C]).
    assert (U : forall d, unit_parsed d (RPlus a))
      by (apply unit_of_alternation; [reflexivity|exact A]).
    auto.
  - destruct (IHa Hok) as (Ua & _).
    assert (Q : forall d, quantifier_parsed d (RStar a)).
    { intro d.
      apply (quantified_parsed d a (RStar a) STAR OPTIONAL_REPETITION);
        [apply Ua|reflexivity|reflexivity|].
      intros p ->. reflexivity. }
    assert (C : forall d, concatenation_parsed d (RStar a))
      by (intro d; apply concatenation_of_quantifier; [reflexivity|apply Q]).
    assert (A : forall d, alternation_parsed d (RStar a))
      by (intro d; apply alternation_of_concatenation; [reflexivity|apply C]).
    assert (U : forall d, unit_parsed d (RStar a))
      by (apply unit_of_alternation; [reflexivity|exact A]).
    auto.
  - destruct (IHa Hok) as (Ua & _).
    assert (Q : forall d, quantifier_parsed d (ROpt a)).
    { intro d. apply (quantified_parsed d a (ROpt a) QUESTION OPTIONAL);
        [apply Ua|reflexivity|reflexivity|].
      intros p ->. reflexivity. }
    assert (C : forall d, concatenation_parsed d (ROpt a))
      by (intro d; apply concatenation_of_quantifier; [reflexivity|apply Q]).
    assert (A : forall d, alternation_parsed d (ROpt a))
      by (intro d; apply alternation_of_concatenation; [reflexivity|apply C]).
    assert (U : forall d, unit_parsed d (ROpt a))
      by (apply unit_of_alternation; [reflexivity|exact A]).
    auto.
Qed.

(** *** The whole pattern *)

Lemma build_loop_render (r : regex) (e : bool) (junk : list Z)
    (k d : nat) (p : Parser) :
  atoms_ok r = true ->
  pointer p = render 0 r ++ (if e then DOLLAR :: junk else []) ->
  (length (pointer p) < d)%nat -> (2 <= k)%nat ->
  exists p',
    build_loop k d p = Ok (true, p') /\
    nodes (parse_tree p')
    = nodes (parse_tree p) ++ layout (length (nodes (parse_tree p))) r /\
    flags (parse_tree p')
    = Z.lor (flags (parse_tree p)) (if e then END_ANCHORED else 0).
Proof.
  intros Hok Hp Hd Hk.
  destruct (render_head r Hok 0%nat) as (c & s & Er & Hc).
  destruct (unit_head c Hc) as (_ & H0 & Hdol & _).
  assert (Hpeek : peek p = c).
  { unfold peek. rewrite Hp, Er. reflexivity. }
  destruct k as [|[|k]]; [lia..|].
  destruct d as [|d]; [lia|].
  cbn [build_loop]. rewrite Hpeek.
  apply Z.eqb_neq in H0, Hdol. rewrite H0, Hdol.
  change (parse (S d) p) with (parse_alternation (parse d) p).
  destruct (render_parsed r Hok) as (_ & _ & _ & A).
  rewrite (alternation_full d r p _ (A d) ltac:(lia) Hp);
    [|destruct e; reflexivity|destruct e; discriminate].
  cbv beta iota delta [bind negb]. rewrite peek_parsed.
  destruct e; cbn [hd].
  - change (DOLLAR =? 0) with false. rewrite Z.eqb_refl.
    cbv beta iota. eexists. split; [reflexivity|]. split; reflexivity.
  - rewrite Z.eqb_refl. eexists. split; [reflexivity|].
    split; [reflexivity|]. simpl. rewrite Z.lor_0_r. reflexivity.
Qed.

Lemma parse_pattern_render (r : regex) (b e : bool) (junk : list Z) :
  atoms_ok r = true ->
  parse_pattern (pattern_of b r e junk)
  = Ok (true, mkParseTree (anchor_flags b e) (layout 0 r)).
Proof.
  intro Hok. unfold parse_pattern, build_parse_tree, pattern_of.
  destruct (render_head r Hok 0%nat) as (c & s & Er & Hc).
  destruct (unit_head c Hc) as (_ & _ & _ & Hcar & _).
  set (tail := if e then DOLLAR :: junk else []).
  set (text := (if b then [CARET] else []) ++ render 0 r ++ tail).
  set (p := mkParser text (mkParseTree 0 [])).
  assert (E0 : (if peek p =? CARET
                then advance (set_flag BEGIN_ANCHORED p) else p)
               = mkParser (render 0 r ++ tail)
                   (mkParseTree (if b then BEGIN_ANCHORED else 0) [])).
  { subst p text. destruct b; unfold peek; cbn [app pointer].
    - rewrite Z.eqb_refl. reflexivity.
    - rewrite Er. cbn [app]. apply Z.eqb_neq in Hcar. rewrite Hcar.
      reflexivity. }
  rewrite E0. clear E0. cbn [pointer].
  destruct (build_loop_render r e junk
              (S (length (render 0 r ++ tail)))
              (S (length (render 0 r ++ tail)))
              (mkParser (render 0 r ++ tail)
                 (mkParseTree (if b then BEGIN_ANCHORED else 0) []))
              Hok eq_refl) as (p' & Hrun & Hn & Hf).
  - simpl. lia.
  - rewrite Er. simpl. lia.
  - rewrite Hrun. cbv beta iota delta [bind].
    apply (f_equal (fun t => Ok (true, t))).
    destruct p' as [pp [pf pn]]. simpl in *. subst pf pn. reflexivity.
Qed.

(** *** The nodes of an expression form a tree *)

Lemma root_small (n : nat) :
  (1 <= n)%nat -> Z.of_nat n <= 4294967296 -> root n = Z.of_nat n - 1.
Proof.
  intros H1 H2. unfold root. apply wrap32_small. lia.
Qed.

Lemma index_at {A : Type} (pre post : list A) (x : A) (i : Z) :
  i = Z.of_nat (length pre) -> index (pre ++ x :: post) i = Some x.
Proof.
  intros ->. rewrite index_app_r by lia. rewrite Z.sub_diag. reflexivity.
Qed.

Lemma regex_size_positive (r : regex) : (1 <= regex_size r)%nat.
Proof.
  destruct r; simpl; lia.
Qed.

Lemma layout_tree_at (r : regex) :
  forall pre post,
    Z.of_nat (length pre + regex_size r) <= 4294967296 ->
    tree_at (pre ++ layout (length pre) r ++ post)
            (Z.of_nat (length pre + regex_size r) - 1) r.
Proof.
  induction r as [c|a IHa b IHb|a IHa b IHb|a IHa|a IHa|a IHa];
    intros pre post Hb; cbn [layout regex_size] in *;
    try pose proof (regex_size_positive a);
    try pose proof (regex_size_positive b).
  - apply tree_atom. apply index_at. lia.
  - pose proof (IHa pre (layout (length pre + length (layout (length pre) a)) b
                         ++ [ALTERNATION
                               (root (length pre + length (layout (length pre) a)))
                               (root (length pre + length (layout (length pre) a)
                                      + length (layout (length pre + length (layout (length pre) a)) b)))]
                         ++ post)) as Ta.
    pose proof (IHb (pre ++ layout (length pre) a)
                    ([ALTERNATION
                        (root (length pre + length (layout (length pre) a)))
                        (root (length pre + length (layout (length pre) a)
                               + length (layout (length pre + length (layout (length pre) a)) b)))]
                     ++ post)) as Tb.
    rewrite length_app in Tb. rewrite !layout_length in *.
    rewrite <- !app_assoc in *.
    eapply tree_alternation; [|apply Ta; lia|apply Tb; lia].
    rewrite !root_small by lia.
    rewrite !app_assoc. rewrite <- (app_assoc _ [_] post).
    apply index_at. rewrite !length_app, !layout_length. lia.
  - pose proof (IHa pre (layout (length pre + length (layout (length pre) a)) b
                         ++ [CONCATENATION
                               (root (length pre + length (layout (length pre) a)))
                               (root (length pre + length (layout (length pre) a)
                                      + length (layout (length pre + length (layout (length pre) a)) b)))]
                         ++ post)) as Ta.
    pose proof (IHb (pre ++ layout (length pre) a)
                    ([CONCATENATION
                        (root (length pre + length (layout (length pre) a)))
                        (root (length pre + length (layout (length pre) a)
                               + length (layout (length pre + length (layout (length pre) a)) b)))]
                     ++ post)) as Tb.
    rewrite length_app in Tb. rewrite !layout_length in *.
    rewrite <- !app_assoc in *.
    eapply tree_concatenation; [|apply Ta; lia|apply Tb; lia].
    rewrite !root_small by lia.
    rewrite !app_assoc. rewrite <- (app_assoc _ [_] post).
    apply index_at. rewrite !length_app, !layout_length. lia.
  - pose proof (IHa pre ([REPETITION
                            (root (length pre + length (layout (length pre) a)))]
                         ++ post)) as Ta.
    rewrite !layout_length in *. rewrite <- !app_assoc in *.
    eapply tree_repetition; [|apply Ta; lia].
    rewrite !root_small by lia.
    rewrite !app_assoc. rewrite <- (app_assoc _ [_] post).
    apply index_at. rewrite !length_app, !layout_length. lia.
  - pose proof (IHa pre ([OPTIONAL_REPETITION
                            (root (length pre + length (layout (length pre) a)))]
                         ++ post)) as Ta.
    rewrite !layout_length in *. rewrite <- !app_assoc in *.
    eapply tree_optional_repetition; [|apply Ta; lia].
    rewrite !root_small by lia.
    rewrite !app_assoc. rewrite <- (app_assoc _ [_] post).
    apply index_at. rewrite !length_app, !layout_length. lia.
  - pose proof (IHa pre ([OPTIONAL
                            (root (length pre + length (layout (length pre) a)))]
                         ++ post)) as Ta.
    rewrite !layout_length in *. rewrite <- !app_assoc in *.
    eapply tree_optional; [|apply Ta; lia].
    rewrite !root_small by lia.
    rewrite !app_assoc. rewrite <- (app_assoc _ [_] post).
    apply index_at. rewrite !length_app, !layout_length. lia.
Qed.

Lemma layout_top (r : regex) (pre post : list Node) :
  index (pre ++ layout (length pre) r ++ post)
        (Z.of_nat (length pre + regex_size r) - 1)
  = Some (top_node (length pre) r).
Proof.
  destruct r as [c|a b|a b|a|a|a]; cbn [layout regex_size top_node];
    rewrite ?layout_length;
    repeat first [rewrite <- app_assoc | progress cbn [app]].
  - apply index_at. lia.
  - rewrite !app_assoc.
    apply index_at. rewrite !length_app, !layout_length. lia.
  - rewrite !app_assoc.
    apply index_at. rewrite !length_app, !layout_length. lia.
  - rewrite !app_assoc.
    apply index_at. rewrite !length_app, !layout_length. lia.
  - rewrite !app_assoc.
    apply index_at. rewrite !length_app, !layout_length. lia.
  - rewrite !app_assoc.
    apply index_at. rewrite !length_app, !layout_length. lia.
Qed.

Lemma layout_reaches (r : regex) :
  forall pre post j,
    Z.of_nat (length pre + regex_size r) <= 4294967296 ->
    Z.of_nat (length pre) <= j < Z.of_nat (length pre + regex_size r) ->
    reaches (pre ++ layout (length pre) r ++ post)
            (Z.of_nat (length pre + regex_size r) - 1) j.
Proof.
  induction r as [c|a IHa b IHb|a IHa b IHb|a IHa|a IHa|a IHa];
    intros pre post j Hb Hj;
    match goal with
    | |- reaches (_ ++ layout _ ?r ++ _) _ _ =>
        pose proof (layout_top r pre post) as Htop
    end;
    cbn [layout regex_size top_node] in *;
    try pose proof (regex_size_positive a);
    try pose proof (regex_size_positive b);
    rewrite ?layout_length in *.
  - replace j with (Z.of_nat (length pre + 1) - 1) by lia. constructor.
  - destruct (Z.eq_dec j (Z.of_nat (length pre + S (regex_size a + regex_size b)) - 1))
      as [->|Hne]; [constructor|].
    rewrite !root_small in Htop |- * by lia.
    destruct (Z_lt_ge_dec j (Z.of_nat (length pre + regex_size a))) as [Hl|Hg].
    + eapply reaches_child; [exact Htop|left; reflexivity|].
      rewrite <- app_assoc. apply IHa; lia.
    + eapply reaches_child; [exact Htop|right; left; reflexivity|].
      pose proof (IHb (pre ++ layout (length pre) a)
                      ([ALTERNATION
                          (root (length pre + regex_size a))
                          (root (length pre + regex_size a + regex_size b))]
                       ++ post) j) as Tb.
      rewrite length_app, !layout_length in Tb.
      rewrite !root_small in Tb by lia.
      rewrite <- !app_assoc in *. apply Tb; lia.
  - destruct (Z.eq_dec j (Z.of_nat (length pre + S (regex_size a + regex_size b)) - 1))
      as [->|Hne]; [constructor|].
    rewrite !root_small in Htop |- * by lia.
    destruct (Z_lt_ge_dec j (Z.of_nat (length pre + regex_size a))) as [Hl|Hg].
    + eapply reaches_child; [exact Htop|left; reflexivity|].
      rewrite <- app_assoc. apply IHa; lia.
    + eapply reaches_child; [exact Htop|right; left; reflexivity|].
      pose proof (IHb (pre ++ layout (length pre) a)
                      ([CONCATENATION
                          (root (length pre + regex_size a))
                          (root (length pre + regex_size a + regex_size b))]
                       ++ post) j) as Tb.
      rewrite length_app, !layout_length in Tb.
      rewrite !root_small in Tb by lia.
      rewrite <- !app_assoc in *. apply Tb; lia.
  - destruct (Z.eq_dec j (Z.of_nat (length pre + S (regex_size a)) - 1))
      as [->|Hne]; [constructor|].
    rewrite !root_small in Htop |- * by lia.
    eapply reaches_child; [exact Htop|left; reflexivity|].
    rewrite <- app_assoc. apply IHa; lia.
  - destruct (Z.eq_dec j (Z.of_nat (length pre + S (regex_size a)) - 1))
      as [->|Hne]; [constructor|].
    rewrite !root_small in Htop |- * by lia.
    eapply reaches_child; [exact Htop|left; reflexivity|].
    rewrite <- app_assoc. apply IHa; lia.
  - destruct (Z.eq_dec j (Z.of_nat (length pre + S (regex_size a)) - 1))
      as [->|Hne]; [constructor|].
    rewrite !root_small in Htop |- * by lia.
    eapply reaches_child; [exact Htop|left; reflexivity|].
    rewrite <- app_assoc. apply IHa; lia.
Qed.

(** The nodes of an expression, laid out in an empty arena, read back as
    the expression from the last node, and every node descends from the
    last one. *)
Lemma layout_rooted (r : regex) :
  Z.of_nat (regex_size r) <= 4294967296 ->
  length (layout 0 r) = regex_size r /\
  tree_at (layout 0 r) (Z.of_nat (regex_size r) - 1) r /\
  last_is_root (layout 0 r).
Proof.
  intro Hb. split; [apply layout_length|]. split.
  - pose proof (layout_tree_at r [] [] Hb) as H.
    cbn [app length Nat.add] in H. rewrite app_nil_r in H. exact H.
  - intros j Hj. rewrite layout_length in *.
    pose proof (layout_reaches r [] [] j Hb) as H.
    cbn [app length Nat.add] in H. rewrite app_nil_r in H. apply H. lia.
Qed.

(* ================================================================= *)
(** ** The parser: the last node of the arena is the root of a tree *)

Lemma tree_at_app (arena more : list Node) (i : Z) (r : regex) :
  tree_at arena i r -> tree_at (arena ++ more) i r.
Proof.
  assert (L : forall j n, index arena j = Some n ->
                          index (arena ++ more) j = Some n).
  { intros j n H. rewrite index_app_l; [exact H|].
    apply index_range in H. lia. }
  induction 1; econstructor; eauto.
Qed.

Lemma tree_step_refl (p : Parser) : tree_step p p false.
Proof.
  exists []. rewrite app_nil_r. split; [reflexivity|].
  split; [discriminate|]. intros _ H. contradiction.
Qed.

Lemma tree_step_weaken (p p' : Parser) (ok : bool) :
  tree_step p p' ok -> tree_step p p' false.
Proof.
  intros (a & Ha & _ & Ht). exists a. split; [exact Ha|].
  split; [discriminate|exact Ht].
Qed.

Lemma tree_step_trans (p1 p2 p3 : Parser) (ok1 ok2 : bool) :
  tree_step p1 p2 ok1 -> tree_step p2 p3 ok2 ->
  tree_step p1 p3 (ok1 || ok2).
Proof.
  intros (a1 & Ha1 & Hk1 & Ht1) (a2 & Ha2 & Hk2 & Ht2).
  exists (a1 ++ a2). split; [rewrite app_assoc; congruence|].
  split.
  - intros Hok Hnil. apply app_eq_nil in Hnil. destruct Hnil as [-> ->].
    destruct ok1; [apply Hk1; reflexivity|]. apply Hk2; auto.
  - intros Hb Hne. destruct a2 as [|n a2].
    + rewrite app_nil_r in *. rewrite Ha2 in *.
      apply Ht1; assumption.
    + destruct (Ht2 Hb) as (r & Hr & Hs); [discriminate|].
      exists r. split; [exact Hr|]. rewrite length_app. lia.
Qed.

Lemma tree_step_length (p p' : Parser) (ok : bool) :
  tree_step p p' ok ->
  (length (nodes (parse_tree p)) <= length (nodes (parse_tree p')))%nat.
Proof.
  intros (a & Ha & _). rewrite Ha, length_app. lia.
Qed.

(** After a step that has added a node, [nodes.size() - 1] is the index
    of the root of a tree. *)
Lemma tree_step_last (p p' : Parser) :
  tree_step p p' true ->
  Z.of_nat (length (nodes (parse_tree p'))) < 4294967296 ->
  exists r,
    tree_at (nodes (parse_tree p')) (last_node p') r /\
    (regex_size r + length (nodes (parse_tree p))
     <= length (nodes (parse_tree p')))%nat.
Proof.
  intros (a & Ha & Hk & Ht) Hb. specialize (Hk eq_refl).
  destruct (Ht Hb Hk) as (r & Hr & Hs).
  exists r. split.
  - unfold last_node. rewrite last32_small; [exact Hr| |lia].
    rewrite Ha. destruct (nodes (parse_tree p)); [|discriminate].
    simpl. exact Hk.
  - rewrite Ha, length_app. lia.
Qed.

(** A node appended over the roots of trees is the root of a tree. *)
Lemma tree_step_emplace_back (node : Node) (p p1 : Parser) :
  tree_step p p1 true ->
  (Z.of_nat (length (nodes (parse_tree p1))) + 1 < 4294967296 ->
   exists r,
     tree_at (nodes (parse_tree p1) ++ [node])
             (Z.of_nat (length (nodes (parse_tree p1)))) r /\
     (regex_size r + length (nodes (parse_tree p))
      <= S (length (nodes (parse_tree p1))))%nat) ->
  tree_step p (emplace_back node p1) true.
Proof.
  intros (a & Ha & Hk & Ht) Hnew.
  exists (a ++ [node]). simpl. split; [rewrite Ha, app_assoc; reflexivity|].
  split; [intros _ E; apply app_eq_nil in E; destruct E; discriminate|].
  rewrite !length_app. simpl. intros Hb _.
  destruct Hnew as (r & Hr & Hs); [lia|].
  exists r. split.
  - replace (Z.of_nat (length (nodes (parse_tree p1)) + 1) - 1)
      with (Z.of_nat (length (nodes (parse_tree p1)))) by lia.
    exact Hr.
  - rewrite Ha, length_app in Hs. lia.
Qed.

(** A quantifier's node over the root that the unit has left. *)
Lemma tree_step_unary (node : Z -> Node) (op : regex -> regex)
    (p p1 : Parser) :
  (forall arena i first a,
     index arena i = Some (node first) -> tree_at arena first a ->
     tree_at arena i (op a)) ->
  (forall a, regex_size (op a) = S (regex_size a)) ->
  tree_step p p1 true ->
  tree_step p (emplace_back (node (last_node p1)) (advance p1)) true.
Proof.
  intros Hop Hsize H1.
  change (tree_step p (emplace_back (node (last_node p1)) (advance p1)) true)
    with (tree_step p (emplace_back (node (last_node p1)) p1) true).
  apply tree_step_emplace_back; [exact H1|]. intro Hb.
  destruct (tree_step_last p p1 H1) as (r & Hr & Hs); [lia|].
  exists (op r). split.
  - eapply Hop; [apply index_last|]. apply tree_at_app. exact Hr.
  - rewrite Hsize. lia.
Qed.

(** A binary node over the root [first] of an earlier tree and the root
    that the last step has left. *)
Lemma tree_step_binary (node : Z -> Z -> Node) (op : regex -> regex -> regex)
    (p0 p p1 : Parser) :
  (forall arena i first second a b,
     index arena i = Some (node first second) ->
     tree_at arena first a -> tree_at arena second b ->
     tree_at arena i (op a b)) ->
  (forall a b, regex_size (op a b) = S (regex_size a + regex_size b)) ->
  tree_step p0 p true -> tree_step p p1 true ->
  tree_step p0 (emplace_back (node (last_node p) (last_node p1)) p1) true.
Proof.
  intros Hop Hsize H0 H1.
  pose proof (tree_step_trans _ _ _ _ _ H0 H1) as H01. simpl in H01.
  apply tree_step_emplace_back; [exact H01|]. intro Hb.
  pose proof (tree_step_length _ _ _ H1) as Hlen.
  destruct (tree_step_last p0 p H0) as (ra & Hra & Hsa); [lia|].
  destruct (tree_step_last p p1 H1) as (rb & Hrb & Hsb); [lia|].
  exists (op ra rb). split.
  - eapply Hop; [apply index_last| |].
    + apply tree_at_app. destruct H1 as (a1 & Ha1 & _). rewrite Ha1.
      apply tree_at_app. exact Hra.
    + apply tree_at_app. exact Hrb.
  - rewrite Hsize. lia.
Qed.

Section Trees.

Variable parse : Parser -> res (bool * Parser).

Hypothesis parse_tree_step : forall p ok p',
  parse p = Ok (ok, p') -> tree_step p p' ok.

Lemma parse_group_tree p ok p' :
  parse_group parse p = Ok (ok, p') -> tree_step p p' ok.
Proof.
  unfold parse_group. intro H.
  destruct (negb (peek p =? LPAREN)).
  { injection H as <- <-. apply tree_step_refl. }
  bind_inv H. destruct a as [ok1 p1]. apply parse_tree_step in Hrun.
  change (tree_step p p1 ok1) in Hrun.
  destruct ok1; simpl in H.
  2:{ injection H as <- <-. exact Hrun. }
  destruct (negb (peek p1 =? RPAREN)).
  { injection H as <- <-. eapply tree_step_weaken; eassumption. }
  injection H as <- <-. exact Hrun.
Qed.

Lemma parse_unit_tree p ok p' :
  parse_unit parse p = Ok (ok, p') -> tree_step p p' ok.
Proof.
  unfold parse_unit. intro H.
  destruct (is_unit_char (peek p)).
  { injection H as <- <-.
    change (tree_step p (emplace_back (ATOM (peek p)) p) true).
    exists [ATOM (peek p)]. split; [reflexivity|].
    split; [discriminate|]. intros _ _. exists (RAtom (peek p)).
    split; [|simpl; lia]. constructor. simpl. rewrite length_app. simpl.
    replace (Z.of_nat (length (nodes (parse_tree p)) + 1) - 1)
      with (Z.of_nat (length (nodes (parse_tree p)))) by lia.
    apply index_last. }
  destruct (peek p =? LPAREN).
  - bind_inv H. destruct a as [ok1 p1]. apply parse_group_tree in Hrun.
    destruct ok1; simpl in H; injection H as <- <-; exact Hrun.
  - injection H as <- <-. apply tree_step_refl.
Qed.

Lemma parse_quantifier_tree p ok p' :
  parse_quantifier parse p = Ok (ok, p') -> tree_step p p' ok.
Proof.
  unfold parse_quantifier. intro H.
  bind_inv H. destruct a as [ok1 p1]. apply parse_unit_tree in Hrun.
  destruct ok1; simpl in H.
  2:{ injection H as <- <-. exact Hrun. }
  destruct (peek p1 =? QUESTION).
  { injection H as <- <-.
    apply (tree_step_unary OPTIONAL ROpt);
      [intros; eapply tree_optional; eauto|reflexivity|exact Hrun]. }
  destruct (peek p1 =? STAR).
  { injection H as <- <-.
    apply (tree_step_unary OPTIONAL_REPETITION RStar);
      [intros; eapply tree_optional_repetition; eauto|reflexivity
      |exact Hrun]. }
  destruct (peek p1 =? PLUS).
  { injection H as <- <-.
    apply (tree_step_unary REPETITION RPlus);
      [intros; eapply tree_repetition; eauto|reflexivity|exact Hrun]. }
  injection H as <- <-. exact Hrun.
Qed.

Lemma concatenation_loop_tree (k : nat) :
  forall p0 p ok p',
    tree_step p0 p true ->
    concatenation_loop parse k (last_node p) p = Ok (ok, p') ->
    tree_step p0 p' true.
Proof.
  induction k as [|k IH]; intros p0 p ok p' H0 H; [discriminate|].
  simpl in H. bind_inv H. destruct a as [ok1 p1].
  apply parse_quantifier_tree in Hrun.
  destruct ok1.
  2:{ injection H as <- <-.
      exact (tree_step_trans _ _ _ _ _ H0 Hrun). }
  apply (IH p0) in H; [exact H|].
  apply (tree_step_binary CONCATENATION RCat);
    [intros; eapply tree_concatenation; eauto|reflexivity|assumption..].
Qed.

Lemma parse_concatenation_tree p ok p' :
  parse_concatenation parse p = Ok (ok, p') -> tree_step p p' ok.
Proof.
  unfold parse_concatenation. intro H.
  bind_inv H. destruct a as [ok1 p1]. apply parse_quantifier_tree in Hrun.
  destruct ok1; cbv beta iota delta [negb] in H.
  2:{ injection H as <- <-. exact Hrun. }
  pose proof (concatenation_loop_true _ _ _ _ _ _ H) as ->.
  eapply concatenation_loop_tree; eassumption.
Qed.

Lemma alternation_loop_tree (k : nat) :
  forall p0 p ok p',
    tree_step p0 p true ->
    alternation_loop parse k (last_node p) p = Ok (ok, p') ->
    tree_step p0 p' true.
Proof.
  induction k as [|k IH]; intros p0 p ok p' H0 H; [discriminate|].
  simpl in H. destruct (peek p =? BAR).
  2:{ injection H as <- <-. exact H0. }
  bind_inv H. destruct a as [ok1 p1].
  apply parse_concatenation_tree in Hrun.
  change (tree_step p p1 ok1) in Hrun.
  destruct ok1; simpl in H.
  2:{ injection H as <- <-.
      exact (tree_step_trans _ _ _ _ _ H0 Hrun). }
  apply (IH p0) in H; [exact H|].
  apply (tree_step_binary ALTERNATION RAlt);
    [intros; eapply tree_alternation; eauto|reflexivity|assumption..].
Qed.

Lemma parse_alternation_tree p ok p' :
  parse_alternation parse p = Ok (ok, p') -> tree_step p p' ok.
Proof.
  unfold parse_alternation. intro H.
  bind_inv H. destruct a as [ok1 p1]. apply parse_concatenation_tree in Hrun.
  destruct ok1; cbv beta iota delta [negb] in H.
  2:{ injection H as <- <-. exact Hrun. }
  apply alternation_loop_tree with (p0 := p) in H; [|exact Hrun].
  destruct ok; [exact H|eapply tree_step_weaken; exact H].
Qed.

End Trees.

Lemma parse_tree_step (depth : nat) :
  forall p ok p', parse depth p = Ok (ok, p') -> tree_step p p' ok.
Proof.
  induction depth as [|d IH]; intros p ok p' H; [discriminate|].
  simpl in H. eapply parse_alternation_tree; eassumption.
Qed.

Lemma build_loop_tree (k : nat) :
  forall depth p ok p',
    build_loop k depth p = Ok (ok, p') -> tree_step p p' false.
Proof.
  induction k as [|k IH]; intros depth p ok p' H; [discriminate|].
  simpl in H.
  destruct (peek p =? 0); [injection H as <- <-; apply tree_step_refl|].
  destruct (peek p =? DOLLAR);
    [injection H as <- <-; exact (tree_step_refl p)|].
  bind_inv H. destruct a as [ok1 p1]. apply parse_tree_step in Hrun.
  destruct ok1; simpl in H.
  - apply IH in H. change false with (false || false).
    eapply tree_step_trans; [eapply tree_step_weaken|]; eassumption.
  - injection H as <- <-. exact Hrun.
Qed.

Lemma tree_at_atoms_ok (arena : list Node) (i : Z) (r : regex) :
  forallb atom_ok arena = true -> tree_at arena i r -> atoms_ok r = true.
Proof.
  intros Hall. rewrite forallb_forall in Hall.
  induction 1; simpl; rewrite ?IHtree_at, ?IHtree_at1, ?IHtree_at2;
    try reflexivity.
  apply index_In in H. apply (Hall _ H).
Qed.

(** Whatever [build_parse_tree] reports, the last node of a non-empty
    arena that fits a [uint32_t] index is the root of an expression: of
    no more nodes than the arena has, and with atoms that are letters,
    digits or underscores. *)
Lemma parse_pattern_rooted (text : list Z) (ok : bool) (tree : ParseTree) :
  parse_pattern text = Ok (ok, tree) ->
  nodes tree <> [] ->
  Z.of_nat (length (nodes tree)) < 4294967296 ->
  exists r,
    tree_at (nodes tree) (Z.of_nat (length (nodes tree)) - 1) r /\
    (regex_size r <= length (nodes tree))%nat /\
    atoms_ok r = true.
Proof.
  intros H Hne Hb.
  destruct (parse_pattern_accounted _ _ _ H) as (_ & Hatoms & _).
  unfold parse_pattern, build_parse_tree in H.
  bind_inv H. destruct a as [ok1 p1]. injection H as <- <-.
  apply build_loop_tree in Hrun. destruct Hrun as (a & Ha & _ & Ht).
  assert (E : nodes (parse_tree p1) = a).
  { rewrite Ha. destruct (peek _ =? CARET); reflexivity. }
  destruct (Ht Hb) as (r & Hr & Hs); [congruence|].
  exists r. split; [exact Hr|]. split; [rewrite E; exact Hs|].
  eapply tree_at_atoms_ok; eassumption.
Qed.

(* ================================================================= *)
(** ** The compiler: the fragment of an expression *)

Lemma index_middle {A : Type} (pre post : list A) (x : A) :
  index (pre ++ x :: post) (Z.of_nat (length pre)) = Some x.
Proof.
  rewrite index_app_r by lia. rewrite Z.sub_diag. reflexivity.
Qed.

Lemma modify_middle {A : Type} (f : A -> A) (pre post : list A) (x : A) :
  modify f (pre ++ x :: post) (Z.of_nat (length pre))
  = Some (pre ++ f x :: post).
Proof.
  induction pre as [|y pre IH]; [reflexivity|].
  cbn [app length modify].
  destruct (Z.eqb_spec (Z.of_nat (S (length pre))) 0) as [E|_]; [lia|].
  replace (Z.of_nat (S (length pre)) - 1) with (Z.of_nat (length pre)) by lia.
  rewrite IH. reflexivity.
Qed.

Lemma add_future_at (c : NFACompiler.t) (pre post : list NFA.State)
    (st : NFA.State) (s symbol dest : Z) :
  NFA.states (NFACompiler.machine c) = pre ++ st :: post ->
  s = Z.of_nat (length pre) ->
  NFACompiler.add_future s symbol dest c
  = Ok (with_states c (pre ++ pushed symbol dest st :: post)).
Proof.
  intros Hs ->. unfold NFACompiler.add_future, NFA.add_future.
  rewrite Hs, modify_middle. reflexivity.
Qed.

Lemma thompson_length (r : regex) :
  forall n, Z.of_nat (length (thompson n r)) = span r - 1.
Proof.
  unfold span.
  induction r as [c|a IHa b IHb|a IHa b IHb|a IHa|a IHa|a IHa];
    intro n; cbn [thompson regex_size]; rewrite ?length_app; cbn [length];
    rewrite ?Nat2Z.inj_add, ?IHa, ?IHb; lia.
Qed.

Lemma span_positive (r : regex) : 2 <= span r.
Proof.
  unfold span. destruct r; simpl; lia.
Qed.

Lemma states_count_emitted (c : NFACompiler.t) (r : regex) :
  states_count (emitted c r) = states_count c + span r.
Proof.
  unfold states_count, emitted. simpl. rewrite !length_app. simpl.
  rewrite !Nat2Z.inj_add, thompson_length. simpl. lia.
Qed.

Lemma states_count_with_states (c : NFACompiler.t) (l : list NFA.State) :
  states_count (with_states c l) = Z.of_nat (length l).
Proof.
  reflexivity.
Qed.

Lemma compiler_eq (m : NFA.t) (stack : list NFACompiler.NodeData)
    (states : list NFA.State) (d d' : NFACompiler.NodeData) :
  NFA.states m = states -> d = d' ->
  NFACompiler.mk m (d :: stack)
  = NFACompiler.mk (NFA.mk states (NFA.start_state m)) (d' :: stack).
Proof.
  destruct m. simpl. intros -> ->. reflexivity.
Qed.

Lemma add_future_raw (pre post : list NFA.State) (x : NFA.State)
    (l : list NFA.State) (st : Z) (stack : list NFACompiler.NodeData)
    (s symbol dest : Z) :
  l = pre ++ x :: post ->
  s = Z.of_nat (length pre) ->
  NFACompiler.add_future s symbol dest
    (NFACompiler.mk (NFA.mk l st) stack)
  = Ok (NFACompiler.mk
          (NFA.mk (pre ++ pushed symbol dest x :: post) st) stack).
Proof.
  intros -> ->. unfold NFACompiler.add_future, NFA.add_future. simpl.
  rewrite modify_middle. reflexivity.
Qed.

(** Lengths of state lists, as integers. *)
Ltac lengths :=
  repeat first [ rewrite length_app | rewrite Nat2Z.inj_add
               | rewrite Nat2Z.inj_succ | rewrite thompson_length
               | progress cbn [length] ].

Ltac count := lengths; unfold span in *; cbn [regex_size] in *; lia.

(** The list is the one wanted, up to the bracketing of [++]. *)
Ltac flat := repeat first [ rewrite <- app_assoc | progress cbn [app] ].

Ltac shape := flat; reflexivity.

(** [add_future] on the state that follows [pre]. *)
Tactic Notation "wire" open_constr(pre) :=
  erewrite (add_future_raw pre) by first [shape | count];
  cbn [bind].

(** Two values that differ in the way their integers are written. *)
Ltac same :=
  cbn [thompson];
  unfold pushed, sym_state, eps_state, NFA.fresh;
  cbn [NFA.get_push_back NFA.transitions NFA.symbol NFA.futures
       NFA.last_exec NFA.flags NFA.EPSILON Z.eqb Pos.eqb];
  flat;
  repeat match goal with
         | |- @eq Z _ _ => count
         | |- _ => reflexivity
         | |- _ => f_equal
         end.

(** The sizes that [emit_node] reads, and the states it appends. *)
Ltac sizes :=
  unfold NFACompiler.size, NFACompiler.new_state, NFA.emplace_back, size32;
  cbn [NFACompiler.machine NFA.states NFA.start_state
       NFACompiler.node_stack NFACompiler.start_state
       NFACompiler.accept_state];
  rewrite ?wrap32_small by count.

Lemma emit_node_raw (nodes : list Node) (i : Z) (r : regex) :
  tree_at nodes i r ->
  forall fuel S st stack n,
    (regex_height r <= fuel)%nat ->
    n = Z.of_nat (length S) ->
    n + span r < 4294967296 ->
    NFACompiler.emit_node fuel nodes i
      (NFACompiler.mk (NFA.mk S st) stack)
    = Ok (NFACompiler.mk
            (NFA.mk (S ++ thompson n r ++ [NFA.fresh]) st)
            (NFACompiler.mkNodeData (n + span r - 2) (n + span r - 1)
             :: stack)).
Proof.
  induction 1 as [i a Hi
                 |i first second a b Hi Ha IHa Hb IHb
                 |i first second a b Hi Ha IHa Hb IHb
                 |i first a Hi Ha IHa
                 |i first a Hi Ha IHa
                 |i first a Hi Ha IHa];
    intros fuel S st stack n Hf Hn Hbound;
    (destruct fuel as [|fuel]; [simpl in Hf; lia|]);
    rewrite emit_node_S, Hi; cbn [of_option bind];
    cbn [regex_height] in Hf.
  - sizes. wire S.
    unfold NFACompiler.push.
    cbn [NFACompiler.machine NFACompiler.node_stack]. same.
  - rewrite (IHa _ _ _ _ n) by first [lia | count]. cbn [bind].
    rewrite (IHb _ _ _ _ (n + span a)) by first [lia | count]. cbn [bind].
    cbn [NFACompiler.pop NFACompiler.machine NFACompiler.node_stack bind].
    sizes.
    wire ((S ++ thompson n a ++ [NFA.fresh])
          ++ thompson (n + span a) b ++ [NFA.fresh]).
    wire ((S ++ thompson n a ++ [NFA.fresh])
          ++ thompson (n + span a) b ++ [NFA.fresh]).
    sizes.
    wire (S ++ thompson n a).
    wire ((S ++ thompson n a ++ [_]) ++ thompson (n + span a) b).
    unfold NFACompiler.push.
    cbn [NFACompiler.machine NFACompiler.node_stack]. same.
  - rewrite (IHa _ _ _ _ n) by first [lia | count]. cbn [bind].
    rewrite (IHb _ _ _ _ (n + span a)) by first [lia | count]. cbn [bind].
    cbn [NFACompiler.pop NFACompiler.machine NFACompiler.node_stack bind].
    sizes.
    wire ((S ++ thompson n a ++ [NFA.fresh])
          ++ thompson (n + span a) b ++ [NFA.fresh]).
    sizes.
    wire (S ++ thompson n a).
    wire ((S ++ thompson n a ++ [_]) ++ thompson (n + span a) b).
    unfold NFACompiler.push.
    cbn [NFACompiler.machine NFACompiler.node_stack]. same.
  - rewrite (IHa _ _ _ _ n) by first [lia | count]. cbn [bind].
    cbn [NFACompiler.pop NFACompiler.machine NFACompiler.node_stack bind].
    sizes.
    wire (S ++ thompson n a ++ [NFA.fresh]).
    wire (S ++ thompson n a).
    wire (S ++ thompson n a).
    unfold NFACompiler.push.
    cbn [NFACompiler.machine NFACompiler.node_stack]. same.
  - rewrite (IHa _ _ _ _ n) by first [lia | count]. cbn [bind].
    cbn [NFACompiler.pop NFACompiler.machine NFACompiler.node_stack bind].
    sizes.
    wire (S ++ thompson n a ++ [NFA.fresh]).
    wire (S ++ thompson n a ++ [NFA.fresh]).
    wire (S ++ thompson n a).
    unfold NFACompiler.push.
    cbn [NFACompiler.machine NFACompiler.node_stack]. same.
  - rewrite (IHa _ _ _ _ n) by first [lia | count]. cbn [bind].
    cbn [NFACompiler.pop NFACompiler.machine NFACompiler.node_stack bind].
    sizes.
    wire (S ++ thompson n a ++ [NFA.fresh]).
    wire (S ++ thompson n a ++ [NFA.fresh]).
    wire (S ++ thompson n a).
    unfold NFACompiler.push.
    cbn [NFACompiler.machine NFACompiler.node_stack]. same.
Qed.

(** On a node that reads as the expression [r], [emit_node] appends the
    fragment of [r] to the machine and pushes its start and accept
    states; the states there were and the stack are as they were. *)
Lemma emit_node_tree (nodes : list Node) (i : Z) (r : regex)
    (fuel : nat) (c : NFACompiler.t) :
  tree_at nodes i r ->
  (regex_height r <= fuel)%nat ->
  states_count c + span r < 4294967296 ->
  NFACompiler.emit_node fuel nodes i c = Ok (emitted c r).
Proof.
  intros Ht Hf Hb. destruct c as [[S st] stack].
  apply emit_node_raw; [exact Ht|exact Hf|reflexivity|exact Hb].
Qed.

(* ================================================================= *)
(** ** The compiler: the whole machine *)

Lemma get_push_back_new (symbol dest : Z) (ts : list NFA.Transition) :
  (forall t, In t ts -> NFA.symbol t <> symbol) ->
  NFA.get_push_back symbol dest ts
  = ts ++ [NFA.mkTransition symbol [dest]].
Proof.
  induction ts as [|t ts IH]; intro H; [reflexivity|].
  cbn [NFA.get_push_back app].
  destruct (Z.eqb_spec (NFA.symbol t) symbol) as [E|_].
  - exfalso. exact (H t (or_introl eq_refl) E).
  - rewrite IH; [reflexivity|]. intros u Hu. apply H. right. exact Hu.
Qed.

Lemma scan_transitions_symbol (s : Z) (count : nat) (t : NFA.Transition) :
  In t (scan_transitions s count) ->
  0 <= NFA.symbol t < Z.of_nat count /\ NFA.futures t = [s].
Proof.
  unfold scan_transitions. rewrite in_map_iff.
  intros (i & <- & Hi). apply in_seq in Hi. simpl. split; [lia|reflexivity].
Qed.

Lemma scan_loop_raw (count : nat) :
  forall (j : nat) (pre post : list NFA.State) (le fl st s : Z)
         (stack : list NFACompiler.NodeData),
    s = Z.of_nat (length pre) ->
    NFACompiler.scan_loop count (Z.of_nat j) s
      (NFACompiler.mk
         (NFA.mk (pre ++ NFA.mkState le fl (scan_transitions s j) :: post) st)
         stack)
    = Ok (NFACompiler.mk
            (NFA.mk (pre ++ NFA.mkState le fl (scan_transitions s (j + count))
                     :: post) st)
            stack).
Proof.
  induction count as [|count IH]; intros j pre post le fl st s stack Hs.
  - rewrite Nat.add_0_r. reflexivity.
  - cbn [NFACompiler.scan_loop].
    rewrite (add_future_raw pre post
               (NFA.mkState le fl (scan_transitions s j)))
      by (reflexivity || exact Hs).
    cbn [bind]. unfold pushed.
    cbn [NFA.last_exec NFA.flags NFA.transitions].
    rewrite get_push_back_new.
    2:{ intros t Ht. apply scan_transitions_symbol in Ht. lia. }
    replace (scan_transitions s j ++ [NFA.mkTransition (Z.of_nat j) [s]])
      with (scan_transitions s (S j)).
    2:{ unfold scan_transitions. rewrite seq_S, map_app. reflexivity. }
    replace (Z.of_nat j + 1) with (Z.of_nat (S j)) by lia.
    rewrite IH by exact Hs.
    replace (S j + count)%nat with (j + S count)%nat by lia. reflexivity.
Qed.

Lemma regex_height_size (r : regex) : (regex_height r <= regex_size r)%nat.
Proof.
  induction r; simpl; lia.
Qed.

Lemma scan_state_pushed (s start : Z) :
  pushed NFA.EPSILON start (NFA.mkState 0 0 (scan_transitions s 256))
  = scan_state s start.
Proof.
  unfold pushed, scan_state. cbn [NFA.last_exec NFA.flags NFA.transitions].
  rewrite get_push_back_new; [reflexivity|].
  intros t Ht. apply scan_transitions_symbol in Ht. unfold NFA.EPSILON. lia.
Qed.

(** [compile_tree] on a tree whose last node reads as [r]. *)
Lemma compile_assembled (tree : ParseTree) (r : regex) :
  tree_at (nodes tree) (Z.of_nat (length (nodes tree)) - 1) r ->
  (regex_size r <= length (nodes tree))%nat ->
  Z.of_nat (length (nodes tree)) < 4294967296 ->
  span r + 2 < 4294967296 ->
  NFACompiler.compile tree = Ok (assembled (flags tree) r).
Proof.
  intros Ht Hs Hlen Hb.
  unfold NFACompiler.compile, NFACompiler.compile_tree.
  assert (Hne : nodes tree <> []).
  { intro E. rewrite E in Hs. destruct r; simpl in Hs; lia. }
  rewrite last32_small by (assumption || lia).
  rewrite (emit_node_raw _ _ r Ht _ [] 0 [] 0);
    [|pose proof (regex_height_size r); lia|reflexivity|lia].
  cbn [bind NFACompiler.pop NFACompiler.node_stack NFACompiler.machine
       app].
  rewrite !Z.add_0_l.
  pose proof (span_positive r) as Hpos.
  assert (E1 : Z.of_nat (length (thompson 0 r ++ [NFA.fresh])) = span r)
    by (lengths; lia).
  assert (E2 : forall x, Z.of_nat (length ((thompson 0 r ++ [NFA.fresh]) ++ [x]))
                         = span r + 1)
    by (intro x; lengths; lia).
  unfold assembled, link_state.
  destruct (Z.land (flags tree) BEGIN_ANCHORED =? 0).
  - sizes. rewrite E1.
    assert (Escan :
      NFACompiler.scan_loop 256 0 (span r)
        (NFACompiler.mk
           (NFA.mk ((thompson 0 r ++ [NFA.fresh]) ++ [NFA.fresh]) 0) [])
      = Ok (NFACompiler.mk
              (NFA.mk ((thompson 0 r ++ [NFA.fresh])
                       ++ NFA.mkState 0 0 (scan_transitions (span r) 256)
                       :: []) 0) [])).
    { exact (scan_loop_raw 256 0 (thompson 0 r ++ [NFA.fresh]) [] 0 0 0
               (span r) [] (eq_sym E1)). }
    rewrite Escan. cbn [bind].
    wire (thompson 0 r ++ [NFA.fresh]).
    rewrite scan_state_pushed.
    sizes. rewrite E2.
    destruct (Z.land (flags tree) END_ANCHORED =? 0);
      wire (thompson 0 r); cbn [NFACompiler.machine];
      apply (f_equal (fun l => Ok (NFA.mk l (span r)))); flat; reflexivity.
  - cbn [bind]. sizes. rewrite E1.
    destruct (Z.land (flags tree) END_ANCHORED =? 0);
      wire (thompson 0 r); cbn [NFACompiler.machine];
      apply (f_equal (fun l => Ok (NFA.mk l (span r - 2)))); flat;
      reflexivity.
Qed.

(* ================================================================= *)
(** ** The machine that the compiler leaves *)

Lemma find_get_push_back (symbol dest : Z) (ts : list NFA.Transition) :
  NFA.find symbol (NFA.get_push_back symbol dest ts)
  = Some (NFA.mkTransition symbol
            (match NFA.find symbol ts with
             | Some t => NFA.futures t ++ [dest]
             | None => [dest]
             end)).
Proof.
  induction ts as [|t ts IH]; cbn [NFA.find NFA.get_push_back].
  - cbn [NFA.symbol]. rewrite Z.eqb_refl. reflexivity.
  - destruct (Z.eqb_spec (NFA.symbol t) symbol) as [E|E]; cbn [NFA.find].
    + cbn [NFA.symbol NFA.futures]. apply Z.eqb_eq in E. rewrite E.
      apply Z.eqb_eq in E. rewrite E. reflexivity.
    + apply Z.eqb_neq in E. rewrite E. exact IH.
Qed.

Lemma find_get_push_back_other (symbol symbol' dest : Z)
    (ts : list NFA.Transition) :
  symbol' <> symbol ->
  NFA.find symbol' (NFA.get_push_back symbol dest ts) = NFA.find symbol' ts.
Proof.
  intro Hne. induction ts as [|t ts IH]; cbn [NFA.find NFA.get_push_back].
  - cbn [NFA.symbol]. apply not_eq_sym, Z.eqb_neq in Hne. rewrite Hne.
    reflexivity.
  - destruct (Z.eqb_spec (NFA.symbol t) symbol) as [E|E]; cbn [NFA.find].
    + cbn [NFA.symbol]. rewrite E.
      apply not_eq_sym, Z.eqb_neq in Hne. rewrite Hne. reflexivity.
    + rewrite IH. reflexivity.
Qed.

Lemma get_push_back_symbols (symbol dest : Z) (ts : list NFA.Transition) :
  NoDup (map NFA.symbol ts) ->
  NoDup (map NFA.symbol (NFA.get_push_back symbol dest ts)).
Proof.
  induction ts as [|t ts IH]; cbn [NFA.get_push_back map]; intro H.
  - constructor; [intros []|constructor].
  - destruct (Z.eqb_spec (NFA.symbol t) symbol) as [E|E]; cbn [map].
    + exact H.
    + inversion H as [|x l Hx Hl]; subst. constructor; [|apply IH; exact Hl].
      intro Hin. apply Hx. clear - Hin E.
      induction ts as [|u ts IH]; cbn [NFA.get_push_back map] in *.
      * destruct Hin as [Hin|[]]. simpl in Hin. congruence.
      * destruct (Z.eqb_spec (NFA.symbol u) symbol) as [F|F]; cbn [map] in *.
        -- exact Hin.
        -- destruct Hin as [Hin|Hin]; [left; exact Hin|right; auto].
Qed.

(** *** Where the edges of a fragment lead *)

Lemma thompson_futures (r : regex) :
  forall n st t f,
    In st (thompson n r) -> In t (NFA.transitions st) ->
    In f (NFA.futures t) ->
    n <= f < n + span r.
Proof.
  induction r as [c|a IHa b IHb|a IHa b IHb|a IHa|a IHa|a IHa];
    intros n st t f Hst Ht Hf; cbn [thompson] in Hst;
    try pose proof (span_positive a); try pose proof (span_positive b);
    repeat (apply in_app_or in Hst; destruct Hst as [Hst|Hst]);
    try (match type of Hst with
         | In _ (thompson _ _) =>
             first [ pose proof (IHa _ _ _ _ Hst Ht Hf)
                   | pose proof (IHb _ _ _ _ Hst Ht Hf) ];
             unfold span in *; cbn [regex_size] in *; lia
         end);
    destruct Hst as [<-|[]]; destruct Ht as [<-|[]];
    cbn [NFA.futures] in Hf;
    repeat (destruct Hf as [<-|Hf]; [unfold span in *; cbn [regex_size] in *; lia|]);
    destruct Hf.
Qed.

Lemma thompson_plain (r : regex) :
  forall n st, In st (thompson n r) ->
               NFA.flags st = 0 /\ NFA.last_exec st = 0.
Proof.
  induction r as [c|a IHa b IHb|a IHa b IHb|a IHa|a IHa|a IHa];
    intros n st Hst; cbn [thompson] in Hst;
    repeat (apply in_app_or in Hst; destruct Hst as [Hst|Hst]);
    try (match type of Hst with
         | In _ (thompson _ _) => solve [eauto]
         end);
    destruct Hst as [<-|[]]; split; reflexivity.
Qed.

Lemma assembled_length (flags' : Z) (r : regex) :
  Z.of_nat (length (NFA.states (assembled flags' r)))
  = span r + (if Z.land flags' BEGIN_ANCHORED =? 0 then 2 else 1).
Proof.
  unfold assembled. destruct (Z.land flags' BEGIN_ANCHORED =? 0);
    cbn [NFA.states]; lengths; lia.
Qed.

Lemma assembled_start (flags' : Z) (r : regex) :
  0 <= NFA.start_state (assembled flags' r)
    < Z.of_nat (length (NFA.states (assembled flags' r))).
Proof.
  rewrite assembled_length. pose proof (span_positive r).
  unfold assembled. destruct (Z.land flags' BEGIN_ANCHORED =? 0);
    cbn [NFA.start_state]; lia.
Qed.

Lemma assembled_closed (flags' : Z) (r : regex) :
  closed (assembled flags' r) = true.
Proof.
  unfold closed. rewrite forallb_forall. intros st Hst.
  rewrite forallb_forall. intros t Ht.
  rewrite forallb_forall. intros f Hf.
  pose proof (assembled_length flags' r) as Hlen.
  pose proof (span_positive r) as Hpos.
  apply andb_true_intro. rewrite Z.leb_le, Z.ltb_lt.
  unfold assembled, link_state in *.
  destruct (Z.land flags' BEGIN_ANCHORED =? 0);
    cbn [NFA.states] in *;
    repeat (apply in_app_or in Hst; destruct Hst as [Hst|Hst]);
    try (pose proof (thompson_futures _ _ _ _ _ Hst Ht Hf); lia);
    destruct Hst as [<-|[]].
  - destruct (Z.land flags' END_ANCHORED =? 0);
      destruct Ht as [<-|[]]; destruct Hf as [<-|[]]; lia.
  - unfold scan_state in Ht. cbn [NFA.transitions] in Ht.
    apply in_app_or in Ht. destruct Ht as [Ht|[<-|[]]].
    + apply scan_transitions_symbol in Ht. destruct Ht as [_ Ht].
      rewrite Ht in Hf. destruct Hf as [<-|[]]. lia.
    + destruct Hf as [<-|[]]. lia.
  - destruct Ht.
  - destruct (Z.land flags' END_ANCHORED =? 0);
      destruct Ht as [<-|[]]; destruct Hf as [<-|[]]; lia.
  - destruct Ht.
Qed.

(** The only accepting state of the machine is the last one. *)
Lemma assembled_accepting (flags' : Z) (r : regex) (s : Z) (st : NFA.State) :
  index (NFA.states (assembled flags' r)) s = Some st ->
  (Z.land (NFA.flags st) NFA.ACCEPTING <> 0
   <-> s = Z.of_nat (length (NFA.states (assembled flags' r))) - 1) /\
  (s = Z.of_nat (length (NFA.states (assembled flags' r))) - 1 ->
   st = accepting_state).
Proof.
  intro Hi. pose proof (index_range _ _ _ Hi) as Hr.
  pose proof (assembled_length flags' r) as Hlen.
  assert (Hplain : forall x, In x (thompson 0 r) -> NFA.flags x = 0)
    by (intros x Hx; apply (thompson_plain r 0 x Hx)).
  unfold assembled, link_state in *.
  destruct (Z.land flags' BEGIN_ANCHORED =? 0); cbn [NFA.states] in *.
  - destruct (Z_lt_ge_dec s (Z.of_nat (length (thompson 0 r)))) as [Hl|Hg].
    { rewrite index_app_l in Hi by lia. apply index_In in Hi.
      rewrite (Hplain _ Hi). revert Hl. lengths. intro. split; [|lia].
      split; [intro H; exfalso; apply H; reflexivity|lia]. }
    rewrite index_app_r in Hi by lia. revert Hi Hg Hr. lengths. intros Hi Hg Hr.
    destruct (Z.eq_dec s (span r - 1)) as [->|N1].
    { replace (span r - 1 - (span r - 1)) with 0 in Hi by lia.
      cbn in Hi. injection Hi as <-.
      split; [|lia]. destruct (Z.land flags' END_ANCHORED =? 0);
        (split; [intro H; exfalso; apply H; reflexivity|lia]). }
    destruct (Z.eq_dec s (span r)) as [->|N2].
    { replace (span r - (span r - 1)) with 1 in Hi by lia.
      cbn in Hi. injection Hi as <-.
      split; [|lia].
      split; [intro H; exfalso; apply H; reflexivity|lia]. }
    replace (s - (span r - 1)) with 2 in Hi by lia.
    cbn in Hi. injection Hi as <-.
    split; [|reflexivity]. split; [lia|discriminate].
  - destruct (Z_lt_ge_dec s (Z.of_nat (length (thompson 0 r)))) as [Hl|Hg].
    { rewrite index_app_l in Hi by lia. apply index_In in Hi.
      rewrite (Hplain _ Hi). revert Hl. lengths. intro. split; [|lia].
      split; [intro H; exfalso; apply H; reflexivity|lia]. }
    rewrite index_app_r in Hi by lia. revert Hi Hg Hr. lengths. intros Hi Hg Hr.
    destruct (Z.eq_dec s (span r - 1)) as [->|N1].
    { replace (span r - 1 - (span r - 1)) with 0 in Hi by lia.
      cbn in Hi. injection Hi as <-.
      split; [|lia]. destruct (Z.land flags' END_ANCHORED =? 0);
        (split; [intro H; exfalso; apply H; reflexivity|lia]). }
    replace (s - (span r - 1)) with 1 in Hi by lia.
    cbn in Hi. injection Hi as <-.
    split; [|reflexivity]. split; [lia|discriminate].
Qed.

(** *** From the pattern to the machine *)

(** A pattern shorter than 2^30 characters whose arena is not empty is
    compiled, whatever the parser has reported, to the machine of the
    expression that the arena holds under its last node. *)
Lemma compile_parsed (text : list Z) (ok : bool) (tree : ParseTree) :
  parse_pattern text = Ok (ok, tree) ->
  nodes tree <> [] ->
  Z.of_nat (length text) < 1073741824 ->
  exists r,
    tree_at (nodes tree) (Z.of_nat (length (nodes tree)) - 1) r /\
    atoms_ok r = true /\
    NFACompiler.compile tree = Ok (assembled (flags tree) r).
Proof.
  intros Hp Hne Hlen.
  destruct (parse_pattern_accounted _ _ _ Hp) as (Hsize & _).
  destruct (parse_pattern_rooted _ _ _ Hp Hne) as (r & Ht & Hs & Ha); [lia|].
  exists r. split; [exact Ht|]. split; [exact Ha|].
  apply compile_assembled; [exact Ht|exact Hs|lia|unfold span; lia].
Qed.

Lemma compile_empty (tree : ParseTree) :
  nodes tree = [] -> NFACompiler.compile tree = Fault.
Proof.
  intro E. unfold NFACompiler.compile, NFACompiler.compile_tree.
  rewrite E. reflexivity.
Qed.

(** The machine of a pattern shorter than 2^30 characters is the machine
    of an expression. *)
Lemma compiles_to_assembled (pattern : list Z) (nfa : NFA.t) :
  Z.of_nat (length pattern) < 1073741824 ->
  compiles_to pattern nfa ->
  exists flags' r, atoms_ok r = true /\ nfa = assembled flags' r.
Proof.
  intros Hlen (tree & Hp & Hc).
  destruct (nodes tree) as [|n l] eqn:E.
  { rewrite (compile_empty tree E) in Hc. discriminate. }
  destruct (compile_parsed pattern true tree Hp) as (r & _ & Ha & Hr);
    [rewrite E; discriminate|exact Hlen|].
  exists (flags tree), r. split; [exact Ha|congruence].
Qed.

(* ================================================================= *)
(** ** The engine: the frontiers and the paths of the machine *)

Lemma prefix_S (text : Subject) (n : nat) :
  prefix text (S n) = prefix text n ++ [text n].
Proof.
  unfold prefix. rewrite seq_S, map_app. reflexivity.
Qed.

Lemma prefix_snoc (text : Subject) (w : list Z) (c : Z) (k : nat) :
  w ++ [c] = prefix text k ->
  exists n, k = S n /\ w = prefix text n /\ c = text n.
Proof.
  destruct k as [|n]; intro H.
  - destruct w; discriminate.
  - rewrite prefix_S in H. apply app_inj_tail in H. destruct H as [-> ->].
    exists n. auto.
Qed.

Lemma shape_state (m m' : NFA.t) (s : Z) (st : NFA.State) :
  shape m = shape m' ->
  index (NFA.states m) s = Some st ->
  exists st', index (NFA.states m') s = Some st' /\
              NFA.flags st' = NFA.flags st /\
              NFA.transitions st' = NFA.transitions st.
Proof.
  unfold shape, NFAEngine.clear_stamps. intros H Hi.
  injection H as H _.
  assert (E : index (map (fun st => NFA.mkState 0 (NFA.flags st)
                                      (NFA.transitions st)) (NFA.states m')) s
              = Some (NFA.mkState 0 (NFA.flags st) (NFA.transitions st))).
  { rewrite <- H, index_map, Hi. reflexivity. }
  rewrite index_map in E. destruct (index (NFA.states m') s) as [st'|];
    [|discriminate].
  simpl in E. injection E as E1 E2. exists st'. auto.
Qed.

Lemma shape_accepting (m m' : NFA.t) (s : Z) :
  shape m = shape m' -> is_accepting m s -> is_accepting m' s.
Proof.
  intros H (st & Hi & Hf).
  destruct (shape_state _ _ _ _ H Hi) as (st' & Hi' & Hf' & _).
  exists st'. split; [exact Hi'|]. rewrite Hf'. exact Hf.
Qed.

(** The edges of the machine, read off a state of the engine. *)
Lemma edge_iff (nfa m : NFA.t) (s c f : Z) (st : NFA.State) :
  shape m = shape nfa ->
  index (NFA.states m) s = Some st ->
  (edge nfa s c f <->
   exists t, NFA.find c (NFA.transitions st) = Some t /\ In f (NFA.futures t)).
Proof.
  intros H Hi. unfold edge.
  rewrite <- (shape_transitions _ _ _ _ H Hi). reflexivity.
Qed.

Lemma arrives_path (nfa : NFA.t) (text : Subject) (k : nat) (s : Z) :
  arrives nfa text k s -> path nfa (NFA.start_state nfa) (prefix text k) s.
Proof.
  destruct k as [|n]; simpl.
  - intros ->. constructor.
  - intros (s0 & Hp & He). rewrite prefix_S.
    eapply epath_symbol; eassumption.
Qed.

(** A path that reads [n] characters has entered a state on each of
    them. *)
Lemma path_arrives (nfa : NFA.t) (text : Subject) (w : list Z) (s : Z) :
  path nfa (NFA.start_state nfa) w s ->
  forall n, w = prefix text n ->
  forall k, (k <= n)%nat -> exists s', arrives nfa text k s'.
Proof.
  unfold path. induction 1 as [|w s s' Hp IH He|w s c s' Hp IH He]; intros n Hw k Hk.
  - destruct n; [|discriminate]. replace k with O by lia.
    exists (NFA.start_state nfa). reflexivity.
  - eauto.
  - apply prefix_snoc in Hw. destruct Hw as (n' & -> & -> & ->).
    destruct (Nat.eq_dec k (S n')) as [->|Hne].
    + exists s'. simpl. eauto.
    + apply (IH n' eq_refl). lia.
Qed.

(** *** The loop of [accepting] *)

Lemma accepting_spec (m : NFA.t) (cur : list Z) (b : bool) :
  NFAEngine.accepting m cur = Ok b ->
  if b then exists s, In s cur /\ is_accepting m s
  else forall s, In s cur -> ~ is_accepting m s.
Proof.
  induction cur as [|s cur IH]; simpl; intro H.
  - injection H as <-. intros s [].
  - bind_inv H. apply of_option_Ok in Hrun.
    destruct (Z.eqb_spec (Z.land (NFA.flags a) NFA.ACCEPTING) 0) as [E|E];
      simpl in H.
    + apply IH in H. destruct b.
      * destruct H as (s' & Hin & Hacc). exists s'. auto.
      * intros s' [<-|Hin]; [|auto].
        intros (st & Hi & Hf). congruence.
    + injection H as <-. exists s. split; [left; reflexivity|].
      exists a. auto.
Qed.

(** *** The inner loop of [step] *)

Lemma stamp_index (i c : Z) (m m' : NFA.t) :
  NFAEngine.stamp i c m = Ok m' ->
  (exists st, index (NFA.states m) i = Some st /\
              index (NFA.states m') i
              = Some (NFA.mkState c (NFA.flags st) (NFA.transitions st))) /\
  (forall j, j <> i -> index (NFA.states m') j = index (NFA.states m) j).
Proof.
  unfold NFAEngine.stamp. intro H. bind_inv H. apply of_option_Ok in Hrun.
  injection H as <-. simpl. split.
  - destruct (modify_Some_index _ _ _ _ Hrun) as (st & Hst).
    exists st. split; [exact Hst|].
    rewrite (index_modify_same _ _ _ _ Hrun), Hst. reflexivity.
  - intros j Hj. eapply index_modify_other; eassumption.
Qed.

Lemma visit_stamped (c : Z) (fs : list Z) :
  forall m next m' next',
    NFAEngine.visit c fs m next = Ok (m', next') ->
    stamped c m next ->
    stamped c m' next' /\
    (forall s, In s next' <-> In s next \/ In s fs).
Proof.
  induction fs as [|f fs IH]; simpl; intros m next m' next' H Hst.
  - injection H as <- <-. split; [exact Hst|]. intro s. tauto.
  - bind_inv H. apply of_option_Ok in Hrun. rename a into st.
    destruct Hst as (Hall & Hnext & Hnd).
    destruct (Z.eqb_spec (NFA.last_exec st) c) as [E|E]; simpl in H.
    + apply IH in H; [|split; [exact Hall|split; [exact Hnext|exact Hnd]]].
      destruct H as [H1 H2]. split; [exact H1|].
      intro s. rewrite H2. split; [tauto|].
      intros [Hs|[<-|Hs]]; auto.
      left. exact (proj2 (Hall _ _ Hrun) E).
    + bind_inv H. rename a into m1.
      destruct (stamp_index _ _ _ _ Hrun0) as ((st0 & Hi0 & Hi1) & Hother).
      rewrite Hrun in Hi0. injection Hi0 as <-.
      assert (Hc : 0 <= c) by (destruct (Hall _ _ Hrun) as [? _]; lia).
      assert (Hnotin : ~ In f next).
      { intro Hin. destruct (Hnext _ Hin) as (st' & Hi' & Hl').
        congruence. }
      apply IH in H.
      * destruct H as [H1 H2]. split; [exact H1|].
        intro s. rewrite H2, in_app_iff. simpl. tauto.
      * split; [|split].
        -- intros s st' Hs. destruct (Z.eq_dec s f) as [->|Hne].
           ++ rewrite Hi1 in Hs. injection Hs as <-. simpl.
              split; [lia|]. intros _. apply in_or_app. right. left.
              reflexivity.
           ++ rewrite Hother in Hs by exact Hne.
              destruct (Hall _ _ Hs) as [Hb Hin]. split; [exact Hb|].
              intro El. apply in_or_app. left. auto.
        -- intros s Hin. apply in_app_or in Hin.
           destruct Hin as [Hin|[<-|[]]].
           ++ destruct (Hnext _ Hin) as (st' & Hi' & Hl').
              exists st'. split; [|exact Hl'].
              rewrite Hother; [exact Hi'|]. intros ->. contradiction.
           ++ eexists. split; [exact Hi1|reflexivity].
        -- apply NoDup_app; [exact Hnd|constructor; [intros []|constructor]|].
           intros s Hin [<-|[]]. contradiction.
Qed.

(** *** The closure loop of [step] *)

Lemma wrap32_le (z : Z) : 0 <= z -> 0 <= wrap32 z <= z.
Proof.
  intro H. unfold wrap32. split.
  - apply Z.mod_pos_bound. lia.
  - apply Z.mod_le; lia.
Qed.

Lemma step_loop_stepping (nfa : NFA.t) (text : Subject) (k : nat)
    (fuel : nat) :
  forall i e e',
    stepping nfa text k i e ->
    NFAEngine.step_loop fuel text i e = Ok e' ->
    stepping nfa text k (Z.of_nat (length (NFAEngine.cur_states e'))) e' /\
    (forall s, In s (NFAEngine.cur_states e) ->
               In s (NFAEngine.cur_states e')).
Proof.
  induction fuel as [|fuel IH]; simpl; intros i e e' Hinv H; [discriminate|].
  destruct Hinv as (Hptr & Hcnt & Hshape & Hst & Hi & Hexp & Hcur & Hnext).
  destruct (Z.ltb_spec i (Z.of_nat (length (NFAEngine.cur_states e))))
    as [Hlt|Hge].
  2:{ injection H as <-. split; [|auto].
      replace (Z.of_nat (length (NFAEngine.cur_states e))) with i by lia.
      repeat (split; [assumption|]). assumption. }
  bind_inv H. apply of_option_Ok in Hrun. rename a into s.
  bind_inv H. apply of_option_Ok in Hrun0. rename a into st.
  bind_inv H. destruct a as [m next]. rename Hrun1 into Hvisit.
  pose proof (index_In _ _ _ Hrun) as Hs.
  pose proof (Hcur _ Hs) as Hpath.
  set (cur' := match NFA.find NFA.EPSILON (NFA.transitions st) with
               | Some t => NFAEngine.cur_states e ++ NFA.futures t
               | None => NFAEngine.cur_states e
               end) in *.
  assert (Hsub : forall x, In x (NFAEngine.cur_states e) -> In x cur').
  { intros x Hx. subst cur'.
    destruct (NFA.find NFA.EPSILON (NFA.transitions st)); [|exact Hx].
    apply in_or_app. left. exact Hx. }
  assert (Hold : forall j, j < Z.of_nat (length (NFAEngine.cur_states e)) ->
                           index cur' j = index (NFAEngine.cur_states e) j).
  { intros j Hj. subst cur'.
    destruct (NFA.find NFA.EPSILON (NFA.transitions st)); [|reflexivity].
    apply index_app_l. exact Hj. }
  assert (Hlen : (length (NFAEngine.cur_states e) <= length cur')%nat).
  { subst cur'. destruct (NFA.find NFA.EPSILON (NFA.transitions st));
      [rewrite length_app|]; lia. }
  assert (Heps : forall f, edge nfa s NFA.EPSILON f -> In f cur').
  { intros f He. apply (edge_iff nfa _ _ _ _ _ Hshape Hrun0) in He.
    destruct He as (t & Hf & Hin). subst cur'. rewrite Hf.
    apply in_or_app. right. exact Hin. }
  assert (Hnew : forall f, In f cur' -> ~ In f (NFAEngine.cur_states e) ->
                           edge nfa s NFA.EPSILON f).
  { intros f Hin Hnot. subst cur'.
    destruct (NFA.find NFA.EPSILON (NFA.transitions st)) as [t|] eqn:Hf;
      [|contradiction].
    apply in_app_or in Hin. destruct Hin as [Hin|Hin]; [contradiction|].
    apply (edge_iff nfa _ _ _ _ _ Hshape Hrun0). eauto. }
  assert (Hv : shape m = shape nfa /\
               stamped (Z.of_nat (S k)) m next /\
               (forall f, In f next <->
                  In f (NFAEngine.next_states e) \/ edge nfa s (text k) f)).
  { rewrite Hptr in Hvisit.
    destruct (NFA.find (text k) (NFA.transitions st)) as [t|] eqn:Hf.
    - rewrite Hcnt in Hvisit.
      pose proof (visit_shape _ _ _ _ _ _ Hvisit) as Hsh.
      destruct (visit_stamped _ _ _ _ _ _ Hvisit Hst) as [H1 H2].
      split; [congruence|]. split; [exact H1|].
      intro f. rewrite H2.
      rewrite (edge_iff nfa _ _ (text k) f _ Hshape Hrun0), Hf.
      split; (intros [Hin|Hin]; [left; exact Hin|right]).
      + eauto.
      + destruct Hin as (t' & Et & Hin). injection Et as <-. exact Hin.
    - injection Hvisit as <- <-. split; [exact Hshape|]. split; [exact Hst|].
      intro f. rewrite (edge_iff nfa _ _ (text k) f _ Hshape Hrun0), Hf.
      split; [auto|]. intros [Hin|(t' & Et & _)]; [exact Hin|discriminate]. }
  destruct Hv as (Hshape' & Hst' & Hnext').
  pose proof (wrap32_le (i + 1) ltac:(lia)) as Hw.
  apply IH in H.
  - destruct H as [H1 H2]. split; [exact H1|].
    intros x Hx. apply H2. simpl. auto.
  - unfold stepping.
    cbn [NFAEngine.ptr NFAEngine.counter NFAEngine.machine
         NFAEngine.cur_states NFAEngine.next_states].
    split; [exact Hptr|]. split; [exact Hcnt|].
    split; [exact Hshape'|]. split; [exact Hst'|].
    split; [lia|]. split; [|split].
    + intros j x Hj Hx.
      rewrite Hold in Hx by lia.
      destruct (Z.eq_dec j i) as [->|Hne].
      * rewrite Hrun in Hx. injection Hx as <-.
        split; [exact Heps|]. intros f He. apply Hnext'. right. exact He.
      * destruct (Hexp j x ltac:(lia) Hx) as [E1 E2].
        split; [intros f He; apply Hsub; auto|].
        intros f He. apply Hnext'. left. auto.
    + intros x Hx.
      destruct (in_dec Z.eq_dec x (NFAEngine.cur_states e)) as [Hin|Hnot];
        [auto|].
      eapply epath_epsilon; [exact Hpath|]. apply Hnew; assumption.
    + intros x Hx. apply Hnext' in Hx. destruct Hx as [Hx|Hx]; [auto|].
      simpl. eauto.
Qed.

(** A frontier that holds the states entered on the last character and
    is closed under epsilon edges holds every state the machine can be
    in. *)
Lemma closure_complete (nfa : NFA.t) (text : Subject) (k : nat)
    (cur : list Z) :
  (forall s, arrives nfa text k s -> In s cur) ->
  (forall s f, In s cur -> edge nfa s NFA.EPSILON f -> In f cur) ->
  forall w s, path nfa (NFA.start_state nfa) w s ->
              w = prefix text k -> In s cur.
Proof.
  intros Harr Hclosed w s Hp. revert k Harr. unfold path in Hp.
  induction Hp as [|w s s' Hp IH He|w s c s' Hp IH He]; intros k Harr Hw.
  - destruct k; [|discriminate]. apply Harr. reflexivity.
  - eapply Hclosed; [|exact He]. eapply IH; eassumption.
  - apply prefix_snoc in Hw. destruct Hw as (n & -> & -> & ->).
    apply Harr. simpl. eauto.
Qed.

Lemma expanded_all (nfa : NFA.t) (c : Z) (cur next : list Z) (s : Z) :
  expanded nfa c (Z.of_nat (length cur)) cur next ->
  In s cur ->
  (forall f, edge nfa s NFA.EPSILON f -> In f cur) /\
  (forall f, edge nfa s c f -> In f next).
Proof.
  intros Hexp Hin. destruct (In_index _ _ Hin) as (j & Hj & Hi).
  apply (Hexp j s); [|exact Hi]. apply index_range in Hi. lia.
Qed.

(** *** One step, and the loop of [execute] *)

Lemma step_explored (nfa : NFA.t) (text : Subject) (fuel : nat)
    (e e1 : NFAEngine.t) :
  explored nfa text e ->
  Z.of_nat (S (NFAEngine.ptr e)) < 4294967296 ->
  (forall n, S n = NFAEngine.ptr e -> ~ accepts nfa text n) ->
  NFAEngine.step fuel text (swapped e) = Ok e1 ->
  explored nfa text e1 /\ NFAEngine.ptr e1 = S (NFAEngine.ptr e).
Proof.
  intros (Hcnt & Hshape & Hstamps & Hnd & Harr & Hcur & Hzero & Hno) Hb Hk H.
  unfold NFAEngine.step in H. bind_inv H. injection H as <-.
  set (k := NFAEngine.ptr e) in *.
  apply (step_loop_stepping nfa text k) in Hrun.
  - destruct Hrun as [(Hptr' & Hcnt' & Hshape' & Hst' & _ & Hexp & Hcur' & Hnext')
                        Hsub].
    cbn [swapped NFAEngine.cur_states NFAEngine.ptr] in *.
    assert (Hall : forall s, path nfa (NFA.start_state nfa) (prefix text k) s ->
                             In s (NFAEngine.cur_states a)).
    { intros s Hp. eapply (closure_complete nfa text k); [| |exact Hp|reflexivity].
      - intros x Hx. apply Hsub. apply Harr. exact Hx.
      - intros x f Hx He.
        exact (proj1 (expanded_all _ _ _ _ _ Hexp Hx) f He). }
    split; [|cbn [NFAEngine.ptr]; congruence].
    unfold explored. cbn [NFAEngine.ptr NFAEngine.counter NFAEngine.machine
                          NFAEngine.cur_states NFAEngine.next_states].
    rewrite Hptr'. destruct Hst' as (Hst1 & Hst2 & Hst3).
    split; [exact Hcnt'|]. split; [exact Hshape'|].
    split; [intros s st Hi; exact (proj1 (Hst1 s st Hi))|].
    split; [exact Hst3|]. split; [|split; [|split]].
    + intro s. split; [|apply Hnext'].
      intros (s0 & Hp & He).
      exact (proj2 (expanded_all _ _ _ _ _ Hexp (Hall _ Hp)) s He).
    + intros n s Hn. injection Hn as ->. split; [apply Hall|apply Hcur'].
    + discriminate.
    + intros n Hn. destruct (Nat.eq_dec (S n) k) as [E|E]; [auto|].
      apply Hno. lia.
  - unfold stepping, swapped.
    cbn [NFAEngine.ptr NFAEngine.counter NFAEngine.machine
         NFAEngine.cur_states NFAEngine.next_states].
    split; [reflexivity|]. rewrite Hcnt.
    split; [rewrite wrap32_small; lia|]. split; [exact Hshape|].
    split; [|split; [simpl; lia|split; [|split]]].
    + split; [|split; [intros s []|constructor]].
      intros s st Hi. specialize (Hstamps s st Hi). split; [lia|].
      intro E. fold k in Hstamps. lia.
    + intros j s Hj. lia.
    + intros s Hs. apply arrives_path. apply Harr. exact Hs.
    + intros s [].
Qed.

Lemma run_explored (nfa : NFA.t) (text : Subject) (fuel : nat) :
  forall e b e',
    explored nfa text e ->
    Z.of_nat (fuel + NFAEngine.ptr e) <= 4294967296 ->
    NFAEngine.run fuel text e = Ok (b, e') ->
    explored nfa text e' /\
    if b then exists s, In s (NFAEngine.cur_states e') /\ is_accepting nfa s
    else NFAEngine.next_states e' = [] /\
         forall s, In s (NFAEngine.cur_states e') -> ~ is_accepting nfa s.
Proof.
  induction fuel as [|fuel IH]; intros e b e' Hexp Hb H; [discriminate|].
  simpl in H. bind_inv H. apply accepting_spec in Hrun.
  pose proof Hexp as (_ & Hshape & _ & _ & _ & Hcur & _).
  destruct a.
  { injection H as <- <-. split; [exact Hexp|].
    destruct Hrun as (s & Hin & Hacc). exists s. split; [exact Hin|].
    eapply shape_accepting; eassumption. }
  assert (Hnone : forall s, In s (NFAEngine.cur_states e) ->
                            ~ is_accepting nfa s).
  { intros s Hin Hacc. apply (Hrun s Hin).
    eapply shape_accepting; [symmetry; exact Hshape|exact Hacc]. }
  destruct (NFAEngine.next_states e) as [|x rest] eqn:Hnext.
  { injection H as <- <-. split; [exact Hexp|]. auto. }
  bind_inv H. rename a into e1.
  destruct fuel as [|fuel]; [discriminate|].
  rewrite <- Hnext in Hrun0.
  change (NFAEngine.step (S fuel) text (swapped e) = Ok e1) in Hrun0.
  apply (step_explored nfa) in Hrun0; [|exact Hexp|lia|].
  - destruct Hrun0 as [Hexp1 Hptr1]. apply (IH e1); [exact Hexp1| |exact H].
    rewrite Hptr1. lia.
  - intros n Hn (s & Hp & Hacc). apply (Hnone s); [|exact Hacc].
    apply (Hcur n s Hn). exact Hp.
Qed.

Lemma started_explored (nfa : NFA.t) (text : Subject) :
  explored nfa text (started nfa).
Proof.
  unfold explored, started.
  cbn [NFAEngine.ptr NFAEngine.counter NFAEngine.machine
       NFAEngine.cur_states NFAEngine.next_states].
  split; [reflexivity|]. split; [apply shape_idempotent|].
  split; [|split; [|split; [|split; [|split]]]].
  - intros s st Hi. unfold NFAEngine.clear_stamps in Hi. simpl in Hi.
    rewrite index_map in Hi.
    destruct (index (NFA.states nfa) s); [|discriminate].
    injection Hi as <-. simpl. lia.
  - constructor; [intros []|constructor].
  - intro s. simpl. split; [intros ->; left; reflexivity|].
    intros [<-|[]]. reflexivity.
  - intros n s Hn. discriminate.
  - reflexivity.
  - intros n Hn. lia.
Qed.

(** What [execute] returns, when it returns within 2^32 steps. *)
Lemma execute_explored (nfa : NFA.t) (text : Subject) (fuel : nat)
    (b : bool) (e' : NFAEngine.t) :
  Z.of_nat fuel <= 4294967296 ->
  NFAEngine.execute fuel (NFAEngine.attach nfa) text = Ok (b, e') ->
  if b then
    exists n, S n = NFAEngine.ptr e' /\ accepts nfa text n /\
              forall n', (n' < n)%nat -> ~ accepts nfa text n'
  else forall n, ~ accepts nfa text n.
Proof.
  intros Hb H.
  change (NFAEngine.run fuel text (started nfa) = Ok (b, e')) in H.
  apply (run_explored nfa) in H; [|apply started_explored|simpl; lia].
  destruct H as [(_ & _ & _ & _ & Harr & Hcur & Hzero & Hno) H].
  destruct b.
  - destruct H as (s & Hin & Hacc).
    destruct (NFAEngine.ptr e') as [|n] eqn:Hk.
    { rewrite (Hzero eq_refl) in Hin. destruct Hin. }
    exists n. split; [reflexivity|]. split.
    + exists s. split; [|exact Hacc]. apply (Hcur n s eq_refl). exact Hin.
    + intros n' Hn'. apply Hno. lia.
  - destruct H as [Hnil Hnone]. intros n (s & Hp & Hacc).
    destruct (le_lt_dec (NFAEngine.ptr e') n) as [Hle|Hlt].
    + destruct (path_arrives nfa text _ _ Hp n eq_refl _ Hle) as (s' & Hs').
      apply Harr in Hs'. rewrite Hnil in Hs'. destruct Hs'.
    + destruct (Nat.eq_dec (S n) (NFAEngine.ptr e')) as [E|E].
      * apply (Hnone s); [|exact Hacc]. apply (Hcur n s E). exact Hp.
      * apply (Hno n); [lia|]. exists s. auto.
Qed.

(* ================================================================= *)
(** ** The engine: no state is read out of range *)

Lemma safe_bind {A B : Type} (P : A -> Prop) (Q : B -> Prop)
    (m : res A) (k : A -> res B) :
  safe P m -> (forall a, P a -> safe Q (k a)) -> safe Q (bind m k).
Proof.
  destruct m; simpl; auto.
Qed.

Lemma safe_weaken {A : Type} (P Q : A -> Prop) (r : res A) :
  safe P r -> (forall a, P a -> Q a) -> safe Q r.
Proof.
  destruct r; simpl; auto.
Qed.

Lemma in_range_shape (m m' : NFA.t) (l : list Z) :
  shape m = shape m' -> in_range m l -> in_range m' l.
Proof.
  intros H Hr s Hs. rewrite <- (shape_length _ _ H). auto.
Qed.

Lemma accepting_safe (m : NFA.t) (cur : list Z) :
  in_range m cur -> safe (fun _ => True) (NFAEngine.accepting m cur).
Proof.
  induction cur as [|s cur IH]; simpl; intro H; [exact I|].
  destruct (index_in_range (NFA.states m) s) as (st & ->);
    [apply H; left; reflexivity|].
  simpl. destruct (negb _); [exact I|].
  apply IH. intros x Hx. apply H. right. exact Hx.
Qed.

Lemma visit_safe (c : Z) (fs : list Z) :
  forall m next,
    in_range m fs ->
    safe (fun r => shape (fst r) = shape m /\
                   forall s, In s (snd r) -> In s next \/ In s fs)
         (NFAEngine.visit c fs m next).
Proof.
  induction fs as [|f fs IH]; simpl; intros m next H; [auto|].
  destruct (index_in_range (NFA.states m) f) as (st & ->);
    [apply H; left; reflexivity|].
  simpl.
  assert (Hfs : in_range m fs) by (intros x Hx; apply H; right; exact Hx).
  destruct (negb (NFA.last_exec st =? c)).
  - destruct (stamp_in_range f c m) as (m1 & Hm1);
      [apply H; left; reflexivity|].
    rewrite Hm1. simpl.
    pose proof (stamp_shape _ _ _ _ Hm1) as Hsh.
    eapply safe_weaken; [apply IH|].
    + eapply in_range_shape; [symmetry; exact Hsh|exact Hfs].
    + intros [m' next'] [H1 H2]. simpl in *. split; [congruence|].
      intros s Hs. destruct (H2 s Hs) as [Hin|Hin]; [|auto].
      apply in_app_or in Hin. destruct Hin as [Hin|[<-|[]]]; auto.
  - eapply safe_weaken; [apply IH; exact Hfs|].
    intros [m' next'] [H1 H2]. simpl in *. split; [exact H1|].
    intros s Hs. destruct (H2 s Hs); auto.
Qed.

Section Safety.

Variable nfa : NFA.t.
Variable text : Subject.
Hypothesis nfa_closed : closed nfa = true.

Lemma futures_in_range (m : NFA.t) (s c : Z) (st : NFA.State)
    (t : NFA.Transition) :
  shape m = shape nfa ->
  index (NFA.states m) s = Some st ->
  NFA.find c (NFA.transitions st) = Some t ->
  in_range nfa (NFA.futures t).
Proof.
  intros Hsh Hi Hf x Hx.
  apply (closed_futures nfa s t x nfa_closed); [|exact Hx].
  rewrite <- (shape_transitions _ _ _ _ Hsh Hi). eapply find_In. exact Hf.
Qed.

Lemma step_loop_safe (fuel : nat) :
  forall i e,
    sane nfa e -> 0 <= i ->
    safe (sane nfa) (NFAEngine.step_loop fuel text i e).
Proof.
  induction fuel as [|fuel IH]; simpl; intros i e Hs Hi; [exact I|].
  destruct Hs as (Hsh & Hcur & Hnext).
  destruct (Z.ltb_spec i (Z.of_nat (length (NFAEngine.cur_states e))))
    as [Hlt|Hge]; [|simpl; split; [exact Hsh|split; assumption]].
  destruct (index_in_range (NFAEngine.cur_states e) i) as (s & Hs);
    [lia|].
  rewrite Hs. simpl.
  pose proof (Hcur s (index_In _ _ _ Hs)) as Hrange.
  rewrite <- (shape_length _ _ Hsh) in Hrange.
  destruct (index_in_range _ s Hrange) as (st & Hst).
  rewrite Hst. simpl.
  eapply safe_bind.
  - instantiate (1 := fun r => shape (fst r) = shape nfa /\
                               in_range nfa (snd r)).
    destruct (NFA.find (text (NFAEngine.ptr e)) (NFA.transitions st))
      as [t|] eqn:Hf; [|simpl; auto].
    eapply safe_weaken.
    + apply visit_safe. eapply in_range_shape; [symmetry; exact Hsh|].
      eapply futures_in_range; eassumption.
    + intros [m' next'] [H1 H2]. simpl in *. split; [congruence|].
      intros x Hx. destruct (H2 x Hx) as [Hin|Hin]; [auto|].
      exact (futures_in_range _ _ _ _ _ Hsh Hst Hf x Hin).
  - intros [m next] [H1 H2]. simpl in *.
    apply IH; [|apply wrap32_range].
    split; [exact H1|]. split; [|exact H2]. simpl.
    destruct (NFA.find NFA.EPSILON (NFA.transitions st)) as [t|] eqn:Hf;
      [|exact Hcur].
    intros x Hx. apply in_app_or in Hx. destruct Hx as [Hx|Hx]; [auto|].
    exact (futures_in_range _ _ _ _ _ Hsh Hst Hf x Hx).
Qed.

Lemma step_safe (fuel : nat) (e : NFAEngine.t) :
  sane nfa e -> safe (sane nfa) (NFAEngine.step fuel text e).
Proof.
  intro Hs. unfold NFAEngine.step. eapply safe_bind.
  - apply step_loop_safe; [exact Hs|lia].
  - intros a Ha. exact Ha.
Qed.

Lemma run_safe (fuel : nat) :
  forall e, sane nfa e ->
            safe (fun r => sane nfa (snd r)) (NFAEngine.run fuel text e).
Proof.
  induction fuel as [|fuel IH]; simpl; intros e Hs; [exact I|].
  pose proof Hs as (Hsh & Hcur & Hnext).
  eapply safe_bind.
  - apply accepting_safe. eapply in_range_shape; [symmetry|]; eassumption.
  - intros [|] _; [exact Hs|].
    destruct (NFAEngine.next_states e) as [|x rest] eqn:E; [exact Hs|].
    eapply safe_bind; [|intros a Ha; apply IH; exact Ha].
    apply step_safe. split; [exact Hsh|]. split; [exact Hnext|intros s []].
Qed.

End Safety.

(** On a machine whose edges and start state are in range, [execute]
    reads no state out of range. *)
Lemma matches_safe (nfa : NFA.t) (text : Subject) (fuel : nat) :
  closed nfa = true ->
  0 <= NFA.start_state nfa < Z.of_nat (length (NFA.states nfa)) ->
  matches fuel nfa text <> Fault.
Proof.
  intros Hc Hs.
  assert (Hsane : sane nfa (started nfa)).
  { unfold started, sane. simpl. split; [apply shape_idempotent|].
    split; [intros s []|]. intros s [<-|[]]. exact Hs. }
  pose proof (run_safe nfa text Hc fuel (started nfa) Hsane) as H.
  unfold matches.
  change (NFAEngine.execute fuel (NFAEngine.attach nfa) text)
    with (NFAEngine.run fuel text (started nfa)).
  destruct (NFAEngine.run fuel text (started nfa)) as [[b e']| |];
    simpl in *; [discriminate|destruct H|discriminate].
Qed.

(* ================================================================= *)
(** ** The fragment of an expression and its language *)

Lemma span_atom (c : Z) : span (RAtom c) = 2.
Proof. reflexivity. Qed.

Lemma span_alt (a b : regex) : span (RAlt a b) = span a + span b + 2.
Proof. unfold span. cbn [regex_size]. lia. Qed.

Lemma span_cat (a b : regex) : span (RCat a b) = span a + span b + 2.
Proof. unfold span. cbn [regex_size]. lia. Qed.

Lemma span_plus (a : regex) : span (RPlus a) = span a + 2.
Proof. unfold span. cbn [regex_size]. lia. Qed.

Lemma span_star (a : regex) : span (RStar a) = span a + 2.
Proof. unfold span. cbn [regex_size]. lia. Qed.

Lemma span_opt (a : regex) : span (ROpt a) = span a + 2.
Proof. unfold span. cbn [regex_size]. lia. Qed.

(** The spans of an operator, in terms of those of its operands. *)
Ltac spans :=
  rewrite ?span_atom, ?span_alt, ?span_cat, ?span_plus, ?span_star,
    ?span_opt in *.

Lemma fragment_edge_range (r : regex) :
  forall n s c s',
    fragment_edge n r s c s' ->
    n <= s < n + span r - 1 /\ n <= s' < n + span r.
Proof.
  induction r as [a|a IHa b IHb|a IHa b IHb|a IHa|a IHa|a IHa];
    intros n s c s' H; cbn [fragment_edge] in H; spans.
  - lia.
  - pose proof (span_positive a). pose proof (span_positive b).
    destruct H as [H|[H|H]]; [apply IHa in H|apply IHb in H|]; lia.
  - pose proof (span_positive a). pose proof (span_positive b).
    destruct H as [H|[H|H]]; [apply IHa in H|apply IHb in H|]; lia.
  - pose proof (span_positive a).
    destruct H as [H|H]; [apply IHa in H|]; lia.
  - pose proof (span_positive a).
    destruct H as [H|H]; [apply IHa in H|]; lia.
  - pose proof (span_positive a).
    destruct H as [H|H]; [apply IHa in H|]; lia.
Qed.

Lemma at_state_range (r : regex) :
  forall n s w, at_state n r s w -> n <= s < n + span r.
Proof.
  induction r as [a|a IHa b IHb|a IHa b IHb|a IHa|a IHa|a IHa];
    intros n s w H; cbn [at_state] in H; spans.
  - lia.
  - pose proof (span_positive a). pose proof (span_positive b).
    destruct H as [H|[H|[H|H]]]; [|apply IHa in H|apply IHb in H|]; lia.
  - pose proof (span_positive a). pose proof (span_positive b).
    destruct H as [H|[H|[(w1 & w2 & _ & _ & H)|H]]];
      [|apply IHa in H|apply IHb in H|]; lia.
  - pose proof (span_positive a).
    destruct H as [H|[(w1 & w2 & _ & _ & H)|H]]; [|apply IHa in H|]; lia.
  - pose proof (span_positive a).
    destruct H as [H|[(w1 & w2 & _ & _ & H)|H]]; [|apply IHa in H|]; lia.
  - pose proof (span_positive a).
    destruct H as [H|[H|H]]; [|apply IHa in H|]; lia.
Qed.

(** The ranges of the states that the hypotheses speak of. *)
Ltac learn H :=
  let T := type of H in
  lazymatch goal with
  | _ : T |- _ => fail
  | _ => pose proof H
  end.

Ltac ranges :=
  repeat match goal with
         | H : at_state ?n ?r ?s ?w |- _ => learn (at_state_range r n s w H)
         | H : fragment_edge ?n ?r ?s ?c ?s' |- _ =>
             learn (fragment_edge_range r n s c s' H)
         end.

(** The case is ruled out by where its states lie. *)
Ltac nowhere := solve [exfalso; ranges; spans; lia].

Lemma at_state_start (r : regex) :
  forall n, at_state n r (n + span r - 2) [].
Proof.
  destruct r; intro n; cbn [at_state]; spans; left;
    (split; [lia|first [reflexivity|constructor]]).
Qed.

Lemma at_state_accept (r : regex) :
  forall n w, at_state n r (n + span r - 1) w -> lang r w.
Proof.
  induction r as [a|a IHa b IHb|a IHa b IHb|a IHa|a IHa|a IHa];
    intros n w H; cbn [at_state] in H;
    try pose proof (span_positive a); try pose proof (span_positive b).
  - spans. destruct H as [[H _]|[_ ->]]; [lia|constructor].
  - destruct H as [[H _]|[H|[H|[_ H]]]]; try exact H; try nowhere.
  - destruct H as [[H _]|[H|[(w1 & w2 & _ & _ & H)|[_ H]]]];
      try exact H; try nowhere.
  - destruct H as [[H _]|[(w1 & w2 & _ & _ & H)|[_ H]]];
      try exact H; try nowhere.
  - destruct H as [[H _]|[(w1 & w2 & _ & _ & H)|[_ H]]];
      try exact H; try nowhere.
  - destruct H as [[H _]|[H|[_ H]]]; try exact H; try nowhere.
Qed.

Lemma unit_char_not_epsilon (c : Z) :
  is_unit_char c = true -> c <> NFA.EPSILON.
Proof.
  intros H E. apply is_unit_char_range in H. unfold NFA.EPSILON in E. lia.
Qed.

(** An epsilon edge that [r] adds: nothing is read. *)
Ltac glue :=
  split; [intros _|let E := fresh "E" in intro E; exfalso; apply E; reflexivity].

(** Following an edge of the fragment keeps the account of what has been
    read. *)
Lemma at_state_step (r : regex) :
  atoms_ok r = true ->
  forall n s w c s',
    at_state n r s w -> fragment_edge n r s c s' ->
    (c = NFA.EPSILON -> at_state n r s' w) /\
    (c <> NFA.EPSILON -> at_state n r s' (w ++ [c])).
Proof.
  induction r as [a|a IHa b IHb|a IHa b IHb|a IHa|a IHa|a IHa];
    intros Hok n s w c s' Hat He; cbn [atoms_ok] in Hok;
    try (apply andb_prop in Hok; destruct Hok as [Hoka Hokb]);
    try pose proof (span_positive a); try pose proof (span_positive b).
  - cbn [at_state fragment_edge] in *. destruct He as (-> & -> & ->).
    destruct Hat as [[_ ->]|[Hs _]]; [|lia].
    split; [intro E; exfalso; exact (unit_char_not_epsilon _ Hok E)|].
    intros _. right. split; reflexivity.
  - pose proof (fragment_edge_range _ _ _ _ _ He) as Hr.
    cbn [at_state fragment_edge] in Hat, He |- *.
    destruct Hat as [[Hs ->]|[Hat|[Hat|[Hs Hl]]]];
      destruct He as [He|[He|[-> [[-> ->]|[[-> ->]|[-> [->| ->]]]]]]];
      try nowhere.
    + glue. right. left. apply at_state_start.
    + glue. right. right. left. apply at_state_start.
    + destruct (IHa Hoka _ _ _ _ _ Hat He) as [I1 I2].
      split; intro E; right; left; auto.
    + glue. right. right. right. split; [reflexivity|].
      apply lang_alt_left. apply (at_state_accept a n). exact Hat.
    + destruct (IHb Hokb _ _ _ _ _ Hat He) as [I1 I2].
      split; intro E; right; right; left; auto.
    + glue. right. right. right. split; [reflexivity|].
      apply lang_alt_right. apply (at_state_accept b (n + span a)).
      exact Hat.
  - pose proof (fragment_edge_range _ _ _ _ _ He) as Hr.
    cbn [at_state fragment_edge] in Hat, He |- *.
    destruct Hat as [[Hs ->]|[Hat|[(w1 & w2 & -> & Hl & Hat)|[Hs Hl]]]];
      destruct He as [He|[He|[-> [[-> ->]|[[-> ->]|[-> ->]]]]]];
      try nowhere.
    + glue. right. left. apply at_state_start.
    + destruct (IHa Hoka _ _ _ _ _ Hat He) as [I1 I2].
      split; intro E; right; left; auto.
    + glue. right. right. left. exists w, [].
      split; [rewrite app_nil_r; reflexivity|].
      split; [apply (at_state_accept a n); exact Hat|apply at_state_start].
    + destruct (IHb Hokb _ _ _ _ _ Hat He) as [I1 I2].
      split; intro E; right; right; left.
      * exists w1, w2. auto.
      * exists w1, (w2 ++ [c]). rewrite app_assoc. auto.
    + glue. right. right. right. split; [reflexivity|].
      apply lang_cat; [exact Hl|].
      apply (at_state_accept b (n + span a)). exact Hat.
  - pose proof (fragment_edge_range _ _ _ _ _ He) as Hr.
    cbn [at_state fragment_edge] in Hat, He |- *.
    destruct Hat as [[Hs ->]|[(w1 & w2 & -> & Hl & Hat)|[Hs Hl]]];
      destruct He as [He|[-> [[-> [->| ->]]|[-> ->]]]];
      try nowhere.
    + glue. right. left. exists [], [].
      split; [reflexivity|]. split; [left; reflexivity|apply at_state_start].
    + destruct (IHa Hok _ _ _ _ _ Hat He) as [I1 I2].
      split; intro E; right; left.
      * exists w1, w2. auto.
      * exists w1, (w2 ++ [c]). rewrite app_assoc. auto.
    + assert (Hw : lang (RPlus a) (w1 ++ w2)).
      { pose proof (at_state_accept a n _ Hat) as Ha.
        destruct Hl as [->|Hl]; [apply lang_plus_once; exact Ha|].
        apply lang_plus_more; assumption. }
      glue. right. left. exists (w1 ++ w2), [].
      split; [rewrite app_nil_r; reflexivity|].
      split; [right; exact Hw|apply at_state_start].
    + assert (Hw : lang (RPlus a) (w1 ++ w2)).
      { pose proof (at_state_accept a n _ Hat) as Ha.
        destruct Hl as [->|Hl]; [apply lang_plus_once; exact Ha|].
        apply lang_plus_more; assumption. }
      glue. right. right. split; [reflexivity|exact Hw].
  - pose proof (fragment_edge_range _ _ _ _ _ He) as Hr.
    cbn [at_state fragment_edge] in Hat, He |- *.
    destruct Hat as [[Hs Hl]|[(w1 & w2 & -> & Hl & Hat)|[Hs Hl]]];
      destruct He as [He|[-> [[-> ->]|[-> [->| ->]]]]];
      try nowhere.
    + glue. right. left. exists w, [].
      split; [rewrite app_nil_r; reflexivity|].
      split; [exact Hl|apply at_state_start].
    + glue. right. right. split; [reflexivity|exact Hl].
    + destruct (IHa Hok _ _ _ _ _ Hat He) as [I1 I2].
      split; intro E; right; left.
      * exists w1, w2. auto.
      * exists w1, (w2 ++ [c]). rewrite app_assoc. auto.
    + glue. left. split; [reflexivity|].
      apply lang_star_more; [exact Hl|].
      apply (at_state_accept a n). exact Hat.
  - pose proof (fragment_edge_range _ _ _ _ _ He) as Hr.
    cbn [at_state fragment_edge] in Hat, He |- *.
    destruct Hat as [[Hs ->]|[Hat|[Hs Hl]]];
      destruct He as [He|[-> [[-> ->]|[-> [->| ->]]]]];
      try nowhere.
    + glue. right. left. apply at_state_start.
    + glue. right. right. split; [reflexivity|apply lang_opt_none].
    + destruct (IHa Hok _ _ _ _ _ Hat He) as [I1 I2].
      split; intro E; right; left; auto.
    + glue. right. right. split; [reflexivity|].
      apply lang_opt_some. apply (at_state_accept a n). exact Hat.
Qed.

(** *** The edges of the states that [thompson] lays out *)

Lemma sym_state_edge (a d c s' : Z) :
  state_edge (sym_state a d) c s' <-> c = a /\ s' = d.
Proof.
  unfold state_edge, sym_state. cbn [NFA.transitions NFA.find NFA.symbol].
  destruct (Z.eqb_spec a c) as [E|E].
  - split.
    + intros (t & Ht & Hin). injection Ht as <-. cbn [NFA.futures] in Hin.
      destruct Hin as [<-|[]]. auto.
    + intros [_ ->]. eexists. split; [reflexivity|]. left. reflexivity.
  - split.
    + intros (t & Ht & _). discriminate.
    + intros [-> _]. contradiction.
Qed.

Lemma eps_state_edge (ds : list Z) (c s' : Z) :
  state_edge (eps_state ds) c s' <-> c = NFA.EPSILON /\ In s' ds.
Proof.
  unfold state_edge, eps_state. cbn [NFA.transitions NFA.find NFA.symbol].
  destruct (Z.eqb_spec NFA.EPSILON c) as [E|E].
  - split.
    + intros (t & Ht & Hin). injection Ht as <-. cbn [NFA.futures] in Hin.
      auto.
    + intros [_ Hin]. eexists. split; [reflexivity|]. exact Hin.
  - split.
    + intros (t & Ht & _). discriminate.
    + intros [-> _]. contradiction.
Qed.

Lemma index_one {A : Type} (x y : A) (i : Z) :
  index [x] i = Some y -> i = 0 /\ y = x.
Proof.
  cbn [index]. destruct (Z.eqb_spec i 0); [|discriminate].
  intro H. injection H as <-. auto.
Qed.

Lemma index_app_cases {A : Type} (v w : list A) (i : Z) (x : A) :
  index (v ++ w) i = Some x ->
  (i < Z.of_nat (length v) /\ index v i = Some x) \/
  (Z.of_nat (length v) <= i /\ index w (i - Z.of_nat (length v)) = Some x).
Proof.
  intro H. destruct (Z_lt_ge_dec i (Z.of_nat (length v))) as [Hl|Hg].
  - left. rewrite index_app_l in H by exact Hl. auto.
  - right. rewrite index_app_r in H by lia. split; [lia|exact H].
Qed.

(** Where a state of the fragment of a unary operator lies. *)
Lemma index_unary (a : regex) (n s : Z) (x z st : NFA.State) :
  index (thompson n a ++ [x] ++ [z]) (s - n) = Some st ->
  (n <= s < n + span a - 1 /\ index (thompson n a) (s - n) = Some st) \/
  (s = n + span a - 1 /\ st = x) \/
  (s = n + span a /\ st = z).
Proof.
  intro H. apply index_app_cases in H. rewrite thompson_length in H.
  destruct H as [[Hl H]|[Hg H]].
  - left. pose proof (index_range _ _ _ H). split; [lia|exact H].
  - right. apply index_app_cases in H. cbn [length] in H.
    destruct H as [[Hl H]|[Hg' H]]; apply index_one in H; destruct H as [H ->].
    + left. split; [lia|reflexivity].
    + right. split; [lia|reflexivity].
Qed.

(** Where a state of the fragment of a binary operator lies. *)
Lemma index_binary (a b : regex) (n s : Z) (x y z st : NFA.State) :
  index (thompson n a ++ [x] ++ thompson (n + span a) b ++ [y] ++ [z])
        (s - n) = Some st ->
  (n <= s < n + span a - 1 /\ index (thompson n a) (s - n) = Some st) \/
  (s = n + span a - 1 /\ st = x) \/
  (n + span a <= s < n + span a + span b - 1 /\
   index (thompson (n + span a) b) (s - (n + span a)) = Some st) \/
  (s = n + span a + span b - 1 /\ st = y) \/
  (s = n + span a + span b /\ st = z).
Proof.
  intro H. apply index_app_cases in H. rewrite thompson_length in H.
  destruct H as [[Hl H]|[Hg H]].
  { left. pose proof (index_range _ _ _ H). split; [lia|exact H]. }
  right. apply index_app_cases in H. cbn [length] in H.
  destruct H as [[Hl H]|[Hg' H]].
  { apply index_one in H. destruct H as [H ->].
    left. split; [lia|reflexivity]. }
  right.
  replace (s - n - (span a - 1) - Z.of_nat 1) with (s - (n + span a)) in H
    by lia.
  apply index_unary in H. destruct H as [H|[H|H]].
  - left. exact H.
  - right. left. destruct H as [H ->]. split; [lia|reflexivity].
  - right. right. destruct H as [H ->]. split; [lia|reflexivity].
Qed.

(** The edges of a state of [thompson] are those of the fragment. *)
Lemma thompson_edge (r : regex) :
  forall n s st c s',
    index (thompson n r) (s - n) = Some st ->
    (state_edge st c s' <-> fragment_edge n r s c s').
Proof.
  induction r as [a|a IHa b IHb|a IHa b IHb|a IHa|a IHa|a IHa];
    intros n s st c s' H; cbn [thompson] in H;
    try pose proof (span_positive a); try pose proof (span_positive b).
  - apply index_one in H. destruct H as [H ->].
    rewrite sym_state_edge. cbn [fragment_edge]. split.
    + intros [-> ->]. split; [lia|]. split; reflexivity.
    + intros (_ & -> & ->). split; reflexivity.
  - apply index_binary in H. cbn [fragment_edge].
    destruct H as [[Hs H]|[[Hs ->]|[[Hs H]|[[Hs ->]|[Hs ->]]]]].
    + rewrite (IHa _ _ _ c s' H). split; [intro; left; assumption|].
      intros [He|[He|He]]; [exact He|nowhere|exfalso; lia].
    + rewrite eps_state_edge. split.
      * intros [-> [<-|[]]]. right. right. split; [reflexivity|]. left. lia.
      * intros [He|[He|(-> & He)]]; [nowhere|nowhere|].
        split; [reflexivity|]. left. lia.
    + rewrite (IHb _ _ _ c s' H). split; [intro; right; left; assumption|].
      intros [He|[He|He]]; [nowhere|exact He|exfalso; lia].
    + rewrite eps_state_edge. split.
      * intros [-> [<-|[]]]. right. right. split; [reflexivity|].
        right. left. lia.
      * intros [He|[He|(-> & He)]]; [nowhere|nowhere|].
        split; [reflexivity|]. left. lia.
    + rewrite eps_state_edge. split.
      * intros [-> [<-|[<-|[]]]]; right; right; (split; [reflexivity|]);
          right; right; (split; [lia|]); [left|right]; lia.
      * intros [He|[He|(-> & He)]]; [nowhere|nowhere|].
        split; [reflexivity|]. cbn [In]. lia.
  - apply index_binary in H. cbn [fragment_edge].
    destruct H as [[Hs H]|[[Hs ->]|[[Hs H]|[[Hs ->]|[Hs ->]]]]].
    + rewrite (IHa _ _ _ c s' H). split; [intro; left; assumption|].
      intros [He|[He|He]]; [exact He|nowhere|exfalso; lia].
    + rewrite eps_state_edge. split.
      * intros [-> [<-|[]]]. right. right. split; [reflexivity|]. left. lia.
      * intros [He|[He|(-> & He)]]; [nowhere|nowhere|].
        split; [reflexivity|]. left. lia.
    + rewrite (IHb _ _ _ c s' H). split; [intro; right; left; assumption|].
      intros [He|[He|He]]; [nowhere|exact He|exfalso; lia].
    + rewrite eps_state_edge. split.
      * intros [-> [<-|[]]]. right. right. split; [reflexivity|].
        right. left. lia.
      * intros [He|[He|(-> & He)]]; [nowhere|nowhere|].
        split; [reflexivity|]. left. lia.
    + rewrite eps_state_edge. split.
      * intros [-> [<-|[]]]. right. right. split; [reflexivity|].
        right. right. lia.
      * intros [He|[He|(-> & He)]]; [nowhere|nowhere|].
        split; [reflexivity|]. left. lia.
  - apply index_unary in H. cbn [fragment_edge].
    destruct H as [[Hs H]|[[Hs ->]|[Hs ->]]].
    + rewrite (IHa _ _ _ c s' H). split; [intro; left; assumption|].
      intros [He|He]; [exact He|exfalso; lia].
    + rewrite eps_state_edge. split.
      * intros [-> [<-|[<-|[]]]]; right; (split; [reflexivity|]); left;
          (split; [lia|]); [left|right]; lia.
      * intros [He|(-> & He)]; [nowhere|].
        split; [reflexivity|]. cbn [In]. lia.
    + rewrite eps_state_edge. split.
      * intros [-> [<-|[]]]. right. split; [reflexivity|]. right. lia.
      * intros [He|(-> & He)]; [nowhere|].
        split; [reflexivity|]. left. lia.
  - apply index_unary in H. cbn [fragment_edge].
    destruct H as [[Hs H]|[[Hs ->]|[Hs ->]]].
    + rewrite (IHa _ _ _ c s' H). split; [intro; left; assumption|].
      intros [He|He]; [exact He|exfalso; lia].
    + rewrite eps_state_edge. split.
      * intros [-> [<-|[]]]. right. split; [reflexivity|]. left. lia.
      * intros [He|(-> & He)]; [nowhere|].
        split; [reflexivity|]. left. lia.
    + rewrite eps_state_edge. split.
      * intros [-> [<-|[<-|[]]]]; right; (split; [reflexivity|]); right;
          (split; [lia|]); [left|right]; lia.
      * intros [He|(-> & He)]; [nowhere|].
        split; [reflexivity|]. cbn [In]. lia.
  - apply index_unary in H. cbn [fragment_edge].
    destruct H as [[Hs H]|[[Hs ->]|[Hs ->]]].
    + rewrite (IHa _ _ _ c s' H). split; [intro; left; assumption|].
      intros [He|He]; [exact He|exfalso; lia].
    + rewrite eps_state_edge. split.
      * intros [-> [<-|[]]]. right. split; [reflexivity|]. left. lia.
      * intros [He|(-> & He)]; [nowhere|].
        split; [reflexivity|]. left. lia.
    + rewrite eps_state_edge. split.
      * intros [-> [<-|[<-|[]]]]; right; (split; [reflexivity|]); right;
          (split; [lia|]); [left|right]; lia.
      * intros [He|(-> & He)]; [nowhere|].
        split; [reflexivity|]. cbn [In]. lia.
Qed.

(** *** The edges of the whole machine *)

Lemma index_three {A : Type} (x y z st : A) (i : Z) :
  index ([x] ++ [y] ++ [z]) i = Some st ->
  (i = 0 /\ st = x) \/ (i = 1 /\ st = y) \/ (i = 2 /\ st = z).
Proof.
  cbn [app index].
  destruct (Z.eqb_spec i 0); [intro H; injection H as <-; auto|].
  destruct (Z.eqb_spec (i - 1) 0); [intro H; injection H as <-; right; left; split; [lia|reflexivity]|].
  destruct (Z.eqb_spec (i - 1 - 1) 0); [|discriminate].
  intro H; injection H as <-. right. right. split; [lia|reflexivity].
Qed.



Lemma edge_state (m : NFA.t) (s c s' : Z) :
  edge m s c s' <->
  exists st, index (NFA.states m) s = Some st /\ state_edge st c s'.
Proof.
  unfold edge, transitions_of, state_edge. split.
  - intros (t & Hf & Hin). destruct (index (NFA.states m) s) as [st|].
    + exists st. split; [reflexivity|]. exists t. auto.
    + discriminate.
  - intros (st & -> & H). exact H.
Qed.

Lemma link_state_edge (flags' d c s' : Z) :
  state_edge (link_state flags' d) c s' <->
  c = (if ends flags' then 0 else NFA.EPSILON) /\ s' = d.
Proof.
  unfold link_state, ends.
  destruct (Z.land flags' END_ANCHORED =? 0); cbn [negb].
  - rewrite eps_state_edge. cbn [In]. intuition.
  - apply sym_state_edge.
Qed.

Lemma accepting_state_edge (c s' : Z) : ~ state_edge accepting_state c s'.
Proof.
  intros (t & H & _). discriminate.
Qed.

Lemma find_scan (s c : Z) (rest : list NFA.Transition) (count : nat) :
  forall first,
    NFA.find c (map (fun i => NFA.mkTransition (Z.of_nat i) [s])
                    (seq first count) ++ rest)
    = if (Z.of_nat first <=? c) && (c <? Z.of_nat (first + count))
      then Some (NFA.mkTransition c [s])
      else NFA.find c rest.
Proof.
  induction count as [|count IH]; intro first.
  - cbn [seq map app].
    destruct (Z.leb_spec (Z.of_nat first) c), (Z.ltb_spec c (Z.of_nat (first + 0)));
      try reflexivity; lia.
  - cbn [seq map app NFA.find NFA.symbol]. rewrite IH.
    destruct (Z.eqb_spec (Z.of_nat first) c) as [E|E].
    + subst c.
      destruct (Z.leb_spec (Z.of_nat first) (Z.of_nat first)),
        (Z.ltb_spec (Z.of_nat first) (Z.of_nat (first + S count)));
        try reflexivity; lia.
    + destruct (Z.leb_spec (Z.of_nat (S first)) c),
        (Z.ltb_spec c (Z.of_nat (S first + count))),
        (Z.leb_spec (Z.of_nat first) c),
        (Z.ltb_spec c (Z.of_nat (first + S count)));
        try reflexivity; lia.
Qed.

Lemma scan_state_edge (s start c s' : Z) :
  state_edge (scan_state s start) c s' <->
  (scanned c /\ s' = s) \/ (c = NFA.EPSILON /\ s' = start).
Proof.
  unfold state_edge, scan_state, scan_transitions, scanned.
  cbn [NFA.transitions]. rewrite find_scan.
  cbn [NFA.find NFA.symbol].
  destruct (Z.leb_spec (Z.of_nat 0) c), (Z.ltb_spec c (Z.of_nat (0 + 256)));
    cbn [andb].
  - split.
    + intros (t & Ht & Hin). injection Ht as <-. cbn [NFA.futures] in Hin.
      destruct Hin as [<-|[]]. left. split; [lia|reflexivity].
    + intros [[_ ->]|[-> _]]; [|unfold NFA.EPSILON in *; lia].
      eexists. split; [reflexivity|]. left. reflexivity.
  - destruct (Z.eqb_spec NFA.EPSILON c) as [E|E].
    + split.
      * intros (t & Ht & Hin). injection Ht as <-. cbn [NFA.futures] in Hin.
        destruct Hin as [<-|[]]. right. auto.
      * intros [[Hc _]|[_ ->]]; [lia|].
        eexists. split; [reflexivity|]. left. reflexivity.
    + split.
      * intros (t & Ht & _). discriminate.
      * intros [[Hc _]|[-> _]]; [lia|contradiction].
  - destruct (Z.eqb_spec NFA.EPSILON c) as [E|E].
    + split.
      * intros (t & Ht & Hin). injection Ht as <-. cbn [NFA.futures] in Hin.
        destruct Hin as [<-|[]]. right. auto.
      * intros [[Hc _]|[_ ->]]; [lia|].
        eexists. split; [reflexivity|]. left. reflexivity.
    + split.
      * intros (t & Ht & _). discriminate.
      * intros [[Hc _]|[-> _]]; [lia|contradiction].
  - lia.
Qed.

(** The edges of the machine of [r]: those of the fragment of [r], the
    edge from its accept state to the accepting state, and those of the
    scan state. *)
Lemma assembled_edge (flags' : Z) (r : regex) (s c s' : Z) :
  edge (assembled flags' r) s c s' <->
  fragment_edge 0 r s c s' \/
  (s = span r - 1 /\ c = (if ends flags' then 0 else NFA.EPSILON) /\
   s' = final flags' r) \/
  (begins flags' = false /\ s = span r /\
   ((scanned c /\ s' = span r) \/ (c = NFA.EPSILON /\ s' = span r - 2))).
Proof.
  pose proof (span_positive r) as Hk.
  rewrite edge_state. unfold assembled, final, begins.
  destruct (Z.land flags' BEGIN_ANCHORED =? 0); cbn [negb NFA.states].
  - split.
    + intros (st & Hi & He). replace s with (s - 0) in Hi by lia.
      apply index_app_cases in Hi. rewrite thompson_length in Hi.
      destruct Hi as [[Hl Hi]|[Hg Hi]].
      { left. apply (thompson_edge r 0 s st c s' Hi). exact He. }
      right. replace (s - 0) with s in Hi by lia. apply index_three in Hi.
      destruct Hi as [[Hs ->]|[[Hs ->]|[Hs ->]]].
      * left. apply link_state_edge in He. split; [lia|]. exact He.
      * right. apply scan_state_edge in He. split; [reflexivity|].
        split; [lia|]. exact He.
      * destruct (accepting_state_edge _ _ He).
    + intros [He|[(-> & -> & ->)|(_ & -> & He)]].
      * pose proof (fragment_edge_range _ _ _ _ _ He) as [Hr _].
        destruct (index_in_range (thompson 0 r) (s - 0)) as (st & Hi);
          [rewrite thompson_length; lia|].
        exists st. split.
        -- rewrite index_app_l by (rewrite thompson_length; lia).
           replace s with (s - 0) by lia. exact Hi.
        -- apply (thompson_edge r 0 s st c s' Hi). exact He.
      * eexists. split.
        -- rewrite index_app_r by (rewrite thompson_length; lia).
           rewrite thompson_length. rewrite Z.sub_diag. reflexivity.
        -- apply link_state_edge. split; reflexivity.
      * eexists. split.
        -- rewrite index_app_r by (rewrite thompson_length; lia).
           rewrite thompson_length.
           replace (span r - (span r - 1)) with 1 by lia. reflexivity.
        -- apply scan_state_edge. exact He.
  - split.
    + intros (st & Hi & He). replace s with (s - 0) in Hi by lia.
      apply index_unary in Hi.
      destruct Hi as [[Hs Hi]|[[Hs ->]|[Hs ->]]].
      * left. apply (thompson_edge r 0 s st c s' Hi). exact He.
      * right. left. apply link_state_edge in He. split; [lia|]. exact He.
      * destruct (accepting_state_edge _ _ He).
    + intros [He|[(-> & -> & ->)|(Hf & _)]]; [| |discriminate].
      * pose proof (fragment_edge_range _ _ _ _ _ He) as [Hr _].
        destruct (index_in_range (thompson 0 r) (s - 0)) as (st & Hi);
          [rewrite thompson_length; lia|].
        exists st. split.
        -- rewrite index_app_l by (rewrite thompson_length; lia).
           replace s with (s - 0) by lia. exact Hi.
        -- apply (thompson_edge r 0 s st c s' Hi). exact He.
      * eexists. split.
        -- rewrite index_app_r by (rewrite thompson_length; lia).
           rewrite thompson_length. rewrite Z.sub_diag. reflexivity.
        -- apply link_state_edge. split; reflexivity.
Qed.

(** *** What a path of the machine has read *)

Lemma at_machine_start (flags' : Z) (r : regex) :
  at_machine flags' r (NFA.start_state (assembled flags' r)) [].
Proof.
  exists [], []. split; [reflexivity|].
  unfold skipped, assembled, begins.
  destruct (Z.land flags' BEGIN_ANCHORED =? 0); cbn [negb NFA.start_state].
  - split; [constructor|]. left. auto.
  - split; [reflexivity|]. right. left. apply (at_state_start r 0).
Qed.

Lemma at_machine_step (flags' : Z) (r : regex) (s c s' : Z) (w : list Z) :
  atoms_ok r = true ->
  at_machine flags' r s w ->
  edge (assembled flags' r) s c s' ->
  (c = NFA.EPSILON -> at_machine flags' r s' w) /\
  (c <> NFA.EPSILON -> at_machine flags' r s' (w ++ [c])).
Proof.
  intros Hok (w0 & w1 & -> & Hskip & Hat) He.
  pose proof (span_positive r) as Hk.
  apply assembled_edge in He.
  assert (Hfinal : span r <= final flags' r)
    by (unfold final; destruct (begins flags'); lia).
  destruct He as [He|[(-> & -> & ->)|(Hb & -> & He)]].
  - pose proof (fragment_edge_range _ _ _ _ _ He) as [Hr _].
    destruct Hat as [(_ & -> & _)|[Hat|[-> _]]]; [lia| |lia].
    destruct (at_state_step r Hok 0 s w1 c s' Hat He) as [I1 I2].
    split; intro E.
    + exists w0, w1. split; [reflexivity|]. split; [exact Hskip|].
      right. left. auto.
    + exists w0, (w1 ++ [c]). rewrite app_assoc.
      split; [reflexivity|]. split; [exact Hskip|]. right. left. auto.
  - destruct Hat as [(_ & Hs & _)|[Hat|[Hs _]]]; [lia| |lia].
    apply (at_state_accept r 0) in Hat.
    unfold ended. destruct (ends flags') eqn:Hends; split; intro E;
      try discriminate; try (exfalso; apply E; reflexivity).
    + exists w0, (w1 ++ [0]). rewrite app_assoc.
      split; [reflexivity|]. split; [exact Hskip|]. right. right.
      split; [reflexivity|]. unfold ended. rewrite Hends. exists w1. auto.
    + exists w0, w1. split; [reflexivity|]. split; [exact Hskip|].
      right. right. split; [reflexivity|]. unfold ended. rewrite Hends.
      exact Hat.
  - assert (Hf : final flags' r = span r + 1)
      by (unfold final; rewrite Hb; reflexivity).
    destruct Hat as [(_ & _ & ->)|[Hat|[Hs _]]];
      [|apply at_state_range in Hat; lia|lia].
    rewrite app_nil_r. unfold skipped in *. rewrite Hb in *.
    destruct He as [[Hc ->]|[-> ->]]; split; intro E;
      try (exfalso; apply E; reflexivity).
    + unfold scanned, NFA.EPSILON in *. lia.
    + exists (w0 ++ [c]), []. split; [rewrite app_nil_r; reflexivity|].
      unfold skipped. rewrite Hb.
      split; [apply Forall_app; split; [exact Hskip|constructor; [exact Hc|constructor]]|].
      left. auto.
    + exists w0, []. split; [rewrite app_nil_r; reflexivity|].
      unfold skipped. rewrite Hb. split; [exact Hskip|].
      right. left. apply (at_state_start r 0).
Qed.

(** A path of the machine that reads no character -1 is accounted for
    by the language of the expression. *)
Lemma path_at_machine (flags' : Z) (r : regex) (w : list Z) (s : Z) :
  atoms_ok r = true ->
  path (assembled flags' r) (NFA.start_state (assembled flags' r)) w s ->
  ~ In NFA.EPSILON w ->
  at_machine flags' r s w.
Proof.
  intros Hok Hp. unfold path in Hp.
  induction Hp as [|w s s' Hp IH He|w s c s' Hp IH He]; intro Hw.
  - apply at_machine_start.
  - apply (at_machine_step _ _ _ _ _ _ Hok (IH Hw) He). reflexivity.
  - assert (Hw' : ~ In NFA.EPSILON w).
    { intro Hin. apply Hw. apply in_or_app. left. exact Hin. }
    apply (at_machine_step _ _ _ _ _ _ Hok (IH Hw') He).
    intro E. apply Hw. apply in_or_app. right. left. exact E.
Qed.

(** *** The paths that the language asks for *)

Lemma epath_app (E : Z -> Z -> Z -> Prop) (s0 s1 s2 : Z) (w1 w2 : list Z) :
  epath E s0 w1 s1 -> epath E s1 w2 s2 -> epath E s0 (w1 ++ w2) s2.
Proof.
  intros H1 H2. induction H2 as [|w s s' Hp IH He|w s c s' Hp IH He].
  - rewrite app_nil_r. exact H1.
  - eapply epath_epsilon; eassumption.
  - rewrite app_assoc. eapply epath_symbol; eassumption.
Qed.

Lemma epath_mono (E E' : Z -> Z -> Z -> Prop) (s0 s : Z) (w : list Z) :
  (forall s c s', E s c s' -> E' s c s') ->
  epath E s0 w s -> epath E' s0 w s.
Proof.
  intros Hsub H. induction H as [|w s s' Hp IH He|w s c s' Hp IH He].
  - constructor.
  - eapply epath_epsilon; [exact IH|]. apply Hsub. exact He.
  - eapply epath_symbol; [exact IH|]. apply Hsub. exact He.
Qed.

(** One epsilon edge more, at the end of a path. *)
Lemma epath_then (E : Z -> Z -> Z -> Prop) (s0 s s' : Z) (w : list Z) :
  epath E s0 w s -> E s NFA.EPSILON s' -> epath E s0 w s'.
Proof.
  apply epath_epsilon.
Qed.

(** One epsilon edge more, at the start of a path. *)
Lemma epath_from (E : Z -> Z -> Z -> Prop) (s0 s1 s : Z) (w : list Z) :
  E s0 NFA.EPSILON s1 -> epath E s1 w s -> epath E s0 w s.
Proof.
  intros He Hp. change w with ([] ++ w). eapply epath_app; [|exact Hp].
  eapply epath_epsilon; [constructor|exact He].
Qed.

(** The fragment of [RPlus a] reads a word of [RPlus a] from its start
    state to the accept state of the fragment of [a]. *)
Lemma plus_loop (a : regex) :
  (forall w, lang a w ->
     forall n, epath (fragment_edge n a) (n + span a - 2) w (n + span a - 1)) ->
  forall r w, lang r w -> r = RPlus a ->
    forall n,
      epath (fragment_edge n (RPlus a)) (n + span a) w (n + span a - 1).
Proof.
  intros Ha r w H. induction H; intros Er n; try discriminate.
  - injection Er as ->.
    apply (epath_from _ _ (n + span a - 2)).
    + cbn [fragment_edge]. right. split; [reflexivity|]. right. auto.
    + apply (epath_mono (fragment_edge n a)); [|apply Ha; assumption].
      intros s c s' He. cbn [fragment_edge]. left. exact He.
  - injection Er as ->.
    eapply epath_app; [apply IHlang1; reflexivity|].
    apply (epath_from _ _ (n + span a - 2)).
    + cbn [fragment_edge]. right. split; [reflexivity|]. left.
      split; [reflexivity|]. left. reflexivity.
    + apply (epath_mono (fragment_edge n a)); [|apply Ha; assumption].
      intros s c s' He. cbn [fragment_edge]. left. exact He.
Qed.

(** The fragment of [RStar a] reads a word of [RStar a] from its start
    state back to its start state. *)
Lemma star_loop (a : regex) :
  (forall w, lang a w ->
     forall n, epath (fragment_edge n a) (n + span a - 2) w (n + span a - 1)) ->
  forall r w, lang r w -> r = RStar a ->
    forall n,
      epath (fragment_edge n (RStar a)) (n + span a) w (n + span a).
Proof.
  intros Ha r w H. induction H; intros Er n; try discriminate.
  - constructor.
  - injection Er as ->.
    eapply epath_app; [apply IHlang1; reflexivity|].
    apply (epath_from _ _ (n + span a - 2)).
    + cbn [fragment_edge]. right. split; [reflexivity|]. right.
      split; [reflexivity|]. left. reflexivity.
    + apply (epath_then _ _ (n + span a - 1)).
      * apply (epath_mono (fragment_edge n a)); [|apply Ha; assumption].
        intros s c s' He. cbn [fragment_edge]. left. exact He.
      * cbn [fragment_edge]. right. split; [reflexivity|]. left. auto.
Qed.

(** The fragment of [r] reads every word of [r] from its start state to
    its accept state. *)
Lemma lang_path (r : regex) :
  forall w, lang r w ->
    forall n, epath (fragment_edge n r) (n + span r - 2) w (n + span r - 1).
Proof.
  induction r as [a|a IHa b IHb|a IHa b IHb|a IHa|a IHa|a IHa];
    intros w H n; spans.
  - inversion H; subst. change [a] with ([] ++ [a]).
    replace (n + 2 - 2) with n by lia. replace (n + 2 - 1) with (n + 1) by lia.
    eapply epath_symbol; [constructor|].
    cbn [fragment_edge]. auto.
  - replace (n + (span a + span b + 2) - 2) with (n + span a + span b)
      by lia.
    replace (n + (span a + span b + 2) - 1) with (n + span a + span b + 1)
      by lia.
    inversion H; subst.
    + apply (epath_from _ _ (n + span a - 2)).
      { cbn [fragment_edge]. right. right. split; [reflexivity|].
        right. right. auto. }
      apply (epath_then _ _ (n + span a - 1)).
      * apply (epath_mono (fragment_edge n a)); [|apply IHa; assumption].
        intros s c s' He. cbn [fragment_edge]. left. exact He.
      * cbn [fragment_edge]. right. right. split; [reflexivity|]. left. auto.
    + apply (epath_from _ _ (n + span a + span b - 2)).
      { cbn [fragment_edge]. right. right. split; [reflexivity|].
        right. right. auto. }
      apply (epath_then _ _ (n + span a + span b - 1)).
      * apply (epath_mono (fragment_edge (n + span a) b));
          [|apply IHb; assumption].
        intros s c s' He. cbn [fragment_edge]. right. left. exact He.
      * cbn [fragment_edge]. right. right. split; [reflexivity|].
        right. left. auto.
  - replace (n + (span a + span b + 2) - 2) with (n + span a + span b)
      by lia.
    replace (n + (span a + span b + 2) - 1) with (n + span a + span b + 1)
      by lia.
    inversion H; subst.
    apply (epath_from _ _ (n + span a - 2)).
    { cbn [fragment_edge]. right. right. split; [reflexivity|].
      right. right. auto. }
    apply (epath_app _ _ (n + span a - 1)).
    { apply (epath_mono (fragment_edge n a)); [|apply IHa; assumption].
      intros s c s' He. cbn [fragment_edge]. left. exact He. }
    apply (epath_from _ _ (n + span a + span b - 2)).
    { cbn [fragment_edge]. right. right. split; [reflexivity|]. left. auto. }
    apply (epath_then _ _ (n + span a + span b - 1)).
    + apply (epath_mono (fragment_edge (n + span a) b));
        [|apply IHb; assumption].
      intros s c s' He. cbn [fragment_edge]. right. left. exact He.
    + cbn [fragment_edge]. right. right. split; [reflexivity|].
      right. left. auto.
  - replace (n + (span a + 2) - 2) with (n + span a) by lia.
    replace (n + (span a + 2) - 1) with (n + span a + 1) by lia.
    apply (epath_then _ _ (n + span a - 1)).
    + apply (plus_loop a IHa (RPlus a) w H eq_refl).
    + cbn [fragment_edge]. right. split; [reflexivity|]. left. auto.
  - replace (n + (span a + 2) - 2) with (n + span a) by lia.
    replace (n + (span a + 2) - 1) with (n + span a + 1) by lia.
    apply (epath_then _ _ (n + span a)).
    + apply (star_loop a IHa (RStar a) w H eq_refl).
    + cbn [fragment_edge]. right. split; [reflexivity|]. right. auto.
  - replace (n + (span a + 2) - 2) with (n + span a) by lia.
    replace (n + (span a + 2) - 1) with (n + span a + 1) by lia.
    inversion H; subst.
    + apply (epath_then _ _ (n + span a)); [constructor|].
      cbn [fragment_edge]. right. split; [reflexivity|]. right. auto.
    + apply (epath_from _ _ (n + span a - 2)).
      { cbn [fragment_edge]. right. split; [reflexivity|]. right. auto. }
      apply (epath_then _ _ (n + span a - 1)).
      * apply (epath_mono (fragment_edge n a)); [|apply IHa; assumption].
        intros s c s' He. cbn [fragment_edge]. left. exact He.
      * cbn [fragment_edge]. right. split; [reflexivity|]. left. auto.
Qed.

Lemma fragment_in_machine (flags' : Z) (r : regex) (s0 s : Z) (w : list Z) :
  epath (fragment_edge 0 r) s0 w s -> path (assembled flags' r) s0 w s.
Proof.
  apply epath_mono. intros x c x' He. apply assembled_edge. left. exact He.
Qed.

(** From the start state of the fragment to the accepting state. *)
Lemma fragment_to_final (flags' : Z) (r : regex) (w : list Z) :
  ended flags' r w ->
  path (assembled flags' r) (span r - 2) w (final flags' r).
Proof.
  unfold ended. intro H. destruct (ends flags') eqn:He.
  - destruct H as (w' & -> & Hl).
    apply (epath_symbol _ _ _ (span r - 1)).
    + apply fragment_in_machine. apply (lang_path r w' Hl 0).
    + apply assembled_edge. right. left. rewrite He. auto.
  - apply (epath_epsilon _ _ _ (span r - 1)).
    + apply fragment_in_machine. apply (lang_path r w H 0).
    + apply assembled_edge. right. left. rewrite He. auto.
Qed.

(** The scan state reads whatever it lets pass, and stays. *)
Lemma scan_path (flags' : Z) (r : regex) (w : list Z) :
  begins flags' = false ->
  Forall scanned w ->
  path (assembled flags' r) (span r) w (span r).
Proof.
  intros Hb. induction w as [|c w IH] using rev_ind; intro H.
  - constructor.
  - apply Forall_app in H. destruct H as [Hw Hc]. inversion Hc; subst.
    apply (epath_symbol _ _ _ (span r)); [exact (IH Hw)|].
    apply assembled_edge. right. right. auto.
Qed.

(** The machine reads what may come before a match and then the match,
    from its start state to its accepting state. *)
Lemma machine_path (flags' : Z) (r : regex) (w0 w1 : list Z) :
  skipped flags' w0 ->
  ended flags' r w1 ->
  path (assembled flags' r) (NFA.start_state (assembled flags' r))
       (w0 ++ w1) (final flags' r).
Proof.
  intros H0 H1. pose proof (fragment_to_final _ _ _ H1) as Hp.
  unfold skipped in H0. destruct (begins flags') eqn:Hb.
  - subst w0. cbn [app].
    replace (NFA.start_state (assembled flags' r)) with (span r - 2);
      [exact Hp|].
    unfold assembled. unfold begins in Hb.
    destruct (Z.land flags' BEGIN_ANCHORED =? 0); [discriminate|reflexivity].
  - replace (NFA.start_state (assembled flags' r)) with (span r).
    + apply (epath_app _ _ (span r)); [apply scan_path; assumption|].
      apply (epath_from _ _ (span r - 2)); [|exact Hp].
      apply assembled_edge. right. right. auto.
    + unfold assembled. unfold begins in Hb.
      destruct (Z.land flags' BEGIN_ANCHORED =? 0); [reflexivity|discriminate].
Qed.

Lemma final_accepting (flags' : Z) (r : regex) (s : Z) :
  is_accepting (assembled flags' r) s <-> s = final flags' r.
Proof.
  assert (Hf : final flags' r
               = Z.of_nat (length (NFA.states (assembled flags' r))) - 1).
  { rewrite assembled_length. unfold final, begins.
    destruct (Z.land flags' BEGIN_ANCHORED =? 0); cbn [negb]; lia. }
  rewrite Hf. unfold is_accepting. split.
  - intros (st & Hi & Ha). apply (assembled_accepting _ _ _ _ Hi). exact Ha.
  - intros ->. pose proof (span_positive r).
    destruct (index_in_range (NFA.states (assembled flags' r))
                (Z.of_nat (length (NFA.states (assembled flags' r))) - 1))
      as (st & Hi).
    { rewrite assembled_length.
      destruct (Z.land flags' BEGIN_ANCHORED =? 0); lia. }
    exists st. split; [exact Hi|].
    apply (assembled_accepting _ _ _ _ Hi). reflexivity.
Qed.

(** What the machine of [r] accepts: what may come before a match, then
    the match. *)
Lemma accepts_ended (flags' : Z) (r : regex) (text : Subject) (n : nat) :
  atoms_ok r = true ->
  ~ In NFA.EPSILON (prefix text n) ->
  (accepts (assembled flags' r) text n <->
   exists w0 w1,
     prefix text n = w0 ++ w1 /\ skipped flags' w0 /\ ended flags' r w1).
Proof.
  intros Hok Hw. unfold accepts. split.
  - intros (s & Hp & Ha). apply final_accepting in Ha. subst s.
    apply (path_at_machine _ _ _ _ Hok) in Hp; [|exact Hw].
    destruct Hp as (w0 & w1 & E & Hskip & Hat).
    exists w0, w1. split; [exact E|]. split; [exact Hskip|].
    pose proof (span_positive r).
    destruct Hat as [(Hb & Hs & _)|[Hat|[_ H1]]]; [| |exact H1].
    + unfold final in Hs. rewrite Hb in Hs. lia.
    + apply at_state_range in Hat. unfold final in Hat.
      destruct (begins flags'); lia.
  - intros (w0 & w1 & E & H0 & H1). exists (final flags' r).
    split; [|apply final_accepting; reflexivity].
    rewrite E. apply machine_path; assumption.
Qed.

(** *** The characters of the subject *)

Lemma prefix_length (text : Subject) (n : nat) : length (prefix text n) = n.
Proof.
  unfold prefix. rewrite length_map, length_seq. reflexivity.
Qed.

Lemma slice_length (text : Subject) (i m : nat) :
  length (slice text i m) = (m - i)%nat.
Proof.
  unfold slice. rewrite length_map, length_seq. reflexivity.
Qed.

Lemma prefix_slice (text : Subject) (i n : nat) :
  (i <= n)%nat -> prefix text n = prefix text i ++ slice text i n.
Proof.
  intro H. unfold prefix, slice.
  replace n with (i + (n - i))%nat at 1 by lia.
  rewrite seq_app, map_app. reflexivity.
Qed.

Lemma slice_S (text : Subject) (i m : nat) :
  (i <= m)%nat -> slice text i (S m) = slice text i m ++ [text m].
Proof.
  intro H. unfold slice. replace (S m - i)%nat with (S (m - i)) by lia.
  rewrite seq_S, map_app. cbn [map]. repeat f_equal. lia.
Qed.

Lemma app_same_length {A : Type} (a c b d : list A) :
  length a = length c -> a ++ b = c ++ d -> a = c /\ b = d.
Proof.
  revert c. induction a as [|x a IH]; intros [|y c] Hl H;
    try discriminate.
  - auto.
  - cbn [app] in H. injection H as -> H. injection Hl as Hl.
    destruct (IH c Hl H) as [-> ->]. auto.
Qed.

Lemma prefix_split (text : Subject) (n : nat) (w0 w1 : list Z) :
  prefix text n = w0 ++ w1 ->
  (length w0 <= n)%nat /\
  w0 = prefix text (length w0) /\ w1 = slice text (length w0) n.
Proof.
  intro H.
  assert (Hl : (length w0 <= n)%nat).
  { apply (f_equal (@length Z)) in H.
    rewrite prefix_length, length_app in H. lia. }
  split; [exact Hl|].
  rewrite (prefix_slice text _ _ Hl) in H. symmetry in H.
  apply app_same_length in H; [|rewrite prefix_length; reflexivity].
  exact H.
Qed.

Lemma prefix_Forall (P : Z -> Prop) (text : Subject) (i : nat) :
  Forall P (prefix text i) <-> forall j, (j < i)%nat -> P (text j).
Proof.
  unfold prefix. rewrite Forall_forall. split.
  - intros H j Hj. apply H. apply in_map. apply in_seq. lia.
  - intros H c Hc. apply in_map_iff in Hc. destruct Hc as (j & <- & Hj).
    apply in_seq in Hj. apply H. lia.
Qed.

Lemma begins_anchor_flags (b e : bool) : begins (anchor_flags b e) = b.
Proof. destruct b, e; reflexivity. Qed.

Lemma ends_anchor_flags (b e : bool) : ends (anchor_flags b e) = e.
Proof. destruct b, e; reflexivity. Qed.

(** What may come before a match and the match, in terms of offsets
    into the subject. *)
Lemma ended_found (flags' : Z) (r : regex) (text : Subject) (n : nat) :
  (exists w0 w1,
     prefix text n = w0 ++ w1 /\ skipped flags' w0 /\ ended flags' r w1) <->
  exists i m,
    n = read_to (ends flags') m /\
    found (begins flags') (ends flags') r text i m.
Proof.
  unfold skipped, ended, found, read_to.
  generalize (begins flags'), (ends flags'). intros b e. split.
  - intros (w0 & w1 & E & H0 & H1).
    destruct (prefix_split _ _ _ _ E) as (Hl & E0 & E1).
    set (i := length w0) in *. exists i.
    assert (Hi : if b then i = O else forall j, (j < i)%nat -> scanned (text j)).
    { destruct b; [subst w0; reflexivity|].
      apply prefix_Forall. rewrite <- E0. exact H0. }
    destruct e.
    + destruct H1 as (w' & Ew & Hlang).
      destruct n as [|m].
      { apply (f_equal (@length Z)) in Ew. rewrite E1, slice_length in Ew.
        rewrite length_app in Ew. cbn [length] in Ew. lia. }
      assert (Him : (i <= m)%nat).
      { apply (f_equal (@length Z)) in Ew. rewrite E1, slice_length in Ew.
        rewrite length_app in Ew. cbn [length] in Ew. lia. }
      rewrite E1, (slice_S _ _ _ Him) in Ew.
      apply app_inj_tail in Ew. destruct Ew as [<- Hz].
      exists m. split; [reflexivity|]. split; [exact Him|].
      split; [exact Hi|]. split; [exact Hlang|exact Hz].
    + exists n. split; [reflexivity|]. split; [exact Hl|].
      split; [exact Hi|]. split; [rewrite <- E1; exact H1|exact I].
  - intros (i & m & -> & Him & Hi & Hlang & Hz).
    assert (H0 : if b then prefix text i = [] else Forall scanned (prefix text i)).
    { destruct b; [subst i; reflexivity|]. apply prefix_Forall. exact Hi. }
    exists (prefix text i). destruct e.
    + exists (slice text i m ++ [text m]).
      split; [rewrite <- slice_S by exact Him; apply prefix_slice; lia|].
      split; [exact H0|]. exists (slice text i m). rewrite Hz. auto.
    + exists (slice text i m).
      split; [apply prefix_slice; exact Him|]. auto.
Qed.

(** The machine of [r] accepts the first [n] characters of a subject
    exactly when they end a match. *)
Lemma accepts_found (flags' : Z) (r : regex) (text : Subject) (n : nat) :
  atoms_ok r = true ->
  ~ In NFA.EPSILON (prefix text n) ->
  (accepts (assembled flags' r) text n <->
   exists i m,
     n = read_to (ends flags') m /\
     found (begins flags') (ends flags') r text i m).
Proof.
  intros Hok Hw. rewrite (accepts_ended _ _ _ _ Hok Hw).
  apply ended_found.
Qed.

(** An arena reads from a node as one expression. *)
Lemma tree_at_functional (arena : list Node) (i : Z) (r : regex) :
  tree_at arena i r -> forall r', tree_at arena i r' -> r = r'.
Proof.
  induction 1 as [i c Hi|i f g a b Hi _ IHa _ IHb|i f g a b Hi _ IHa _ IHb
                 |i f a Hi _ IHa|i f a Hi _ IHa|i f a Hi _ IHa];
    intros r' H'; inversion H'; subst;
    match goal with
    | H1 : index arena i = _, H2 : index arena i = _ |- _ =>
        rewrite H1 in H2; try discriminate; injection H2; intros; subst
    end;
    f_equal; auto.
Qed.

(** The machine of a parsed pattern, from the expression under the last
    node of its arena. *)
Lemma compile_reads (pattern : list Z) (ok : bool) (tree : ParseTree)
    (r : regex) (nfa : NFA.t) :
  Z.of_nat (length pattern) < 1073741824 ->
  parse_pattern pattern = Ok (ok, tree) ->
  tree_at (nodes tree) (Z.of_nat (length (nodes tree)) - 1) r ->
  NFACompiler.compile tree = Ok nfa ->
  atoms_ok r = true /\ nfa = assembled (flags tree) r.
Proof.
  intros Hlen Hp Ht Hc.
  assert (Hne : nodes tree <> []).
  { intro E. rewrite E in Ht. inversion Ht; discriminate. }
  destruct (compile_parsed _ _ _ Hp Hne Hlen) as (r' & Ht' & Hok & Hc').
  rewrite (tree_at_functional _ _ _ Ht _ Ht').
  split; [exact Hok|congruence].
Qed.

(** The machine of the text of an expression. *)
Lemma pattern_compiles (b e : bool) (r : regex) (junk : list Z) :
  atoms_ok r = true ->
  span r + 2 < 4294967296 ->
  compiles_to (pattern_of b r e junk) (assembled (anchor_flags b e) r).
Proof.
  intros Hok Hb. unfold compiles_to. unfold span in Hb.
  exists (mkParseTree (anchor_flags b e) (layout 0 r)).
  split; [apply parse_pattern_render; exact Hok|].
  destruct (layout_rooted r) as (Hl & Ht & _); [lia|].
  apply compile_assembled; cbn [nodes]; rewrite ?Hl.
  - exact Ht.
  - lia.
  - lia.
  - unfold span. lia.
Qed.

(** *** The verdict of the engine on the machine of an expression *)

Lemma matches_Ok (fuel : nat) (nfa : NFA.t) (text : Subject) (b : bool) :
  matches fuel nfa text = Ok b ->
  exists e', NFAEngine.execute fuel (NFAEngine.attach nfa) text = Ok (b, e').
Proof.
  unfold matches. intro H.
  destruct (NFAEngine.execute fuel (NFAEngine.attach nfa) text)
    as [[b' e']| |]; try discriminate.
  cbn [bind] in H. injection H as ->. exists e'. reflexivity.
Qed.

(** When [execute] returns [false], the last character it has read has
    led nowhere. *)
Lemma execute_false_dead (nfa : NFA.t) (text : Subject) (fuel : nat)
    (e' : NFAEngine.t) :
  Z.of_nat fuel <= 4294967296 ->
  NFAEngine.execute fuel (NFAEngine.attach nfa) text = Ok (false, e') ->
  forall s, ~ arrives nfa text (NFAEngine.ptr e') s.
Proof.
  intros Hb H.
  change (NFAEngine.run fuel text (started nfa) = Ok (false, e')) in H.
  apply (run_explored nfa) in H; [|apply started_explored|simpl; lia].
  destruct H as [(_ & _ & _ & _ & Harr & _) [Hnil _]].
  intros s Hs. apply Harr in Hs. rewrite Hnil in Hs. destruct Hs.
Qed.

(** The scan state is entered by every character that it lets pass. *)
Lemma scan_arrives (flags' : Z) (r : regex) (text : Subject) (k : nat) :
  begins flags' = false ->
  (forall j, (j < k)%nat -> scanned (text j)) ->
  arrives (assembled flags' r) text k (span r).
Proof.
  intros Hb H.
  assert (Hs : NFA.start_state (assembled flags' r) = span r).
  { unfold assembled. unfold begins in Hb.
    destruct (Z.land flags' BEGIN_ANCHORED =? 0); [reflexivity|discriminate]. }
  destruct k as [|n]; cbn [arrives]; [symmetry; exact Hs|].
  exists (span r). rewrite Hs. split.
  - apply scan_path; [exact Hb|]. apply prefix_Forall.
    intros j Hj. apply H. lia.
  - apply assembled_edge. right. right. split; [exact Hb|].
    split; [reflexivity|]. left. split; [|reflexivity]. apply H. lia.
Qed.

Lemma no_epsilon_prefix (text : Subject) (n : nat) :
  (forall j, text j <> NFA.EPSILON) -> ~ In NFA.EPSILON (prefix text n).
Proof.
  intros H Hin. unfold prefix in Hin. apply in_map_iff in Hin.
  destruct Hin as (j & E & _). exact (H j E).
Qed.

(* ================================================================= *)
(** ** The engine returns *)

(** *** The closure loop, for a machine whose states are counted *)

Lemma visit_returns (c : Z) (fs : list Z) :
  forall m next, NFAEngine.visit c fs m next <> OutOfFuel.
Proof.
  induction fs as [|f fs IH]; simpl; intros m next; [discriminate|].
  destruct (index (NFA.states m) f) as [st|]; simpl; [|discriminate].
  destruct (negb (NFA.last_exec st =? c)); [|apply IH].
  unfold NFAEngine.stamp.
  destruct (modify _ (NFA.states m) f); simpl; [apply IH|discriminate].
Qed.

Lemma index_skipn {A : Type} (v : list A) :
  forall i x,
    index v i = Some x ->
    skipn (Z.to_nat i) v = x :: skipn (Z.to_nat (i + 1)) v.
Proof.
  induction v as [|y v IH]; intros i x H; [discriminate|].
  cbn [index] in H. destruct (Z.eqb_spec i 0) as [E|E].
  - subst i. injection H as <-. reflexivity.
  - pose proof (index_range _ _ _ H) as Hr.
    replace (Z.to_nat i) with (S (Z.to_nat (i - 1))) by lia.
    replace (Z.to_nat (i + 1)) with (S (Z.to_nat (i - 1 + 1))) by lia.
    cbn [skipn]. apply IH. exact H.
Qed.

Lemma skipn_app_short {A : Type} (v w : list A) (n : nat) :
  (n <= length v)%nat -> skipn n (v ++ w) = skipn n v ++ w.
Proof.
  intro H. rewrite skipn_app. replace (n - length v)%nat with O by lia.
  reflexivity.
Qed.

Lemma list_sum_cons (a : nat) (l : list nat) :
  list_sum (a :: l) = (a + list_sum l)%nat.
Proof. reflexivity. Qed.

Lemma eps_of_shape (st st' : NFA.State) :
  NFA.transitions st' = NFA.transitions st -> eps_of st' = eps_of st.
Proof.
  unfold eps_of. intros ->. reflexivity.
Qed.

Section Counted.

Variable nfa : NFA.t.
Variable W : Z -> nat.
Variable text : Subject.

Hypothesis W_positive : forall s, (1 <= W s)%nat.
Hypothesis W_edge :
  forall s st, index (NFA.states nfa) s = Some st ->
               (1 + list_sum (map W (eps_of st)) <= W s)%nat.

Lemma length_le_sum (l : list Z) : (length l <= list_sum (map W l))%nat.
Proof.
  induction l as [|s l IH]; simpl; [lia|].
  pose proof (W_positive s). lia.
Qed.

(** The closure loop returns when the budget covers what the entries
    not yet met stand for. *)
Lemma step_loop_returns (fuel : nat) :
  forall i e,
    shape (NFAEngine.machine e) = shape nfa ->
    0 <= i ->
    i + Z.of_nat (list_sum (map W (skipn (Z.to_nat i)
                                         (NFAEngine.cur_states e))))
      < 4294967296 ->
    (list_sum (map W (skipn (Z.to_nat i) (NFAEngine.cur_states e)))
     < fuel)%nat ->
    NFAEngine.step_loop fuel text i e <> OutOfFuel.
Proof.
  induction fuel as [|fuel IH]; intros i e Hsh Hi Hb Hf; [lia|].
  cbn [NFAEngine.step_loop].
  destruct (Z.ltb_spec i (Z.of_nat (length (NFAEngine.cur_states e))))
    as [Hlt|Hge]; [|discriminate].
  destruct (index (NFAEngine.cur_states e) i) as [s|] eqn:Hs;
    cbn [of_option bind]; [|discriminate].
  destruct (index (NFA.states (NFAEngine.machine e)) s) as [st|] eqn:Hst;
    cbn [of_option bind]; [|discriminate].
  destruct (shape_state _ nfa _ _ Hsh Hst) as (st' & Hst' & _ & Htr).
  pose proof (W_edge _ _ Hst') as Hw.
  rewrite (eps_of_shape _ _ Htr) in Hw.
  rewrite (index_skipn _ _ _ Hs) in Hb, Hf. cbn [map] in Hb, Hf.
  rewrite list_sum_cons in Hb, Hf.
  set (cur := match NFA.find NFA.EPSILON (NFA.transitions st) with
              | Some t => NFAEngine.cur_states e ++ NFA.futures t
              | None => NFAEngine.cur_states e
              end).
  assert (Hcur : cur = NFAEngine.cur_states e ++ eps_of st).
  { unfold cur, eps_of.
    destruct (NFA.find NFA.EPSILON (NFA.transitions st));
      [reflexivity|rewrite app_nil_r; reflexivity]. }
  clearbody cur.
  assert (Hnext : forall m next,
             shape m = shape nfa ->
             NFAEngine.step_loop fuel text (wrap32 (i + 1))
               (NFAEngine.mk m (NFAEngine.counter e) cur next
                             (NFAEngine.ptr e)
                             (NFAEngine.ptr e :: NFAEngine.reads e))
             <> OutOfFuel).
  { intros m next Em. pose proof (W_positive s) as Hpos. rewrite wrap32_small by lia.
    apply IH; cbn [NFAEngine.machine NFAEngine.cur_states];
      [exact Em|lia| |]; subst cur;
      rewrite skipn_app_short by lia; rewrite map_app, list_sum_app; lia. }
  destruct (NFA.find (text (NFAEngine.ptr e)) (NFA.transitions st)) as [t|].
  - destruct (NFAEngine.visit (NFAEngine.counter e) (NFA.futures t)
                (NFAEngine.machine e) (NFAEngine.next_states e))
      as [[m next]| |] eqn:Hv; cbn [bind];
      [|discriminate|exact (False_ind _ (visit_returns _ _ _ _ Hv))].
    apply Hnext. rewrite (visit_shape _ _ _ _ _ _ Hv). exact Hsh.
  - cbn [bind]. apply Hnext. exact Hsh.
Qed.

End Counted.

(** *** What the states of a fragment stand for *)

(** Decides the comparisons that [pot] makes. *)
Ltac pots :=
  cbn [pot];
  repeat match goal with
         | |- context [?a <? ?b] =>
             destruct (Z.ltb_spec a b); try (exfalso; lia)
         | |- context [?a =? ?b] =>
             destruct (Z.eqb_spec a b); try (exfalso; lia)
         end.

Lemma pot_accept (r : regex) (n : Z) (K : nat) :
  pot n r K (n + span r - 1) = K.
Proof.
  destruct r as [c|a b|a b|a|a|a]; spans;
    try pose proof (span_positive a); try pose proof (span_positive b);
    pots; reflexivity.
Qed.

Lemma pot_positive (r : regex) :
  forall n K s, (1 <= K)%nat -> (1 <= pot n r K s)%nat.
Proof.
  induction r as [c|a IHa b IHb|a IHa b IHb|a IHa|a IHa|a IHa];
    intros n K s HK; pots;
    first [lia | apply IHa; lia | apply IHb; lia].
Qed.

(** The start state of an expression without the empty word leads to
    its accept state by no epsilon path. *)
Lemma pot_start (r : regex) :
  nullable r = false -> guarded r = true ->
  forall n K K',
    pot n r K (n + span r - 2) = pot n r K' (n + span r - 2).
Proof.
  induction r as [c|a IHa b IHb|a IHa b IHb|a IHa|a IHa|a IHa];
    intros Hn Hg n K K'; cbn [nullable guarded] in Hn, Hg;
    try discriminate;
    try (apply andb_prop in Hg; destruct Hg as [Hga Hgb]);
    try pose proof (span_positive a); try pose proof (span_positive b);
    spans.
  - pots. reflexivity.
  - apply orb_false_elim in Hn. destruct Hn as [Hna Hnb].
    pots.
    replace (n + (span a + span b + 2) - 2) with (n + span a + span b)
      in * by lia.
    rewrite (IHa Hna Hga n (1 + K)%nat (1 + K')%nat).
    rewrite (IHb Hnb Hgb (n + span a) (1 + K)%nat (1 + K')%nat).
    reflexivity.
  - pots. f_equal.
    destruct (nullable a) eqn:Ea.
    + cbn [andb] in Hn.
      rewrite (IHb Hn Hgb (n + span a) (1 + K)%nat (1 + K')%nat).
      reflexivity.
    + apply (IHa eq_refl Hga).
  - pots. reflexivity.
Qed.

Lemma eps_of_sym (c d : Z) : c <> NFA.EPSILON -> eps_of (sym_state c d) = [].
Proof.
  intro H. unfold eps_of, sym_state. cbn [NFA.transitions NFA.find NFA.symbol].
  destruct (Z.eqb_spec c NFA.EPSILON); [contradiction|reflexivity].
Qed.

Lemma eps_of_eps (ds : list Z) : eps_of (eps_state ds) = ds.
Proof. reflexivity. Qed.

Lemma eps_of_range (r : regex) (n i : Z) (st : NFA.State) (f : Z) :
  index (thompson n r) i = Some st -> In f (eps_of st) ->
  n <= f < n + span r.
Proof.
  intros Hi Hf. unfold eps_of in Hf.
  destruct (NFA.find NFA.EPSILON (NFA.transitions st)) as [t|] eqn:Ht;
    [|destruct Hf].
  apply (thompson_futures r n st t f); [|eapply find_In; exact Ht|exact Hf].
  eapply index_In. exact Hi.
Qed.

(** A state of the fragment of an operand stands for the same inside
    the fragment of the operator, with the number [Ka] for the accept
    state of the operand. *)
Lemma pot_operand (r a : regex) (n m : Z) (K Ka : nat) (s : Z)
    (st : NFA.State) :
  (forall f, m <= f < m + span a -> pot n r K f = pot m a Ka f) ->
  index (thompson m a) (s - m) = Some st ->
  (1 + list_sum (map (pot m a Ka) (eps_of st)) <= pot m a Ka s)%nat ->
  (1 + list_sum (map (pot n r K) (eps_of st)) <= pot n r K s)%nat.
Proof.
  intros Hsame Hi H.
  rewrite (map_ext_in (pot n r K) (pot m a Ka)).
  - rewrite Hsame; [exact H|].
    pose proof (index_range _ _ _ Hi) as Hr. rewrite thompson_length in Hr.
    lia.
  - intros f Hf. apply Hsame. eapply eps_of_range; eassumption.
Qed.

(** Every state of a fragment stands for itself and for what its
    epsilon destinations stand for. *)
Lemma pot_edge (r : regex) :
  atoms_ok r = true -> guarded r = true ->
  forall n K s st,
    index (thompson n r) (s - n) = Some st ->
    (1 + list_sum (map (pot n r K) (eps_of st)) <= pot n r K s)%nat.
Proof.
  induction r as [c|a IHa b IHb|a IHa b IHb|a IHa|a IHa|a IHa];
    intros Hok Hg n K s st H; cbn [atoms_ok guarded thompson] in Hok, Hg, H;
    try (apply andb_prop in Hok; destruct Hok as [Hoka Hokb]);
    try (apply andb_prop in Hg; destruct Hg as [Hga Hgb]);
    try pose proof (span_positive a); try pose proof (span_positive b).
  - apply index_one in H. destruct H as [Hs ->].
    rewrite eps_of_sym by (apply unit_char_not_epsilon; exact Hok).
    pots. cbn. lia.
  - apply index_binary in H.
    destruct H as [[Hs H]|[[Hs ->]|[[Hs H]|[[Hs ->]|[Hs ->]]]]].
    + apply (pot_operand _ a n n K (1 + K) s st); [|exact H|].
      * intros f Hf. pots. reflexivity.
      * apply IHa; assumption.
    + rewrite eps_of_eps. cbn [map list_sum fold_right].
      pose proof (pot_accept a n (1 + K)) as Ea. subst s.
      pots. rewrite Ea. lia.
    + apply (pot_operand _ b n (n + span a) K (1 + K) s st); [|exact H|].
      * intros f Hf. pots. reflexivity.
      * apply IHb; assumption.
    + rewrite eps_of_eps. cbn [map list_sum fold_right].
      pose proof (pot_accept b (n + span a) (1 + K)) as Eb. subst s.
      pots. rewrite Eb. lia.
    + rewrite eps_of_eps. cbn [map list_sum fold_right]. subst s.
      pots. lia.
  - apply index_binary in H.
    destruct H as [[Hs H]|[[Hs ->]|[[Hs H]|[[Hs ->]|[Hs ->]]]]].
    + apply (pot_operand _ a n n K
               (1 + pot (n + span a) b (1 + K) (n + span a + span b - 2))
               s st); [|exact H|].
      * intros f Hf. pots. reflexivity.
      * apply IHa; assumption.
    + rewrite eps_of_eps. cbn [map list_sum fold_right].
      pose proof (pot_accept a n
                    (1 + pot (n + span a) b (1 + K)
                             (n + span a + span b - 2))) as Ea. subst s.
      pots. rewrite Ea. lia.
    + apply (pot_operand _ b n (n + span a) K (1 + K) s st); [|exact H|].
      * intros f Hf. pots. reflexivity.
      * apply IHb; assumption.
    + rewrite eps_of_eps. cbn [map list_sum fold_right].
      pose proof (pot_accept b (n + span a) (1 + K)) as Eb. subst s.
      pots. rewrite Eb. lia.
    + rewrite eps_of_eps. cbn [map list_sum fold_right]. subst s.
      pots. lia.
  - apply negb_true_iff in Hga.
    pose proof (pot_start a Hga Hgb n) as Hstart.
    apply index_unary in H. destruct H as [[Hs H]|[[Hs ->]|[Hs ->]]].
    + apply (pot_operand _ a n n K
               (1 + pot n a 1 (n + span a - 2) + K) s st); [|exact H|].
      * intros f Hf. pots. reflexivity.
      * apply IHa; assumption.
    + rewrite eps_of_eps. cbn [map list_sum fold_right].
      pose proof (pot_accept a n (1 + pot n a 1 (n + span a - 2) + K)) as Ea.
      subst s. pots. rewrite Ea.
      rewrite (Hstart (1 + pot n a 1 (n + span a - 2) + K)%nat 1%nat). lia.
    + rewrite eps_of_eps. cbn [map list_sum fold_right]. subst s.
      pots.
      rewrite (Hstart (1 + pot n a 1 (n + span a - 2) + K)%nat 1%nat). lia.
  - apply negb_true_iff in Hga.
    pose proof (pot_start a Hga Hgb n) as Hstart.
    apply index_unary in H. destruct H as [[Hs H]|[[Hs ->]|[Hs ->]]].
    + apply (pot_operand _ a n n K
               (2 + pot n a 1 (n + span a - 2) + K) s st); [|exact H|].
      * intros f Hf. pots. reflexivity.
      * apply IHa; assumption.
    + rewrite eps_of_eps. cbn [map list_sum fold_right].
      pose proof (pot_accept a n (2 + pot n a 1 (n + span a - 2) + K)) as Ea.
      subst s. pots. rewrite Ea. lia.
    + rewrite eps_of_eps. cbn [map list_sum fold_right]. subst s.
      pots.
      rewrite (Hstart (2 + pot n a 1 (n + span a - 2) + K)%nat 1%nat). lia.
  - apply index_unary in H. destruct H as [[Hs H]|[[Hs ->]|[Hs ->]]].
    + apply (pot_operand _ a n n K (1 + K) s st); [|exact H|].
      * intros f Hf. pots. reflexivity.
      * apply IHa; assumption.
    + rewrite eps_of_eps. cbn [map list_sum fold_right].
      pose proof (pot_accept a n (1 + K)) as Ea. subst s.
      pots. rewrite Ea. lia.
    + rewrite eps_of_eps. cbn [map list_sum fold_right]. subst s.
      pots. lia.
Qed.

(** *** The loop of [execute], for a machine whose states are counted *)

Lemma accepting_returns (m : NFA.t) (cur : list Z) :
  NFAEngine.accepting m cur <> OutOfFuel.
Proof.
  induction cur as [|s cur IH]; simpl; [discriminate|].
  destruct (index (NFA.states m) s) as [st|]; simpl; [|discriminate].
  destruct (negb _); [discriminate|exact IH].
Qed.

Lemma arrives_in_range (nfa : NFA.t) (text : Subject) (k : nat) (s : Z) :
  closed nfa = true ->
  0 <= NFA.start_state nfa < Z.of_nat (length (NFA.states nfa)) ->
  arrives nfa text k s ->
  0 <= s < Z.of_nat (length (NFA.states nfa)).
Proof.
  intros Hc Hs. destruct k as [|n]; cbn [arrives].
  - intros ->. exact Hs.
  - intros (s0 & _ & t & Hf & Hin).
    apply (closed_futures nfa s0 t s Hc); [|exact Hin].
    eapply find_In. exact Hf.
Qed.

Section Returns.

Variable nfa : NFA.t.
Variable W : Z -> nat.
Variable text : Subject.
Variable bound : nat.
Variable last : nat.

Hypothesis W_positive : forall s, (1 <= W s)%nat.
Hypothesis W_edge :
  forall s st, index (NFA.states nfa) s = Some st ->
               (1 + list_sum (map W (eps_of st)) <= W s)%nat.
Hypothesis W_bound :
  forall l, NoDup l -> in_range nfa l -> (list_sum (map W l) <= bound)%nat.
Hypothesis nfa_closed : closed nfa = true.
Hypothesis nfa_start :
  0 <= NFA.start_state nfa < Z.of_nat (length (NFA.states nfa)).
Hypothesis stops :
  (forall s, ~ arrives nfa text last s) \/
  (exists n, S n = last /\ accepts nfa text n).
Hypothesis small : Z.of_nat bound + Z.of_nat last + 2 <= 4294967296.

Lemma step_returns (fuel : nat) (e : NFAEngine.t) :
  shape (NFAEngine.machine e) = shape nfa ->
  (list_sum (map W (NFAEngine.cur_states e)) <= bound)%nat ->
  (bound < fuel)%nat ->
  NFAEngine.step fuel text e <> OutOfFuel.
Proof.
  intros Hsh Hw Hf. unfold NFAEngine.step.
  destruct (NFAEngine.step_loop fuel text 0 _) as [e1| |] eqn:H;
    cbn [bind]; try discriminate.
  exfalso. revert H.
  apply (step_loop_returns nfa W text W_positive W_edge);
    cbn [NFAEngine.machine NFAEngine.cur_states Z.to_nat skipn];
    [exact Hsh|lia|lia|lia].
Qed.

(** The loop returns at the latest when [last] characters are read. *)
Lemma run_returns (rest : nat) :
  forall fuel e,
    explored nfa text e ->
    (NFAEngine.ptr e + rest = last)%nat ->
    (bound + rest + 1 < fuel)%nat ->
    NFAEngine.run fuel text e <> OutOfFuel.
Proof.
  induction rest as [|rest IH]; intros fuel e Hexp Hptr Hf;
    (destruct fuel as [|fuel]; [lia|]); cbn [NFAEngine.run];
    pose proof Hexp as (_ & Hshape & _ & Hnd & Harr & Hcur & _);
    (destruct (NFAEngine.accepting (NFAEngine.machine e)
                                   (NFAEngine.cur_states e))
       as [b| |] eqn:Hacc; cbn [bind];
     [|discriminate|destruct (accepting_returns _ _ Hacc)]);
    (destruct b; [discriminate|]);
    apply accepting_spec in Hacc;
    assert (Hnone : forall n, S n = NFAEngine.ptr e -> ~ accepts nfa text n)
      by (intros n Hn (s & Hp & Ha); apply (Hacc s);
          [apply (Hcur n s Hn); exact Hp
          |eapply shape_accepting; [symmetry; exact Hshape|exact Ha]]);
    (destruct (NFAEngine.next_states e) as [|x l] eqn:Hnext;
     [discriminate|]).
  - exfalso. rewrite Nat.add_0_r in Hptr.
    destruct stops as [Hdead|(n & Hn & Ha)].
    + apply (Hdead x). rewrite <- Hptr. apply Harr. left. reflexivity.
    + apply (Hnone n); [congruence|exact Ha].
  - rewrite <- Hnext in Hnd, Harr |- *.
    change (NFAEngine.mk (NFAEngine.machine e) (NFAEngine.counter e)
              (NFAEngine.next_states e) [] (NFAEngine.ptr e)
              (NFAEngine.reads e)) with (swapped e).
    destruct (NFAEngine.step fuel text (swapped e)) as [e1| |] eqn:Hstep;
      cbn [bind]; [|discriminate|].
    + apply (step_explored nfa) in Hstep; [|exact Hexp|lia|exact Hnone].
      destruct Hstep as [Hexp1 Hptr1].
      apply IH; [exact Hexp1|lia|lia].
    + exfalso. revert Hstep. apply step_returns.
      * exact Hshape.
      * cbn [swapped NFAEngine.cur_states]. apply W_bound; [exact Hnd|].
        intros s Hs. apply Harr in Hs.
        eapply arrives_in_range; eassumption.
      * lia.
Qed.

(** [matches] returns. *)
Lemma matches_returns :
  exists b, matches (bound + last + 2) nfa text = Ok b.
Proof.
  pose proof (matches_safe nfa text (bound + last + 2) nfa_closed nfa_start)
    as Hsafe.
  assert (Hrun : NFAEngine.execute (bound + last + 2) (NFAEngine.attach nfa)
                   text <> OutOfFuel).
  { change (NFAEngine.run (bound + last + 2) text (started nfa)
            <> OutOfFuel).
    apply (run_returns last); [apply started_explored|reflexivity|lia]. }
  unfold matches in *.
  destruct (NFAEngine.execute (bound + last + 2) (NFAEngine.attach nfa) text)
    as [[b e']| |]; cbn [bind] in *.
  - exists b. reflexivity.
  - contradiction.
  - contradiction.
Qed.

End Returns.

(** *** The machine of a guarded expression is counted *)

Lemma machine_pot_positive (flags' : Z) (r : regex) (s : Z) :
  (1 <= machine_pot flags' r s)%nat.
Proof.
  unfold machine_pot.
  destruct (s <? span r); [apply pot_positive; lia|].
  destruct (begins flags'); [lia|]. destruct (s =? span r); lia.
Qed.

Lemma eps_of_scan (s start : Z) : eps_of (scan_state s start) = [start].
Proof.
  unfold eps_of, scan_state, scan_transitions. cbn [NFA.transitions].
  rewrite find_scan. reflexivity.
Qed.

Lemma eps_of_link (flags' d : Z) :
  eps_of (link_state flags' d) = if ends flags' then [] else [d].
Proof.
  unfold link_state, ends.
  destruct (Z.land flags' END_ANCHORED =? 0); reflexivity.
Qed.

Lemma machine_pot_edge (flags' : Z) (r : regex) :
  atoms_ok r = true -> guarded r = true ->
  forall s st,
    index (NFA.states (assembled flags' r)) s = Some st ->
    (1 + list_sum (map (machine_pot flags' r) (eps_of st))
     <= machine_pot flags' r s)%nat.
Proof.
  intros Hok Hg s st H. pose proof (span_positive r) as Hk.
  assert (Hin : forall s0 st0,
             index (thompson 0 r) (s0 - 0) = Some st0 ->
             (1 + list_sum (map (machine_pot flags' r) (eps_of st0))
              <= machine_pot flags' r s0)%nat).
  { intros s0 st0 Hi.
    pose proof (index_range _ _ _ Hi) as Hr. rewrite thompson_length in Hr.
    rewrite (map_ext_in (machine_pot flags' r) (pot 0 r 2)).
    - unfold machine_pot. destruct (Z.ltb_spec s0 (span r)); [|lia].
      apply pot_edge; assumption.
    - intros f Hf. pose proof (eps_of_range _ _ _ _ _ Hi Hf) as Hfr.
      unfold machine_pot. destruct (Z.ltb_spec f (span r)); [reflexivity|lia]. }
  assert (Hacc : machine_pot flags' r (span r - 1) = 2%nat).
  { unfold machine_pot. destruct (Z.ltb_spec (span r - 1) (span r)); [|lia].
    apply (pot_accept r 0 2). }
  unfold assembled in H. replace s with (s - 0) in H by lia.
  destruct (Z.land flags' BEGIN_ANCHORED =? 0) eqn:Hb; cbn [NFA.states] in H.
  - assert (Hbeg : begins flags' = false) by (unfold begins; rewrite Hb; reflexivity).
    apply index_app_cases in H. rewrite thompson_length in H.
    destruct H as [[Hl H]|[Hg' H]]; [apply Hin; exact H|].
    apply index_three in H.
    destruct H as [[Hs ->]|[[Hs ->]|[Hs ->]]].
    + replace s with (span r - 1) by lia. rewrite Hacc, eps_of_link.
      destruct (ends flags'); cbn [map list_sum fold_right]; [lia|].
      unfold machine_pot. rewrite Hbeg.
      destruct (Z.ltb_spec (span r + 1) (span r)); [lia|].
      destruct (Z.eqb_spec (span r + 1) (span r)); lia.
    + replace s with (span r) by lia. rewrite eps_of_scan.
      cbn [map list_sum fold_right]. unfold machine_pot. rewrite Hbeg.
      destruct (Z.ltb_spec (span r) (span r)); [lia|].
      destruct (Z.ltb_spec (span r - 2) (span r)); [|lia].
      destruct (Z.eqb_spec (span r) (span r)); lia.
    + cbn. pose proof (machine_pot_positive flags' r s). lia.
  - assert (Hbeg : begins flags' = true) by (unfold begins; rewrite Hb; reflexivity).
    apply index_unary in H.
    destruct H as [[Hs H]|[[Hs ->]|[Hs ->]]]; [apply Hin; exact H| |].
    + replace s with (span r - 1) by lia. rewrite Hacc, eps_of_link.
      destruct (ends flags'); cbn [map list_sum fold_right]; [lia|].
      unfold machine_pot. rewrite Hbeg.
      destruct (Z.ltb_spec (span r) (span r)); lia.
    + cbn. pose proof (machine_pot_positive flags' r s). lia.
Qed.

Lemma sum_le_length (W : Z -> nat) (cap : nat) (l : list Z) :
  (forall s, In s l -> (W s <= cap)%nat) ->
  (list_sum (map W l) <= length l * cap)%nat.
Proof.
  induction l as [|s l IH]; intro H; [simpl; lia|].
  cbn [map length]. rewrite list_sum_cons.
  assert (W s <= cap)%nat by (apply H; left; reflexivity).
  assert (list_sum (map W l) <= length l * cap)%nat
    by (apply IH; intros x Hx; apply H; right; exact Hx).
  lia.
Qed.

(** The entries of a frontier without duplicates stand for no more than
    [closure_bound]. *)
Lemma closure_bound_sum (flags' : Z) (r : regex) (l : list Z) :
  NoDup l -> in_range (assembled flags' r) l ->
  (list_sum (map (machine_pot flags' r) l) <= closure_bound flags' r)%nat.
Proof.
  intros Hnd Hr. unfold closure_bound.
  set (n := length (NFA.states (assembled flags' r))) in *.
  set (cap := list_max (map (fun i => machine_pot flags' r (Z.of_nat i))
                            (seq 0 n))).
  assert (Hcap : forall s, In s l -> (machine_pot flags' r s <= cap)%nat).
  { intros s Hs. specialize (Hr s Hs).
    assert (Hall : Forall (fun k => (k <= cap)%nat)
                     (map (fun i => machine_pot flags' r (Z.of_nat i))
                          (seq 0 n)))
      by (apply list_max_le; apply Nat.le_refl).
    rewrite Forall_forall in Hall. apply Hall.
    apply in_map_iff. exists (Z.to_nat s). split; [f_equal; lia|].
    apply in_seq. lia. }
  assert (Hlen : (length l <= n)%nat).
  { replace n with (length (map Z.of_nat (seq 0 n)))
      by (rewrite length_map, length_seq; reflexivity).
    apply NoDup_incl_length; [exact Hnd|].
    intros s Hs. specialize (Hr s Hs). apply in_map_iff.
    exists (Z.to_nat s). split; [lia|]. apply in_seq. lia. }
  pose proof (sum_le_length _ cap l Hcap) as Hsum.
  apply (Nat.le_trans _ _ _ Hsum). apply Nat.mul_le_mono_r. exact Hlen.
Qed.

(** *** Where the machine stops *)

Lemma found_accepts (flags' : Z) (r : regex) (text : Subject) (i m : nat) :
  found (begins flags') (ends flags') r text i m ->
  accepts (assembled flags' r) text (read_to (ends flags') m).
Proof.
  intro H.
  destruct (proj2 (ended_found flags' r text (read_to (ends flags') m)))
    as (w0 & w1 & E & H0 & H1); [exists i, m; auto|].
  exists (final flags' r). split; [|apply final_accepting; reflexivity].
  rewrite E. apply machine_path; assumption.
Qed.

Lemma fragment_edge_char (r : regex) :
  atoms_ok r = true ->
  forall n s c s',
    fragment_edge n r s c s' -> c = NFA.EPSILON \/ is_unit_char c = true.
Proof.
  induction r as [a|a IHa b IHb|a IHa b IHb|a IHa|a IHa|a IHa];
    intros Hok n s c s' H; cbn [atoms_ok fragment_edge] in Hok, H;
    try (apply andb_prop in Hok; destruct Hok as [Hoka Hokb]).
  - destruct H as (_ & -> & _). right. exact Hok.
  - destruct H as [H|[H|[-> _]]]; eauto.
  - destruct H as [H|[H|[-> _]]]; eauto.
  - destruct H as [H|[-> _]]; eauto.
  - destruct H as [H|[-> _]]; eauto.
  - destruct H as [H|[-> _]]; eauto.
Qed.

Lemma final_no_edge (flags' : Z) (r : regex) (c s' : Z) :
  ~ edge (assembled flags' r) (final flags' r) c s'.
Proof.
  intro H. apply assembled_edge in H. pose proof (span_positive r).
  unfold final in H.
  destruct H as [H|[(H & _)|(Hb & H & _)]].
  - apply fragment_edge_range in H. destruct (begins flags'); lia.
  - destruct (begins flags'); lia.
  - rewrite Hb in H. lia.
Qed.

(** Under a begin anchor, a path that has read a NUL is in the
    accepting state. *)
Lemma path_after_nul (flags' : Z) (r : regex) (v : list Z) (s : Z) :
  atoms_ok r = true -> begins flags' = true ->
  path (assembled flags' r) (NFA.start_state (assembled flags' r)) v s ->
  forall w, v = w ++ [0] -> s = final flags' r.
Proof.
  intros Hok Hb Hp. unfold path in Hp.
  induction Hp as [|v s s' Hp IH He|v s c s' Hp IH He]; intros w Hv.
  - destruct w; discriminate.
  - rewrite (IH w Hv) in He. destruct (final_no_edge _ _ _ _ He).
  - apply app_inj_tail in Hv. destruct Hv as [_ ->].
    apply assembled_edge in He.
    destruct He as [He|[(_ & _ & ->)|(Hb' & _)]].
    + destruct (fragment_edge_char r Hok _ _ _ _ He) as [E|E].
      * discriminate.
      * apply is_unit_char_range in E. lia.
    + reflexivity.
    + congruence.
Qed.

(** Under a begin anchor, nothing is left two characters after a NUL. *)
Lemma anchored_dead (flags' : Z) (r : regex) (text : Subject) (L : nat) :
  atoms_ok r = true -> begins flags' = true -> text L = 0 ->
  forall s, ~ arrives (assembled flags' r) text (S (S L)) s.
Proof.
  intros Hok Hb Hz s (s0 & Hp & He).
  rewrite prefix_S, Hz in Hp.
  rewrite (path_after_nul _ _ _ _ Hok Hb Hp _ eq_refl) in He.
  destruct (final_no_edge _ _ _ _ He).
Qed.

(** [matches] on the machine of a guarded expression returns, when the
    machine stops. *)
Lemma guarded_returns (flags' : Z) (r : regex) (text : Subject)
    (last : nat) :
  atoms_ok r = true -> guarded r = true ->
  (forall s, ~ arrives (assembled flags' r) text last s) \/
  (exists n, S n = last /\ accepts (assembled flags' r) text n) ->
  Z.of_nat (closure_bound flags' r) + Z.of_nat last + 2 <= 4294967296 ->
  exists b,
    matches (closure_bound flags' r + last + 2) (assembled flags' r) text
    = Ok b.
Proof.
  intros Hok Hg Hstop Hsmall.
  apply (matches_returns (assembled flags' r) (machine_pot flags' r)).
  - apply machine_pot_positive.
  - apply machine_pot_edge; assumption.
  - apply closure_bound_sum.
  - apply assembled_closed.
  - apply assembled_start.
  - exact Hstop.
  - exact Hsmall.
Qed.

(* ================================================================= *)
(** ** The engine does not return *)

Lemma in_snoc {A : Type} (l : list A) (z y : A) :
  In y (l ++ [z]) <-> In y l \/ y = z.
Proof.
  rewrite in_app_iff. cbn [In]. intuition.
Qed.

(** The route of an expression with the empty word starts in the start
    state of the fragment, and each of its states has an epsilon edge
    to another one or to the accept state. *)
Lemma route_spec (r : regex) :
  nullable r = true ->
  forall n,
    (exists tl, route n r = (n + span r - 2) :: tl) /\
    forall x, In x (route n r) ->
      exists y, fragment_edge n r x NFA.EPSILON y /\
                (In y (route n r) \/ y = n + span r - 1).
Proof.
  induction r as [c|a IHa b IHb|a IHa b IHb|a IHa|a IHa|a IHa];
    intros Hn n; cbn [nullable] in Hn; try discriminate;
    cbn [route fragment_edge]; spans.
  - destruct (nullable a) eqn:Ea.
    + destruct (IHa eq_refl n) as [(tl & Et) Hstep]. split.
      { eexists. f_equal. lia. }
      intros x [<-|Hx].
      * exists (n + span a - 2). split.
        -- right. right. split; [reflexivity|]. right. right. auto.
        -- left. right. rewrite Et. left. reflexivity.
      * apply in_snoc in Hx. destruct Hx as [Hx| ->].
        -- destruct (Hstep x Hx) as (y & He & Hy). exists y. split.
           ++ left. exact He.
           ++ left. right. apply in_snoc. exact Hy.
        -- exists (n + span a + span b + 1). split.
           ++ right. right. split; [reflexivity|]. left. auto.
           ++ right. lia.
    + cbn [orb] in Hn.
      destruct (IHb Hn (n + span a)) as [(tl & Et) Hstep]. split.
      { eexists. f_equal. lia. }
      intros x [<-|Hx].
      * exists (n + span a + span b - 2). split.
        -- right. right. split; [reflexivity|]. right. right. auto.
        -- left. right. rewrite Et. left. reflexivity.
      * apply in_snoc in Hx. destruct Hx as [Hx| ->].
        -- destruct (Hstep x Hx) as (y & He & Hy). exists y. split.
           ++ right. left. exact He.
           ++ left. right. apply in_snoc. exact Hy.
        -- exists (n + span a + span b + 1). split.
           ++ right. right. split; [reflexivity|]. right. left. auto.
           ++ right. lia.
  - apply andb_prop in Hn. destruct Hn as [Hna Hnb].
    destruct (IHa Hna n) as [(tla & Eta) Hstepa].
    destruct (IHb Hnb (n + span a)) as [(tlb & Etb) Hstepb]. split.
    { eexists. f_equal. lia. }
    intros x [<-|Hx].
    + exists (n + span a - 2). split.
      * right. right. split; [reflexivity|]. right. right. auto.
      * left. right. rewrite Eta. left. reflexivity.
    + apply in_app_or in Hx. destruct Hx as [Hx|[<-|Hx]].
      * destruct (Hstepa x Hx) as (y & He & Hy). exists y. split.
        -- left. exact He.
        -- left. right. apply in_or_app.
           destruct Hy as [Hy| ->]; [left; exact Hy|right; left; reflexivity].
      * exists (n + span a + span b - 2). split.
        -- right. right. split; [reflexivity|]. left. auto.
        -- left. right. apply in_or_app. right. right. rewrite Etb.
           left. reflexivity.
      * apply in_snoc in Hx. destruct Hx as [Hx| ->].
        -- destruct (Hstepb x Hx) as (y & He & Hy). exists y. split.
           ++ right. left. exact He.
           ++ left. right. apply in_or_app. right. right.
              apply in_snoc. exact Hy.
        -- exists (n + span a + span b + 1). split.
           ++ right. right. split; [reflexivity|]. right. left. auto.
           ++ right. lia.
  - destruct (IHa Hn n) as [(tl & Et) Hstep]. split.
    { eexists. f_equal. lia. }
    intros x [<-|Hx].
    + exists (n + span a - 2). split.
      * right. split; [reflexivity|]. right. auto.
      * left. right. rewrite Et. left. reflexivity.
    + apply in_snoc in Hx. destruct Hx as [Hx| ->].
      * destruct (Hstep x Hx) as (y & He & Hy). exists y. split.
        -- left. exact He.
        -- left. right. apply in_snoc. exact Hy.
      * exists (n + span a + 1). split.
        -- right. split; [reflexivity|]. left. auto.
        -- right. lia.
  - split; [eexists; f_equal; lia|].
    intros x [<-|[]]. exists (n + span a + 1). split.
    + right. split; [reflexivity|]. right. auto.
    + right. lia.
  - split; [eexists; f_equal; lia|].
    intros x [<-|[]]. exists (n + span a + 1). split.
    + right. split; [reflexivity|]. right. auto.
    + right. lia.
Qed.

(** The trap of an expression that hangs starts in the start state of
    the fragment, and each of its states has an epsilon edge to another
    one. *)
Lemma trap_spec (r : regex) :
  hangs r = true ->
  forall n,
    (exists tl, trap_of n r = (n + span r - 2) :: tl) /\
    forall x, In x (trap_of n r) ->
      exists y, fragment_edge n r x NFA.EPSILON y /\ In y (trap_of n r).
Proof.
  induction r as [c|a IHa b IHb|a IHa b IHb|a IHa|a IHa|a IHa];
    intros Hh n; cbn [hangs] in Hh; try discriminate;
    cbn [trap_of fragment_edge]; spans.
  - destruct (hangs a) eqn:Ea.
    + destruct (IHa eq_refl n) as [(tl & Et) Hstep]. split.
      { eexists. f_equal. lia. }
      intros x [<-|Hx].
      * exists (n + span a - 2). split.
        -- right. right. split; [reflexivity|]. right. right. auto.
        -- right. rewrite Et. left. reflexivity.
      * destruct (Hstep x Hx) as (y & He & Hy). exists y. split.
        -- left. exact He.
        -- right. exact Hy.
    + cbn [orb] in Hh.
      destruct (IHb Hh (n + span a)) as [(tl & Et) Hstep]. split.
      { eexists. f_equal. lia. }
      intros x [<-|Hx].
      * exists (n + span a + span b - 2). split.
        -- right. right. split; [reflexivity|]. right. right. auto.
        -- right. rewrite Et. left. reflexivity.
      * destruct (Hstep x Hx) as (y & He & Hy). exists y. split.
        -- right. left. exact He.
        -- right. exact Hy.
  - destruct (hangs a) eqn:Ea.
    + destruct (IHa eq_refl n) as [(tl & Et) Hstep]. split.
      { eexists. f_equal. lia. }
      intros x [<-|Hx].
      * exists (n + span a - 2). split.
        -- right. right. split; [reflexivity|]. right. right. auto.
        -- right. rewrite Et. left. reflexivity.
      * destruct (Hstep x Hx) as (y & He & Hy). exists y. split.
        -- left. exact He.
        -- right. exact Hy.
    + cbn [orb] in Hh. apply andb_prop in Hh. destruct Hh as [Hna Hhb].
      destruct (route_spec a Hna n) as [(tla & Eta) Hstepa].
      destruct (IHb Hhb (n + span a)) as [(tlb & Etb) Hstepb]. split.
      { eexists. f_equal. lia. }
      intros x [<-|Hx].
      * exists (n + span a - 2). split.
        -- right. right. split; [reflexivity|]. right. right. auto.
        -- right. rewrite Eta. left. reflexivity.
      * apply in_app_or in Hx. destruct Hx as [Hx|[<-|Hx]].
        -- destruct (Hstepa x Hx) as (y & He & Hy). exists y. split.
           ++ left. exact He.
           ++ right. apply in_or_app.
              destruct Hy as [Hy| ->];
                [left; exact Hy|right; left; reflexivity].
        -- exists (n + span a + span b - 2). split.
           ++ right. right. split; [reflexivity|]. left. auto.
           ++ right. apply in_or_app. right. right. rewrite Etb.
              left. reflexivity.
        -- destruct (Hstepb x Hx) as (y & He & Hy). exists y. split.
           ++ right. left. exact He.
           ++ right. apply in_or_app. right. right. exact Hy.
  - destruct (nullable a) eqn:Ea.
    + destruct (route_spec a Ea n) as [(tl & Et) Hstep]. split.
      { eexists. f_equal. lia. }
      intros x [<-|Hx].
      * exists (n + span a - 2). split.
        -- right. split; [reflexivity|]. right. auto.
        -- right. rewrite Et. left. reflexivity.
      * apply in_snoc in Hx. destruct Hx as [Hx| ->].
        -- destruct (Hstep x Hx) as (y & He & Hy). exists y. split.
           ++ left. exact He.
           ++ right. apply in_snoc. exact Hy.
        -- exists (n + span a - 2). split.
           ++ right. split; [reflexivity|]. left. auto.
           ++ right. rewrite Et. left. reflexivity.
    + cbn [orb] in Hh.
      destruct (IHa Hh n) as [(tl & Et) Hstep]. split.
      { eexists. f_equal. lia. }
      intros x [<-|Hx].
      * exists (n + span a - 2). split.
        -- right. split; [reflexivity|]. right. auto.
        -- right. rewrite Et. left. reflexivity.
      * destruct (Hstep x Hx) as (y & He & Hy). exists y. split.
        -- left. exact He.
        -- right. exact Hy.
  - destruct (nullable a) eqn:Ea.
    + destruct (route_spec a Ea n) as [(tl & Et) Hstep]. split.
      { eexists. f_equal. lia. }
      intros x [<-|Hx].
      * exists (n + span a - 2). split.
        -- right. split; [reflexivity|]. right. auto.
        -- right. rewrite Et. left. reflexivity.
      * apply in_snoc in Hx. destruct Hx as [Hx| ->].
        -- destruct (Hstep x Hx) as (y & He & Hy). exists y. split.
           ++ left. exact He.
           ++ right. apply in_snoc. exact Hy.
        -- exists (n + span a). split.
           ++ right. split; [reflexivity|]. left. auto.
           ++ left. reflexivity.
    + cbn [orb] in Hh.
      destruct (IHa Hh n) as [(tl & Et) Hstep]. split.
      { eexists. f_equal. lia. }
      intros x [<-|Hx].
      * exists (n + span a - 2). split.
        -- right. split; [reflexivity|]. right. auto.
        -- right. rewrite Et. left. reflexivity.
      * destruct (Hstep x Hx) as (y & He & Hy). exists y. split.
        -- left. exact He.
        -- right. exact Hy.
  - destruct (IHa Hh n) as [(tl & Et) Hstep]. split.
    { eexists. f_equal. lia. }
    intros x [<-|Hx].
    + exists (n + span a - 2). split.
      * right. split; [reflexivity|]. right. auto.
      * right. rewrite Et. left. reflexivity.
    + destruct (Hstep x Hx) as (y & He & Hy). exists y. split.
      * left. exact He.
      * right. exact Hy.
Qed.

Lemma shape_assembled (flags' : Z) (r : regex) :
  shape (assembled flags' r) = assembled flags' r.
Proof.
  assert (Hplain : forall st,
             In st (NFA.states (assembled flags' r)) ->
             NFA.mkState 0 (NFA.flags st) (NFA.transitions st) = st).
  { intros st Hst.
    assert (H0 : NFA.last_exec st = 0).
    { unfold assembled, link_state in Hst.
      destruct (Z.land flags' BEGIN_ANCHORED =? 0),
        (Z.land flags' END_ANCHORED =? 0); cbn [NFA.states] in Hst;
        repeat (apply in_app_or in Hst; destruct Hst as [Hst|Hst]);
        try (apply thompson_plain in Hst; destruct Hst as [_ Hst];
             exact Hst);
        destruct Hst as [<-|[]]; reflexivity. }
    destruct st as [le fl ts]. cbn in *. subst le. reflexivity. }
  unfold shape, NFAEngine.clear_stamps.
  rewrite (map_ext_in _ (fun st => st)) by exact Hplain.
  rewrite map_id. destruct (assembled flags' r). reflexivity.
Qed.

Lemma edge_epsilon_futures (m : NFA.t) (s s' : Z) :
  edge m s NFA.EPSILON s' -> In s' (epsilon_futures m s).
Proof.
  unfold edge, epsilon_futures. intros (t & -> & H). exact H.
Qed.

(** The trap of the machine of an expression that hangs. *)
Lemma machine_trap_spec (flags' : Z) (r : regex) :
  hangs r = true ->
  In (NFA.start_state (assembled flags' r)) (machine_trap flags' r) /\
  epsilon_trap (assembled flags' r) (machine_trap flags' r) = true.
Proof.
  intro Hh. destruct (trap_spec r Hh 0) as [(tl & Et) Hstep].
  pose proof (span_positive r) as Hk.
  assert (Hstart : In (span r - 2) (machine_trap flags' r)).
  { unfold machine_trap. apply in_or_app. right. rewrite Et.
    left. lia. }
  split.
  - unfold assembled, machine_trap, begins.
    destruct (Z.land flags' BEGIN_ANCHORED =? 0) eqn:Hb;
      cbn [negb NFA.start_state app].
    + left. reflexivity.
    + rewrite Et. left. lia.
  - unfold epsilon_trap. apply forallb_forall. intros x Hx.
    apply existsb_exists.
    assert (Hy : exists y, edge (assembled flags' r) x NFA.EPSILON y /\
                           In y (machine_trap flags' r)).
    { unfold machine_trap in Hx. apply in_app_or in Hx.
      destruct Hx as [Hx|Hx].
      - destruct (begins flags') eqn:Hb; [destruct Hx|].
        destruct Hx as [<-|[]]. exists (span r - 2). split; [|exact Hstart].
        apply assembled_edge. right. right. auto.
      - destruct (Hstep x Hx) as (y & He & Hy). exists y. split.
        + apply assembled_edge. left. exact He.
        + unfold machine_trap. apply in_or_app. right. exact Hy. }
    destruct Hy as (y & He & Hy). exists y.
    split; [apply edge_epsilon_futures; exact He|].
    apply existsb_exists. exists y. split; [exact Hy|apply Z.eqb_refl].
Qed.

(** The machine of an expression that hangs never returns. *)
Lemma hangs_diverges (flags' : Z) (r : regex) (text : Subject) :
  hangs r = true -> diverges (assembled flags' r) text.
Proof.
  intro Hh. destruct (machine_trap_spec flags' r Hh) as [Hs Ht].
  apply (epsilon_trap_diverges _ (machine_trap flags' r));
    rewrite ?shape_assembled.
  - apply assembled_closed.
  - exact Ht.
  - exact Hs.
Qed.

(* ================================================================= *)
(** ** The whole pipeline on a C string *)

Lemma no_epsilon_upto (text : Subject) (n : nat) :
  (forall j, (j < n)%nat -> text j <> NFA.EPSILON) ->
  ~ In NFA.EPSILON (prefix text n).
Proof.
  intros H Hin. unfold prefix in Hin. apply in_map_iff in Hin.
  destruct Hin as (j & E & Hj). apply in_seq in Hj. apply (H j); [lia|exact E].
Qed.

(** Under a begin anchor, no path reads on after the character that
    follows a NUL. *)
Lemma accepts_before_nul (flags' : Z) (r : regex) (text : Subject)
    (L n : nat) :
  atoms_ok r = true -> begins flags' = true -> text L = 0 ->
  accepts (assembled flags' r) text n -> (n <= S L)%nat.
Proof.
  intros Hok Hb Hz (s & Hp & _).
  destruct (le_lt_dec n (S L)) as [H|H]; [exact H|]. exfalso.
  destruct (path_arrives _ text _ _ Hp n eq_refl (S (S L))) as (s' & Hs');
    [lia|].
  exact (anchored_dead _ _ _ _ Hok Hb Hz _ Hs').
Qed.

(** Under the begin anchor [matches] decides. *)
Lemma anchored_decides (flags' : Z) (r : regex) (text : Subject)
    (L fuel : nat) :
  atoms_ok r = true -> guarded r = true -> begins flags' = true ->
  text L = 0 ->
  (forall j, (j < L)%nat -> text j <> -1) ->
  Z.of_nat (closure_bound flags' r) + Z.of_nat L + 4 <= 4294967296 ->
  (closure_bound flags' r + L + 4 <= fuel)%nat ->
  exists verdict,
    matches fuel (assembled flags' r) text = Ok verdict /\
    (verdict = true <-> exists m, found true (ends flags') r text 0 m).
Proof.
  intros Hok Hg Hbeg Hz Hw Hsmall Hfuel.
  destruct (guarded_returns flags' r text (S (S L)) Hok Hg) as (b & Hb).
  - left. apply anchored_dead; assumption.
  - lia.
  - exists b. split.
    + apply (matches_more_fuel (closure_bound flags' r + S (S L) + 2));
        [lia|exact Hb].
    + destruct (matches_Ok _ _ _ _ Hb) as (e' & He).
      apply (execute_explored _ _ _ _ _) in He; [|lia].
      split.
      * intros ->. destruct He as (n & _ & Ha & _).
        pose proof (accepts_before_nul _ _ _ _ _ Hok Hbeg Hz Ha) as Hn.
        apply (accepts_found _ _ _ _ Hok) in Ha.
        -- destruct Ha as (i & m & _ & Hf). rewrite Hbeg in Hf.
           pose proof Hf as (_ & -> & _). exists m. exact Hf.
        -- apply no_epsilon_upto. intros j Hj.
           destruct (Nat.eq_dec j L) as [->|Hne].
           ++ rewrite Hz. discriminate.
           ++ apply Hw. lia.
      * intros (m & Hf). destruct b; [reflexivity|]. exfalso.
        rewrite <- Hbeg in Hf. exact (He _ (found_accepts _ _ _ _ _ Hf)).
Qed.

Lemma c_string_at (s : list Z) (beyond : nat -> Z) (j : nat) :
  (j < length s)%nat -> c_string s beyond j = nth j s 0.
Proof.
  intro H. unfold c_string.
  destruct (nth_error s j) as [c|] eqn:E.
  - symmetry. apply nth_error_nth. exact E.
  - apply nth_error_None in E. lia.
Qed.

Lemma c_string_nul (s : list Z) (beyond : nat -> Z) :
  c_string s beyond (length s) = 0.
Proof.
  unfold c_string.
  destruct (nth_error s (length s)) as [c|] eqn:E.
  - assert (nth_error s (length s) <> None) by congruence.
    apply nth_error_Some in H. lia.
  - rewrite Nat.eqb_refl. reflexivity.
Qed.

Lemma prefix_c_string (s : list Z) (beyond : nat -> Z) (m : nat) :
  (m <= length s)%nat -> prefix (c_string s beyond) m = firstn m s.
Proof.
  revert s. induction m as [|m IH]; intros s H; [reflexivity|].
  rewrite prefix_S, IH by lia.
  rewrite c_string_at by lia.
  clear IH. revert s H. induction m as [|m IH]; intros s H.
  - destruct s as [|c s]; [simpl in H; lia|reflexivity].
  - destruct s as [|c s]; [simpl in H; lia|].
    cbn [firstn nth app]. f_equal. apply IH. simpl in H. lia.
Qed.

Lemma lang_chars (r : regex) (w : list Z) :
  atoms_ok r = true -> lang r w ->
  Forall (fun c => is_unit_char c = true) w.
Proof.
  intros Hok H. induction H; cbn [atoms_ok] in Hok;
    try (apply andb_prop in Hok; destruct Hok as [Hoka Hokb]);
    try (apply Forall_app; split); auto.
Qed.

(** A match of a begin-anchored pattern in a C string without an inner
    NUL. *)
Lemma found_c_string (e : bool) (r : regex) (s : list Z)
    (beyond : nat -> Z) (m : nat) :
  atoms_ok r = true ->
  Forall (fun c => c <> 0) s ->
  (found true e r (c_string s beyond) 0 m <->
   (m <= length s)%nat /\ lang r (firstn m s) /\
   (e = true -> m = length s)).
Proof.
  intros Hok Hs. unfold found, slice. rewrite Nat.sub_0_r.
  fold (prefix (c_string s beyond) m). split.
  - intros (_ & _ & Hl & He).
    assert (Hm : (m <= length s)%nat).
    { destruct (le_lt_dec m (length s)) as [H|H]; [exact H|]. exfalso.
      pose proof (lang_chars _ _ Hok Hl) as Hall.
      rewrite Forall_forall in Hall.
      assert (Hin : In 0 (prefix (c_string s beyond) m)).
      { unfold prefix. apply in_map_iff. exists (length s).
        split; [apply c_string_nul|apply in_seq; lia]. }
      apply Hall in Hin. apply is_unit_char_range in Hin. lia. }
    split; [exact Hm|]. rewrite prefix_c_string in Hl by exact Hm.
    split; [exact Hl|]. intros ->.
    destruct (Nat.eq_dec m (length s)) as [E|E]; [exact E|]. exfalso.
    rewrite c_string_at in He by lia.
    rewrite Forall_forall in Hs. apply (Hs (nth m s 0)); [|exact He].
    apply nth_In. lia.
  - intros (Hm & Hl & He). split; [lia|]. split; [reflexivity|].
    rewrite prefix_c_string by exact Hm. split; [exact Hl|].
    destruct e; [|exact I]. rewrite (He eq_refl). apply c_string_nul.
Qed.

(** The pipeline on the text of a guarded expression under a [^], and
    on a C string. *)
Lemma pipeline_decides (r : regex) (e : bool) (junk s : list Z)
    (beyond : nat -> Z) (fuel : nat) :
  atoms_ok r = true -> guarded r = true ->
  Forall (fun c => c <> 0 /\ c <> -1) s ->
  Z.of_nat (closure_bound (anchor_flags true e) r) + Z.of_nat (length s) + 4
  <= 4294967296 ->
  (closure_bound (anchor_flags true e) r + length s + 4 <= fuel)%nat ->
  exists nfa verdict,
    compiles_to (pattern_of true r e junk) nfa /\
    matches fuel nfa (c_string s beyond) = Ok verdict /\
    (verdict = true <->
     exists m, (m <= length s)%nat /\ lang r (firstn m s) /\
               (e = true -> m = length s)).
Proof.
  intros Hok Hg Hs Hsmall Hfuel.
  assert (Hsize : span r + 2 < 4294967296).
  { unfold closure_bound in Hsmall.
    pose proof (assembled_length (anchor_flags true e) r) as Hl.
    pose proof (span_positive r) as Hk.
    set (n := length (NFA.states (assembled (anchor_flags true e) r))) in *.
    set (cap := list_max _) in Hsmall.
    assert (Hcap : (1 <= cap)%nat).
    { unfold cap. destruct n as [|k].
      - exfalso.
        destruct (Z.land (anchor_flags true e) BEGIN_ANCHORED =? 0); lia.
      - cbn [seq map].
        pose proof (machine_pot_positive (anchor_flags true e) r
                      (Z.of_nat 0)) as Hp.
        cbn [list_max fold_right]. lia. }
    assert (Hn : (n <= n * cap)%nat) by nia.
    destruct (Z.land (anchor_flags true e) BEGIN_ANCHORED =? 0); lia. }
  exists (assembled (anchor_flags true e) r).
  destruct (anchored_decides (anchor_flags true e) r (c_string s beyond)
              (length s) fuel Hok Hg)
    as (verdict & Hm & Hv).
  - apply begins_anchor_flags.
  - apply c_string_nul.
  - intros j Hj. rewrite c_string_at by exact Hj.
    rewrite Forall_forall in Hs. apply (Hs (nth j s 0)). apply nth_In. exact Hj.
  - exact Hsmall.
  - exact Hfuel.
  - exists verdict. split; [apply pattern_compiles; assumption|].
    split; [exact Hm|]. rewrite Hv. rewrite ends_anchor_flags.
    split; intros (m & H); exists m;
      (apply (found_c_string e r s beyond m Hok); [|exact H]);
      rewrite Forall_forall in *; intros c Hc; apply (Hs c Hc).
Qed.

(* ================================================================= *)
(** ** Further properties of the program *)

(** X1.  [build_parse_tree] returns on every pattern, and leaves at most
    two nodes for every character of the pattern; so for a pattern
    shorter than 2^31 characters no node index overflows its
    [uint32_t], and every operand index is smaller than the index of its
    node. *)
Theorem arena_bounded_by_pattern (text : list Z) :
  exists ok tree,
    parse_pattern text = Ok (ok, tree) /\
    (length (nodes tree) <= 2 * length text)%nat /\
    (Z.of_nat (length text) < 2147483648 -> children_precede (nodes tree)).
Proof.
  destruct (parse_pattern_total text) as (ok & tree & H).
  exists ok, tree. split; [exact H|].
  destruct (parse_pattern_accounted _ _ _ H) as (Hs & _).
  split; [exact Hs|]. intro Hb.
  eapply parse_pattern_children_precede; [exact H|lia].
Qed.

(** X2.  Every atom that the parser stores is a letter, a digit or an
    underscore: never the NUL, on which the end anchor is matched, and
    never -1, the symbol of the empty transition. *)
Theorem atoms_are_word_characters (text : list Z) (ok : bool)
    (tree : ParseTree) (i c : Z) :
  parse_pattern text = Ok (ok, tree) ->
  index (nodes tree) i = Some (ATOM c) ->
  is_unit_char c = true /\ 48 <= c <= 122 /\ c <> 0 /\ c <> NFA.EPSILON.
Proof.
  intros H Hi. destruct (parse_pattern_accounted _ _ _ H) as (_ & Ha & _).
  rewrite forallb_forall in Ha. apply index_In in Hi.
  pose proof (Ha _ Hi) as Hc. simpl in Hc.
  pose proof (is_unit_char_range c Hc). unfold NFA.EPSILON.
  split; [exact Hc|]. lia.
Qed.

Lemma atoms_are_word_characters_witness :
  parse_pattern (chars "a_")
  = Ok (true, mkParseTree 0 [ATOM 97; ATOM 95; CONCATENATION 0 1]) /\
  index [ATOM 97; ATOM 95; CONCATENATION 0 1] 1 = Some (ATOM 95) /\
  is_unit_char 95 = true /\ 48 <= 95 <= 122 /\ 95 <> 0 /\ 95 <> NFA.EPSILON.
Proof.
  assert (H : parse_pattern (chars "a_")
              = Ok (true, mkParseTree 0 [ATOM 97; ATOM 95; CONCATENATION 0 1]))
    by (vm_compute; reflexivity).
  assert (Hi : index [ATOM 97; ATOM 95; CONCATENATION 0 1] 1 = Some (ATOM 95))
    by reflexivity.
  split; [exact H|]. split; [exact Hi|].
  exact (atoms_are_word_characters _ _ _ 1 95 H Hi).
Defined.

(** X3.  The flags of the tree are made of the two anchors only.  The
    begin anchor is set exactly when the pattern starts with a [^]; the
    end anchor is set only when the parser reports success and the
    pattern holds a [$]. *)
Theorem anchors_set_flags (text : list Z) (ok : bool) (tree : ParseTree) :
  parse_pattern text = Ok (ok, tree) ->
  exists b e : bool,
    flags tree = anchor_flags b e /\
    (b = true <-> hd 0 text = CARET) /\
    (e = true -> ok = true /\ In DOLLAR text).
Proof.
  intro H. destruct (parse_pattern_accounted _ _ _ H) as (_ & _ & Hf).
  exact Hf.
Qed.

Lemma anchors_set_flags_witness :
  parse_pattern (chars "^a$") = Ok (true, mkParseTree 3 [ATOM 97]) /\
  exists b e : bool,
    3 = anchor_flags b e /\
    (b = true <-> hd 0 (chars "^a$") = CARET) /\
    (e = true -> true = true /\ In DOLLAR (chars "^a$")).
Proof.
  assert (H : parse_pattern (chars "^a$") = Ok (true, mkParseTree 3 [ATOM 97]))
    by (vm_compute; reflexivity).
  split; [exact H|].
  exact (anchors_set_flags _ _ _ H).
Defined.

(** X4.  The parser is complete on the pattern syntax, and respects the
    binding of the operators.  The text of an expression, written with a
    quantifier binding tighter than a concatenation, a concatenation
    tighter than an alternation, both binary operators to the left, and
    parentheses only where an operand binds weaker than its place, is
    parsed with success to exactly the nodes of the expression: the
    operands before their node, the left operand before the right one.
    A [^] before the text and a [$] after it set the two anchors;
    whatever follows the [$] is not read. *)
Theorem expression_text_parses (r : regex) (b e : bool) (junk : list Z) :
  atoms_ok r = true ->
  parse_pattern (pattern_of b r e junk)
  = Ok (true, mkParseTree (anchor_flags b e) (layout 0 r)).
Proof.
  apply parse_pattern_render.
Qed.

Lemma expression_text_parses_witness :
  atoms_ok (RCat (RAtom 97) (RStar (RAlt (RAtom 98) (RPlus (RAtom 99)))))
  = true /\
  pattern_of true (RCat (RAtom 97) (RStar (RAlt (RAtom 98) (RPlus (RAtom 99)))))
             true (chars "|")
  = chars "^a(b|c+)*$|" /\
  parse_pattern (chars "^a(b|c+)*$|")
  = Ok (true, mkParseTree 3
                [ATOM 97; ATOM 98; ATOM 99; REPETITION 2; ALTERNATION 1 3;
                 OPTIONAL_REPETITION 4; CONCATENATION 0 5]).
Proof.
  split; [reflexivity|]. split; [reflexivity|].
  exact (expression_text_parses
           (RCat (RAtom 97) (RStar (RAlt (RAtom 98) (RPlus (RAtom 99)))))
           true true (chars "|") eq_refl).
Defined.

(** X5.  On the text of an expression the arena is a tree under its last
    node: it has one node for every operator and atom, it reads back as
    the expression from the last node down, and every node descends from
    the last one. *)
Theorem expression_arena_is_a_tree (r : regex) (b e : bool)
    (junk : list Z) :
  atoms_ok r = true ->
  Z.of_nat (regex_size r) <= 4294967296 ->
  exists tree,
    parse_pattern (pattern_of b r e junk) = Ok (true, tree) /\
    length (nodes tree) = regex_size r /\
    tree_at (nodes tree) (Z.of_nat (length (nodes tree)) - 1) r /\
    last_is_root (nodes tree).
Proof.
  intros Hok Hb. eexists. split; [apply parse_pattern_render; exact Hok|].
  cbn [nodes]. destruct (layout_rooted r Hb) as (Hl & Ht & Hr).
  split; [exact Hl|]. split; [rewrite Hl; exact Ht|exact Hr].
Qed.

Lemma expression_arena_is_a_tree_witness :
  atoms_ok (RAlt (RAtom 97) (RAtom 98)) = true /\
  Z.of_nat (regex_size (RAlt (RAtom 97) (RAtom 98))) <= 4294967296 /\
  exists tree,
    parse_pattern (pattern_of false (RAlt (RAtom 97) (RAtom 98)) false [])
    = Ok (true, tree) /\
    length (nodes tree) = regex_size (RAlt (RAtom 97) (RAtom 98)) /\
    tree_at (nodes tree) (Z.of_nat (length (nodes tree)) - 1)
            (RAlt (RAtom 97) (RAtom 98)) /\
    last_is_root (nodes tree).
Proof.
  assert (Hb : Z.of_nat (regex_size (RAlt (RAtom 97) (RAtom 98)))
               <= 4294967296) by (simpl; lia).
  split; [reflexivity|]. split; [exact Hb|].
  exact (expression_arena_is_a_tree (RAlt (RAtom 97) (RAtom 98))
           false false [] eq_refl Hb).
Defined.

(** X6.  Whatever [build_parse_tree] reports, and whatever it has left
    behind of a group that was not closed, the last node of a non-empty
    arena is the root of a well-formed expression: every operand index
    met from there down is the index of a node, no path from it comes
    back to a node, and the expression has no more nodes than the arena.
    So [emit_node], which starts at the last node, stays inside the
    arena and returns. *)
Theorem last_node_roots_a_tree (text : list Z) (ok : bool)
    (tree : ParseTree) :
  parse_pattern text = Ok (ok, tree) ->
  nodes tree <> [] ->
  Z.of_nat (length (nodes tree)) < 4294967296 ->
  exists r,
    tree_at (nodes tree) (Z.of_nat (length (nodes tree)) - 1) r /\
    (regex_size r <= length (nodes tree))%nat /\
    atoms_ok r = true.
Proof.
  apply parse_pattern_rooted.
Qed.

Lemma last_node_roots_a_tree_witness :
  parse_pattern (chars "a(b") = Ok (true, mkParseTree 0 [ATOM 97; ATOM 98]) /\
  [ATOM 97; ATOM 98] <> [] /\
  Z.of_nat (length [ATOM 97; ATOM 98]) < 4294967296 /\
  exists r,
    tree_at [ATOM 97; ATOM 98] (Z.of_nat (length [ATOM 97; ATOM 98]) - 1) r /\
    (regex_size r <= length [ATOM 97; ATOM 98])%nat /\
    atoms_ok r = true.
Proof.
  assert (H : parse_pattern (chars "a(b")
              = Ok (true, mkParseTree 0 [ATOM 97; ATOM 98]))
    by (vm_compute; reflexivity).
  assert (Hne : [ATOM 97; ATOM 98] <> []) by discriminate.
  assert (Hb : Z.of_nat (length [ATOM 97; ATOM 98]) < 4294967296)
    by (simpl; lia).
  split; [exact H|]. split; [exact Hne|]. split; [exact Hb|].
  exact (last_node_roots_a_tree _ _ _ H Hne Hb).
Defined.

(** X7.  [get(symbol)] followed by [push_back(dest)], then
    [find(symbol)]: the transition found is on [symbol] and holds the
    destinations that were there, in their order, and [dest] after them;
    [find] on any other symbol gives what it gave before; and a state
    that has no two transitions on one symbol still has none. *)
Theorem get_then_find (symbol dest : Z) (ts : list NFA.Transition) :
  NFA.find symbol (NFA.get_push_back symbol dest ts)
  = Some (NFA.mkTransition symbol
            (match NFA.find symbol ts with
             | Some t => NFA.futures t ++ [dest]
             | None => [dest]
             end)) /\
  (forall other, other <> symbol ->
     NFA.find other (NFA.get_push_back symbol dest ts) = NFA.find other ts) /\
  (NoDup (map NFA.symbol ts) ->
   NoDup (map NFA.symbol (NFA.get_push_back symbol dest ts))).
Proof.
  split; [apply find_get_push_back|].
  split; [intros other H; apply find_get_push_back_other; exact H|].
  apply get_push_back_symbols.
Qed.

(** X8.  [emit_node] is Thompson's construction.  On a node from which
    the arena reads as the expression [r], with a budget that covers the
    nesting of [r] and a machine that stays below 2^32 states, it
    appends two states for every node of [r] and nothing else: the
    states there were and the stack below are as they were, and the pair
    pushed is the last two states, the start state before the accept
    state.  The appended states are those of [thompson]: an atom's start
    state goes to its accept state on the atom; every other edge is an
    epsilon edge, from the start state of an operator to the start
    states of what it may try first, and from the accept state of an
    operand to what may follow it. *)
Theorem emit_node_appends_fragment (nodes : list Node) (i : Z)
    (r : regex) (fuel : nat) (c : NFACompiler.t) :
  tree_at nodes i r ->
  (regex_height r <= fuel)%nat ->
  states_count c + span r < 4294967296 ->
  NFACompiler.emit_node fuel nodes i c = Ok (emitted c r).
Proof.
  apply emit_node_tree.
Qed.

Lemma emit_node_appends_fragment_witness :
  tree_at star_a_nodes 1 (RStar (RAtom 97)) /\
  (regex_height (RStar (RAtom 97)) <= 2)%nat /\
  states_count empty_compiler + span (RStar (RAtom 97)) < 4294967296 /\
  NFACompiler.emit_node 2 star_a_nodes 1 empty_compiler
  = Ok (emitted empty_compiler (RStar (RAtom 97))).
Proof.
  assert (Ht : tree_at star_a_nodes 1 (RStar (RAtom 97))).
  { eapply tree_optional_repetition; [reflexivity|].
    apply tree_atom. reflexivity. }
  assert (Hf : (regex_height (RStar (RAtom 97)) <= 2)%nat) by (simpl; lia).
  assert (Hb : states_count empty_compiler + span (RStar (RAtom 97))
               < 4294967296) by (vm_compute; reflexivity).
  split; [exact Ht|]. split; [exact Hf|]. split; [exact Hb|].
  exact (emit_node_appends_fragment _ _ _ _ _ Ht Hf Hb).
Defined.

(** X9.  A pattern shorter than 2^30 characters whose arena is not
    empty is compiled without a fault, whatever the parser has reported:
    [compile_tree] returns the machine of the expression that the arena
    holds under its last node.  That machine is the fragment of the
    expression from state 0 on; its accept state goes to the accepting
    state by an epsilon edge, or on the NUL when the end anchor is set;
    unless the begin anchor is set, the start state is a scan state with
    an edge to itself on each of the symbols 0 to 255 and an epsilon
    edge to the start of the fragment; the accepting state is the last
    state. *)
Theorem parsed_arena_compiles (text : list Z) (ok : bool)
    (tree : ParseTree) :
  parse_pattern text = Ok (ok, tree) ->
  nodes tree <> [] ->
  Z.of_nat (length text) < 1073741824 ->
  exists r,
    tree_at (nodes tree) (Z.of_nat (length (nodes tree)) - 1) r /\
    atoms_ok r = true /\
    NFACompiler.compile tree = Ok (assembled (flags tree) r).
Proof.
  apply compile_parsed.
Qed.

Lemma parsed_arena_compiles_witness :
  parse_pattern (chars "a|b")
  = Ok (true, mkParseTree 0 [ATOM 97; ATOM 98; ALTERNATION 0 1]) /\
  [ATOM 97; ATOM 98; ALTERNATION 0 1] <> [] /\
  Z.of_nat (length (chars "a|b")) < 1073741824 /\
  exists r,
    tree_at [ATOM 97; ATOM 98; ALTERNATION 0 1]
            (Z.of_nat (length [ATOM 97; ATOM 98; ALTERNATION 0 1]) - 1) r /\
    atoms_ok r = true /\
    NFACompiler.compile (mkParseTree 0 [ATOM 97; ATOM 98; ALTERNATION 0 1])
    = Ok (assembled 0 r).
Proof.
  assert (H : parse_pattern (chars "a|b")
              = Ok (true, mkParseTree 0 [ATOM 97; ATOM 98; ALTERNATION 0 1]))
    by (vm_compute; reflexivity).
  assert (Hne : [ATOM 97; ATOM 98; ALTERNATION 0 1] <> []) by discriminate.
  assert (Hb : Z.of_nat (length (chars "a|b")) < 1073741824)
    by (vm_compute; reflexivity).
  split; [exact H|]. split; [exact Hne|]. split; [exact Hb|].
  exact (parsed_arena_compiles _ _ _ H Hne Hb).
Defined.

(** X10.  The machine of a successfully parsed pattern shorter than 2^30
    characters is well formed: every destination of every transition and
    the start state are states of the machine; the last state is the
    only accepting one, and it has no transition. *)
Theorem compiled_machine_well_formed (pattern : list Z) (nfa : NFA.t) :
  Z.of_nat (length pattern) < 1073741824 ->
  compiles_to pattern nfa ->
  closed nfa = true /\
  0 <= NFA.start_state nfa < Z.of_nat (length (NFA.states nfa)) /\
  forall s st,
    index (NFA.states nfa) s = Some st ->
    (Z.land (NFA.flags st) NFA.ACCEPTING <> 0
     <-> s = Z.of_nat (length (NFA.states nfa)) - 1) /\
    (s = Z.of_nat (length (NFA.states nfa)) - 1 ->
     NFA.transitions st = []).
Proof.
  intros Hlen Hc.
  destruct (compiles_to_assembled _ _ Hlen Hc) as (f & r & _ & ->).
  split; [apply assembled_closed|]. split; [apply assembled_start|].
  intros s st Hi. destruct (assembled_accepting f r s st Hi) as [H1 H2].
  split; [exact H1|]. intro E. rewrite (H2 E). reflexivity.
Qed.

Lemma compiled_machine_well_formed_witness :
  Z.of_nat (length (chars "a|b")) < 1073741824 /\
  compiles_to (chars "a|b") nfa_a_or_b /\
  closed nfa_a_or_b = true /\
  0 <= NFA.start_state nfa_a_or_b
    < Z.of_nat (length (NFA.states nfa_a_or_b)) /\
  forall s st,
    index (NFA.states nfa_a_or_b) s = Some st ->
    (Z.land (NFA.flags st) NFA.ACCEPTING <> 0
     <-> s = Z.of_nat (length (NFA.states nfa_a_or_b)) - 1) /\
    (s = Z.of_nat (length (NFA.states nfa_a_or_b)) - 1 ->
     NFA.transitions st = []).
Proof.
  assert (Hb : Z.of_nat (length (chars "a|b")) < 1073741824)
    by (vm_compute; reflexivity).
  assert (Hc : compiles_to (chars "a|b") nfa_a_or_b) by compiled.
  split; [exact Hb|]. split; [exact Hc|].
  exact (compiled_machine_well_formed _ _ Hb Hc).
Defined.

(** X11.  [execute] explores every path of the machine it is given,
    compiled or not.  A path starts in the start state; it follows the
    edge that [find(-1)] gives without reading, and the edge that [find]
    gives on the character at the pointer by reading that character (on
    a character -1 that is the epsilon edge again).  When [execute]
    returns within 2^32 steps, it returns [true] exactly when some path
    that reads the first characters of the subject ends in an accepting
    state: it has then stopped one character after the shortest such
    prefix.  It returns [false] only when no prefix of the subject,
    however long, is read by such a path. *)
Theorem execute_follows_every_path (nfa : NFA.t) (text : Subject)
    (fuel : nat) (verdict : bool) (e' : NFAEngine.t) :
  Z.of_nat fuel <= 4294967296 ->
  NFAEngine.execute fuel (NFAEngine.attach nfa) text = Ok (verdict, e') ->
  if verdict then
    exists n, S n = NFAEngine.ptr e' /\ accepts nfa text n /\
              forall n', (n' < n)%nat -> ~ accepts nfa text n'
  else forall n, ~ accepts nfa text n.
Proof.
  apply execute_explored.
Qed.

Lemma execute_follows_every_path_witness :
  Z.of_nat 10 <= 4294967296 /\
  NFAEngine.execute 10 (NFAEngine.attach nfa_anchored_a)
    (c_string (chars "a") zeros) = Ok (true, engine_after_a) /\
  exists n, S n = NFAEngine.ptr engine_after_a /\
            accepts nfa_anchored_a (c_string (chars "a") zeros) n /\
            forall n', (n' < n)%nat ->
                       ~ accepts nfa_anchored_a (c_string (chars "a") zeros) n'.
Proof.
  assert (Hb : Z.of_nat 10 <= 4294967296) by (simpl; lia).
  assert (H : NFAEngine.execute 10 (NFAEngine.attach nfa_anchored_a)
                (c_string (chars "a") zeros) = Ok (true, engine_after_a))
    by (vm_compute; reflexivity).
  split; [exact Hb|]. split; [exact H|].
  exact (execute_follows_every_path _ _ _ _ _ Hb H).
Defined.

(** X12.  On the machine of a successfully parsed pattern shorter than
    2^30 characters the engine never indexes [machine->states] out of
    range, whatever the subject holds and however long it runs: every
    state it puts into a frontier is a state of the machine. *)
Theorem engine_stays_in_range (pattern : list Z) (nfa : NFA.t)
    (text : Subject) (fuel : nat) :
  Z.of_nat (length pattern) < 1073741824 ->
  compiles_to pattern nfa ->
  matches fuel nfa text <> Fault.
Proof.
  intros Hlen Hc.
  destruct (compiles_to_assembled _ _ Hlen Hc) as (f & r & _ & ->).
  apply matches_safe; [apply assembled_closed|apply assembled_start].
Qed.

Lemma engine_stays_in_range_witness :
  Z.of_nat (length (chars "a|b")) < 1073741824 /\
  compiles_to (chars "a|b") nfa_a_or_b /\
  matches 10 nfa_a_or_b (c_string (chars "cb") zeros) <> Fault.
Proof.
  assert (Hb : Z.of_nat (length (chars "a|b")) < 1073741824)
    by (vm_compute; reflexivity).
  assert (Hc : compiles_to (chars "a|b") nfa_a_or_b) by compiled.
  split; [exact Hb|]. split; [exact Hc|].
  exact (engine_stays_in_range _ _ _ 10%nat Hb Hc).
Defined.

(** X13.  The machine that [compile_tree] makes accepts the language of
    the expression.  Let the arena of a parsed pattern read as the
    expression [r] from its last node, and let the first [n] characters
    of the subject hold no character -1.  Then the machine has a path
    from its start state to its accepting state that reads these [n]
    characters exactly when they end a match: some characters from an
    offset [i] on are a word of [r] (an atom stands for its character,
    an alternation for either operand, a concatenation for one after the
    other, [+] for one or more, [*] for none or more, [?] for none or
    one); with the begin anchor [i] is 0, and without it the characters
    before [i] are symbols from 0 to 255; with the end anchor the [n]
    characters are the word and the NUL after it, and without it they
    end with the word. *)
Theorem machine_accepts_language (pattern : list Z) (ok : bool)
    (tree : ParseTree) (r : regex) (nfa : NFA.t) (text : Subject)
    (n : nat) :
  Z.of_nat (length pattern) < 1073741824 ->
  parse_pattern pattern = Ok (ok, tree) ->
  tree_at (nodes tree) (Z.of_nat (length (nodes tree)) - 1) r ->
  NFACompiler.compile tree = Ok nfa ->
  ~ In (-1) (prefix text n) ->
  (accepts nfa text n <->
   exists i m,
     n = read_to (ends (flags tree)) m /\
     found (begins (flags tree)) (ends (flags tree)) r text i m).
Proof.
  intros Hlen Hp Ht Hc Hw.
  destruct (compile_reads _ _ _ _ _ Hlen Hp Ht Hc) as [Hok ->].
  apply accepts_found; assumption.
Qed.

Lemma machine_accepts_language_witness :
  Z.of_nat (length (chars "^a+$")) < 1073741824 /\
  parse_pattern (chars "^a+$")
  = Ok (true, mkParseTree 3 [ATOM 97; REPETITION 0]) /\
  tree_at [ATOM 97; REPETITION 0] 1 (RPlus (RAtom 97)) /\
  NFACompiler.compile (mkParseTree 3 [ATOM 97; REPETITION 0])
  = Ok (assembled 3 (RPlus (RAtom 97))) /\
  ~ In (-1) (prefix (c_string (chars "aa") zeros) 3) /\
  (accepts (assembled 3 (RPlus (RAtom 97))) (c_string (chars "aa") zeros) 3
   <-> exists i m,
         3%nat = read_to true m /\
         found true true (RPlus (RAtom 97)) (c_string (chars "aa") zeros)
               i m).
Proof.
  assert (Hb : Z.of_nat (length (chars "^a+$")) < 1073741824)
    by (vm_compute; reflexivity).
  assert (Hp : parse_pattern (chars "^a+$")
               = Ok (true, mkParseTree 3 [ATOM 97; REPETITION 0]))
    by (vm_compute; reflexivity).
  assert (Ht : tree_at [ATOM 97; REPETITION 0] 1 (RPlus (RAtom 97))).
  { eapply tree_repetition; [reflexivity|]. apply tree_atom. reflexivity. }
  assert (Hc : NFACompiler.compile (mkParseTree 3 [ATOM 97; REPETITION 0])
               = Ok (assembled 3 (RPlus (RAtom 97))))
    by (vm_compute; reflexivity).
  assert (Hw : ~ In (-1) (prefix (c_string (chars "aa") zeros) 3)).
  { vm_compute. intros [H|[H|[H|[]]]]; discriminate. }
  split; [exact Hb|]. split; [exact Hp|]. split; [exact Ht|].
  split; [exact Hc|]. split; [exact Hw|].
  exact (machine_accepts_language _ _ _ _ _ _ _ Hb Hp Ht Hc Hw).
Defined.

(** X14.  What [matches] answers on a compiled pattern.  Let the arena
    of a parsed pattern read as the expression [r] from its last node,
    and let the subject hold no character -1.  When [matches] returns
    within 2^32 steps, it returns [true] exactly when the subject has a
    match: characters from an offset [i] to an offset [m] that are a
    word of [r], at the start of the subject under the begin anchor and
    after symbols from 0 to 255 otherwise, and followed by the NUL under
    the end anchor.  The match it has found is one that ends earliest.
    It returns [false] only when the subject has no match at all. *)
Theorem matches_finds_earliest_match (pattern : list Z) (ok : bool)
    (tree : ParseTree) (r : regex) (nfa : NFA.t) (text : Subject)
    (fuel : nat) (verdict : bool) :
  Z.of_nat (length pattern) < 1073741824 ->
  parse_pattern pattern = Ok (ok, tree) ->
  tree_at (nodes tree) (Z.of_nat (length (nodes tree)) - 1) r ->
  NFACompiler.compile tree = Ok nfa ->
  (forall j, text j <> -1) ->
  Z.of_nat fuel <= 4294967296 ->
  matches fuel nfa text = Ok verdict ->
  if verdict then
    exists i m,
      found (begins (flags tree)) (ends (flags tree)) r text i m /\
      forall i' m',
        found (begins (flags tree)) (ends (flags tree)) r text i' m' ->
        (m <= m')%nat
  else
    forall i m, ~ found (begins (flags tree)) (ends (flags tree)) r text i m.
Proof.
  intros Hlen Hp Ht Hc Hw Hb Hm.
  destruct (compile_reads _ _ _ _ _ Hlen Hp Ht Hc) as [Hok ->].
  destruct (matches_Ok _ _ _ _ Hm) as (e' & He).
  pose proof (execute_explored _ _ _ _ _ Hb He) as H.
  assert (Hacc : forall i m,
             found (begins (flags tree)) (ends (flags tree)) r text i m ->
             accepts (assembled (flags tree) r) text
                     (read_to (ends (flags tree)) m)).
  { intros i m Hf.
    apply (accepts_found _ _ _ _ Hok (no_epsilon_prefix _ _ Hw)).
    exists i, m. auto. }
  destruct verdict.
  - destruct H as (n & _ & Ha & Hmin).
    apply (accepts_found _ _ _ _ Hok (no_epsilon_prefix _ _ Hw)) in Ha.
    destruct Ha as (i & m & -> & Hf). exists i, m. split; [exact Hf|].
    intros i' m' Hf'.
    destruct (le_lt_dec m m') as [Hle|Hlt]; [exact Hle|].
    exfalso. apply (Hmin (read_to (ends (flags tree)) m')).
    + unfold read_to. destruct (ends (flags tree)); lia.
    + exact (Hacc i' m' Hf').
  - intros i m Hf. exact (H _ (Hacc i m Hf)).
Qed.

Lemma matches_finds_earliest_match_witness :
  Z.of_nat (length (chars "^a+$")) < 1073741824 /\
  parse_pattern (chars "^a+$")
  = Ok (true, mkParseTree 3 [ATOM 97; REPETITION 0]) /\
  tree_at [ATOM 97; REPETITION 0] 1 (RPlus (RAtom 97)) /\
  NFACompiler.compile (mkParseTree 3 [ATOM 97; REPETITION 0])
  = Ok (assembled 3 (RPlus (RAtom 97))) /\
  (forall j, c_string (chars "aa") zeros j <> -1) /\
  Z.of_nat 10 <= 4294967296 /\
  matches 10 (assembled 3 (RPlus (RAtom 97))) (c_string (chars "aa") zeros)
  = Ok true /\
  exists i m,
    found true true (RPlus (RAtom 97)) (c_string (chars "aa") zeros) i m /\
    forall i' m',
      found true true (RPlus (RAtom 97)) (c_string (chars "aa") zeros)
            i' m' ->
      (m <= m')%nat.
Proof.
  assert (Hb : Z.of_nat (length (chars "^a+$")) < 1073741824)
    by (vm_compute; reflexivity).
  assert (Hp : parse_pattern (chars "^a+$")
               = Ok (true, mkParseTree 3 [ATOM 97; REPETITION 0]))
    by (vm_compute; reflexivity).
  assert (Ht : tree_at [ATOM 97; REPETITION 0] 1 (RPlus (RAtom 97))).
  { eapply tree_repetition; [reflexivity|]. apply tree_atom. reflexivity. }
  assert (Hc : NFACompiler.compile (mkParseTree 3 [ATOM 97; REPETITION 0])
               = Ok (assembled 3 (RPlus (RAtom 97))))
    by (vm_compute; reflexivity).
  assert (Hw : forall j, c_string (chars "aa") zeros j <> -1).
  { intros [|[|[|j]]]; cbn; discriminate. }
  assert (Hf : Z.of_nat 10 <= 4294967296) by (simpl; lia).
  assert (Hm : matches 10 (assembled 3 (RPlus (RAtom 97)))
                 (c_string (chars "aa") zeros) = Ok true)
    by (vm_compute; reflexivity).
  split; [exact Hb|]. split; [exact Hp|]. split; [exact Ht|].
  split; [exact Hc|]. split; [exact Hw|]. split; [exact Hf|].
  split; [exact Hm|].
  exact (matches_finds_earliest_match _ _ _ _ _ _ _ _ Hb Hp Ht Hc Hw Hf Hm).
Defined.

(** X15.  A pattern without the begin anchor never answers [false] on a
    subject whose characters are all symbols from 0 to 255: the scan
    state passes every such character, the NUL that ends the string
    included, so the engine reads on behind the string until it finds a
    match, and does not return when there is none. *)
Theorem unanchored_never_rejects (pattern : list Z) (ok : bool)
    (tree : ParseTree) (nfa : NFA.t) (text : Subject) (fuel : nat) :
  Z.of_nat (length pattern) < 1073741824 ->
  parse_pattern pattern = Ok (ok, tree) ->
  NFACompiler.compile tree = Ok nfa ->
  Z.land (flags tree) BEGIN_ANCHORED = 0 ->
  (forall j, 0 <= text j < 256) ->
  Z.of_nat fuel <= 4294967296 ->
  matches fuel nfa text <> Ok false.
Proof.
  intros Hlen Hp Hc Hflag Hw Hb Hm.
  destruct (nodes tree) as [|x l] eqn:E.
  { rewrite (compile_empty tree E) in Hc. discriminate. }
  destruct (compile_parsed _ _ _ Hp) as (r & _ & _ & Hc');
    [rewrite E; discriminate|exact Hlen|].
  assert (Hnfa : nfa = assembled (flags tree) r) by congruence.
  subst nfa. destruct (matches_Ok _ _ _ _ Hm) as (e' & He).
  apply (execute_false_dead _ _ _ _ Hb He (span r)).
  apply scan_arrives.
  - unfold begins. rewrite Hflag. reflexivity.
  - intros j _. apply Hw.
Qed.

Lemma unanchored_never_rejects_witness :
  Z.of_nat (length (chars "a")) < 1073741824 /\
  parse_pattern (chars "a") = Ok (true, mkParseTree 0 [ATOM 97]) /\
  NFACompiler.compile (mkParseTree 0 [ATOM 97])
  = Ok (assembled 0 (RAtom 97)) /\
  Z.land 0 BEGIN_ANCHORED = 0 /\
  (forall j, 0 <= c_string (chars "b") zeros j < 256) /\
  Z.of_nat 10 <= 4294967296 /\
  matches 10 (assembled 0 (RAtom 97)) (c_string (chars "b") zeros)
  <> Ok false.
Proof.
  assert (Hb : Z.of_nat (length (chars "a")) < 1073741824)
    by (vm_compute; reflexivity).
  assert (Hp : parse_pattern (chars "a") = Ok (true, mkParseTree 0 [ATOM 97]))
    by (vm_compute; reflexivity).
  assert (Hc : NFACompiler.compile (mkParseTree 0 [ATOM 97])
               = Ok (assembled 0 (RAtom 97)))
    by (vm_compute; reflexivity).
  assert (Hz : Z.land 0 BEGIN_ANCHORED = 0) by reflexivity.
  assert (Hw : forall j, 0 <= c_string (chars "b") zeros j < 256).
  { intros [|[|j]]; cbn; unfold zeros; lia. }
  assert (Hf : Z.of_nat 10 <= 4294967296) by (simpl; lia).
  split; [exact Hb|]. split; [exact Hp|]. split; [exact Hc|].
  split; [exact Hz|]. split; [exact Hw|]. split; [exact Hf|].
  exact (unanchored_never_rejects _ _ _ _ _ _ Hb Hp Hc Hz Hw Hf).
Defined.

(** X16.  [matches] finds the match that is there.  An expression is
    guarded when no operand of a [+] or of a [*] has the empty word.
    Let the arena of a parsed pattern read as a guarded expression [r]
    from its last node, and let the subject have a match that ends at
    offset [m].  Then [matches] returns [true], provided the closure
    loop of [step] stays below 2^32 entries: a budget of
    [closure_bound] rounds for the closure loop of one step and of
    [m + 5] more for the loop of [execute] is enough for it to return,
    and so is every larger one. *)
Theorem matches_returns_true_on_match (pattern : list Z) (ok : bool)
    (tree : ParseTree) (r : regex) (nfa : NFA.t) (text : Subject)
    (i m fuel : nat) :
  Z.of_nat (length pattern) < 1073741824 ->
  parse_pattern pattern = Ok (ok, tree) ->
  tree_at (nodes tree) (Z.of_nat (length (nodes tree)) - 1) r ->
  NFACompiler.compile tree = Ok nfa ->
  guarded r = true ->
  found (begins (flags tree)) (ends (flags tree)) r text i m ->
  Z.of_nat (closure_bound (flags tree) r) + Z.of_nat m + 5 <= 4294967296 ->
  (closure_bound (flags tree) r + m + 5 <= fuel)%nat ->
  matches fuel nfa text = Ok true.
Proof.
  intros Hlen Hp Ht Hc Hg Hf Hsmall Hfuel.
  destruct (compile_reads _ _ _ _ _ Hlen Hp Ht Hc) as [Hok ->].
  pose proof (found_accepts _ _ _ _ _ Hf) as Ha.
  set (n := read_to (ends (flags tree)) m) in *.
  assert (Hn : (n <= S m)%nat)
    by (unfold n, read_to; destruct (ends (flags tree)); lia).
  destruct (guarded_returns (flags tree) r text (S n) Hok Hg) as (b & Hb).
  - right. exists n. auto.
  - lia.
  - apply (matches_more_fuel (closure_bound (flags tree) r + S n + 2));
      [lia|].
    destruct b; [exact Hb|]. exfalso.
    destruct (matches_Ok _ _ _ _ Hb) as (e' & He).
    apply (execute_explored _ _ _ _ _) in He; [|lia].
    exact (He n Ha).
Qed.

Lemma matches_returns_true_on_match_witness :
  Z.of_nat (length (chars "a+")) < 1073741824 /\
  parse_pattern (chars "a+")
  = Ok (true, mkParseTree 0 [ATOM 97; REPETITION 0]) /\
  tree_at [ATOM 97; REPETITION 0] 1 (RPlus (RAtom 97)) /\
  NFACompiler.compile (mkParseTree 0 [ATOM 97; REPETITION 0])
  = Ok (assembled 0 (RPlus (RAtom 97))) /\
  guarded (RPlus (RAtom 97)) = true /\
  found false false (RPlus (RAtom 97)) (c_string (chars "ba") zeros) 1 2 /\
  Z.of_nat (closure_bound 0 (RPlus (RAtom 97))) + Z.of_nat 2 + 5
  <= 4294967296 /\
  (closure_bound 0 (RPlus (RAtom 97)) + 2 + 5 <= 100)%nat /\
  matches 100 (assembled 0 (RPlus (RAtom 97))) (c_string (chars "ba") zeros)
  = Ok true.
Proof.
  assert (Hb : Z.of_nat (length (chars "a+")) < 1073741824)
    by (vm_compute; reflexivity).
  assert (Hp : parse_pattern (chars "a+")
               = Ok (true, mkParseTree 0 [ATOM 97; REPETITION 0]))
    by (vm_compute; reflexivity).
  assert (Ht : tree_at [ATOM 97; REPETITION 0] 1 (RPlus (RAtom 97))).
  { eapply tree_repetition; [reflexivity|]. apply tree_atom. reflexivity. }
  assert (Hc : NFACompiler.compile (mkParseTree 0 [ATOM 97; REPETITION 0])
               = Ok (assembled 0 (RPlus (RAtom 97))))
    by (vm_compute; reflexivity).
  assert (Hg : guarded (RPlus (RAtom 97)) = true) by reflexivity.
  assert (Hf : found false false (RPlus (RAtom 97))
                 (c_string (chars "ba") zeros) 1 2).
  { split; [lia|]. split.
    - intros [|j] Hj; [unfold scanned; cbn; lia|lia].
    - split; [|exact I]. apply lang_plus_once. apply lang_atom. }
  assert (Hs : Z.of_nat (closure_bound 0 (RPlus (RAtom 97))) + Z.of_nat 2 + 5
               <= 4294967296) by (vm_compute; discriminate).
  assert (Hfuel : (closure_bound 0 (RPlus (RAtom 97)) + 2 + 5 <= 100)%nat)
    by (vm_compute; lia).
  split; [exact Hb|]. split; [exact Hp|]. split; [exact Ht|].
  split; [exact Hc|]. split; [exact Hg|]. split; [exact Hf|].
  split; [exact Hs|]. split; [exact Hfuel|].
  exact (matches_returns_true_on_match _ _ _ _ _ _ _ _ _
           Hb Hp Ht Hc Hg Hf Hs Hfuel).
Defined.

(** X17.  Under the begin anchor [matches] decides.  Let the arena of
    a parsed pattern with a [^] read as a guarded expression [r] from
    its last node, and let the subject hold a NUL at offset [L] and no
    character -1 before it.  Then [matches] returns, provided the
    closure loop of [step] stays below 2^32 entries: a budget of
    [closure_bound] rounds for the closure loop of one step and of
    [L + 4] more for the loop of [execute] is enough, and so is every
    larger one.  It returns [true] exactly when some first characters
    of the subject are a word of [r], followed by the NUL when the
    pattern has the end anchor. *)
Theorem anchored_matches_decides (pattern : list Z) (ok : bool)
    (tree : ParseTree) (r : regex) (nfa : NFA.t) (text : Subject)
    (L fuel : nat) :
  Z.of_nat (length pattern) < 1073741824 ->
  parse_pattern pattern = Ok (ok, tree) ->
  tree_at (nodes tree) (Z.of_nat (length (nodes tree)) - 1) r ->
  NFACompiler.compile tree = Ok nfa ->
  guarded r = true ->
  Z.land (flags tree) BEGIN_ANCHORED <> 0 ->
  text L = 0 ->
  (forall j, (j < L)%nat -> text j <> -1) ->
  Z.of_nat (closure_bound (flags tree) r) + Z.of_nat L + 4 <= 4294967296 ->
  (closure_bound (flags tree) r + L + 4 <= fuel)%nat ->
  exists verdict,
    matches fuel nfa text = Ok verdict /\
    (verdict = true <->
     exists m, found true (ends (flags tree)) r text 0 m).
Proof.
  intros Hlen Hp Ht Hc Hg Hflag Hz Hw Hsmall Hfuel.
  destruct (compile_reads _ _ _ _ _ Hlen Hp Ht Hc) as [Hok ->].
  apply (anchored_decides _ _ _ L); try assumption.
  unfold begins.
  destruct (Z.eqb_spec (Z.land (flags tree) BEGIN_ANCHORED) 0);
    [contradiction|reflexivity].
Qed.

Lemma anchored_matches_decides_witness :
  Z.of_nat (length (chars "^a+$")) < 1073741824 /\
  parse_pattern (chars "^a+$")
  = Ok (true, mkParseTree 3 [ATOM 97; REPETITION 0]) /\
  tree_at [ATOM 97; REPETITION 0] 1 (RPlus (RAtom 97)) /\
  NFACompiler.compile (mkParseTree 3 [ATOM 97; REPETITION 0])
  = Ok (assembled 3 (RPlus (RAtom 97))) /\
  guarded (RPlus (RAtom 97)) = true /\
  Z.land 3 BEGIN_ANCHORED <> 0 /\
  c_string (chars "ab") zeros 2%nat = 0 /\
  (forall j, (j < 2)%nat -> c_string (chars "ab") zeros j <> -1) /\
  Z.of_nat (closure_bound 3 (RPlus (RAtom 97))) + Z.of_nat 2 + 4
  <= 4294967296 /\
  (closure_bound 3 (RPlus (RAtom 97)) + 2 + 4 <= 100)%nat /\
  exists verdict,
    matches 100 (assembled 3 (RPlus (RAtom 97))) (c_string (chars "ab") zeros)
    = Ok verdict /\
    (verdict = true <->
     exists m, found true (ends 3) (RPlus (RAtom 97))
                     (c_string (chars "ab") zeros) 0 m).
Proof.
  assert (Hb : Z.of_nat (length (chars "^a+$")) < 1073741824)
    by (vm_compute; reflexivity).
  assert (Hp : parse_pattern (chars "^a+$")
               = Ok (true, mkParseTree 3 [ATOM 97; REPETITION 0]))
    by (vm_compute; reflexivity).
  assert (Ht : tree_at [ATOM 97; REPETITION 0] 1 (RPlus (RAtom 97))).
  { eapply tree_repetition; [reflexivity|]. apply tree_atom. reflexivity. }
  assert (Hc : NFACompiler.compile (mkParseTree 3 [ATOM 97; REPETITION 0])
               = Ok (assembled 3 (RPlus (RAtom 97))))
    by (vm_compute; reflexivity).
  assert (Hg : guarded (RPlus (RAtom 97)) = true) by reflexivity.
  assert (Ha : Z.land 3 BEGIN_ANCHORED <> 0) by (vm_compute; discriminate).
  assert (Hz : c_string (chars "ab") zeros 2%nat = 0) by reflexivity.
  assert (Hw : forall j, (j < 2)%nat -> c_string (chars "ab") zeros j <> -1).
  { intros [|[|j]] Hj; [cbn; discriminate|cbn; discriminate|lia]. }
  assert (Hs : Z.of_nat (closure_bound 3 (RPlus (RAtom 97))) + Z.of_nat 2 + 4
               <= 4294967296) by (vm_compute; discriminate).
  assert (Hfuel : (closure_bound 3 (RPlus (RAtom 97)) + 2 + 4 <= 100)%nat)
    by (vm_compute; lia).
  split; [exact Hb|]. split; [exact Hp|]. split; [exact Ht|].
  split; [exact Hc|]. split; [exact Hg|]. split; [exact Ha|].
  split; [exact Hz|]. split; [exact Hw|]. split; [exact Hs|].
  split; [exact Hfuel|].
  exact (anchored_matches_decides _ _ _ _ _ _ _ _
           Hb Hp Ht Hc Hg Ha Hz Hw Hs Hfuel).
Defined.

(** X18.  [matches] hangs on a pattern with an epsilon cycle next to
    its start.  An expression hangs when an epsilon path from the start
    state of its fragment leads into a [+] or a [*] whose operand has
    the empty word: through the operands of alternations, of [?], of
    [+] and [*], through the left operand of a concatenation, and
    through the right one when the left one has the empty word.  When
    the arena of a parsed pattern reads as such an expression from its
    last node, the closure loop of the first [step] appends states for
    ever, whatever the anchors and the subject: no budget is enough for
    [matches] to return. *)
Theorem matches_hangs_on_epsilon_cycle (pattern : list Z) (ok : bool)
    (tree : ParseTree) (r : regex) (nfa : NFA.t) (text : Subject)
    (fuel : nat) :
  Z.of_nat (length pattern) < 1073741824 ->
  parse_pattern pattern = Ok (ok, tree) ->
  tree_at (nodes tree) (Z.of_nat (length (nodes tree)) - 1) r ->
  NFACompiler.compile tree = Ok nfa ->
  hangs r = true ->
  matches fuel nfa text = OutOfFuel.
Proof.
  intros Hlen Hp Ht Hc Hh.
  destruct (compile_reads _ _ _ _ _ Hlen Hp Ht Hc) as [_ ->].
  apply hangs_diverges. exact Hh.
Qed.

Lemma matches_hangs_on_epsilon_cycle_witness :
  Z.of_nat (length (chars "^a?(b?)+c$")) < 1073741824 /\
  parse_pattern (chars "^a?(b?)+c$")
  = Ok (true, mkParseTree 3
                [ATOM 97; OPTIONAL 0; ATOM 98; OPTIONAL 2; REPETITION 3;
                 CONCATENATION 1 4; ATOM 99; CONCATENATION 5 6]) /\
  tree_at [ATOM 97; OPTIONAL 0; ATOM 98; OPTIONAL 2; REPETITION 3;
           CONCATENATION 1 4; ATOM 99; CONCATENATION 5 6] 7
          (RCat (RCat (ROpt (RAtom 97)) (RPlus (ROpt (RAtom 98))))
                (RAtom 99)) /\
  NFACompiler.compile
    (mkParseTree 3
       [ATOM 97; OPTIONAL 0; ATOM 98; OPTIONAL 2; REPETITION 3;
        CONCATENATION 1 4; ATOM 99; CONCATENATION 5 6])
  = Ok (assembled 3 (RCat (RCat (ROpt (RAtom 97))
                                (RPlus (ROpt (RAtom 98))))
                          (RAtom 99))) /\
  hangs (RCat (RCat (ROpt (RAtom 97)) (RPlus (ROpt (RAtom 98))))
              (RAtom 99)) = true /\
  matches 1000
    (assembled 3 (RCat (RCat (ROpt (RAtom 97)) (RPlus (ROpt (RAtom 98))))
                       (RAtom 99)))
    (c_string (chars "abc") zeros)
  = OutOfFuel.
Proof.
  assert (Hb : Z.of_nat (length (chars "^a?(b?)+c$")) < 1073741824)
    by (vm_compute; reflexivity).
  assert (Hp : parse_pattern (chars "^a?(b?)+c$")
               = Ok (true, mkParseTree 3
                       [ATOM 97; OPTIONAL 0; ATOM 98; OPTIONAL 2;
                        REPETITION 3; CONCATENATION 1 4; ATOM 99;
                        CONCATENATION 5 6]))
    by (vm_compute; reflexivity).
  assert (Ht : tree_at [ATOM 97; OPTIONAL 0; ATOM 98; OPTIONAL 2;
                        REPETITION 3; CONCATENATION 1 4; ATOM 99;
                        CONCATENATION 5 6] 7
                 (RCat (RCat (ROpt (RAtom 97)) (RPlus (ROpt (RAtom 98))))
                       (RAtom 99))).
  { eapply tree_concatenation; [reflexivity| |apply tree_atom; reflexivity].
    eapply tree_concatenation; [reflexivity| |].
    - eapply tree_optional; [reflexivity|]. apply tree_atom. reflexivity.
    - eapply tree_repetition; [reflexivity|].
      eapply tree_optional; [reflexivity|]. apply tree_atom. reflexivity. }
  assert (Hc : NFACompiler.compile
                 (mkParseTree 3
                    [ATOM 97; OPTIONAL 0; ATOM 98; OPTIONAL 2; REPETITION 3;
                     CONCATENATION 1 4; ATOM 99; CONCATENATION 5 6])
               = Ok (assembled 3 (RCat (RCat (ROpt (RAtom 97))
                                             (RPlus (ROpt (RAtom 98))))
                                       (RAtom 99))))
    by (vm_compute; reflexivity).
  assert (Hh : hangs (RCat (RCat (ROpt (RAtom 97))
                                 (RPlus (ROpt (RAtom 98))))
                           (RAtom 99)) = true) by reflexivity.
  split; [exact Hb|]. split; [exact Hp|]. split; [exact Ht|].
  split; [exact Hc|]. split; [exact Hh|].
  exact (matches_hangs_on_epsilon_cycle _ _ _ _ _ _ 1000%nat
           Hb Hp Ht Hc Hh).
Defined.

(** X19.  The whole pipeline on a C string.  Take the text of a guarded
    expression [r], written as the parser wants it, with a [^] before
    it, and with or without a [$] after it.  [build_parse_tree] accepts
    it and [compile_tree] makes its machine; and on a C string [s]
    without a character -1, whatever lies behind its NUL, [matches]
    returns, provided the closure loop of [step] stays below 2^32
    entries.  It returns [true] exactly when [s] is a word of [r], with
    the [$]; without it, exactly when some first characters of [s] are
    a word of [r]. *)
Theorem anchored_pattern_decides_c_string (r : regex) (e : bool)
    (junk s : list Z) (beyond : nat -> Z) (fuel : nat) :
  atoms_ok r = true ->
  guarded r = true ->
  Forall (fun c => c <> 0 /\ c <> -1) s ->
  Z.of_nat (closure_bound (anchor_flags true e) r) + Z.of_nat (length s) + 4
  <= 4294967296 ->
  (closure_bound (anchor_flags true e) r + length s + 4 <= fuel)%nat ->
  exists nfa verdict,
    compiles_to (pattern_of true r e junk) nfa /\
    matches fuel nfa (c_string s beyond) = Ok verdict /\
    (verdict = true <->
     exists m, (m <= length s)%nat /\ lang r (firstn m s) /\
               (e = true -> m = length s)).
Proof.
  apply pipeline_decides.
Qed.

Lemma anchored_pattern_decides_c_string_witness :
  atoms_ok (RCat (RAtom 97) (RStar (RAlt (RAtom 98) (RAtom 99)))) = true /\
  guarded (RCat (RAtom 97) (RStar (RAlt (RAtom 98) (RAtom 99)))) = true /\
  Forall (fun c => c <> 0 /\ c <> -1) (chars "abcb") /\
  Z.of_nat (closure_bound (anchor_flags true true)
              (RCat (RAtom 97) (RStar (RAlt (RAtom 98) (RAtom 99)))))
  + Z.of_nat (length (chars "abcb")) + 4 <= 4294967296 /\
  (closure_bound (anchor_flags true true)
     (RCat (RAtom 97) (RStar (RAlt (RAtom 98) (RAtom 99))))
   + length (chars "abcb") + 4 <= 1000)%nat /\
  pattern_of true (RCat (RAtom 97) (RStar (RAlt (RAtom 98) (RAtom 99))))
             true []
  = chars "^a(b|c)*$" /\
  exists nfa verdict,
    compiles_to (chars "^a(b|c)*$") nfa /\
    matches 1000 nfa (c_string (chars "abcb") zeros) = Ok verdict /\
    (verdict = true <->
     exists m, (m <= length (chars "abcb"))%nat /\
               lang (RCat (RAtom 97) (RStar (RAlt (RAtom 98) (RAtom 99))))
                    (firstn m (chars "abcb")) /\
               (true = true -> m = length (chars "abcb"))).
Proof.
  assert (Hok : atoms_ok (RCat (RAtom 97)
                            (RStar (RAlt (RAtom 98) (RAtom 99)))) = true)
    by reflexivity.
  assert (Hg : guarded (RCat (RAtom 97)
                          (RStar (RAlt (RAtom 98) (RAtom 99)))) = true)
    by reflexivity.
  assert (Hs : Forall (fun c => c <> 0 /\ c <> -1) (chars "abcb")).
  { cbn. repeat (constructor; [lia|]). constructor. }
  assert (Hb : Z.of_nat (closure_bound (anchor_flags true true)
                           (RCat (RAtom 97)
                              (RStar (RAlt (RAtom 98) (RAtom 99)))))
               + Z.of_nat (length (chars "abcb")) + 4 <= 4294967296)
    by (vm_compute; discriminate).
  assert (Hf : (closure_bound (anchor_flags true true)
                  (RCat (RAtom 97) (RStar (RAlt (RAtom 98) (RAtom 99))))
                + length (chars "abcb") + 4 <= 1000)%nat)
    by (vm_compute; lia).
  split; [exact Hok|]. split; [exact Hg|]. split; [exact Hs|].
  split; [exact Hb|]. split; [exact Hf|]. split; [reflexivity|].
  exact (anchored_pattern_decides_c_string _ true [] _ zeros _
           Hok Hg Hs Hb Hf).
Defined.
